(** * Outlier-detection engine of deviant-data (src/index.js)

    A shallow embedding of the statistics calculator [getStats], the seven
    detection functions, the method catalog [methods] and the orchestrator
    [runAllAnalyses], then of what surrounds them: the parser [parseData],
    the outlier markers of [renderPlot], the report table and accordion of
    [renderResults], and the session of handlers over the module state.
    The properties stated about them follow.

    JavaScript numbers are IEEE 754 binary64 values; they are embedded as
    Rocq's primitive [float], whose operations are the same binary64
    operations with round-to-nearest-even, so the embedding evaluates to
    the very numbers the script computes. *)

From Stdlib Require Import String Ascii DecimalString DecimalZ.
From Stdlib Require Import ZArith List Bool Lia Floats.
From Stdlib Require Uint63.
From Stdlib Require Reals Lra.
From Stdlib Require Import Permutation Sorted.
Import ListNotations.

Set Warnings "-inexact-float".

(** ** JavaScript numbers *)

Module Js.

Definition number := float.
Bind Scope float_scope with number.

(** An array length (an integer below 2^32) read as a number. *)
Definition of_nat (n : nat) : number :=
  PrimFloat.of_uint63 (Uint63.of_Z (Z.of_nat n)).

(** [a < b], [a > b] and [a === b] on numbers. *)
Definition lt (a b : number) : bool := PrimFloat.ltb a b.
Definition gt (a b : number) : bool := PrimFloat.ltb b a.
Definition strict_eq (a b : number) : bool := PrimFloat.eqb a b.

(** [Math.pow(x, 2)]: the square of [x], rounded once. *)
Definition pow2 (x : number) : number := PrimFloat.mul x x.

(** [Math.floor] of a number, as the integer it denotes.  A number that
    is not finite has no integer value; [0] stands for it (a loop bound
    that is NaN admits no iteration either). *)
Definition Math_floor (x : number) : Z :=
  match Prim2SF x with
  | S754_finite s m e => Z.shiftl (if s then Z.neg m else Z.pos m) e
  | _ => 0%Z
  end.

(** [xs.reduce((a, b) => a + b, 0)] *)
Definition sum (xs : list number) : number :=
  fold_left PrimFloat.add xs 0%float.

(** [xs[k]]; reading past the end gives [undefined], which every
    arithmetic operation and comparison treats as NaN. *)
Definition get (xs : list number) (k : nat) : number := nth k xs nan.

(** [[...xs].sort(cmp)]: the sort is stable, and an element moves behind
    a later one only when the comparator returns a positive number (a
    NaN result counts as [+0]).  Insertion from the right end realises
    it; with a consistent comparator, as [a - b] is on numbers other than
    NaN, every stable sort returns this same arrangement.  On an array
    holding NaN the comparator is not consistent and the arrangement is
    left to the engine: this one is then an admissible arrangement, not
    necessarily the engine's. *)
Section Sort.
Context {A : Type} (cmp : A -> A -> number).

Fixpoint insert (x : A) (l : list A) : list A :=
  match l with
  | [] => [x]
  | y :: l' => if gt (cmp x y) 0%float then y :: insert x l' else x :: l
  end.

Definition sort (l : list A) : list A := fold_right insert [] l.
End Sort.

End Js.

(** ** Statistics calculator *)

Record Statistics : Type := mkStatistics {
  q1 : float; q3 : float; iqr : float; mean : float;
  stdDev : float; median : float; mad : float
}.

(** The comparator [(a, b) => a - b]. *)
Definition numeric_order (a b : float) : float := (a - b)%float.

(** [Math.floor(n / 4)], [Math.floor(n / 2)] and [Math.floor((n * 3) / 4)]
    act on an array length: the quotients are exact in binary64, so the
    floors are the integer quotients. *)
Definition getStats (data : list float) : Statistics :=
  match data with
  | [] => mkStatistics 0 0 0 0 0 0 0
  | _ =>
    let sorted := Js.sort numeric_order data in
    let n := length sorted in
    let q1 := Js.get sorted (n / 4)%nat in
    let median := Js.get sorted (n / 2)%nat in
    let q3 := Js.get sorted ((n * 3) / 4)%nat in
    let iqr := (q3 - q1)%float in
    let mean := (Js.sum data / Js.of_nat n)%float in
    let stdDev :=
      PrimFloat.sqrt
        (Js.sum (map (fun x => Js.pow2 (x - mean)%float) data) / Js.of_nat n) in
    let residuals := map (fun x => PrimFloat.abs (x - median)%float) data in
    let sortedResiduals := Js.sort numeric_order residuals in
    let mad := Js.get sortedResiduals (length sortedResiduals / 2)%nat in
    mkStatistics q1 q3 iqr mean stdDev median mad
  end.

(** ** Detection algorithms

    A column is the array of [{ value, index }] objects the orchestrator
    builds for one dimension; a detection function returns the array of
    flagged [index] fields. *)

Record ColumnEntry : Type := mkEntry { value : float; index : Z }.

Definition Column := list ColumnEntry.

(** [columnData.map(d => d.value)] *)
Definition values_of (columnData : Column) : list float := map value columnData.

Definition findOutliersIQR (columnData : Column) : list Z :=
  let values := values_of columnData in
  let st := getStats values in
  let lowerBound := (q1 st - 1.5 * iqr st)%float in
  let upperBound := (q3 st + 1.5 * iqr st)%float in
  map index
    (filter (fun d => Js.lt (value d) lowerBound || Js.gt (value d) upperBound)
            columnData).

(** The default of [threshold] is [3.0]. *)
Definition findOutliersZScore (columnData : Column) (threshold : float) : list Z :=
  let values := values_of columnData in
  let st := getStats values in
  if Js.strict_eq (stdDev st) 0 then []
  else
    map index
      (filter (fun d =>
                 Js.gt (PrimFloat.abs ((value d - mean st) / stdDev st)) threshold)
              columnData).

(** The default of [threshold] is [3.5]. *)
Definition findOutliersModifiedZScore (columnData : Column) (threshold : float)
  : list Z :=
  let values := values_of columnData in
  let st := getStats values in
  if Js.strict_eq (mad st) 0 then []
  else
    map index
      (filter (fun d =>
                 Js.gt (PrimFloat.abs (0.6745 * (value d - median st) / mad st))
                       threshold)
              columnData).

(** The body of the [forEach] of Grubbs' test on the pair
    [(maxDev, outlierIndex)]. *)
Definition grubbs_step (mean stdDev : float) (acc : float * Z) (d : ColumnEntry)
  : float * Z :=
  let dev := (PrimFloat.abs (value d - mean) / stdDev)%float in
  if Js.gt dev (fst acc) then (dev, index d) else acc.

Definition findOutliersGrubbs (columnData : Column) : list Z :=
  let values := values_of columnData in
  if (length values <? 3)%nat then []
  else
    let st := getStats values in
    if Js.strict_eq (stdDev st) 0 then []
    else
      let '(maxDev, outlierIndex) :=
        fold_left (grubbs_step (mean st) (stdDev st)) columnData (0%float, (-1)%Z) in
      let criticalValue := 2.0%float in
      if Js.gt maxDev criticalValue then [outlierIndex] else [].

(** The state of the inner [forEach] of the ESD test:
    [maxDeviation], [potentialOutlierIndex], [dataIndexToRemove]. *)
Record EsdScan : Type := mkScan {
  maxDeviation : float; potentialOutlierIndex : Z; dataIndexToRemove : Z
}.

Definition esd_scan_step (mean stdDev : float) (acc : EsdScan)
  (d_idx : ColumnEntry * Z) : EsdScan :=
  let '(d, idx) := d_idx in
  let R := (PrimFloat.abs (value d - mean) / stdDev)%float in
  if Js.gt R (maxDeviation acc) then mkScan R (index d) idx else acc.

(** The elements of an array paired with their positions. *)
Definition with_positions {A : Type} (l : list A) : list (A * Z) :=
  combine l (map Z.of_nat (seq 0 (length l))).

Definition esd_scan (mean stdDev : float) (currentData : Column) : EsdScan :=
  fold_left (esd_scan_step mean stdDev) (with_positions currentData)
            (mkScan (-1)%float (-1)%Z (-1)%Z).

(** [a.splice(k, 1)] for [0 <= k]. *)
Fixpoint splice1 {A : Type} (l : list A) (k : nat) : list A :=
  match l, k with
  | [], _ => []
  | _ :: l', O => l'
  | x :: l', S k' => x :: splice1 l' k'
  end.

(** The [for] loop of the ESD test; [rounds] counts the iterations the
    header [i < maxOutliers] still admits. *)
Fixpoint esd_loop (rounds : nat) (currentData outliers : Column) : Column :=
  match rounds with
  | O => outliers
  | S rounds' =>
    if (length currentData <? 3)%nat then outliers
    else
      let st := getStats (values_of currentData) in
      if Js.strict_eq (stdDev st) 0 then outliers
      else
        let sc := esd_scan (mean st) (stdDev st) currentData in
        let criticalValue := 2.5%float in
        if Js.gt (maxDeviation sc) criticalValue
           && negb (dataIndexToRemove sc =? -1)%Z
        then
          let k := Z.to_nat (dataIndexToRemove sc) in
          match nth_error currentData k with
          | Some o => esd_loop rounds' (splice1 currentData k) (outliers ++ [o])
          | None => outliers
          end
        else outliers
  end.

Definition findOutliersESD_with (columnData : Column) (maxOutliers : Z) : list Z :=
  if (length columnData <? 5)%nat then []
  else map index (esd_loop (Z.to_nat maxOutliers) columnData []).

(** The default argument [Math.floor(columnData.length * 0.1)]. *)
Definition esd_default_maxOutliers (columnData : Column) : Z :=
  Js.Math_floor (Js.of_nat (length columnData) * 0.1).

Definition findOutliersESD (columnData : Column) : list Z :=
  findOutliersESD_with columnData (esd_default_maxOutliers columnData).

(** The comparator [(a, b) => a.value - b.value]. *)
Definition value_order (a b : ColumnEntry) : float := (value a - value b)%float.

(** [Q_TABLE]; its integer-like keys are enumerated by [Object.keys] in
    ascending order, which is also the order they are written in. *)
Definition Q_TABLE : list (nat * float) :=
  [ (3%nat, 0.970%float); (4%nat, 0.829%float); (5%nat, 0.710%float);
    (6%nat, 0.625%float); (7%nat, 0.568%float); (8%nat, 0.526%float);
    (9%nat, 0.493%float); (10%nat, 0.466%float); (15%nat, 0.338%float);
    (20%nat, 0.298%float); (30%nat, 0.239%float) ].

(** [table[key]]; a missing key gives [undefined], NaN in a comparison. *)
Definition table_get (table : list (nat * float)) (key : nat) : float :=
  match find (fun kv => (fst kv =? key)%nat) table with
  | Some kv => snd kv
  | None => nan
  end.

(** [Object.keys(Q_TABLE).reverse().find(key => n >= parseInt(key)) || 3] *)
Definition dixon_bracket (n : nat) : nat :=
  match find (fun key => (key <=? n)%nat) (rev (map fst Q_TABLE)) with
  | Some key => key
  | None => 3%nat
  end.

(** What [sortedData[k]] stands for past the end of the array; the guards
    of [findOutliersDixonQ] keep every read within it
    (see [dixon_reads_in_range]). *)
Definition no_entry : ColumnEntry := mkEntry nan (-1).

Definition findOutliersDixonQ (columnData : Column) : list Z :=
  let n := length columnData in
  if ((n <? 3) || (30 <? n))%nat then []
  else
    let sortedData := Js.sort value_order columnData in
    let qCrit := table_get Q_TABLE (dixon_bracket n) in
    let at_ k := nth k sortedData no_entry in
    let range := (value (at_ (n - 1)%nat) - value (at_ 0%nat))%float in
    if Js.strict_eq range 0 then []
    else
      let qLow := ((value (at_ 1%nat) - value (at_ 0%nat)) / range)%float in
      let qHigh :=
        ((value (at_ (n - 1)%nat) - value (at_ (n - 2)%nat)) / range)%float in
      (if Js.gt qLow qCrit then [index (at_ 0%nat)] else [])
      ++ (if Js.gt qHigh qCrit then [index (at_ (n - 1)%nat)] else []).

Definition findOutliersPeirce (columnData : Column) : list Z :=
  findOutliersModifiedZScore columnData 4.0.

(** ** Method catalog *)

Record Method : Type := mkMethod {
  name : string; fn : Column -> list Z; description : string
}.

(** [method.fn(columnData)] passes one argument, so the Z-score, modified
    Z-score and ESD entries run with their default second argument. *)
Definition methods : list Method :=
  [ mkMethod "Interquartile Range (IQR)" findOutliersIQR
      "Identifies outliers based on the spread of the middle 50% of the data.";
    mkMethod "Z-Score Method" (fun c => findOutliersZScore c 3.0)
      "Flags data points that deviate significantly from the mean (typically > 3 standard deviations).";
    mkMethod "Modified Z-Score Method" (fun c => findOutliersModifiedZScore c 3.5)
      "A robust version of Z-score using median and median absolute deviation, less sensitive to existing outliers.";
    mkMethod "Grubbs' Test" findOutliersGrubbs
      "A statistical test to detect a single outlier in a normally distributed univariate dataset. (Simplified)";
    mkMethod "Generalized ESD Test" findOutliersESD
      "An iterative test to detect multiple outliers in a normally distributed dataset. (Simplified)";
    mkMethod "Dixon's Q Test" findOutliersDixonQ
      "A test for single outliers in small datasets (n<30). (Simplified)";
    mkMethod "Peirce's Criterion" findOutliersPeirce
      "An early, rigorous method for outlier rejection. (Conceptual proxy used)" ].

(** ** Analysis orchestrator *)

Record DataPoint : Type := mkPoint { dp_index : Z; dp_values : list float }.

Record DataSet : Type := mkDataSet {
  data : list DataPoint; headers : list string; dimensions : nat
}.

(** An entry of the report; [o_value] is [dataPoint.values[i]], which is
    [undefined] ([None]) when the point has no such coordinate. *)
Record OutlierRecord : Type := mkOutlier {
  o_index : Z; o_value : option float; o_point : list float; o_columnIndex : nat
}.

Record AnalysisResult : Type := mkResult {
  methodName : string; r_description : string; outliers : list OutlierRecord
}.

(** [ds.data.map(dp => ({ value: dp.values[i], index: dp.index }))];
    every point of a well-formed data set has the coordinate [i]. *)
Definition column_of (ds : DataSet) (i : nat) : Column :=
  map (fun dp => mkEntry (Js.get (dp_values dp) i) (dp_index dp)) (data ds).

(** [new Set(xs)], iterated in insertion order: the first occurrence of
    each index, in order. *)
Definition set_add (seen : list Z) (x : Z) : list Z :=
  if existsb (Z.eqb x) seen then seen else seen ++ [x].

Definition Set_of (xs : list Z) : list Z := fold_left set_add xs [].

(** The template literal [`${dataPoint.index}-${i}`]. *)
Definition string_of_Z (z : Z) : string := NilZero.string_of_int (Z.to_int z).

Definition key_of (idx : Z) (i : nat) : string :=
  (string_of_Z idx ++ "-" ++ string_of_Z (Z.of_nat i))%string.

(** The [Map] of one method: its entries in insertion order. *)
Definition OutlierMap := list (string * OutlierRecord).

Definition Map_has (m : OutlierMap) (key : string) : bool :=
  existsb (fun kv => String.eqb (fst kv) key) m.

(** The callback of [outlierIndices.forEach] for column [i]. *)
Definition record_outlier (ds : DataSet) (i : nat) (outliers : OutlierMap)
  (idx : Z) : OutlierMap :=
  match find (fun dp => (dp_index dp =? idx)%Z) (data ds) with
  | Some dataPoint =>
    let key := key_of (dp_index dataPoint) i in
    if Map_has outliers key then outliers
    else outliers ++
         [(key, mkOutlier (dp_index dataPoint) (nth_error (dp_values dataPoint) i)
                          (dp_values dataPoint) i)]
  | None => outliers
  end.

(** One pass of the loop [for (let i = 0; i < ds.dimensions; i++)]. *)
Definition column_pass (m : Method) (ds : DataSet) (outliers : OutlierMap)
  (i : nat) : OutlierMap :=
  let columnData := column_of ds i in
  let outlierIndices := Set_of (fn m columnData) in
  fold_left (record_outlier ds i) outlierIndices outliers.

Definition run_method (ds : DataSet) (m : Method) : AnalysisResult :=
  let outliers := fold_left (column_pass m ds) (seq 0 (dimensions ds)) [] in
  mkResult (name m) (description m) (map snd outliers).

Definition runAllAnalyses (ds : DataSet) : list AnalysisResult :=
  map (run_method ds) methods.

(** ** Ingestion

    [parseData] from the rows of the first sheet on: [json] is what
    [XLSX.utils.sheet_to_json(worksheet, { header: 1 })] returns, an
    array of rows, each an array of cells.  What a cell is belongs to
    the library; the parser only applies [String] to it, and
    [parseFloat] to the string. *)

(** How the promise settles: [reject(err)] with the message of the
    error, or [resolve] with the data set. *)
Inductive ParseOutcome : Type :=
| Rejected (message : string)
| Resolved (ds : DataSet).

(** The text of [console.warn] for the data row at position [index]. *)
Definition row_warning (index : nat) : string :=
  ("Row " ++ string_of_Z (Z.of_nat index + 1)
   ++ " has mismatched number of numeric columns. Skipping.")%string.

(** The elements with their positions, as [rows.map((row, index) => ...)]
    sees them. *)
Definition positions {A : Type} (l : list A) : list (nat * A) :=
  combine (seq 0 (length l)) l.

(** [.filter(p => p !== null)] *)
Definition non_null {A : Type} (l : list (option A)) : list A :=
  flat_map (fun p => match p with Some a => [a] | None => [] end) l.

Section Parser.
Context {Cell : Type}.
Variable String_of : Cell -> string.
Variable parseFloat : string -> float.

(** [row.map(cell => parseFloat(String(cell))).filter(v => !isNaN(v))] *)
Definition numeric_cells (row : list Cell) : list float :=
  filter (fun v => negb (PrimFloat.is_nan v))
         (map (fun cell => parseFloat (String_of cell)) row).

(** The callback of [rows.map]: the warnings it writes and the point or
    [null] it returns. *)
Definition parse_row (headers : list string) (index : nat) (row : list Cell)
  : list string * option DataPoint :=
  let values := numeric_cells row in
  if negb (length values =? length headers)%nat
  then ([row_warning index], None)
  else ([], Some (mkPoint (Z.of_nat index) values)).

(** The body of [reader.onload] after [sheet_to_json]: the warnings
    written to the console, in order, and how the promise settles. *)
Definition parseData (json : list (list Cell)) : list string * ParseOutcome :=
  if (length json <? 2)%nat
  then ([], Rejected "Dataset must have a header row and at least one data row.")
  else
    let headers := map String_of (hd [] json) in
    let rows := tl json in
    let parsed :=
      map (fun ir => parse_row headers (fst ir) (snd ir)) (positions rows) in
    let dataPoints := non_null (map snd parsed) in
    (flat_map fst parsed,
     match dataPoints with
     | [] =>
       Rejected "No valid numeric data found in the file. Please ensure columns are numeric."
     | first :: _ =>
       let dimensions := length (dp_values first) in
       if (dimensions =? 0)%nat || (3 <? dimensions)%nat
       then Rejected ("Unsupported number of dimensions: "
                      ++ string_of_Z (Z.of_nat dimensions)
                      ++ ". Only 1D, 2D, and 3D data are supported.")
       else Resolved (mkDataSet dataPoints headers dimensions)
     end).

End Parser.

(** A stand-in for [parseFloat] on the strings of the examples: an
    optional minus sign and decimal digits give the integer, anything
    else gives NaN. *)
Definition parseFloat_example (s : string) : float :=
  match NilEmpty.int_of_string s with
  | Some (Decimal.Pos Decimal.Nil) | Some (Decimal.Neg Decimal.Nil) | None => nan
  | Some d =>
    let z := Z.of_int d in
    if (z <? 0)%Z then (- Js.of_nat (Z.to_nat (- z)))%float
    else Js.of_nat (Z.to_nat z)
  end.

(** A sheet with a row of too few numeric cells and a row with a cell
    too many that is not numeric. *)
Definition sheet_example : list (list string) :=
  ([["x"; "y"]; ["1"; "2"]; ["a"; "3"]; ["7"; "b"; "8"]])%string.

(** A sheet whose second header cell is empty, with two rows far from
    the others. *)
Definition sheet_report_example : list (list string) :=
  ([["x"; ""]; ["10"; "1"]; ["12"; "2"]; ["11"; "1"]; ["13"; "2"];
    ["12"; "1"]; ["100"; "50"]; ["-50"; "2"]; ["12"; "1"]])%string.

(** ** Plot markers

    The part of [renderPlot] that decides which points are outliers. *)

(** The [Map] from row index to outlier record, in insertion order. *)
Definition MarkerMap := list (Z * OutlierRecord).

Definition Marker_has (allOutliers : MarkerMap) (idx : Z) : bool :=
  existsb (fun kv => (fst kv =? idx)%Z) allOutliers.

(** The callback of [result.outliers.forEach]. *)
Definition note_outlier (allOutliers : MarkerMap) (outlier : OutlierRecord)
  : MarkerMap :=
  if Marker_has allOutliers (o_index outlier) then allOutliers
  else allOutliers ++ [(o_index outlier, outlier)].

Definition allOutliers (analysisResults : list AnalysisResult) : MarkerMap :=
  fold_left (fun acc result => fold_left note_outlier (outliers result) acc)
            analysisResults [].

(** [new Set(allOutliers.keys())] *)
Definition uniqueOutlierIndices (analysisResults : list AnalysisResult)
  : list Z :=
  Set_of (map fst (allOutliers analysisResults)).

(** The fill of the dot of data point [d]. *)
Definition dot_fill (analysisResults : list AnalysisResult) (d : DataPoint)
  : string :=
  if existsb (Z.eqb (dp_index d)) (uniqueOutlierIndices analysisResults)
  then "#DC2626" else "#3B82F6".

(** What a dot or a marker is placed by, before scaling: a row index or
    a coordinate ([None] for a coordinate the point does not have). *)
Inductive PlotCoordinate : Type :=
| by_index (i : Z)
| by_value (v : option float).

(** [is1D ? d.index : d.values[0]] and [is1D ? d.values[0] : d.values[1]] *)
Definition dot_position (is1D : bool) (d : DataPoint)
  : PlotCoordinate * PlotCoordinate :=
  (if is1D then by_index (dp_index d) else by_value (nth_error (dp_values d) 0),
   if is1D then by_value (nth_error (dp_values d) 0)
   else by_value (nth_error (dp_values d) 1)).

(** [is1D ? d.index : d.point[0]] and [is1D ? d.point[0] : d.point[1]] *)
Definition marker_position (is1D : bool) (o : OutlierRecord)
  : PlotCoordinate * PlotCoordinate :=
  (if is1D then by_index (o_index o) else by_value (nth_error (o_point o) 0),
   if is1D then by_value (nth_error (o_point o) 0)
   else by_value (nth_error (o_point o) 1)).

(** ** Session

    The module-level state ([dataSet], [analysisResults], [isLoading]),
    the elements the handlers write to, and the handlers.  A handler
    runs to completion; [handleFileSelect] is split at its [await] and
    [handleFindOutliers] at its [setTimeout]. *)

(** The elements [updateUI] writes to. *)
Record Controls : Type := mkControls {
  findOutliersBtn_disabled : bool;
  fileUploadInput_disabled : bool;
  fileUploadArea_dimmed : bool;       (* cursor-not-allowed, opacity-60 *)
  findOutliersBtn_analyzing : bool;   (* spinner and "Analyzing..." *)
  analysisOptions_hidden : bool;
  datasetDimensions_text : string;
  datasetPoints_text : nat;
  plotToggleContainer_hidden : bool
}.

(** What [renderResults] leaves in the results container. *)
Inductive Rendered : Type :=
| AsLoaded      (* the container as the page came, not yet written to *)
| Placeholder
| Report (results : list AnalysisResult) (showPlot : bool).

Record App : Type := mkApp {
  dataSet : option DataSet;
  analysisResults : option (list AnalysisResult);
  isLoading : bool;
  errorDisplay_text : string;
  errorDisplay_hidden : bool;
  controls : Controls;
  showPlotCheckbox_checked : bool;
  resultsContainer : Rendered;
  parsing : nat;     (* calls of parseData not yet settled *)
  timers : nat       (* setTimeout callbacks not yet run *)
}.

Definition updateUI (a : App) : App :=
  let c := controls a in
  let c' :=
    mkControls
      (isLoading a || match dataSet a with Some _ => false | None => true end)
      (isLoading a)
      (isLoading a)
      (isLoading a)
      (match dataSet a with Some _ => false | None => true end)
      (match dataSet a with
       | Some ds => (string_of_Z (Z.of_nat (dimensions ds)) ++ "D")%string
       | None => datasetDimensions_text c
       end)
      (match dataSet a with
       | Some ds => length (data ds)
       | None => datasetPoints_text c
       end)
      (match analysisResults a, dataSet a with
       | Some _, Some ds => negb (dimensions ds <=? 2)%nat
       | _, _ => true
       end) in
  mkApp (dataSet a) (analysisResults a) (isLoading a) (errorDisplay_text a)
        (errorDisplay_hidden a) c' (showPlotCheckbox_checked a)
        (resultsContainer a) (parsing a) (timers a).

Definition renderResults (a : App) : App :=
  let rendered :=
    match analysisResults a with
    | None => Placeholder
    | Some results =>
      Report results
        (showPlotCheckbox_checked a
         && match dataSet a with
            | Some ds => (dimensions ds <=? 2)%nat
            | None => false
            end)
    end in
  mkApp (dataSet a) (analysisResults a) (isLoading a) (errorDisplay_text a)
        (errorDisplay_hidden a) (controls a) (showPlotCheckbox_checked a)
        rendered (parsing a) (timers a).

Definition showError (message : string) (a : App) : App :=
  mkApp (dataSet a) (analysisResults a) (isLoading a) message false
        (controls a) (showPlotCheckbox_checked a) (resultsContainer a)
        (parsing a) (timers a).

(** [err.message || fallback] *)
Definition message_or (message fallback : string) : string :=
  if String.eqb message "" then fallback else message.

(** [handleFileSelect] up to [await parseData(file)]. *)
Definition handleFileSelect_begin (a : App) : App :=
  let a1 :=
    mkApp None None true (errorDisplay_text a) true (controls a)
          (showPlotCheckbox_checked a) (resultsContainer a)
          (S (parsing a)) (timers a) in
  renderResults (updateUI a1).

(** [handleFileSelect] from the settling of [parseData(file)] on. *)
Definition handleFileSelect_end (outcome : ParseOutcome) (a : App) : App :=
  let a1 :=
    match outcome with
    | Resolved ds =>
      mkApp (Some ds) (analysisResults a) (isLoading a) (errorDisplay_text a)
            (errorDisplay_hidden a) (controls a) (showPlotCheckbox_checked a)
            (resultsContainer a) (pred (parsing a)) (timers a)
    | Rejected message =>
      let a' :=
        showError
          (message_or message "An unknown error occurred during file parsing.")
          a in
      mkApp None (analysisResults a') (isLoading a') (errorDisplay_text a')
            (errorDisplay_hidden a') (controls a') (showPlotCheckbox_checked a')
            (resultsContainer a') (pred (parsing a')) (timers a')
    end in
  updateUI
    (mkApp (dataSet a1) (analysisResults a1) false (errorDisplay_text a1)
           (errorDisplay_hidden a1) (controls a1) (showPlotCheckbox_checked a1)
           (resultsContainer a1) (parsing a1) (timers a1)).

(** [handleFindOutliers] up to [setTimeout]. *)
Definition handleFindOutliers (a : App) : App :=
  match dataSet a with
  | None => showError "Please upload a data set first." a
  | Some _ =>
    updateUI
      (mkApp (dataSet a) None true (errorDisplay_text a) true (controls a)
             (showPlotCheckbox_checked a) (resultsContainer a)
             (parsing a) (S (timers a)))
  end.

(** ** Report table

    The parts of [renderResults] that depend on the report only. *)

(** [dataSet.headers[o.columnIndex] || `Column ${o.columnIndex + 1}`],
    the string [renderResults] interpolates into the markup of the
    Column cell of a row: a missing header and an empty one both give
    the fallback.  The string is interpolated as it is, without
    escaping, and the template is then assigned to [innerHTML]; the
    text the cell ends up showing is what the browser makes of that
    markup, and is not modelled. *)
Definition column_label (headers : list string) (columnIndex : nat) : string :=
  match nth_error headers columnIndex with
  | Some header =>
    if String.eqb header "" then
      ("Column " ++ string_of_Z (Z.of_nat columnIndex + 1))%string
    else header
  | None => ("Column " ++ string_of_Z (Z.of_nat columnIndex + 1))%string
  end.




(** The controls show the state: [updateUI] would change nothing. *)
Definition in_sync (a : App) : Prop := controls (updateUI a) = controls a.

(** The state of a session between two events: at most one operation is
    pending, and [isLoading] tells whether one is; no data set is held
    while a file is parsed, and one is held while an analysis is due;
    the results held and the report shown are the analysis of the data
    set held. *)
Definition consistent (a : App) : Prop :=
  in_sync a
  /\ (parsing a + timers a = if isLoading a then 1 else 0)%nat
  /\ ((0 < parsing a)%nat ->
      dataSet a = None /\ resultsContainer a = Placeholder)
  /\ ((0 < timers a)%nat -> dataSet a <> None)
  /\ (isLoading a = true -> analysisResults a = None)
  /\ (forall results, analysisResults a = Some results ->
        exists ds, dataSet a = Some ds /\ results = runAllAnalyses ds)
  /\ (forall results showPlot,
        resultsContainer a = Report results showPlot ->
        exists ds, dataSet a = Some ds /\ results = runAllAnalyses ds).

Section Session.
Context {Cell : Type}.
Variable String_of : Cell -> string.
Variable parseFloat : string -> float.
(** The message of the error [runAllAnalyses(null)] throws. *)
Variable null_message : string.

(** The callback [handleFindOutliers] hands to [setTimeout]. *)
Definition analysis_callback (a : App) : App :=
  let a1 :=
    match dataSet a with
    | Some ds =>
      mkApp (dataSet a) (Some (runAllAnalyses ds)) (isLoading a)
            (errorDisplay_text a) (errorDisplay_hidden a) (controls a)
            (showPlotCheckbox_checked a) (resultsContainer a)
            (parsing a) (pred (timers a))
    | None =>
      let a' :=
        showError
          (message_or null_message "An unknown error occurred during analysis.")
          a in
      mkApp (dataSet a') None (isLoading a') (errorDisplay_text a')
            (errorDisplay_hidden a') (controls a') (showPlotCheckbox_checked a')
            (resultsContainer a') (parsing a') (pred (timers a'))
    end in
  renderResults
    (updateUI
       (mkApp (dataSet a1) (analysisResults a1) false (errorDisplay_text a1)
              (errorDisplay_hidden a1) (controls a1)
              (showPlotCheckbox_checked a1) (resultsContainer a1)
              (parsing a1) (timers a1))).

(** The [change] listener of the plot checkbox, the box now being
    [checked]. *)
Definition plot_checkbox_changed (checked : bool) (a : App) : App :=
  let a1 :=
    mkApp (dataSet a) (analysisResults a) (isLoading a) (errorDisplay_text a)
          (errorDisplay_hidden a) (controls a) checked (resultsContainer a)
          (parsing a) (timers a) in
  match analysisResults a1 with
  | Some _ => renderResults a1
  | None => a1
  end.

(** The [drop] listener, a file being dropped. *)
Definition file_dropped (a : App) : App :=
  if isLoading a then a else handleFileSelect_begin a.

(** The page once [DOMContentLoaded] has run [updateUI]. *)
Definition loaded (page : App) : App :=
  updateUI
    (mkApp None None false (errorDisplay_text page) (errorDisplay_hidden page)
           (controls page) (showPlotCheckbox_checked page) AsLoaded 0 0).

(** What can happen next.  A disabled input or button raises no event;
    a promise settles and a timer fires only when one is pending.  The
    promise of [parseData] settles with the outcome of a sheet, or is
    rejected before there is a sheet ([reader.onerror], [XLSX.read]
    throwing) with an error of any message or of none. *)
Inductive step : App -> App -> Prop :=
| file_chosen a :
    fileUploadInput_disabled (controls a) = false ->
    step a (handleFileSelect_begin a)
| file_drop a : step a (file_dropped a)
| parse_settled a json :
    (0 < parsing a)%nat ->
    step a (handleFileSelect_end (snd (parseData String_of parseFloat json)) a)
| read_failed a message :
    (0 < parsing a)%nat -> step a (handleFileSelect_end (Rejected message) a)
| find_clicked a :
    findOutliersBtn_disabled (controls a) = false ->
    step a (handleFindOutliers a)
| timer_fired a : (0 < timers a)%nat -> step a (analysis_callback a)
| plot_toggled a checked : step a (plot_checkbox_changed checked a).

Inductive reachable (page : App) : App -> Prop :=
| reach_loaded : reachable page (loaded page)
| reach_step a a' : reachable page a -> step a a' -> reachable page a'.

(** The data set held, if any, is one [parseData] resolved. *)
Definition holds_parsed (a : App) : Prop :=
  forall ds, dataSet a = Some ds ->
  exists json, snd (parseData String_of parseFloat json) = Resolved ds.

(** The events of a session, one for each constructor of [step]. *)
Inductive Event : Type :=
| FileChosen
| FileDrop
| ParseSettled (json : list (list Cell))
| ReadFailed (message : string)
| FindClicked
| TimerFired
| PlotToggled (checked : bool).

(** What the page runs when the event occurs. *)
Definition handle (e : Event) (a : App) : App :=
  match e with
  | FileChosen => handleFileSelect_begin a
  | FileDrop => file_dropped a
  | ParseSettled json =>
    handleFileSelect_end (snd (parseData String_of parseFloat json)) a
  | ReadFailed message => handleFileSelect_end (Rejected message) a
  | FindClicked => handleFindOutliers a
  | TimerFired => analysis_callback a
  | PlotToggled checked => plot_checkbox_changed checked a
  end.

(** When the event can occur: the side conditions of [step]. *)
Definition occurs (e : Event) (a : App) : Prop :=
  match e with
  | FileChosen => fileUploadInput_disabled (controls a) = false
  | FindClicked => findOutliersBtn_disabled (controls a) = false
  | ParseSettled _ | ReadFailed _ => (0 < parsing a)%nat
  | TimerFired => (0 < timers a)%nat
  | FileDrop | PlotToggled _ => True
  end.



(** The state the page is in after the events of a list, the latest
    event first. *)
Inductive reached (page : App) : list Event -> App -> Prop :=
| reached_loaded : reached page [] (loaded page)
| reached_event events a e :
    reached page events a -> occurs e a ->
    reached page (e :: events) (handle e a).


End Session.

(** ** Vocabulary of the statements *)

(** No element is NaN. *)
Definition no_nan {A : Type} (key : A -> float) (l : list A) : Prop :=
  Forall (fun x => PrimFloat.is_nan (key x) = false) l.

(** Every element is at most every later one. *)
Definition ascending {A : Type} (key : A -> float) (l : list A) : Prop :=
  StronglySorted (fun a b => (key a <=? key b)%float = true) l.

(** No element is greater than its successor; on a list without NaN this
    is [ascending]. *)
Definition no_descent {A : Type} (key : A -> float) (l : list A) : Prop :=
  Sorted (fun a b => (key b <? key a)%float = false) l.

(** The nearest-rank quantile of a sorted sample of size [n]: its element
    at position [floor(n * num / den)]. *)
Definition nearest_rank (num den : nat) (sorted : list float) : float :=
  nth (length sorted * num / den) sorted nan.

(** The statistics of a sample as the specification words them, over a
    given sorted arrangement of the sample and of its residuals. *)
Record Statistics_of (data sorted sortedResiduals : list float)
  (st : Statistics) : Prop := {
  of_q1 : q1 st = nearest_rank 1 4 sorted;
  of_median : median st = nearest_rank 1 2 sorted;
  of_q3 : q3 st = nearest_rank 3 4 sorted;
  of_iqr : iqr st = (q3 st - q1 st)%float;
  of_mean : mean st = (Js.sum data / Js.of_nat (length data))%float;
  of_stdDev :
    stdDev st =
    PrimFloat.sqrt
      (Js.sum (map (fun x => ((x - mean st) * (x - mean st))%float) data)
       / Js.of_nat (length data));
  of_residuals :
    Permutation (map (fun x => PrimFloat.abs (x - median st)%float) data)
                sortedResiduals;
  of_mad : mad st = nearest_rank 1 2 sortedResiduals
}.

(** A sorted arrangement of a sample: the same elements, none greater
    than its successor, in ascending order when none is NaN. *)
Definition sorted_arrangement (l sorted : list float) : Prop :=
  Permutation l sorted
  /\ no_descent (fun x => x) sorted
  /\ (no_nan (fun x => x) l -> ascending (fun x => x) sorted).

(** The deviation [|value - mean| / stdDev] of an entry. *)
Definition deviation (mean stdDev : float) (d : ColumnEntry) : float :=
  (PrimFloat.abs (value d - mean) / stdDev)%float.

(** [d] is the first entry of largest deviation in [l1 ++ d :: l2]: no
    entry deviates more, and no earlier entry deviates as much. *)
Definition first_largest (dev : ColumnEntry -> float) (l1 : Column)
  (d : ColumnEntry) (l2 : Column) : Prop :=
  (forall e, In e (l1 ++ d :: l2) -> Js.gt (dev e) (dev d) = false)
  /\ (forall e, In e l1 -> (dev d <=? dev e)%float = false).

(** The ESD procedure as the specification words it.
    [esd_run rounds current recorded final]: with [rounds] iterations left,
    [current] the remaining column and [recorded] the entries removed so
    far, the procedure ends with [final] recorded.  Each iteration takes
    mean and stdDev of the remaining column anew. *)
Inductive esd_run : nat -> Column -> Column -> Column -> Prop :=
| esd_rounds_done current recorded :
    esd_run 0 current recorded recorded
| esd_too_few rounds current recorded :
    (length current < 3)%nat ->
    esd_run (S rounds) current recorded recorded
| esd_no_spread rounds current recorded :
    (3 <= length current)%nat ->
    Js.strict_eq (stdDev (getStats (values_of current))) 0 = true ->
    esd_run (S rounds) current recorded recorded
| esd_not_critical rounds current recorded :
    let st := getStats (values_of current) in
    (3 <= length current)%nat ->
    Js.strict_eq (stdDev st) 0 = false ->
    (forall e, In e current ->
       Js.gt (deviation (mean st) (stdDev st) e) 2.5 = false) ->
    esd_run (S rounds) current recorded recorded
| esd_remove rounds current recorded l1 d l2 final :
    let st := getStats (values_of current) in
    (3 <= length current)%nat ->
    Js.strict_eq (stdDev st) 0 = false ->
    current = l1 ++ d :: l2 ->
    Js.gt (deviation (mean st) (stdDev st) d) 2.5 = true ->
    first_largest (deviation (mean st) (stdDev st)) l1 d l2 ->
    esd_run rounds (l1 ++ l2) (recorded ++ [d]) final ->
    esd_run (S rounds) current recorded final.

(** The record of data point [dp] for column [i]: its index, its value in
    that column, its whole coordinate vector, and the column number. *)
Definition record_of (dp : DataPoint) (i : nat) : OutlierRecord :=
  mkOutlier (dp_index dp) (nth_error (dp_values dp) i) (dp_values dp) i.

(** Method [m] flags index [idx] in column [i]. *)
Definition flags (m : Method) (ds : DataSet) (idx : Z) (i : nat) : bool :=
  existsb (Z.eqb idx) (fn m (column_of ds i)).

(** The data point an index is looked up to: the first one bearing it. *)
Definition point_of (ds : DataSet) (idx : Z) : option DataPoint :=
  find (fun dp => (dp_index dp =? idx)%Z) (data ds).

(** What column [i] contributes to the report of [m]: one record for
    each distinct flagged index that some data point bears, in the order
    the indices are first flagged. *)
Definition column_records (m : Method) (ds : DataSet) (i : nat)
  : list OutlierRecord :=
  flat_map (fun idx => match point_of ds idx with
                       | Some dp => [record_of dp i]
                       | None => []
                       end)
           (Set_of (fn m (column_of ds i))).

(** The records of a report entry that bear index [idx]. *)
Definition records_of (idx : Z) (l : list OutlierRecord) : list OutlierRecord :=
  filter (fun r => (o_index r =? idx)%Z) l.

(** The shape the ingestion gives a data set: indices are unique and
    every point has one coordinate per dimension. *)
Definition well_formed (ds : DataSet) : Prop :=
  NoDup (map dp_index (data ds))
  /\ Forall (fun dp => length (dp_values dp) = dimensions ds) (data ds).

(** The map entry under which a record is stored. *)
Definition entry_of (r : OutlierRecord) : string * OutlierRecord :=
  (key_of (o_index r) (o_columnIndex r), r).

(** [k] is the largest of [keys] that is at most [n]. *)
Definition largest_bracket (keys : list nat) (n k : nat) : Prop :=
  In k keys /\ (k <= n)%nat
  /\ forall k', In k' keys -> (k' <= n)%nat -> (k' <= k)%nat.

(** The scores the Z-score methods compare with their threshold. *)
Definition z_score (st : Statistics) (d : ColumnEntry) : float :=
  PrimFloat.abs ((value d - mean st) / stdDev st).

Definition modified_z_score (st : Statistics) (d : ColumnEntry) : float :=
  PrimFloat.abs (0.6745 * (value d - median st) / mad st).

(** Dixon's Q test on a column of applicable size, as the specification
    words it: the column sorted by value, [lo] and [hi] its first and last
    entries (a minimum and a maximum of the column), [next] and [prev]
    their neighbours, [qCrit] the critical value of the largest bracket
    key not above the size. *)
Definition dixon_outcome (columnData : Column) : Prop :=
  let n := length columnData in
  exists sortedData lo next prev hi k qCrit,
    Permutation columnData sortedData
    /\ no_descent value sortedData
    /\ (no_nan value columnData ->
          ascending value sortedData
          /\ forall e, In e columnData ->
               (value lo <=? value e)%float = true
               /\ (value e <=? value hi)%float = true)
    /\ nth_error sortedData 0 = Some lo
    /\ nth_error sortedData 1 = Some next
    /\ nth_error sortedData (n - 2) = Some prev
    /\ nth_error sortedData (n - 1) = Some hi
    /\ largest_bracket (map fst Q_TABLE) n k
    /\ In (k, qCrit) Q_TABLE
    /\ let range := (value hi - value lo)%float in
       let qLow := ((value next - value lo) / range)%float in
       let qHigh := ((value hi - value prev) / range)%float in
       (Js.strict_eq range 0 = true -> findOutliersDixonQ columnData = [])
       /\ (Js.strict_eq range 0 = false ->
             findOutliersDixonQ columnData
             = (if Js.gt qLow qCrit then [index lo] else [])
               ++ (if Js.gt qHigh qCrit then [index hi] else [])).

(** Every entry of the column has the value [x]. *)
Definition constant_column (x : float) (columnData : Column) : Prop :=
  forall d, In d columnData -> value d = x.

(** A list of indices drawn from the column, each at most once when the
    column's indices are distinct. *)
Definition index_set (columnData : Column) (flagged : list Z) : Prop :=
  incl flagged (map index columnData)
  /\ (NoDup (map index columnData) -> NoDup flagged).

(** ** Real values of binary64 numbers

    The vocabulary of the rounding-error analysis: the real number a
    finite binary64 number denotes and how a computed result relates to
    the exact one. *)

Module Real64.
Import Reals.
Local Open Scope R_scope.

(** [2 ^ e] *)
Definition bpow (e : Z) : R := powerRZ 2 e.

(** The value of the finite number of mantissa [m] and exponent [e]. *)
Definition F2R (m e : Z) : R := IZR m * bpow e.

(** [x] lies at location [l] relative to the integer [m]. *)
Definition inb (x : R) (m : Z) (l : location) : Prop :=
  match l with
  | loc_Exact => x = IZR m
  | loc_Inexact Lt => IZR m < x < IZR m + / 2
  | loc_Inexact Eq => x = IZR m + / 2
  | loc_Inexact Gt => IZR m + / 2 < x < IZR m + 1
  end.

(** The outcomes of rounding a non-negative number. *)
Definition rounds_to (s : bool) (v : R) (r : spec_float) : Prop :=
  r = S754_zero s
  \/ (r = S754_infinity s /\ bpow 971 <= v)
  \/ (exists m e, r = S754_finite s (Z.to_pos m) e /\ (0 < m)%Z
                  /\ Rabs (F2R m e - v) <= bpow e / 2).

(** The unit roundoff, and half the smallest positive number. *)
Definition u53 : R := bpow (-53).
Definition eta : R := bpow (-1075).

End Real64.

(** ** Exact statistics

    The statistics of a sample as real numbers, to compare the computed
    ones with. *)

Module Exact.
Import Reals Real64.
Local Open Scope R_scope.

(** The real number a finite binary64 number denotes ([0] stands for
    the infinities and NaN, which denote none). *)
Definition SF2R (x : spec_float) : R :=
  match x with
  | S754_finite s m e => if s then - F2R (Z.pos m) e else F2R (Z.pos m) e
  | _ => 0
  end.

Definition real_of (f : float) : R := SF2R (Prim2SF f).

(** A zero or a finite number. *)
Definition finite_SF (x : spec_float) : Prop :=
  match x with
  | S754_zero _ | S754_finite _ _ _ => True
  | _ => False
  end.

(** The sum of real numbers. *)
Definition total (l : list R) : R := fold_right Rplus 0 l.

(** The arithmetic mean of a sample, the mean of the magnitudes of its
    values, and its population variance: the mean of the squared
    deviations from the arithmetic mean, with divisor [n]. *)
Definition arithmetic_mean (data : list float) : R :=
  total (map real_of data) / INR (length data).

Definition mean_magnitude (data : list float) : R :=
  total (map (fun x => Rabs (real_of x)) data) / INR (length data).

(** The mean of the squared deviations of the values from [c]. *)
Definition mean_square_deviation (data : list float) (c : R) : R :=
  total (map (fun x => (real_of x - c) ^ 2) data) / INR (length data).

Definition population_variance (data : list float) : R :=
  mean_square_deviation data (arithmetic_mean data).

(** The machine epsilon of binary64. *)
Definition eps : R := bpow (-52).

(** The bound on the error of the computed mean of a sample of size
    [n]: [n] additions and one division, each rounded. *)
Definition mean_error (data : list float) : R :=
  ((1 + eps) ^ (length data + 1) - 1) * mean_magnitude data + 2 * eta.

(** The computed mean [m] is the arithmetic mean of the sample up to
    the rounding of its operations. *)
Definition mean_within (data : list float) (m : float) : Prop :=
  Rabs (real_of m - arithmetic_mean data) <= mean_error data.

(** The computed standard deviation [sd] is the population standard
    deviation of the sample up to the rounding of its operations: its
    square lies between these multiples of the population variance, the
    upper one enlarged by what the error of the mean adds. *)
Definition deviation_within (data : list float) (sd : float) : Prop :=
  0 <= real_of sd
  /\ (1 - eps) ^ (length data + 6) * population_variance data - 2 * eta
     <= real_of sd ^ 2
     <= (1 + eps) ^ (length data + 6)
        * (population_variance data + mean_error data ^ 2 + 4 * eta).

End Exact.

(** * Properties *)

(** ** Binary64 arithmetic

    Facts about the primitive operations, derived from their
    specification on [spec_float]. *)

Module Binary64.

Local Open Scope Z_scope.

Abbreviation fexp64 := (SpecFloat.fexp prec emax).

Lemma emin_val : emin = -1074.
Proof. reflexivity. Qed.

Lemma fexp64_eq e : fexp64 e = Z.max (e - 53) (-1074).
Proof. reflexivity. Qed.

(** The number of binary digits of a mantissa. *)
Lemma digits2_pos_bounds (m : positive) :
  2 ^ (Z.pos (digits2_pos m) - 1) <= Z.pos m < 2 ^ Z.pos (digits2_pos m).
Proof.
  induction m as [m IH | m IH |]; simpl digits2_pos.
  - rewrite Pos2Z.inj_succ.
    replace (Z.succ (Z.pos (digits2_pos m)) - 1) with (Z.succ (Z.pos (digits2_pos m) - 1)) by lia.
    rewrite !Z.pow_succ_r by lia. lia.
  - rewrite Pos2Z.inj_succ.
    replace (Z.succ (Z.pos (digits2_pos m)) - 1) with (Z.succ (Z.pos (digits2_pos m) - 1)) by lia.
    rewrite !Z.pow_succ_r by lia. lia.
  - simpl. lia.
Qed.

(** Shifting a mantissa to the right. *)
Lemma shr_1_m (r : shr_record) :
  0 <= shr_m r -> shr_m (shr_1 r) = shr_m r / 2.
Proof.
  destruct r as [m rb sb]; simpl. intros Hm.
  destruct m as [| p | p]; [reflexivity | | lia].
  destruct p as [p | p |]; simpl shr_m.
  - rewrite Pos2Z.inj_xI. apply Z.div_unique with (r := 1); lia.
  - rewrite Pos2Z.inj_xO. apply Z.div_unique with (r := 0); lia.
  - reflexivity.
Qed.

Lemma pow2_xO p : 2 ^ Z.pos p~0 = 2 ^ Z.pos p * 2 ^ Z.pos p.
Proof. rewrite Pos2Z.inj_xO, <- Z.pow_add_r by lia. f_equal. lia. Qed.

Lemma pow2_xI p : 2 ^ Z.pos p~1 = 2 * (2 ^ Z.pos p * 2 ^ Z.pos p).
Proof.
  rewrite Pos2Z.inj_xI, <- Z.pow_add_r, <- Z.pow_succ_r by lia. f_equal. lia.
Qed.

Lemma iter_shr_1_m (p : positive) : forall r : shr_record,
  0 <= shr_m r -> shr_m (iter_pos shr_1 p r) = shr_m r / 2 ^ Z.pos p.
Proof.
  induction p as [p IH | p IH |]; intros r Hr; simpl iter_pos.
  - assert (H1 : 0 <= shr_m (shr_1 r)) by (rewrite shr_1_m by lia; apply Z.div_pos; lia).
    assert (H2 : 0 <= shr_m (iter_pos shr_1 p (shr_1 r)))
      by (rewrite IH by lia; apply Z.div_pos; lia).
    rewrite IH, IH, shr_1_m by lia.
    rewrite !Z.div_div by lia. now rewrite pow2_xI.
  - assert (H2 : 0 <= shr_m (iter_pos shr_1 p r))
      by (rewrite IH by lia; apply Z.div_pos; lia).
    rewrite IH, IH by lia.
    rewrite !Z.div_div by lia. now rewrite pow2_xO.
  - rewrite shr_1_m by lia. reflexivity.
Qed.

Lemma shr_record_of_loc_m m l : shr_m (shr_record_of_loc m l) = m.
Proof. destruct l as [| []]; reflexivity. Qed.

(** Rounding a positive mantissa whose exponent is not below [emin]
    keeps it positive. *)
Lemma shr_fexp_pos (m : positive) (e : Z) (l : location) :
  emin <= e ->
  0 < shr_m (fst (shr_fexp prec emax (Z.pos m) e l))
  /\ emin <= snd (shr_fexp prec emax (Z.pos m) e l).
Proof.
  intros He. unfold shr_fexp, shr. simpl Zdigits2.
  pose proof (digits2_pos_bounds m) as Hd.
  rewrite fexp64_eq. rewrite emin_val in *.
  destruct (Z.max (Z.pos (digits2_pos m) + e - 53) (-1074) - e) as [| p | p] eqn:Hn;
    simpl fst; simpl snd; rewrite ?shr_record_of_loc_m; try lia.
  rewrite iter_shr_1_m by (rewrite shr_record_of_loc_m; lia).
  rewrite shr_record_of_loc_m.
  split; [| lia].
  assert (Hp : Z.pos p = Z.pos (digits2_pos m) - 53) by lia.
  apply Z.div_str_pos. split; [lia |].
  apply Z.le_trans with (2 ^ (Z.pos (digits2_pos m) - 1)); [| lia].
  apply Z.pow_le_mono_r; lia.
Qed.

Lemma round_nearest_even_pos m l : 0 < m -> 0 < round_nearest_even m l.
Proof.
  intros Hm. destruct l as [| []]; simpl; try lia.
  destruct (Z.even m); lia.
Qed.

Lemma binary_round_aux_nonzero s (m : positive) e l :
  emin <= e -> (exists m' e', binary_round_aux prec emax s (Z.pos m) e l = S754_finite s m' e')
  \/ binary_round_aux prec emax s (Z.pos m) e l = S754_infinity s.
Proof.
  intros He. unfold binary_round_aux.
  destruct (shr_fexp_pos m e l He) as [H1 H2].
  destruct (shr_fexp prec emax (Z.pos m) e l) as [mrs' e'].
  simpl fst in H1; simpl snd in H2.
  pose proof (round_nearest_even_pos (shr_m mrs') (loc_of_shr_record mrs') H1) as H3.
  destruct (round_nearest_even (shr_m mrs') (loc_of_shr_record mrs')) as [| q | q];
    try lia.
  destruct (shr_fexp_pos q e' loc_Exact H2) as [H4 _].
  destruct (shr_fexp prec emax (Z.pos q) e' loc_Exact) as [mrs'' e''].
  simpl fst in H4.
  destruct (shr_m mrs'') as [| q' | q']; try lia.
  destruct (e'' <=? emax - prec); [left; eauto | right; reflexivity].
Qed.

Lemma binary_round_nonzero s (m : positive) e :
  emin <= e -> (exists m' e', binary_round prec emax s m e = S754_finite s m' e')
  \/ binary_round prec emax s m e = S754_infinity s.
Proof.
  intros He. unfold binary_round, shl_align.
  destruct (fexp64 (Z.pos (digits2_pos m) + e) - e) as [| p | p] eqn:Hn.
  - now apply binary_round_aux_nonzero.
  - now apply binary_round_aux_nonzero.
  - apply binary_round_aux_nonzero.
    rewrite fexp64_eq in *. rewrite emin_val in *. lia.
Qed.

(** The result of rounding carries the sign it was given. *)
Lemma binary_round_aux_sign s m e l :
  match binary_round_aux prec emax s m e l with
  | S754_finite s' _ _ | S754_infinity s' | S754_zero s' => s' = s
  | S754_nan => True
  end.
Proof.
  unfold binary_round_aux.
  destruct (shr_fexp prec emax m e l) as [mrs' e'].
  destruct (shr_fexp prec emax _ e' loc_Exact) as [mrs'' e''].
  destruct (shr_m mrs''); auto.
  destruct (e'' <=? emax - prec); auto.
Qed.

Lemma SFltb_zero_normalize z e :
  emin <= e ->
  SFltb (S754_zero false) (binary_normalize prec emax z e false) = (0 <? z).
Proof.
  intros He. destruct z as [| p | p]; simpl binary_normalize.
  - reflexivity.
  - destruct (binary_round_nonzero false p e He) as [(m' & e' & ->) | ->]; reflexivity.
  - unfold binary_round.
    destruct (shl_align p e _) as [mz ez].
    pose proof (binary_round_aux_sign true (Z.pos mz) ez loc_Exact) as Hs.
    destruct (binary_round_aux prec emax true (Z.pos mz) ez loc_Exact);
      try subst; reflexivity.
Qed.

(** A valid finite number is in canonical form. *)
Lemma bounded_canonical m e :
  bounded prec emax m e = true ->
  emin <= e /\ Z.pos (digits2_pos m) <= 53
  /\ (emin < e -> Z.pos (digits2_pos m) = 53).
Proof.
  unfold bounded, canonical_mantissa. rewrite fexp64_eq, emin_val.
  intros H. apply andb_prop in H. destruct H as [H _].
  apply Z.eqb_eq in H. lia.
Qed.

Lemma shl_align_fst m e e' :
  e' <= e -> Z.pos (fst (shl_align m e e')) = Z.pos m * 2 ^ (e - e').
Proof.
  intros He. unfold shl_align.
  destruct (e' - e) as [| p | p] eqn:Hd; simpl fst; try lia.
  - replace (e - e') with 0 by lia. lia.
  - replace (e - e') with (Z.pos p) by lia.
    rewrite Pos.iter_swap_gen with (f:= Z.pos) (h := Z.mul 2); [|reflexivity].
    clear. revert m. induction p using Pos.peano_ind; intros m.
    + simpl. lia.
    + rewrite Pos.iter_succ, Pos2Z.inj_succ, Z.pow_succ_r, IHp by lia. lia.
Qed.

(** The order of two canonical numbers with different exponents. *)
Lemma canonical_exponent_lt m1 e1 m2 e2 :
  bounded prec emax m1 e1 = true -> bounded prec emax m2 e2 = true ->
  e1 < e2 -> Z.pos m1 < Z.pos m2 * 2 ^ (e2 - e1).
Proof.
  intros H1 H2 Hlt.
  apply bounded_canonical in H1, H2. rewrite emin_val in *.
  pose proof (digits2_pos_bounds m1) as B1.
  pose proof (digits2_pos_bounds m2) as B2.
  assert (D2 : Z.pos (digits2_pos m2) = 53) by lia.
  rewrite D2 in B2.
  assert (Z.pos m1 < 2 ^ 53).
  { apply Z.lt_le_trans with (2 ^ Z.pos (digits2_pos m1)); [lia |].
    apply Z.pow_le_mono_r; lia. }
  assert (2 ^ 1 <= 2 ^ (e2 - e1)) by (apply Z.pow_le_mono_r; lia).
  change (2 ^ 53) with (2 ^ (53 - 1) * 2 ^ 1) in H.
  nia.
Qed.

(** The sign of a difference of valid numbers is the outcome of their
    comparison. *)
Lemma SFsub_pos (a b : spec_float) :
  valid_binary a = true -> valid_binary b = true ->
  SFltb (S754_zero false) (SFsub prec emax a b) = SFltb b a.
Proof.
  intros Va Vb.
  destruct a as [sa | sa | | sa ma ea], b as [sb | sb | | sb mb eb];
    try (destruct sa; try destruct sb; reflexivity);
    try (destruct sb; reflexivity); try reflexivity.
  simpl in Va, Vb. unfold SFsub.
  destruct (bounded_canonical _ _ Va) as [Ea _].
  destruct (bounded_canonical _ _ Vb) as [Eb _].
  rewrite SFltb_zero_normalize by lia.
  pose proof (shl_align_fst ma ea (Z.min ea eb) ltac:(lia)) as Ha.
  pose proof (shl_align_fst mb eb (Z.min ea eb) ltac:(lia)) as Hb.
  rewrite Ha, Hb. clear Ha Hb.
  unfold SFltb, SFcompare.
  assert (P1 : 0 < 2 ^ (ea - Z.min ea eb)) by (apply Z.pow_pos_nonneg; lia).
  assert (P2 : 0 < 2 ^ (eb - Z.min ea eb)) by (apply Z.pow_pos_nonneg; lia).
  destruct sa, sb; unfold cond_Zopp;
    (destruct (Z.compare_spec eb ea) as [E | L | G];
     [ subst eb; rewrite Z.min_id, Z.sub_diag, Z.pow_0_r, !Z.mul_1_r;
       change (Pos.compare_cont Eq mb ma) with (Pos.compare mb ma);
       destruct (Pos.compare_spec mb ma); unfold CompOpp
     | pose proof (canonical_exponent_lt _ _ _ _ Vb Va L);
       rewrite Z.min_r in * by lia; rewrite Z.sub_diag, Z.pow_0_r in *
     | pose proof (canonical_exponent_lt _ _ _ _ Va Vb ltac:(lia));
       rewrite Z.min_l in * by lia; rewrite Z.sub_diag, Z.pow_0_r in * ]);
    match goal with
    | |- (0 <? ?z) = _ => destruct (Z.ltb_spec 0 z); try reflexivity; try lia
    end.
Qed.

Theorem sub_gt_zero (a b : float) : (0 <? a - b)%float = (b <? a)%float.
Proof.
  rewrite !ltb_spec, sub_spec.
  change (Prim2SF 0) with (S754_zero false).
  apply SFsub_pos; apply Prim2SF_valid.
Qed.

(** *** The order of numbers *)

Ltac order_cases :=
  repeat match goal with
  | |- context [Z.compare ?a ?b] => destruct (Z.compare_spec a b); try lia
  | H : context [Z.compare ?a ?b] |- _ => destruct (Z.compare_spec a b); try lia
  | |- context [Pos.compare_cont Eq ?a ?b] =>
      change (Pos.compare_cont Eq a b) with (Pos.compare a b)
  | H : context [Pos.compare_cont Eq ?a ?b] |- _ =>
      change (Pos.compare_cont Eq a b) with (Pos.compare a b) in H
  | |- context [Pos.compare ?a ?b] => destruct (Pos.compare_spec a b); try lia
  | H : context [Pos.compare ?a ?b] |- _ => destruct (Pos.compare_spec a b); try lia
  end.

Ltac order_solve :=
  unfold SFltb, SFleb, SFeqb, SFcompare in *;
  repeat match goal with
  | s : bool |- _ => destruct s
  end;
  try discriminate; try reflexivity; try tauto;
  subst; order_cases; subst;
  try discriminate; try reflexivity; try tauto; try lia.

Lemma SFltb_asym x y : SFltb x y = true -> SFltb y x = false.
Proof. destruct x, y; intros H; order_solve. Qed.

Lemma SFltb_trans x y z : SFltb x y = true -> SFltb y z = true -> SFltb x z = true.
Proof. destruct x, y, z; intros H1 H2; order_solve. Qed.

Lemma SFleb_trans x y z : SFleb x y = true -> SFleb y z = true -> SFleb x z = true.
Proof. destruct x, y, z; intros H1 H2; order_solve. Qed.

Lemma SFltb_leb_trans x y z :
  SFltb x y = true -> SFleb y z = true -> SFltb x z = true.
Proof. destruct x, y, z; intros H1 H2; order_solve. Qed.

Lemma SFleb_ltb_trans x y z :
  SFleb x y = true -> SFltb y z = true -> SFltb x z = true.
Proof. destruct x, y, z; intros H1 H2; order_solve. Qed.

Lemma SFltb_leb_false x y : SFltb x y = true -> SFleb y x = false.
Proof. destruct x, y; intros H; order_solve. Qed.

Lemma SFltb_false_leb x y :
  x <> S754_nan -> y <> S754_nan -> SFltb y x = false -> SFleb x y = true.
Proof. destruct x, y; intros N1 N2 H; try congruence; order_solve. Qed.

Lemma SFleb_not_nan x y : SFleb x y = true -> x <> S754_nan /\ y <> S754_nan.
Proof. destruct x, y; intros H; split; try discriminate; order_solve. Qed.

Lemma SFltb_leb x y : SFltb x y = true -> SFleb x y = true.
Proof. destruct x, y; intros H; order_solve. Qed.

Lemma SFeqb_refl x : x <> S754_nan -> SFeqb x x = true.
Proof. destruct x; intros N; try congruence; order_solve. Qed.

(** *** The same facts on numbers *)

Local Open Scope float_scope.

Lemma is_nan_false (x : float) :
  PrimFloat.is_nan x = false <-> Prim2SF x <> S754_nan.
Proof.
  unfold PrimFloat.is_nan. rewrite eqb_spec, negb_false_iff. split.
  - intros H N. rewrite N in H. discriminate.
  - apply SFeqb_refl.
Qed.

Lemma ltb_asym x y : (x <? y) = true -> (y <? x) = false.
Proof. rewrite !ltb_spec. apply SFltb_asym. Qed.

Lemma ltb_irrefl x : (x <? x) = false.
Proof.
  destruct (x <? x) eqn:E; [| reflexivity].
  pose proof (ltb_asym _ _ E). congruence.
Qed.

Lemma ltb_trans x y z : (x <? y) = true -> (y <? z) = true -> (x <? z) = true.
Proof. rewrite !ltb_spec. apply SFltb_trans. Qed.

Lemma leb_trans x y z : (x <=? y) = true -> (y <=? z) = true -> (x <=? z) = true.
Proof. rewrite !leb_spec. apply SFleb_trans. Qed.

Lemma ltb_leb_trans x y z : (x <? y) = true -> (y <=? z) = true -> (x <? z) = true.
Proof. rewrite !ltb_spec, !leb_spec. apply SFltb_leb_trans. Qed.

Lemma leb_ltb_trans x y z : (x <=? y) = true -> (y <? z) = true -> (x <? z) = true.
Proof. rewrite !ltb_spec, !leb_spec. apply SFleb_ltb_trans. Qed.

Lemma ltb_leb_false x y : (x <? y) = true -> (y <=? x) = false.
Proof. rewrite ltb_spec, leb_spec. apply SFltb_leb_false. Qed.

Lemma ltb_leb x y : (x <? y) = true -> (x <=? y) = true.
Proof. rewrite ltb_spec, leb_spec. apply SFltb_leb. Qed.

Lemma ltb_false_leb x y :
  PrimFloat.is_nan x = false -> PrimFloat.is_nan y = false ->
  (y <? x) = false -> (x <=? y) = true.
Proof.
  rewrite !is_nan_false, ltb_spec, leb_spec. apply SFltb_false_leb.
Qed.

Lemma leb_not_nan x y :
  (x <=? y) = true -> PrimFloat.is_nan x = false /\ PrimFloat.is_nan y = false.
Proof. rewrite !is_nan_false, leb_spec. apply SFleb_not_nan. Qed.

Lemma ltb_not_nan x y :
  (x <? y) = true -> PrimFloat.is_nan x = false /\ PrimFloat.is_nan y = false.
Proof. intros H. apply leb_not_nan, ltb_leb, H. Qed.

Lemma leb_refl x : PrimFloat.is_nan x = false -> (x <=? x) = true.
Proof. intros N. apply ltb_false_leb; auto using ltb_irrefl. Qed.

(** *** Zero differences *)

Lemma is_finite_cases (x : float) :
  PrimFloat.is_finite x = true ->
  (exists s, Prim2SF x = S754_zero s)
  \/ (exists s m e, Prim2SF x = S754_finite s m e).
Proof.
  unfold PrimFloat.is_finite, PrimFloat.is_nan, PrimFloat.is_infinity.
  rewrite !eqb_spec, abs_spec.
  change (Prim2SF infinity) with (S754_infinity false).
  destruct (Prim2SF x) as [s | [|] | | s m e]; simpl; try discriminate.
  - left. now exists s.
  - right. now exists s, m, e.
Qed.

Lemma sub_self (x : float) : PrimFloat.is_finite x = true -> x - x = 0.
Proof.
  intros H. apply Prim2SF_inj. rewrite sub_spec.
  change (Prim2SF 0) with (S754_zero false).
  destruct (is_finite_cases x H) as [[s ->] | (s & m & e & ->)].
  - now destruct s.
  - unfold SF64sub, SFsub. now rewrite Z.sub_diag.
Qed.

Lemma sub_zero (x : float) : x - 0 = x.
Proof.
  apply Prim2SF_inj. rewrite sub_spec.
  change (Prim2SF 0) with (S754_zero false).
  destruct (Prim2SF x) as [[|] | s | | s m e]; reflexivity.
Qed.

Lemma add_zero_not_lt (x : float) : (x + 0 <? x) = false.
Proof.
  rewrite ltb_spec, add_spec.
  change (Prim2SF 0) with (S754_zero false).
  destruct (Prim2SF x) as [[|] | [|] | | s m e] eqn:E; try reflexivity.
  change (SF64add (S754_finite s m e) (S754_zero false))
    with (S754_finite s m e).
  rewrite <- E, <- ltb_spec. apply ltb_irrefl.
Qed.

(** The number an array length denotes is neither zero nor NaN. *)
Lemma zero_div_length (n : nat) :
  (0 < Z.of_nat n < 2 ^ 32)%Z -> 0 / Js.of_nat n = 0.
Proof.
  intros Hn. apply Prim2SF_inj. unfold Js.of_nat.
  rewrite div_spec, of_uint63_spec, Uint63.of_Z_spec.
  change (Prim2SF 0) with (S754_zero false).
  rewrite Z.mod_small by (change Uint63.wB with (2 ^ 63)%Z; lia).
  destruct (Z.of_nat n) as [| p | p]; try lia.
  simpl binary_normalize.
  destruct (binary_round_nonzero false p 0 ltac:(rewrite emin_val; lia))
    as [(m' & e' & ->) | ->]; reflexivity.
Qed.

End Binary64.

(** ** Rounding errors

    Each binary64 operation returns the exact result rounded to nearest;
    the lemmas below bound the error, from the specification of the
    operations on [spec_float]. *)

Module Rounding.
Import Binary64 Real64.
Import Reals Lra.
Local Open Scope R_scope.

Lemma bpow_pos e : 0 < bpow e.
Proof. apply powerRZ_lt. lra. Qed.

Lemma bpow_add a b : bpow (a + b) = bpow a * bpow b.
Proof. apply powerRZ_add. lra. Qed.

Lemma bpow_1 : bpow 1 = 2.
Proof. unfold bpow. simpl. lra. Qed.

Lemma bpow_0 : bpow 0 = 1.
Proof. reflexivity. Qed.

Lemma bpow_le a b : (a <= b)%Z -> bpow a <= bpow b.
Proof.
  intros H. replace b with (a + (b - a))%Z by lia. rewrite bpow_add.
  assert (1 <= bpow (b - a)).
  { unfold bpow. destruct (b - a)%Z as [| p | p] eqn:E; try lia; simpl.
    - lra.
    - apply pow_R1_Rle. lra. }
  pose proof (bpow_pos a). nra.
Qed.

Lemma bpow_IZR (k : Z) : (0 <= k)%Z -> bpow k = IZR (2 ^ k).
Proof.
  intros H. unfold bpow. destruct k as [| p | p]; try lia.
  - reflexivity.
  - unfold powerRZ. rewrite <- (positive_nat_Z p), <- pow_IZR. reflexivity.
Qed.

Lemma shr_1_inb (r : shr_record) (x : R) :
  (0 <= shr_m r)%Z ->
  inb x (shr_m r) (loc_of_shr_record r) ->
  inb (x / 2) (shr_m (shr_1 r)) (loc_of_shr_record (shr_1 r)).
Proof.
  destruct r as [m rb sb]. cbn [shr_m]. intros Hm H.
  destruct m as [| p | p]; [| | lia].
  - destruct rb, sb; cbn [inb loc_of_shr_record shr_1 shr_m orb] in *; lra.
  - destruct p as [p | p |].
    + assert (E : IZR (Z.pos p~1) = 2 * IZR (Z.pos p) + 1)
        by (rewrite (Pos2Z.inj_xI p), plus_IZR, mult_IZR; reflexivity).
      destruct rb, sb; cbn [inb loc_of_shr_record shr_1 shr_m orb] in *;
        rewrite E in H; lra.
    + assert (E : IZR (Z.pos p~0) = 2 * IZR (Z.pos p))
        by (rewrite (Pos2Z.inj_xO p), mult_IZR; reflexivity).
      destruct rb, sb; cbn [inb loc_of_shr_record shr_1 shr_m orb] in *;
        rewrite E in H; lra.
    + destruct rb, sb; cbn [inb loc_of_shr_record shr_1 shr_m orb] in *; lra.
Qed.

Lemma iter_shr_1_inb (p : positive) : forall (r : shr_record) (x : R),
  (0 <= shr_m r)%Z ->
  inb x (shr_m r) (loc_of_shr_record r) ->
  inb (x / bpow (Z.pos p)) (shr_m (SpecFloat.iter_pos shr_1 p r))
      (loc_of_shr_record (SpecFloat.iter_pos shr_1 p r)).
Proof.
  assert (Hnn : forall q r, (0 <= shr_m r)%Z -> (0 <= shr_m (SpecFloat.iter_pos shr_1 q r))%Z).
  { intros q r Hr. rewrite iter_shr_1_m by assumption. apply Z.div_pos; lia. }
  assert (H1 : forall r, (0 <= shr_m r)%Z -> (0 <= shr_m (shr_1 r))%Z).
  { intros r Hr. rewrite shr_1_m by assumption. apply Z.div_pos; lia. }
  induction p as [p IH | p IH |]; intros r x Hr H; simpl iter_pos.
  - replace (x / bpow (Z.pos p~1)) with (x / 2 / bpow (Z.pos p) / bpow (Z.pos p)).
    + apply IH; auto. apply IH; auto. now apply shr_1_inb.
    + rewrite Pos2Z.inj_xI.
      replace (2 * Z.pos p + 1)%Z with (1 + Z.pos p + Z.pos p)%Z by lia.
      rewrite !bpow_add, bpow_1. pose proof (bpow_pos (Z.pos p)). field. lra.
  - replace (x / bpow (Z.pos p~0)) with (x / bpow (Z.pos p) / bpow (Z.pos p)).
    + apply IH; auto.
    + rewrite Pos2Z.inj_xO.
      replace (2 * Z.pos p)%Z with (Z.pos p + Z.pos p)%Z by lia.
      rewrite !bpow_add. pose proof (bpow_pos (Z.pos p)). field. lra.
  - rewrite bpow_1. now apply shr_1_inb.
Qed.

Lemma Zdigits2_bounds (m : Z) :
  (0 < m)%Z -> (2 ^ (Zdigits2 m - 1) <= m < 2 ^ Zdigits2 m)%Z.
Proof.
  destruct m as [| p | p]; try lia. intros _. apply digits2_pos_bounds.
Qed.

Lemma Zdigits2_nonneg (m : Z) : (0 <= Zdigits2 m)%Z.
Proof. destruct m; simpl; lia. Qed.

Lemma Zdigits2_le (m j : Z) :
  (0 <= m < 2 ^ j)%Z -> (0 <= j)%Z -> (Zdigits2 m <= j)%Z.
Proof.
  intros [H0 Hj] Hj0.
  destruct (Z.eq_dec m 0) as [-> | Hne]; [simpl; lia |].
  pose proof (Zdigits2_bounds m ltac:(lia)) as [Hlo _].
  pose proof (Zdigits2_nonneg m).
  destruct (Z_lt_le_dec j (Zdigits2 m)) as [Hlt | Hle]; [| assumption].
  exfalso.
  assert (2 ^ j <= 2 ^ (Zdigits2 m - 1))%Z by (apply Z.pow_le_mono_r; lia).
  lia.
Qed.

Lemma shr_record_of_loc_loc m l :
  loc_of_shr_record (shr_record_of_loc m l) = l.
Proof. destruct l as [| []]; reflexivity. Qed.

(** The first alignment of [binary_round_aux]: the value is kept, the
    mantissa fits the precision and the exponent is in range. *)
Lemma shr_fexp_spec (M E : Z) (l : location) (x : R) :
  (0 <= M)%Z -> inb x M l ->
  exists x1,
    let mrs := fst (shr_fexp prec emax M E l) in
    let e1 := snd (shr_fexp prec emax M E l) in
    inb x1 (shr_m mrs) (loc_of_shr_record mrs)
    /\ x1 * bpow e1 = x * bpow E
    /\ (0 <= shr_m mrs)%Z
    /\ (Zdigits2 (shr_m mrs) <= 53)%Z
    /\ (emin <= e1)%Z.
Proof.
  intros HM Hx. unfold shr_fexp, shr. rewrite fexp64_eq, emin_val.
  set (d := Zdigits2 M).
  pose proof (Zdigits2_nonneg M) as Hd. fold d in Hd.
  destruct (Z.max (d + E - 53) (-1074) - E)%Z as [| p | p] eqn:Hk;
    cbn [fst snd].
  - exists x. rewrite shr_record_of_loc_m, shr_record_of_loc_loc.
    repeat split; auto; fold d; lia.
  - exists (x / bpow (Z.pos p)).
    assert (H0 : (0 <= shr_m (shr_record_of_loc M l))%Z)
      by (rewrite shr_record_of_loc_m; exact HM).
    split; [| split; [| split; [| split]]].
    + apply iter_shr_1_inb; [assumption |].
      now rewrite shr_record_of_loc_m, shr_record_of_loc_loc.
    + rewrite bpow_add. pose proof (bpow_pos (Z.pos p)). field. lra.
    + rewrite iter_shr_1_m by assumption. apply Z.div_pos; lia.
    + rewrite iter_shr_1_m by assumption. rewrite shr_record_of_loc_m.
      destruct (Z.eq_dec M 0) as [-> | Hne].
      * rewrite Z.div_0_l by lia. simpl. lia.
      * pose proof (Zdigits2_bounds M ltac:(lia)) as [_ Hhi]. fold d in Hhi.
        apply Zdigits2_le; [| lia].
        split; [apply Z.div_pos; lia |].
        apply Z.div_lt_upper_bound; [lia |].
        rewrite <- Z.pow_add_r by lia.
        apply Z.lt_le_trans with (2 ^ d)%Z; [assumption |].
        apply Z.pow_le_mono_r; lia.
    + lia.
  - exists x. rewrite shr_record_of_loc_m, shr_record_of_loc_loc.
    repeat split; auto; fold d; lia.
Qed.

Lemma round_nearest_even_near (m : Z) (l : location) (x : R) :
  inb x m l ->
  Rabs (IZR (round_nearest_even m l) - x) <= / 2
  /\ (m <= round_nearest_even m l <= m + 1)%Z.
Proof.
  intros H. destruct l as [| []]; cbn [inb round_nearest_even] in *.
  - subst. rewrite Rminus_diag, Rabs_R0. split; [lra | lia].
  - destruct (Z.even m).
    + subst. split; [| lia]. rewrite Rabs_left1; lra.
    + subst. split; [| lia]. rewrite plus_IZR. rewrite Rabs_right; lra.
  - split; [| lia]. rewrite Rabs_left1; lra.
  - split; [| lia]. rewrite plus_IZR. rewrite Rabs_right; lra.
Qed.

(** The second alignment of [binary_round_aux] loses nothing. *)
Lemma shr_fexp_exact (N e1 : Z) :
  (0 <= N <= 2 ^ 53)%Z -> (emin <= e1)%Z ->
  let mrs := fst (shr_fexp prec emax N e1 loc_Exact) in
  let e2 := snd (shr_fexp prec emax N e1 loc_Exact) in
  IZR (shr_m mrs) * bpow e2 = IZR N * bpow e1 /\ (e1 <= e2)%Z.
Proof.
  intros HN He. rewrite emin_val in He.
  destruct (Z.eq_dec N (2 ^ 53)) as [-> | Hne].
  - unfold shr_fexp, shr. rewrite fexp64_eq.
    change (Zdigits2 (2 ^ 53)) with 54%Z.
    replace (Z.max (54 + e1 - 53) (-1074) - e1)%Z with 1%Z by lia.
    cbn [fst snd]. split; [| lia].
    change (shr_m _) with (2 ^ 52)%Z.
    rewrite bpow_add, bpow_1.
    change (2 ^ 53)%Z with (2 * 2 ^ 52)%Z. rewrite mult_IZR. lra.
  - assert (Hd : (Zdigits2 N <= 53)%Z) by (apply Zdigits2_le; lia).
    unfold shr_fexp, shr. rewrite fexp64_eq.
    destruct (Z.max (Zdigits2 N + e1 - 53) (-1074) - e1)%Z eqn:Hk;
      cbn [fst snd shr_record_of_loc shr_m]; try lia; split; try lia;
      reflexivity.
Qed.

(** Rounding to nearest: a finite result of [binary_round_aux] is within
    half a unit in its last place of the number rounded. *)
Lemma binary_round_aux_near (s s' : bool) (M E : Z) (l : location) (x : R)
  (m' : positive) (e' : Z) :
  (0 <= M)%Z -> inb x M l ->
  binary_round_aux prec emax s M E l = S754_finite s' m' e' ->
  Rabs (F2R (Z.pos m') e' - x * bpow E) <= bpow e' / 2.
Proof.
  intros HM Hx. unfold binary_round_aux.
  destruct (shr_fexp_spec M E l x HM Hx) as (x1 & H1 & Hv & H0 & Hd & He).
  destruct (shr_fexp prec emax M E l) as [mrs e1]. cbn [fst snd] in *.
  destruct (round_nearest_even_near _ _ _ H1) as [Hn HN].
  set (N := round_nearest_even (shr_m mrs) (loc_of_shr_record mrs)) in *.
  assert (HN53 : (0 <= N <= 2 ^ 53)%Z).
  { split; [lia |].
    destruct (Z.eq_dec (shr_m mrs) 0) as [E0 | Hne]; [rewrite E0 in HN; lia |].
    pose proof (Zdigits2_bounds (shr_m mrs) ltac:(lia)) as [_ Hhi].
    assert (2 ^ Zdigits2 (shr_m mrs) <= 2 ^ 53)%Z
      by (apply Z.pow_le_mono_r; lia).
    lia. }
  destruct (shr_fexp_exact N e1 HN53 He) as [Hex Hle].
  destruct (shr_fexp prec emax N e1 loc_Exact) as [mrs2 e2].
  cbn [fst snd] in *.
  destruct (shr_m mrs2) as [| q | q] eqn:Hq; try discriminate.
  destruct (e2 <=? emax - prec)%Z; try discriminate.
  intros [= _ <- <-]. unfold F2R. rewrite Hex, <- Hv.
  replace (IZR N * bpow e1 - x1 * bpow e1) with ((IZR N - x1) * bpow e1) by ring.
  rewrite Rabs_mult, (Rabs_right (bpow e1)) by (left; apply bpow_pos).
  pose proof (bpow_le e1 e2 Hle). pose proof (bpow_pos e1).
  pose proof (Rabs_pos (IZR N - x1)). nra.
Qed.

(** An infinite result comes from a large number only. *)
Lemma binary_round_aux_overflow (s s' : bool) (M E : Z) (l : location) (x : R) :
  (0 <= M)%Z -> inb x M l ->
  binary_round_aux prec emax s M E l = S754_infinity s' ->
  bpow 971 <= x * bpow E.
Proof.
  intros HM Hx. unfold binary_round_aux.
  destruct (shr_fexp_spec M E l x HM Hx) as (x1 & H1 & Hv & H0 & Hd & He).
  destruct (shr_fexp prec emax M E l) as [mrs e1]. cbn [fst snd] in *.
  destruct (round_nearest_even_near _ _ _ H1) as [Hn HN].
  set (N := round_nearest_even (shr_m mrs) (loc_of_shr_record mrs)) in *.
  assert (HN53 : (0 <= N <= 2 ^ 53)%Z).
  { split; [lia |].
    destruct (Z.eq_dec (shr_m mrs) 0) as [E0 | Hne]; [rewrite E0 in HN; lia |].
    pose proof (Zdigits2_bounds (shr_m mrs) ltac:(lia)) as [_ Hhi].
    assert (2 ^ Zdigits2 (shr_m mrs) <= 2 ^ 53)%Z
      by (apply Z.pow_le_mono_r; lia).
    lia. }
  destruct (shr_fexp_exact N e1 HN53 He) as [Hex Hle].
  destruct (shr_fexp prec emax N e1 loc_Exact) as [mrs2 e2].
  cbn [fst snd] in *.
  destruct (shr_m mrs2) as [| q | q] eqn:Hq; try discriminate.
  destruct (e2 <=? emax - prec)%Z eqn:Hov; try discriminate.
  intros _. apply Z.leb_gt in Hov. change (emax - prec)%Z with 971%Z in Hov.
  rewrite <- Hv.
  assert (HNpos : (1 <= N)%Z).
  { destruct (Z.eq_dec N 0) as [E0 | Hne]; [| lia].
    rewrite E0 in Hex. rewrite Rmult_0_l in Hex.
    pose proof (bpow_pos e2). pose proof (IZR_lt 0 (Z.pos q) ltac:(lia)). nra. }
  assert (Hq1 : 1 <= IZR (Z.pos q)) by (apply IZR_le; lia).
  assert (HN1 : 1 <= IZR N) by (apply IZR_le; lia).
  assert (Hb : bpow 972 <= bpow e2) by (apply bpow_le; lia).
  assert (Hb2 : bpow 972 = 2 * bpow 971)
    by (change 972%Z with (1 + 971)%Z; rewrite bpow_add, bpow_1; reflexivity).
  pose proof (bpow_pos e2). pose proof (bpow_pos e1). pose proof (bpow_pos 971).
  assert (Hx1 : IZR N / 2 <= x1).
  { unfold Rabs in Hn. destruct (Rcase_abs (IZR N - x1)); lra. }
  assert (IZR N * bpow e1 >= bpow 972) by nra.
  nra.
Qed.

Lemma binary_round_aux_not_nan (s : bool) (M E : Z) (l : location) :
  (0 <= M)%Z -> binary_round_aux prec emax s M E l <> S754_nan.
Proof.
  intros HM. unfold binary_round_aux.
  assert (Hx : inb (IZR M) M loc_Exact) by reflexivity.
  pose proof (shr_fexp_spec M E l) as Hs.
  assert (H0 : (0 <= shr_m (fst (shr_fexp prec emax M E l)))%Z).
  { unfold shr_fexp, shr.
    destruct (fexp prec emax (Zdigits2 M + E) - E)%Z; cbn [fst];
      rewrite ?iter_shr_1_m, ?shr_record_of_loc_m;
      try apply Z.div_pos; rewrite ?shr_record_of_loc_m; lia. }
  destruct (shr_fexp prec emax M E l) as [mrs e1]. cbn [fst] in H0.
  set (N := round_nearest_even (shr_m mrs) (loc_of_shr_record mrs)).
  assert (HN : (0 <= N)%Z).
  { unfold N. destruct (loc_of_shr_record mrs) as [| []]; simpl; try lia.
    destruct (Z.even (shr_m mrs)); lia. }
  assert (H2 : (0 <= shr_m (fst (shr_fexp prec emax N e1 loc_Exact)))%Z).
  { unfold shr_fexp, shr.
    destruct (fexp prec emax (Zdigits2 N + e1) - e1)%Z; cbn [fst];
      rewrite ?iter_shr_1_m; cbn [shr_record_of_loc shr_m];
      try apply Z.div_pos; cbn [shr_record_of_loc shr_m]; lia. }
  destruct (shr_fexp prec emax N e1 loc_Exact) as [mrs2 e2]. cbn [fst] in H2.
  destruct (shr_m mrs2); try lia; try discriminate.
  destruct (e2 <=? emax - prec)%Z; discriminate.
Qed.


Lemma binary_round_aux_cases (s : bool) (M E : Z) (l : location) (x : R) :
  (0 <= M)%Z -> inb x M l ->
  rounds_to s (x * bpow E) (binary_round_aux prec emax s M E l).
Proof.
  intros HM Hx. unfold rounds_to.
  pose proof (binary_round_aux_sign s M E l) as Hs.
  pose proof (binary_round_aux_not_nan s M E l HM) as Hn.
  destruct (binary_round_aux prec emax s M E l) as [s' | s' | | s' m e] eqn:Hr;
    try subst s'.
  - now left.
  - right. left. split; [reflexivity |].
    eapply binary_round_aux_overflow; eauto.
  - congruence.
  - right. right. exists (Z.pos m), e. split; [reflexivity |].
    split; [lia |]. eapply binary_round_aux_near; eauto.
Qed.

Lemma shl_align_value (m : positive) (e e0 : Z) :
  F2R (Z.pos (fst (shl_align m e e0))) (snd (shl_align m e e0))
  = F2R (Z.pos m) e.
Proof.
  unfold shl_align. destruct (e0 - e)%Z as [| p | p] eqn:Hd; cbn [fst snd];
    try reflexivity.
  pose proof (shl_align_fst m e e0 ltac:(lia)) as H.
  unfold shl_align in H. rewrite Hd in H. cbn [fst] in H.
  unfold F2R. rewrite H, mult_IZR, <- bpow_IZR by lia.
  rewrite Rmult_assoc, <- bpow_add. f_equal. f_equal. lia.
Qed.

Lemma binary_round_cases (s : bool) (m : positive) (e : Z) :
  rounds_to s (F2R (Z.pos m) e) (binary_round prec emax s m e).
Proof.
  unfold binary_round.
  pose proof (shl_align_value m e (fexp prec emax (Z.pos (digits2_pos m) + e)))
    as Hv.
  destruct (shl_align m e _) as [mz ez]. cbn [fst snd] in Hv.
  rewrite <- Hv. unfold F2R.
  apply binary_round_aux_cases; [lia | reflexivity].
Qed.

(** *** Products and sums *)

Lemma SFmul_self (sd : bool) (md : positive) (ed : Z) :
  rounds_to false (F2R (Z.pos md) ed * F2R (Z.pos md) ed)
    (SF64mul (S754_finite sd md ed) (S754_finite sd md ed)).
Proof.
  unfold SF64mul, SFmul. rewrite xorb_nilpotent.
  replace (F2R (Z.pos md) ed * F2R (Z.pos md) ed)
    with (IZR (Z.pos (md * md)) * bpow (ed + ed)).
  - apply binary_round_aux_cases; [lia | reflexivity].
  - unfold F2R. rewrite Pos2Z.inj_mul, mult_IZR, bpow_add. ring.
Qed.

Lemma SFadd_pos (ma mb : positive) (ea eb : Z) :
  rounds_to false (F2R (Z.pos ma) ea + F2R (Z.pos mb) eb)
    (SF64add (S754_finite false ma ea) (S754_finite false mb eb)).
Proof.
  unfold SF64add, SFadd, cond_Zopp.
  set (ez := Z.min ea eb).
  pose proof (shl_align_fst ma ea ez ltac:(lia)) as Ha.
  pose proof (shl_align_fst mb eb ez ltac:(lia)) as Hb.
  set (a' := fst (shl_align ma ea ez)) in *.
  set (b' := fst (shl_align mb eb ez)) in *.
  change (Z.pos a' + Z.pos b')%Z with (Z.pos (a' + b')).
  cbn [binary_normalize].
  replace (F2R (Z.pos ma) ea + F2R (Z.pos mb) eb)
    with (F2R (Z.pos (a' + b')) ez); [apply binary_round_cases |].
  unfold F2R. rewrite Pos2Z.inj_add, plus_IZR, Ha, Hb, !mult_IZR.
  rewrite <- !bpow_IZR by lia.
  replace (bpow ea) with (bpow (ea - ez) * bpow ez)
    by (rewrite <- bpow_add; f_equal; lia).
  replace (bpow eb) with (bpow (eb - ez) * bpow ez)
    by (rewrite <- bpow_add; f_equal; lia).
  ring.
Qed.

(** A number within half a unit of a number of its own grid is that
    number. *)
Lemma near_grid_exact (m K e ez : Z) :
  (e <= ez)%Z ->
  Rabs (F2R m e - F2R K ez) <= bpow e / 2 -> F2R m e = F2R K ez.
Proof.
  intros Hle H.
  assert (HK : F2R K ez = F2R (K * 2 ^ (ez - e)) e).
  { unfold F2R. rewrite mult_IZR, <- bpow_IZR by lia.
    rewrite Rmult_assoc, <- bpow_add. f_equal. f_equal. lia. }
  rewrite HK in *. unfold F2R in *.
  set (K' := (K * 2 ^ (ez - e))%Z) in *.
  replace (IZR m * bpow e - IZR K' * bpow e) with (IZR (m - K') * bpow e) in H
    by (rewrite minus_IZR; ring).
  pose proof (bpow_pos e) as Hp.
  rewrite Rabs_mult, (Rabs_right (bpow e)) in H by lra.
  assert (Hab : Rabs (IZR (m - K')) < 1) by nra.
  assert (m - K' = 0)%Z; [| replace m with K' by lia; reflexivity].
  destruct (Z_lt_le_dec (m - K') 1) as [H1 | H1];
    [destruct (Z_lt_le_dec (-1) (m - K')) as [H2 | H2]; [lia |] |].
  - apply IZR_le in H2. rewrite Rabs_left1 in Hab; lra.
  - apply IZR_le in H1. rewrite Rabs_right in Hab; lra.
Qed.

(** *** Quotients *)

Lemma new_location_inb (nb k q : Z) :
  (0 < nb)%Z -> (0 <= k < nb)%Z ->
  inb (IZR q + IZR k / IZR nb) q (new_location nb k).
Proof.
  intros Hnb Hk.
  assert (Hn : 0 < IZR nb) by (apply IZR_lt; lia).
  assert (Hk0 : 0 <= IZR k) by (apply IZR_le; lia).
  assert (Hkn : IZR k < IZR nb) by (apply IZR_lt; lia).
  assert (Hdiv : forall c : R, (IZR k / IZR nb < c <-> IZR k < c * IZR nb)
                               /\ (c < IZR k / IZR nb <-> c * IZR nb < IZR k)).
  { intros c. unfold Rdiv.
    split; split; intros H.
    - apply Rmult_lt_compat_r with (r := IZR nb) in H; [| assumption].
      rewrite Rmult_assoc, Rinv_l, Rmult_1_r in H by lra. exact H.
    - apply Rmult_lt_reg_r with (r := IZR nb); [assumption |].
      rewrite Rmult_assoc, Rinv_l, Rmult_1_r by lra. exact H.
    - apply Rmult_lt_compat_r with (r := IZR nb) in H; [| assumption].
      rewrite Rmult_assoc, Rinv_l, Rmult_1_r in H by lra. exact H.
    - apply Rmult_lt_reg_r with (r := IZR nb); [assumption |].
      rewrite Rmult_assoc, Rinv_l, Rmult_1_r by lra. exact H. }
  unfold new_location, new_location_even, new_location_odd.
  destruct (Z.even nb) eqn:Hev; cbv beta;
    (destruct (Z.eq_dec k 0) as [-> | Hne];
     [ rewrite Z.eqb_refl; cbn [inb]; unfold Rdiv; rewrite Rmult_0_l; lra
     | rewrite (proj2 (Z.eqb_neq k 0) Hne) ]).
  - assert (Hk1 : 1 <= IZR k) by (apply IZR_le; lia).
    assert (Hpos : 0 < IZR k / IZR nb) by (apply (Hdiv 0); lra).
    assert (Hlt1 : IZR k / IZR nb < 1) by (apply (Hdiv 1); lra).
    destruct (Z.compare_spec (2 * k) nb) as [E | L | G]; cbn [inb].
    + assert (IZR k / IZR nb = / 2); [| lra].
      rewrite <- E, mult_IZR. field. lra.
    + apply IZR_lt in L. rewrite mult_IZR in L.
      assert (IZR k / IZR nb < / 2) by (apply (Hdiv (/ 2)); lra). lra.
    + apply IZR_lt in G. rewrite mult_IZR in G.
      assert (/ 2 < IZR k / IZR nb) by (apply (Hdiv (/ 2)); lra). lra.
  - assert (Hk1 : 1 <= IZR k) by (apply IZR_le; lia).
    assert (Hpos : 0 < IZR k / IZR nb) by (apply (Hdiv 0); lra).
    assert (Hlt1 : IZR k / IZR nb < 1) by (apply (Hdiv 1); lra).
    assert (Hodd : (2 * k <> nb)%Z).
    { intros E. rewrite <- E, Z.even_mul in Hev. discriminate. }
    destruct (Z.compare_spec (2 * k + 1) nb) as [E | L | G]; cbn [inb].
    + assert (L : (2 * k < nb)%Z) by lia.
      apply IZR_lt in L. rewrite mult_IZR in L.
      assert (IZR k / IZR nb < / 2) by (apply (Hdiv (/ 2)); lra). lra.
    + assert (L' : (2 * k < nb)%Z) by lia.
      apply IZR_lt in L'. rewrite mult_IZR in L'.
      assert (IZR k / IZR nb < / 2) by (apply (Hdiv (/ 2)); lra). lra.
    + assert (G' : (nb < 2 * k)%Z) by lia.
      apply IZR_lt in G'. rewrite mult_IZR in G'.
      assert (/ 2 < IZR k / IZR nb) by (apply (Hdiv (/ 2)); lra). lra.
Qed.

Lemma F2R_pos (m : positive) (e : Z) : 0 < F2R (Z.pos m) e.
Proof.
  unfold F2R. apply Rmult_lt_0_compat; [apply IZR_lt; lia | apply bpow_pos].
Qed.

Lemma SFdiv_core_inb (ma mb : positive) (ea eb : Z) :
  let c := SFdiv_core_binary prec emax (Z.pos ma) ea (Z.pos mb) eb in
  exists x, inb x (fst (fst c)) (snd c) /\ (0 <= fst (fst c))%Z
            /\ x * bpow (snd (fst c)) = F2R (Z.pos ma) ea / F2R (Z.pos mb) eb.
Proof.
  unfold SFdiv_core_binary.
  set (e' := Z.min _ (ea - eb)).
  assert (Hs : (0 <= ea - eb - e')%Z) by (unfold e'; lia).
  set (m' := match (ea - eb - e')%Z with
             | 0%Z => Z.pos ma | Z.pos _ => Z.shiftl (Z.pos ma) (ea - eb - e')
             | Z.neg _ => 0%Z end).
  assert (Hm' : m' = (Z.pos ma * 2 ^ (ea - eb - e'))%Z).
  { unfold m'. destruct (ea - eb - e')%Z as [| p | p] eqn:E; try lia.
    now rewrite Z.shiftl_mul_pow2 by lia. }
  pose proof (Z_div_mod m' (Z.pos mb) ltac:(lia)) as Hdm.
  destruct (Z.div_eucl m' (Z.pos mb)) as [q r]. destruct Hdm as [Hq Hr].
  cbn [fst snd].
  assert (Hq0 : (0 <= q)%Z).
  { assert (0 <= m')%Z by (rewrite Hm'; apply Z.mul_nonneg_nonneg; lia).
    destruct (Z_lt_le_dec q 0); [| assumption]. nia. }
  exists (IZR q + IZR r / IZR (Z.pos mb)).
  split; [apply new_location_inb; lia |]. split; [assumption |].
  pose proof (F2R_pos mb eb) as Hb. unfold F2R in *.
  assert (Hmb : 0 < IZR (Z.pos mb)) by (apply IZR_lt; lia).
  pose proof (bpow_pos eb). pose proof (bpow_pos e').
  assert (Hm'R : IZR m' = IZR (Z.pos mb) * IZR q + IZR r)
    by (rewrite Hq, plus_IZR, mult_IZR; reflexivity).
  assert (Hm'R2 : IZR m' = IZR (Z.pos ma) * bpow (ea - eb - e'))
    by (rewrite Hm', mult_IZR, <- bpow_IZR by lia; reflexivity).
  assert (Hea : bpow ea = bpow (ea - eb - e') * bpow eb * bpow e').
  { rewrite <- !bpow_add. f_equal. lia. }
  rewrite Hea.
  replace (IZR (Z.pos ma) * (bpow (ea - eb - e') * bpow eb * bpow e'))
    with (IZR m' * bpow eb * bpow e') by (rewrite Hm'R2; ring).
  rewrite Hm'R. field. split; lra.
Qed.

Lemma SFdiv_finite (sa sb : bool) (ma mb : positive) (ea eb : Z) :
  rounds_to (xorb sa sb) (F2R (Z.pos ma) ea / F2R (Z.pos mb) eb)
    (SF64div (S754_finite sa ma ea) (S754_finite sb mb eb)).
Proof.
  unfold SF64div, SFdiv.
  destruct (SFdiv_core_inb ma mb ea eb) as (x & Hx & Hq & Hv).
  destruct (SFdiv_core_binary prec emax (Z.pos ma) ea (Z.pos mb) eb)
    as [[q e'] l].
  cbn [fst snd] in *. rewrite <- Hv.
  now apply binary_round_aux_cases.
Qed.

(** *** Square roots *)

Lemma SFsqrt_core_inb (m : positive) (e : Z) :
  let c := SFsqrt_core_binary prec emax (Z.pos m) e in
  exists x, inb x (fst (fst c)) (snd c) /\ (0 <= fst (fst c))%Z
            /\ x * bpow (snd (fst c)) = sqrt (F2R (Z.pos m) e).
Proof.
  unfold SFsqrt_core_binary.
  set (e' := Z.min _ (Z.div2 e)).
  assert (He' : (2 * e' <= e)%Z).
  { assert (e' <= Z.div2 e)%Z by (unfold e'; lia).
    rewrite Z.div2_div in H. pose proof (Z.mul_div_le e 2 ltac:(lia)). lia. }
  set (sh := (e - 2 * e')%Z).
  set (m' := match sh with
             | 0%Z => Z.pos m | Z.pos _ => Z.shiftl (Z.pos m) sh
             | Z.neg _ => 0%Z end).
  assert (Hm' : m' = (Z.pos m * 2 ^ sh)%Z).
  { unfold m'. destruct sh as [| p | p] eqn:E; try lia.
    now rewrite Z.shiftl_mul_pow2 by lia. }
  assert (Hm0 : (0 < m')%Z).
  { rewrite Hm'. apply Z.mul_pos_pos; [lia |]. apply Z.pow_pos_nonneg; lia. }
  pose proof (Z.sqrtrem_spec m' ltac:(lia)) as Hsq.
  destruct (Z.sqrtrem m') as [q r]. destruct Hsq as [Hq Hr].
  cbn [fst snd].
  assert (Hq0 : (0 <= q)%Z) by lia.
  set (t := sqrt (IZR m')).
  assert (Ht0 : 0 <= t) by apply sqrt_pos.
  assert (Htt : t * t = IZR m').
  { apply sqrt_sqrt. apply IZR_le. lia. }
  assert (HqR : IZR m' = IZR q * IZR q + IZR r)
    by (rewrite Hq, plus_IZR, mult_IZR; reflexivity).
  assert (Hq0R : 0 <= IZR q) by (apply IZR_le; lia).
  exists t. split; [| split; [assumption |]].
  - destruct (Z.eqb_spec r 0) as [-> | Hne]; cbn [inb].
    + rewrite Rplus_0_r in HqR. nra.
    + assert (Hr1 : 1 <= IZR r) by (apply IZR_le; lia).
      assert (Hr2 : IZR r <= 2 * IZR q)
        by (rewrite <- mult_IZR; apply IZR_le; lia).
      destruct (Z.leb_spec r q) as [Hle | Hgt]; cbn [inb].
      * apply IZR_le in Hle. split; nra.
      * assert (Hgt' : IZR q + 1 <= IZR r)
          by (rewrite <- plus_IZR; apply IZR_le; lia).
        split; nra.
  - unfold t, F2R.
    assert (Hval : IZR (Z.pos m) * bpow e = IZR m' * (bpow e' * bpow e')).
    { rewrite Hm', mult_IZR, <- bpow_IZR by (unfold sh; lia).
      rewrite Rmult_assoc, <- !bpow_add. f_equal. f_equal. unfold sh. lia. }
    rewrite Hval, sqrt_mult, sqrt_square.
    + reflexivity.
    + left. apply bpow_pos.
    + apply IZR_le. lia.
    + pose proof (bpow_pos e'). nra.
Qed.

Lemma SFsqrt_finite (m : positive) (e : Z) :
  rounds_to false (sqrt (F2R (Z.pos m) e))
    (SF64sqrt (S754_finite false m e)).
Proof.
  unfold SF64sqrt, SFsqrt.
  destruct (SFsqrt_core_inb m e) as (x & Hx & Hq & Hv).
  destruct (SFsqrt_core_binary prec emax (Z.pos m) e) as [[q e'] l].
  cbn [fst snd] in *. rewrite <- Hv.
  now apply binary_round_aux_cases.
Qed.

(** *** Valid finite numbers *)


Lemma u53_small : 0 < u53 <= / 1000000.
Proof.
  unfold u53. split; [apply bpow_pos |].
  unfold bpow. simpl. lra.
Qed.

Lemma eta_pos : 0 < eta.
Proof. apply bpow_pos. Qed.

Lemma bounded_shape (m : positive) (e : Z) :
  SpecFloat.bounded prec emax m e = true ->
  (emin <= e)%Z /\ (Z.pos m < 2 ^ 53)%Z
  /\ ((2 ^ 52 <= Z.pos m)%Z \/ e = emin).
Proof.
  intros H. destruct (bounded_canonical m e H) as (He & Hd & Hn).
  pose proof (digits2_pos_bounds m) as [Hlo Hhi].
  split; [assumption |]. split.
  - apply Z.lt_le_trans with (2 ^ Z.pos (digits2_pos m))%Z; [assumption |].
    apply Z.pow_le_mono_r; lia.
  - destruct (Z.eq_dec e emin) as [-> | Hne]; [now right | left].
    rewrite Hn in Hlo by lia. exact Hlo.
Qed.

(** Half a unit in the last place, relative to the number. *)
Lemma half_ulp (m : positive) (e : Z) :
  SpecFloat.bounded prec emax m e = true ->
  bpow e / 2 <= F2R (Z.pos m) e * u53 + eta
  /\ 2 * eta <= F2R (Z.pos m) e
  /\ ((2 ^ 52 <= Z.pos m)%Z -> bpow e / 2 <= F2R (Z.pos m) e * u53).
Proof.
  intros H. destruct (bounded_shape m e H) as (He & Hm & Hc).
  pose proof (bpow_pos e) as Hb. pose proof eta_pos as Hη.
  assert (H52 : bpow 52 * u53 = / 2).
  { unfold u53. rewrite <- bpow_add. unfold bpow. simpl. lra. }
  assert (Hnorm : (2 ^ 52 <= Z.pos m)%Z -> bpow e / 2 <= F2R (Z.pos m) e * u53).
  { intros H2. apply IZR_le in H2. rewrite <- bpow_IZR in H2 by lia.
    unfold F2R. pose proof u53_small.
    assert (/ 2 <= IZR (Z.pos m) * u53) by nra. nra. }
  assert (Hmin : 2 * eta <= F2R (Z.pos m) e).
  { unfold F2R, eta.
    assert (1 <= IZR (Z.pos m)) by (apply IZR_le; lia).
    assert (bpow emin <= bpow e) by now apply bpow_le.
    assert (2 * bpow (-1075) = bpow emin).
    { rewrite emin_val. change (-1074)%Z with (1 + -1075)%Z.
      now rewrite bpow_add, bpow_1. }
    nra. }
  split; [| split; assumption].
  destruct Hc as [H2 | ->].
  - specialize (Hnorm H2). lra.
  - assert (bpow emin / 2 = eta).
    { unfold eta. rewrite emin_val. change (-1074)%Z with (1 + -1075)%Z.
      rewrite bpow_add, bpow_1. field. }
    assert (0 < F2R (Z.pos m) emin) by apply F2R_pos.
    pose proof u53_small. nra.
Qed.

(** The order of two valid positive numbers is the order of their
    values. *)
Lemma SFltb_pos_value (ma mb : positive) (ea eb : Z) :
  SpecFloat.bounded prec emax ma ea = true -> SpecFloat.bounded prec emax mb eb = true ->
  SFltb (S754_finite false ma ea) (S754_finite false mb eb) = true ->
  F2R (Z.pos ma) ea < F2R (Z.pos mb) eb.
Proof.
  intros Va Vb. unfold SFltb, SFcompare.
  destruct (Z.compare_spec ea eb) as [E | L | G]; try discriminate.
  - subst eb. change (Pos.compare_cont Eq ma mb) with (Pos.compare ma mb).
    destruct (Pos.compare_spec ma mb) as [| Hlt |]; try discriminate.
    intros _. unfold F2R. pose proof (bpow_pos ea).
    assert (IZR (Z.pos ma) < IZR (Z.pos mb)) by (apply IZR_lt; lia). nra.
  - intros _. pose proof (canonical_exponent_lt _ _ _ _ Va Vb L) as H.
    apply IZR_lt in H. rewrite mult_IZR, <- bpow_IZR in H by lia.
    unfold F2R. replace (bpow eb) with (bpow (eb - ea) * bpow ea)
      by (rewrite <- bpow_add; f_equal; lia).
    pose proof (bpow_pos ea). nra.
Qed.

Lemma deviation_chain (u eta n D vq vT vN vV vs : R) :
  0 < u <= / 1000000 -> 0 <= n * u <= / 1000000 -> 1 <= n ->
  0 < eta -> 2 * eta <= vq ->
  0 <= D ->
  Rabs (vq - D * D) <= vq * u + eta ->
  n * vq * (1 - n * u) <= vT ->
  0 < vN <= n * (1 + 2 * u) ->
  0 < vV -> Rabs (vV - vT / vN) <= vV * u + eta ->
  0 < vs -> Rabs (vs - sqrt vV) <= vs * u ->
  D / vs <= 7 / 4.
Proof.
  intros [Hu0 Hu] [Hnu0 Hnu] Hn Heta Hq HD H1 H2 [HN0 HN] HV H4 Hs H5.
  assert (Hq0 : 0 < vq) by lra.
  (* D^2 <= 1.51 vq *)
  assert (HD2 : D * D <= vq * (1501 / 1000)).
  { unfold Rabs in H1. destruct (Rcase_abs (vq - D * D)); nra. }
  (* X = vT / vN >= 0.99 vq *)
  set (X := vT / vN) in *.
  assert (HX : vq * (999 / 1000) <= X).
  { unfold X. apply Rmult_le_reg_r with (r := vN); [assumption |].
    replace (vT / vN * vN) with vT by (field; lra).
    assert (vq * (999 / 1000) * vN <= vq * (999 / 1000) * (n * (1 + 2 * u))) by nra.
    assert (n * vq * (999/1000) * (1 + 2 * u) <= n * vq * (1 - n * u)).
    { assert ((999/1000) * (1 + 2 * u) <= 1 - n * u) by nra.
      assert (0 <= n * vq) by nra. nra. }
    nra. }
  (* vV >= 0.48 vq *)
  assert (HVq : vq * (498 / 1000) <= vV).
  { unfold Rabs in H4. destruct (Rcase_abs (vV - X)); nra. }
  (* vs^2 >= 0.99 vV *)
  set (t := sqrt vV) in *.
  assert (Ht0 : 0 <= t) by apply sqrt_pos.
  assert (Htt : t * t = vV) by (apply sqrt_sqrt; lra).
  assert (Hst : t <= vs * (1 + u)).
  { unfold Rabs in H5. destruct (Rcase_abs (vs - t)); nra. }
  assert (HsV : vV <= vs * vs * (1001 / 1000)).
  { assert (t * t <= (vs * (1 + u)) * (vs * (1 + u))) by nra. nra. }
  (* conclude *)
  assert (HDs : D * D <= (7 / 4 * vs) * (7 / 4 * vs)) by nra.
  apply Rmult_le_reg_r with (r := vs); [assumption |].
  replace (D / vs * vs) with D by (field; lra).
  destruct (Rle_lt_dec D (7 / 4 * vs)) as [Hle | Hgt]; [lra |].
  exfalso. nra.
Qed.

(** *** The deviations of a constant column *)

Local Open Scope float_scope.

Lemma Prim2SF_bounded (f : float) s m e :
  Prim2SF f = S754_finite s m e -> SpecFloat.bounded prec emax m e = true.
Proof. intros H. pose proof (Prim2SF_valid f) as V. now rewrite H in V. Qed.

(** Dividing by an infinite number, or by NaN, gives nothing above 2. *)
Lemma ratio_special (a s : float) :
  Prim2SF s = S754_infinity false \/ Prim2SF s = S754_nan ->
  (2 <? PrimFloat.abs a / s) = false
  /\ (2 <? PrimFloat.abs (a / s)) = false.
Proof.
  intros Hs. rewrite !ltb_spec, abs_spec, !div_spec, abs_spec.
  change (Prim2SF 2) with (S754_finite false 4503599627370496 (-51)).
  destruct Hs as [-> | ->];
    destruct (Prim2SF a) as [[|] | [|] | | [|] ma ea]; split; reflexivity.
Qed.

(** A zero variance gives a zero standard deviation. *)
Lemma sqrt_zero_eq (v : float) :
  (exists sg, Prim2SF v = S754_zero sg) ->
  Js.strict_eq (PrimFloat.sqrt v) 0 = true.
Proof.
  intros [sg Hv]. unfold Js.strict_eq. rewrite eqb_spec, sqrt_spec, Hv.
  now destruct sg.
Qed.

Section ConstantSum.

Variables (q : float) (mq : positive) (eq : Z).
Hypothesis Hq : Prim2SF q = S754_finite false mq eq.

Let vq : R := F2R (Z.pos mq) eq.

(** The state of the running sum after [j] additions of [q]. *)
Let partial (j : nat) (acc : float) : Prop :=
  (j = 0%nat /\ Prim2SF acc = S754_zero false)
  \/ Prim2SF acc = S754_infinity false
  \/ (exists m e, Prim2SF acc = S754_finite false m e
                  /\ (INR j * vq * (1 - INR j * u53) <= F2R (Z.pos m) e)%R).

Lemma partial_step (j : nat) (acc : float) :
  partial j acc -> partial (S j) (acc + q).
Proof.
  pose proof (F2R_pos mq eq) as Hvq. fold vq in Hvq.
  pose proof u53_small as [Hu0 Hu].
  intros [[-> H0] | [Hinf | (m & e & Hacc & Hb)]]; unfold partial.
  - right. right. exists mq, eq. split.
    + now rewrite add_spec, H0, Hq.
    + fold vq. simpl INR. nra.
  - right. left. now rewrite add_spec, Hinf, Hq.
  - right.
    pose proof (Prim2SF_bounded _ _ _ _ Hacc) as Va.
    pose proof (Prim2SF_bounded _ _ _ _ Hq) as Vq.
    destruct (bounded_shape _ _ Va) as (Hea & _ & _).
    destruct (bounded_shape _ _ Vq) as (Heq & _ & _).
    pose proof (SFadd_pos m mq e eq) as Hr.
    assert (Hnz : (exists m' e', SF64add (S754_finite false m e)
                                   (S754_finite false mq eq)
                                 = S754_finite false m' e')
                  \/ SF64add (S754_finite false m e) (S754_finite false mq eq)
                     = S754_infinity false).
    { unfold SF64add, SFadd, cond_Zopp.
      match goal with
      | |- context [binary_normalize _ _ (Z.pos ?a + Z.pos ?b) _ _] =>
          change (Z.pos a + Z.pos b)%Z with (Z.pos (a + b))
      end.
      cbn [binary_normalize]. apply binary_round_nonzero. lia. }
    assert (Hgrid : exists K, F2R K (Z.min e eq)
                              = (F2R (Z.pos m) e + F2R (Z.pos mq) eq)%R).
    { exists (Z.pos m * 2 ^ (e - Z.min e eq) + Z.pos mq * 2 ^ (eq - Z.min e eq))%Z.
      unfold F2R. rewrite plus_IZR, !mult_IZR, <- !bpow_IZR by lia.
      assert (E1 : bpow e = (bpow (e - Z.min e eq) * bpow (Z.min e eq))%R)
        by (rewrite <- bpow_add; f_equal; lia).
      assert (E2 : bpow eq = (bpow (eq - Z.min e eq) * bpow (Z.min e eq))%R)
        by (rewrite <- bpow_add; f_equal; lia).
      rewrite E1, E2. ring. }
    rewrite add_spec, Hacc, Hq.
    destruct Hnz as [(m' & e' & Hres) | Hres]; [right | now left].
    exists m', e'. split; [exact Hres |].
    pose proof (Prim2SF_bounded (acc + q) false m' e') as Vr.
    rewrite add_spec, Hacc, Hq in Vr. specialize (Vr Hres).
    rewrite Hres in Hr.
    destruct Hr as [Hr | [[Hr _] | (m2 & e2 & Hr & Hm2 & Hnear)]];
      try discriminate.
    injection Hr as Hm He. subst e2.
    assert (Hm2' : Z.pos m' = m2) by (rewrite Hm, Z2Pos.id; lia).
    rewrite <- Hm2' in Hnear. clear Hm Hm2' Hm2 m2.
    set (F := F2R (Z.pos m') e') in *.
    set (S0 := (F2R (Z.pos m) e + F2R (Z.pos mq) eq)%R) in *.
    assert (HF : (S0 * (1 - u53) <= F)%R).
    { destruct (bounded_shape _ _ Vr) as (He' & _ & [Hn | He'']).
      - destruct (half_ulp _ _ Vr) as (_ & _ & Hh). specialize (Hh Hn).
        fold F in Hh.
        assert (S0 - F <= F * u53)%R.
        { unfold Rabs in Hnear. destruct (Rcase_abs (F - S0)); lra. }
        assert (0 < F)%R by apply F2R_pos. nra.
      - destruct Hgrid as [K HK]. fold S0 in HK. rewrite <- HK in Hnear.
        apply near_grid_exact in Hnear; [| lia].
        unfold F. rewrite Hnear, HK.
        assert (0 < S0)%R.
        { unfold S0. pose proof (F2R_pos m e). pose proof (F2R_pos mq eq). lra. }
        nra. }
    fold vq in S0. rewrite S_INR.
    assert (Hj : (0 <= INR j)%R) by apply pos_INR.
    assert (HS0 : ((INR j * vq * (1 - INR j * u53) + vq) * (1 - u53)
                   <= S0 * (1 - u53))%R).
    { apply Rmult_le_compat_r; [lra |]. unfold S0. lra. }
    assert (Hid : ((INR j + 1) * vq * (1 - (INR j + 1) * u53)
                   <= (INR j * vq * (1 - INR j * u53) + vq) * (1 - u53))%R).
    { assert (0 <= vq * (INR j * u53 + INR j * INR j * u53 * u53))%R.
      { apply Rmult_le_pos; [lra |].
        assert (0 <= INR j * u53)%R by nra.
        assert (0 <= INR j * u53 * (INR j * u53))%R by nra. nra. }
      nra. }
    lra.
Qed.

Lemma partial_fold (l : list float) : forall (j : nat) (acc : float),
  Forall (Logic.eq q) l -> partial j acc ->
  partial (j + length l) (fold_left PrimFloat.add l acc).
Proof.
  induction l as [| a l IH]; intros j acc Hl Hp; simpl.
  - now rewrite Nat.add_0_r.
  - apply Forall_cons_iff in Hl. destruct Hl as [<- Hl].
    replace (j + S (length l))%nat with (S j + length l)%nat by lia.
    apply IH; [assumption |]. now apply partial_step.
Qed.

Lemma sum_constant (l : list float) :
  l <> [] -> Forall (Logic.eq q) l ->
  Prim2SF (Js.sum l) = S754_infinity false
  \/ (exists m e, Prim2SF (Js.sum l) = S754_finite false m e
                  /\ (INR (length l) * vq * (1 - INR (length l) * u53)
                      <= F2R (Z.pos m) e)%R).
Proof.
  intros Hne Hl.
  pose proof (partial_fold l 0 0%float Hl) as H.
  assert (H0 : partial 0 0%float) by (left; split; reflexivity).
  specialize (H H0). simpl in H.
  destruct H as [[Hlen _] | H]; [| exact H].
  destruct l; [congruence | discriminate].
Qed.

End ConstantSum.

(** The number an array length denotes. *)
Lemma of_nat_shape (n : nat) :
  (0 < Z.of_nat n < 2 ^ 32)%Z ->
  Prim2SF (Js.of_nat n) = S754_infinity false
  \/ (exists m e, Prim2SF (Js.of_nat n) = S754_finite false m e
                  /\ (F2R (Z.pos m) e <= INR n * (1 + 2 * u53))%R).
Proof.
  intros Hn. unfold Js.of_nat.
  pose proof (Prim2SF_valid (of_uint63 (Uint63.of_Z (Z.of_nat n)))) as V.
  rewrite of_uint63_spec, Uint63.of_Z_spec in *.
  rewrite Z.mod_small in * by (change Uint63.wB with (2 ^ 63)%Z; lia).
  rewrite INR_IZR_INZ.
  destruct (Z.of_nat n) as [| p | p]; try lia.
  cbn [binary_normalize] in *.
  pose proof (binary_round_cases false p 0) as Hr.
  destruct (binary_round_nonzero false p 0 ltac:(rewrite emin_val; lia))
    as [(m & e & Hres) | Hres]; [right | now left].
  rewrite Hres in *. exists m, e. split; [reflexivity |].
  destruct Hr as [Hr | [[Hr _] | (m2 & e2 & Hr & Hm2 & Hnear)]];
    try discriminate.
  injection Hr as Hm He. subst e2.
  assert (Hm2' : Z.pos m = m2) by (rewrite Hm, Z2Pos.id; lia).
  rewrite <- Hm2' in Hnear. clear Hm Hm2' Hm2 m2.
  cbn [valid_binary SpecFloat.valid_binary] in V.
  pose proof u53_small as [Hu0 Hu].
  pose proof (F2R_pos m e) as HF.
  assert (Hp : F2R (Z.pos p) 0 = IZR (Z.pos p))
    by (unfold F2R; rewrite bpow_0; ring).
  assert (H1 : (1 <= IZR (Z.pos p))%R) by (apply IZR_le; lia).
  destruct (bounded_shape _ _ V) as (He' & _ & [Hnorm | He'']).
  - destruct (half_ulp _ _ V) as (_ & _ & Hh). specialize (Hh Hnorm).
    rewrite Hp in Hnear.
    assert (F2R (Z.pos m) e - IZR (Z.pos p) <= F2R (Z.pos m) e * u53)%R.
    { unfold Rabs in Hnear. destruct (Rcase_abs _) in Hnear; lra. }
    apply Rmult_le_reg_r with (r := (1 - u53)%R); [lra |].
    assert (Hc : (0 <= u53 * (1 - 2 * u53))%R) by nra.
    assert (Hc2 : (0 <= IZR (Z.pos p) * (u53 * (1 - 2 * u53)))%R)
      by (apply Rmult_le_pos; lra).
    assert (IZR (Z.pos p) <= IZR (Z.pos p) * (1 + 2 * u53) * (1 - u53))%R
      by lra.
    lra.
  - apply near_grid_exact in Hnear; [| rewrite He'', emin_val; lia].
    rewrite Hnear, Hp. nra.
Qed.

Lemma fold_add_nan (l : list float) : forall acc,
  Prim2SF acc = S754_nan -> Prim2SF (fold_left PrimFloat.add l acc) = S754_nan.
Proof.
  induction l as [| a l IH]; intros acc H; simpl; [exact H |].
  apply IH. now rewrite add_spec, H.
Qed.

Lemma fold_add_inf (q : float) (l : list float) : forall acc,
  Prim2SF q = S754_infinity false -> Forall (Logic.eq q) l ->
  Prim2SF acc = S754_infinity false ->
  Prim2SF (fold_left PrimFloat.add l acc) = S754_infinity false.
Proof.
  induction l as [| a l IH]; intros acc Hq Hl H; simpl; [exact H |].
  apply Forall_cons_iff in Hl. destruct Hl as [<- Hl].
  apply IH; auto. now rewrite add_spec, H, Hq.
Qed.

Lemma fold_add_zero (q : float) (l : list float) : forall acc,
  Prim2SF q = S754_zero false -> Forall (Logic.eq q) l ->
  Prim2SF acc = S754_zero false ->
  Prim2SF (fold_left PrimFloat.add l acc) = S754_zero false.
Proof.
  induction l as [| a l IH]; intros acc Hq Hl H; simpl; [exact H |].
  apply Forall_cons_iff in Hl. destruct Hl as [<- Hl].
  apply IH; auto. now rewrite add_spec, H, Hq.
Qed.

(** The three ways the variance of a constant sample is special. *)
Lemma variance_zero (T N : float) :
  Prim2SF T = S754_zero false ->
  Prim2SF N = S754_infinity false
  \/ (exists m e, Prim2SF N = S754_finite false m e) ->
  Js.strict_eq (PrimFloat.sqrt (T / N)) 0 = true.
Proof.
  intros HT HN. apply sqrt_zero_eq. exists false.
  rewrite div_spec, HT. destruct HN as [-> | (m & e & ->)]; reflexivity.
Qed.

Lemma variance_special (T N : float) :
  Prim2SF T = S754_infinity false \/ Prim2SF T = S754_nan ->
  Prim2SF N = S754_infinity false
  \/ (exists m e, Prim2SF N = S754_finite false m e) ->
  Prim2SF (PrimFloat.sqrt (T / N)) = S754_infinity false
  \/ Prim2SF (PrimFloat.sqrt (T / N)) = S754_nan.
Proof.
  intros HT HN. rewrite sqrt_spec, div_spec.
  destruct HT as [-> | ->]; destruct HN as [-> | (m & e & ->)]; auto.
Qed.

Lemma eta_small : (eta <= / 1000000)%R.
Proof.
  pose proof u53_small. unfold eta, u53 in *.
  assert (bpow (-1075) <= bpow (-53))%R by (apply bpow_le; lia). lra.
Qed.

Lemma two_value : F2R (Z.pos 4503599627370496) (-51) = 2%R.
Proof.
  unfold F2R. change (Z.pos 4503599627370496) with (2 ^ 52)%Z.
  rewrite <- bpow_IZR, <- bpow_add by lia. apply bpow_1.
Qed.

(** A number rounded from at most 7/4 is not above 2. *)
Lemma rounded_below_two (f : float) (sg : bool) (v : R) :
  rounds_to sg v (Prim2SF f) -> (0 <= v <= 7 / 4)%R ->
  SFltb (Prim2SF 2) (SFabs (Prim2SF f)) = false.
Proof.
  intros Hr [Hv0 Hv].
  change (Prim2SF 2) with (S754_finite false 4503599627370496 (-51)).
  pose proof (Prim2SF_valid f) as V.
  destruct Hr as [Hr | [[Hr Hbig] | (m & e & Hr & Hm & Hnear)]].
  - rewrite Hr. reflexivity.
  - exfalso. assert (bpow 1 <= bpow 971)%R by (apply bpow_le; lia).
    rewrite bpow_1 in *. lra.
  - rewrite Hr in *. cbn [SFabs].
    cbn [valid_binary SpecFloat.valid_binary] in V.
    destruct (SFltb _ _) eqn:E; [| reflexivity]. exfalso.
    apply SFltb_pos_value in E; [| reflexivity | exact V].
    rewrite two_value, Z2Pos.id in E by lia.
    destruct (half_ulp _ _ V) as (Hh & _ & _). rewrite Z2Pos.id in Hh by lia.
    pose proof u53_small. pose proof eta_small. pose proof eta_pos.
    assert (F2R m e - v <= F2R m e * u53 + eta)%R.
    { unfold Rabs in Hnear. destruct (Rcase_abs _) in Hnear; lra. }
    nra.
Qed.

Lemma ratio_small (d s : float) sd md ed ms es :
  Prim2SF d = S754_finite sd md ed -> Prim2SF s = S754_finite false ms es ->
  (F2R (Z.pos md) ed / F2R (Z.pos ms) es <= 7 / 4)%R ->
  (2 <? PrimFloat.abs d / s) = false
  /\ (2 <? PrimFloat.abs (d / s)) = false.
Proof.
  intros Hd Hs Hle.
  assert (H0 : (0 <= F2R (Z.pos md) ed / F2R (Z.pos ms) es)%R).
  { pose proof (F2R_pos md ed). pose proof (F2R_pos ms es).
    apply Rlt_le, Rdiv_lt_0_compat; assumption. }
  split.
  - pose proof (rounded_below_two (PrimFloat.abs d / s) false
                  (F2R (Z.pos md) ed / F2R (Z.pos ms) es)) as H.
    rewrite div_spec, abs_spec, Hd, Hs in H. cbn [SFabs] in H.
    specialize (H (SFdiv_finite false false md ms ed es) (conj H0 Hle)).
    rewrite ltb_spec, div_spec, abs_spec, Hd, Hs. cbn [SFabs].
    pose proof (SFdiv_finite false false md ms ed es) as Hr.
    destruct Hr as [Hr | [[Hr _] | (m & e & Hr & _)]]; rewrite Hr in *;
      exact H.
  - pose proof (rounded_below_two (d / s) (xorb sd false)
                  (F2R (Z.pos md) ed / F2R (Z.pos ms) es)) as H.
    rewrite div_spec, Hd, Hs in H.
    specialize (H (SFdiv_finite sd false md ms ed es) (conj H0 Hle)).
    now rewrite ltb_spec, abs_spec, div_spec, Hd, Hs.
Qed.

(** A square root is never subnormal. *)
Lemma sqrt_result_normal (ms mV : positive) (es eV : Z) :
  SpecFloat.bounded prec emax ms es = true ->
  SpecFloat.bounded prec emax mV eV = true ->
  (Rabs (F2R (Z.pos ms) es - sqrt (F2R (Z.pos mV) eV)) <= bpow es / 2)%R ->
  (Rabs (F2R (Z.pos ms) es - sqrt (F2R (Z.pos mV) eV))
   <= F2R (Z.pos ms) es * u53)%R.
Proof.
  intros Vs VV Hnear.
  destruct (bounded_shape _ _ Vs) as (He & Hm & [Hn | He']).
  - destruct (half_ulp _ _ Vs) as (_ & _ & Hh). specialize (Hh Hn). lra.
  - exfalso. subst es.
    destruct (half_ulp _ _ VV) as (_ & HminV & _).
    set (t := sqrt (F2R (Z.pos mV) eV)) in *.
    assert (Ht0 : (0 <= t)%R) by apply sqrt_pos.
    assert (Htt : (t * t = F2R (Z.pos mV) eV)%R).
    { apply sqrt_sqrt. left. apply F2R_pos. }
    assert (Hs : (F2R (Z.pos ms) emin < bpow (-1021))%R).
    { unfold F2R. apply IZR_lt in Hm. rewrite <- bpow_IZR in Hm by lia.
      replace (bpow (-1021)) with (bpow 53 * bpow emin)%R
        by (rewrite <- bpow_add; reflexivity).
      pose proof (bpow_pos emin). nra. }
    assert (Hh : (bpow emin / 2 <= bpow (-1021))%R).
    { assert (bpow emin <= bpow (-1021))%R
        by (apply bpow_le; rewrite emin_val; lia).
      pose proof (bpow_pos emin). lra. }
    assert (Ht : (t < bpow (-1020))%R).
    { replace (bpow (-1020)) with (2 * bpow (-1021))%R
        by (change (-1020)%Z with (1 + -1021)%Z; now rewrite bpow_add, bpow_1).
      unfold Rabs in Hnear. destruct (Rcase_abs _) in Hnear; lra. }
    assert (Hsq : (bpow (-1020) * bpow (-1020) <= 2 * eta)%R).
    { rewrite <- bpow_add. unfold eta.
      replace (2 * bpow (-1075))%R with (bpow (-1074))
        by (change (-1074)%Z with (1 + -1075)%Z; now rewrite bpow_add, bpow_1).
      apply bpow_le. lia. }
    pose proof (bpow_pos (-1020)). nra.
Qed.

Lemma length_u53 (n : nat) :
  (0 < Z.of_nat n < 2 ^ 32)%Z ->
  (1 <= INR n)%R /\ (0 <= INR n * u53 <= / 1000000)%R.
Proof.
  intros [H0 H32]. rewrite INR_IZR_INZ.
  assert (H1 : (1 <= IZR (Z.of_nat n))%R) by (apply IZR_le; lia).
  assert (H2 : (IZR (Z.of_nat n) <= bpow 32)%R)
    by (rewrite bpow_IZR by lia; apply IZR_le; lia).
  assert (H3 : (bpow 32 * u53 <= / 1000000)%R).
  { unfold u53. rewrite <- bpow_add. unfold bpow. simpl. lra. }
  pose proof u53_small. split; [assumption |]. split; nra.
Qed.

(** The heart of the matter: with every squared deviation equal, the
    common deviation is at most 7/4 of the standard deviation. *)
Lemma deviation_finite_case (d q T N V s : float) (n : nat)
  sd md ed mq eq mT eT mN eN mV eV ms es :
  (0 < Z.of_nat n < 2 ^ 32)%Z ->
  Prim2SF d = S754_finite sd md ed ->
  Prim2SF q = S754_finite false mq eq ->
  (Rabs (F2R (Z.pos mq) eq - F2R (Z.pos md) ed * F2R (Z.pos md) ed)
   <= bpow eq / 2)%R ->
  Prim2SF T = S754_finite false mT eT ->
  (INR n * F2R (Z.pos mq) eq * (1 - INR n * u53) <= F2R (Z.pos mT) eT)%R ->
  Prim2SF N = S754_finite false mN eN ->
  (F2R (Z.pos mN) eN <= INR n * (1 + 2 * u53))%R ->
  Prim2SF V = S754_finite false mV eV ->
  (Rabs (F2R (Z.pos mV) eV - F2R (Z.pos mT) eT / F2R (Z.pos mN) eN)
   <= bpow eV / 2)%R ->
  Prim2SF s = S754_finite false ms es ->
  (Rabs (F2R (Z.pos ms) es - sqrt (F2R (Z.pos mV) eV)) <= bpow es / 2)%R ->
  (F2R (Z.pos md) ed / F2R (Z.pos ms) es <= 7 / 4)%R.
Proof.
  intros Hn Hd Hq Hqn HT HTb HN HNb HV HVn Hs Hsn.
  pose proof (Prim2SF_bounded _ _ _ _ Hq) as Vq.
  pose proof (Prim2SF_bounded _ _ _ _ HV) as VV.
  pose proof (Prim2SF_bounded _ _ _ _ Hs) as Vs.
  destruct (length_u53 n Hn) as [Hn1 Hnu].
  destruct (half_ulp _ _ Vq) as (Hhq & Hminq & _).
  destruct (half_ulp _ _ VV) as (HhV & _ & _).
  apply (deviation_chain u53 eta (INR n) (F2R (Z.pos md) ed)
           (F2R (Z.pos mq) eq) (F2R (Z.pos mT) eT) (F2R (Z.pos mN) eN)
           (F2R (Z.pos mV) eV) (F2R (Z.pos ms) es)).
  - apply u53_small.
  - exact Hnu.
  - exact Hn1.
  - apply eta_pos.
  - exact Hminq.
  - left. apply F2R_pos.
  - lra.
  - exact HTb.
  - split; [apply F2R_pos | exact HNb].
  - apply F2R_pos.
  - lra.
  - apply F2R_pos.
  - now apply (sqrt_result_normal ms mV es eV).
Qed.

Lemma sum_constant_inf (q : float) (l : list float) :
  l <> [] -> Forall (Logic.eq q) l -> Prim2SF q = S754_infinity false ->
  Prim2SF (Js.sum l) = S754_infinity false.
Proof.
  intros Hne Hl Hq. destruct l as [| a l]; [congruence |].
  apply Forall_cons_iff in Hl. destruct Hl as [<- Hl].
  unfold Js.sum. simpl. apply (fold_add_inf q); auto.
  now rewrite add_spec, Hq.
Qed.

Lemma sum_constant_nan (q : float) (l : list float) :
  l <> [] -> Forall (Logic.eq q) l -> Prim2SF q = S754_nan ->
  Prim2SF (Js.sum l) = S754_nan.
Proof.
  intros Hne Hl Hq. destruct l as [| a l]; [congruence |].
  apply Forall_cons_iff in Hl. destruct Hl as [<- Hl].
  unfold Js.sum. simpl. apply fold_add_nan.
  now rewrite add_spec, Hq.
Qed.

(** When every squared deviation is the same number [d * d], the standard
    deviation is zero or no score [|d| / stdDev] exceeds 2. *)
Lemma constant_deviation (d : float) (l : list float) :
  l <> [] -> Forall (Logic.eq (d * d)%float) l ->
  (Z.of_nat (length l) < 2 ^ 32)%Z ->
  let s := PrimFloat.sqrt (Js.sum l / Js.of_nat (length l)) in
  Js.strict_eq s 0 = true
  \/ ((2 <? PrimFloat.abs d / s) = false
      /\ (2 <? PrimFloat.abs (d / s)) = false).
Proof.
  intros Hne Hl Hlen s.
  assert (Hn : (0 < Z.of_nat (length l) < 2 ^ 32)%Z).
  { assert (length l <> 0%nat) by (destruct l; simpl; congruence). lia. }
  pose proof (of_nat_shape _ Hn) as HN.
  assert (HN' : Prim2SF (Js.of_nat (length l)) = S754_infinity false
                \/ (exists m e, Prim2SF (Js.of_nat (length l))
                                = S754_finite false m e)).
  { destruct HN as [H | (m & e & H & _)]; eauto. }
  set (q := (d * d)%float) in *.
  assert (Hq : Prim2SF q = SF64mul (Prim2SF d) (Prim2SF d)) by apply mul_spec.
  assert (Hzero : Prim2SF q = S754_zero false -> Js.strict_eq s 0 = true).
  { intros H. apply variance_zero; [| exact HN'].
    unfold Js.sum. now apply (fold_add_zero q). }
  assert (Hspec : Prim2SF q = S754_infinity false \/ Prim2SF q = S754_nan ->
                  (2 <? PrimFloat.abs d / s) = false
                  /\ (2 <? PrimFloat.abs (d / s)) = false).
  { intros H. apply ratio_special. apply variance_special; [| exact HN'].
    destruct H as [H | H];
      [left; now apply (sum_constant_inf q) | right; now apply (sum_constant_nan q)]. }
  destruct (Prim2SF d) as [sd | sd | | sd md ed] eqn:Hd.
  - left. apply Hzero. rewrite Hq. now destruct sd.
  - right. apply Hspec. left. rewrite Hq. now destruct sd.
  - right. apply Hspec. right. rewrite Hq. reflexivity.
  - pose proof (SFmul_self sd md ed) as Hr. rewrite <- Hq in Hr.
    destruct Hr as [Hr | [[Hr _] | (mq & eq & Hr & Hmq & Hqn)]];
      [left; now apply Hzero | right; apply Hspec; now left |].
    destruct (sum_constant q (Z.to_pos mq) eq Hr l Hne Hl)
      as [HT | (mT & eT & HT & HTb)].
    { right. apply ratio_special. apply variance_special; [now left | exact HN']. }
    rewrite Z2Pos.id in HTb by lia.
    destruct HN as [HNi | (mN & eN & HNf & HNb)].
    { left. apply sqrt_zero_eq. exists false.
      now rewrite div_spec, HT, HNi. }
    pose proof (SFdiv_finite false false mT mN eT eN) as HV.
    rewrite <- HT, <- HNf, <- div_spec in HV. cbn [xorb] in HV.
    fold s.
    destruct HV as [HV | [[HV _] | (mV & eV & HV & HmV & HVn)]].
    { left. apply sqrt_zero_eq. eauto. }
    { right. apply ratio_special. left. unfold s. now rewrite sqrt_spec, HV. }
    pose proof (SFsqrt_finite (Z.to_pos mV) eV) as Hs.
    rewrite <- HV, <- sqrt_spec in Hs. fold s in Hs.
    rewrite Z2Pos.id in Hs by lia.
    destruct Hs as [Hs | [[Hs _] | (ms & es & Hs & Hms & Hsn)]].
    { left. unfold Js.strict_eq. now rewrite eqb_spec, Hs. }
    { right. apply ratio_special. now left. }
    right. apply (ratio_small d s sd md ed (Z.to_pos ms) es Hd Hs).
    rewrite Z2Pos.id by lia.
    pose proof (deviation_finite_case d q (Js.sum l) (Js.of_nat (length l))
                  (Js.sum l / Js.of_nat (length l))%float s (length l)
                  sd md ed (Z.to_pos mq) eq mT eT mN eN (Z.to_pos mV) eV
                  (Z.to_pos ms) es Hn Hd Hr) as H.
    rewrite !Z2Pos.id in H by lia.
    now apply H.
Qed.

End Rounding.

(** ** Monotone rounding

    Rounding to nearest never crosses a representable number; sums and
    differences are ordered accordingly. *)

Module Monotone.
Import Binary64 Real64 Rounding.
Import Reals Lra.
Local Open Scope R_scope.

(** *** Rounding is monotone *)

(** The first alignment of a mantissa whose exponent is not above the
    canonical one brings it to the canonical exponent. *)
Lemma shr_fexp_canonical (M E : Z) (l : location) :
  (0 < M)%Z -> (E <= fexp64 (Zdigits2 M + E))%Z ->
  let mrs := fst (shr_fexp prec emax M E l) in
  let e1 := snd (shr_fexp prec emax M E l) in
  e1 = fexp64 (Zdigits2 M + E)
  /\ ((emin < e1)%Z -> (2 ^ 52 <= shr_m mrs)%Z).
Proof.
  intros HM Hcan. unfold shr_fexp, shr.
  rewrite fexp64_eq, emin_val in *.
  pose proof (Zdigits2_bounds M HM) as [Hlo Hhi].
  set (d := Zdigits2 M) in *.
  destruct (Z.max (d + E - 53) (-1074) - E)%Z as [| p | p] eqn:Hk;
    cbn [fst snd]; try lia.
  - split; [lia |]. intros He. rewrite shr_record_of_loc_m.
    replace (d - 1)%Z with 52%Z in Hlo by lia. exact Hlo.
  - split; [lia |]. intros He.
    rewrite iter_shr_1_m by (rewrite shr_record_of_loc_m; lia).
    rewrite shr_record_of_loc_m.
    apply Z.div_le_lower_bound; [lia |].
    rewrite <- Z.pow_add_r by lia.
    replace (Z.pos p + 52)%Z with (d - 1)%Z by lia. exact Hlo.
Qed.

(** The exponent the second alignment gives. *)
Lemma shr_fexp_exponent (N e1 : Z) (l : location) :
  snd (shr_fexp prec emax N e1 l) = Z.max e1 (fexp64 (Zdigits2 N + e1)).
Proof.
  unfold shr_fexp, shr.
  destruct (fexp64 (Zdigits2 N + e1) - e1)%Z eqn:Hk; cbn [snd]; lia.
Qed.

(** What [binary_round_aux] returns for an exact mantissa at or below
    its canonical exponent: a neighbour [N] of the number on the grid of
    that exponent. *)
Lemma binary_round_aux_grid (s : bool) (M E : Z) :
  (0 < M)%Z -> (E <= fexp64 (Zdigits2 M + E))%Z ->
  exists (m1 N e1 : Z) (x1 : R),
    x1 * bpow e1 = IZR M * bpow E
    /\ (emin <= e1)%Z
    /\ IZR m1 <= x1 < IZR m1 + 1
    /\ (m1 <= N <= m1 + 1)%Z
    /\ (x1 = IZR m1 -> N = m1)
    /\ (0 <= m1 < 2 ^ 53)%Z
    /\ ((emin < e1)%Z -> (2 ^ 52 <= m1)%Z)
    /\ match binary_round_aux prec emax s M E loc_Exact with
       | S754_zero _ => N = 0%Z
       | S754_finite _ m' e' => F2R (Z.pos m') e' = IZR N * bpow e1
       | S754_infinity _ => bpow 1024 <= IZR N * bpow e1
       | S754_nan => False
       end.
Proof.
  intros HM Hcan.
  assert (Hx : inb (IZR M) M loc_Exact) by reflexivity.
  destruct (shr_fexp_spec M E loc_Exact (IZR M) ltac:(lia) Hx)
    as (x1 & H1 & Hv & H0 & Hd & He).
  destruct (shr_fexp_canonical M E loc_Exact HM Hcan) as [_ Hnorm].
  unfold binary_round_aux.
  destruct (shr_fexp prec emax M E loc_Exact) as [mrs e1]. cbn [fst snd] in *.
  set (m1 := shr_m mrs) in *.
  destruct (round_nearest_even_near _ _ _ H1) as [Hn HN].
  set (N := round_nearest_even m1 (loc_of_shr_record mrs)) in *.
  assert (Hm53 : (m1 < 2 ^ 53)%Z).
  { destruct (Z.eq_dec m1 0) as [E0 | Hne]; [rewrite E0; lia |].
    pose proof (Zdigits2_bounds m1 ltac:(lia)) as [_ Hhi].
    assert (2 ^ Zdigits2 m1 <= 2 ^ 53)%Z by (apply Z.pow_le_mono_r; lia).
    lia. }
  assert (HN53 : (0 <= N <= 2 ^ 53)%Z) by lia.
  destruct (shr_fexp_exact N e1 HN53 He) as [Hex Hle].
  pose proof (shr_fexp_exponent N e1 loc_Exact) as He2.
  destruct (shr_fexp prec emax N e1 loc_Exact) as [mrs2 e2].
  cbn [fst snd] in *.
  exists m1, N, e1, x1.
  split; [assumption |]. split; [assumption |].
  assert (Hx1 : IZR m1 <= x1 < IZR m1 + 1).
  { destruct (loc_of_shr_record mrs) as [| []]; cbn [inb] in H1; lra. }
  split; [assumption |]. split; [assumption |].
  split.
  { intros E1. unfold N.
    destruct (loc_of_shr_record mrs) as [| []]; cbn [inb] in H1;
      try reflexivity; lra. }
  split; [lia |]. split; [assumption |].
  destruct (shr_m mrs2) as [| q | q] eqn:Hq.
  - rewrite Rmult_0_l in Hex.
    assert (IZR N = 0) by (pose proof (bpow_pos e1); nra).
    now apply eq_IZR.
  - destruct (e2 <=? emax - prec)%Z eqn:Hov.
    + unfold F2R. exact Hex.
    + apply Z.leb_gt in Hov. change (emax - prec)%Z with 971%Z in Hov.
      rewrite fexp64_eq in He2. rewrite emin_val in *.
      destruct (Rle_lt_dec (bpow 1024) (IZR N * bpow e1)) as [Hge | Hlt];
        [assumption | exfalso].
      assert (HNpos : (0 < N)%Z).
      { destruct (Z.eq_dec N 0) as [E0 | Hne]; [| lia].
        rewrite E0, Rmult_0_l in Hex.
        pose proof (bpow_pos e2). pose proof (IZR_lt 0 (Z.pos q) ltac:(lia)).
        nra. }
      pose proof (Zdigits2_bounds N HNpos) as [Hlo _].
      pose proof (Zdigits2_nonneg N) as Hdn.
      assert (Hd1 : (1 <= Zdigits2 N)%Z).
      { destruct N; simpl in *; lia. }
      (* the number is below 2^1024 *)
      assert (Hbig : bpow (Zdigits2 N - 1 + e1) < bpow 1024).
      { apply Rle_lt_trans with (IZR N * bpow e1); [| assumption].
        rewrite bpow_add, bpow_IZR by lia.
        apply Rmult_le_compat_r; [left; apply bpow_pos | now apply IZR_le]. }
      assert (Hexp : (Zdigits2 N - 1 + e1 < 1024)%Z).
      { destruct (Z_lt_le_dec (Zdigits2 N - 1 + e1) 1024); [assumption |].
        pose proof (bpow_le 1024 (Zdigits2 N - 1 + e1) ltac:(lia)). lra. }
      assert (He1 : (e1 <= 971)%Z).
      { destruct (Z_le_gt_dec e1 971); [assumption | exfalso].
        assert (2 ^ 52 <= N)%Z by lia.
        assert (53 <= Zdigits2 N)%Z.
        { destruct (Z_lt_le_dec (Zdigits2 N) 53); [| assumption].
          pose proof (Zdigits2_bounds N HNpos) as [_ Hhi].
          assert (2 ^ Zdigits2 N <= 2 ^ 52)%Z
            by (apply Z.pow_le_mono_r; lia).
          lia. }
        lia. }
      lia.
  - assert (IZR (Z.neg q) < 0) by (apply IZR_lt; lia).
    pose proof (bpow_pos e2). pose proof (bpow_pos e1).
    assert (0 <= IZR N) by (apply IZR_le; lia). nra.
Qed.

(** A valid number is a multiple of every power of two below its
    exponent. *)
Lemma F2R_on_grid (mx : positive) (ex e1 : Z) :
  (e1 <= ex)%Z ->
  F2R (Z.pos mx) ex = IZR (Z.pos mx * 2 ^ (ex - e1)) * bpow e1.
Proof.
  intros H. unfold F2R. rewrite mult_IZR, <- bpow_IZR by lia.
  rewrite Rmult_assoc, <- bpow_add. f_equal. f_equal. lia.
Qed.

Lemma F2R_below_binade (mx : positive) (ex e1 : Z) :
  SpecFloat.bounded prec emax mx ex = true -> (ex < e1)%Z ->
  F2R (Z.pos mx) ex < bpow 52 * bpow e1.
Proof.
  intros V Hlt. destruct (bounded_shape mx ex V) as (_ & Hm & _).
  unfold F2R. apply IZR_lt in Hm. rewrite <- bpow_IZR in Hm by lia.
  rewrite <- bpow_add.
  apply Rlt_le_trans with (bpow 53 * bpow ex).
  - apply Rmult_lt_compat_r; [apply bpow_pos | assumption].
  - rewrite <- bpow_add. apply bpow_le. lia.
Qed.

Lemma grid_le (m1 N e1 : Z) (x1 : R) (mx : positive) (ex : Z) :
  SpecFloat.bounded prec emax mx ex = true ->
  IZR m1 <= x1 < IZR m1 + 1 -> (m1 <= N <= m1 + 1)%Z ->
  (x1 = IZR m1 -> N = m1) ->
  ((emin < e1)%Z -> (2 ^ 52 <= m1)%Z) ->
  x1 * bpow e1 <= F2R (Z.pos mx) ex -> IZR N * bpow e1 <= F2R (Z.pos mx) ex.
Proof.
  intros V Hx1 HN Hexact Hnorm Hle. pose proof (bpow_pos e1) as Hb.
  destruct (bounded_shape mx ex V) as (Hex & _ & _).
  destruct (Z_le_gt_dec e1 ex) as [Hge | Hlt].
  - rewrite (F2R_on_grid mx ex e1 Hge) in *.
    set (K := (Z.pos mx * 2 ^ (ex - e1))%Z) in *.
    assert (HK : x1 <= IZR K) by nra.
    assert (HNK : (N <= K)%Z).
    { destruct (Req_dec x1 (IZR m1)) as [E | Hne].
      - rewrite (Hexact E). apply le_IZR. lra.
      - assert (IZR m1 < IZR K) by lra.
        apply lt_IZR in H. lia. }
    apply IZR_le in HNK. nra.
  - exfalso. pose proof (F2R_below_binade mx ex e1 V ltac:(lia)) as Hlt'.
    assert (H52 : (2 ^ 52 <= m1)%Z) by (apply Hnorm; lia).
    apply IZR_le in H52. rewrite <- bpow_IZR in H52 by lia. nra.
Qed.

Lemma grid_ge (m1 N e1 : Z) (x1 : R) (mx : positive) (ex : Z) :
  SpecFloat.bounded prec emax mx ex = true ->
  IZR m1 <= x1 < IZR m1 + 1 -> (m1 <= N <= m1 + 1)%Z -> (0 <= m1)%Z ->
  ((emin < e1)%Z -> (2 ^ 52 <= m1)%Z) ->
  F2R (Z.pos mx) ex <= x1 * bpow e1 -> F2R (Z.pos mx) ex <= IZR N * bpow e1.
Proof.
  intros V Hx1 HN Hm1 Hnorm Hle. pose proof (bpow_pos e1) as Hb.
  destruct (bounded_shape mx ex V) as (Hex & _ & _).
  assert (HmN : IZR m1 <= IZR N) by (apply IZR_le; lia).
  destruct (Z_le_gt_dec e1 ex) as [Hge | Hlt].
  - rewrite (F2R_on_grid mx ex e1 Hge) in *.
    set (K := (Z.pos mx * 2 ^ (ex - e1))%Z) in *.
    assert (HK : IZR K < IZR m1 + 1) by nra.
    assert (HKm : (K <= m1)%Z).
    { rewrite <- plus_IZR in HK. apply lt_IZR in HK. lia. }
    apply IZR_le in HKm. nra.
  - pose proof (F2R_below_binade mx ex e1 V ltac:(lia)) as Hlt'.
    assert (H52 : (2 ^ 52 <= m1)%Z) by (apply Hnorm; lia).
    apply IZR_le in H52. rewrite <- bpow_IZR in H52 by lia. nra.
Qed.

Lemma F2R_below_overflow (mx : positive) (ex : Z) :
  SpecFloat.bounded prec emax mx ex = true -> F2R (Z.pos mx) ex < bpow 1024.
Proof.
  intros V. destruct (bounded_shape mx ex V) as (_ & Hm & _).
  assert (Hex : (ex <= 971)%Z).
  { unfold SpecFloat.bounded in V. apply andb_prop in V. destruct V as [_ V].
    apply Z.leb_le in V. exact V. }
  unfold F2R. apply IZR_lt in Hm. rewrite <- bpow_IZR in Hm by lia.
  apply Rlt_le_trans with (bpow 53 * bpow ex).
  - apply Rmult_lt_compat_r; [apply bpow_pos | assumption].
  - rewrite <- bpow_add. apply bpow_le. lia.
Qed.

(** The digits of a mantissa shifted left. *)
Lemma Zdigits2_shift (p : positive) (k : Z) :
  (0 <= k)%Z -> Zdigits2 (Z.pos p * 2 ^ k) = (Zdigits2 (Z.pos p) + k)%Z.
Proof.
  intros Hk.
  assert (Hpos : (0 < Z.pos p * 2 ^ k)%Z)
    by (apply Z.mul_pos_pos; [lia | apply Z.pow_pos_nonneg; lia]).
  pose proof (Zdigits2_bounds (Z.pos p) ltac:(lia)) as [Hlo Hhi].
  pose proof (Zdigits2_bounds _ Hpos) as [Hlo' Hhi'].
  set (d := Zdigits2 (Z.pos p)) in *.
  set (d' := Zdigits2 (Z.pos p * 2 ^ k)) in *.
  assert (Hd : (1 <= d)%Z) by (unfold d; simpl; lia).
  assert (Hd' : (1 <= d')%Z).
  { unfold d'. destruct (Z.pos p * 2 ^ k)%Z; simpl; lia. }
  assert (P : (0 < 2 ^ k)%Z) by (apply Z.pow_pos_nonneg; lia).
  destruct (Z.lt_trichotomy d' (d + k)) as [Hlt | [E | Hgt]];
    [exfalso | exact E | exfalso].
  - assert (2 ^ d' <= 2 ^ (d - 1 + k))%Z by (apply Z.pow_le_mono_r; lia).
    rewrite Z.pow_add_r in H by lia. nia.
  - assert (2 ^ (d + k) <= 2 ^ (d' - 1))%Z by (apply Z.pow_le_mono_r; lia).
    rewrite Z.pow_add_r in H by lia. nia.
Qed.

(** [binary_round] hands [binary_round_aux] a mantissa at or below its
    canonical exponent, of the same value. *)
Lemma shl_align_canonical (p : positive) (E : Z) :
  let mz := fst (shl_align p E (fexp64 (Z.pos (digits2_pos p) + E))) in
  let ez := snd (shl_align p E (fexp64 (Z.pos (digits2_pos p) + E))) in
  (ez <= fexp64 (Zdigits2 (Z.pos mz) + ez))%Z
  /\ IZR (Z.pos mz) * bpow ez = F2R (Z.pos p) E.
Proof.
  cbv zeta. split; [| apply shl_align_value].
  set (f := fexp64 (Z.pos (digits2_pos p) + E)).
  destruct (Z_le_gt_dec E f) as [Hle | Hgt].
  - unfold shl_align. destruct (f - E)%Z eqn:Hk; cbn [fst snd]; try lia;
      exact Hle.
  - pose proof (shl_align_fst p E f ltac:(lia)) as Hm.
    assert (Hs : snd (shl_align p E f) = f).
    { unfold shl_align. destruct (f - E)%Z eqn:Hk; cbn [snd]; lia. }
    rewrite Hs, Hm, Zdigits2_shift by lia.
    change (Zdigits2 (Z.pos p)) with (Z.pos (digits2_pos p)).
    replace (Z.pos (digits2_pos p) + (E - f) + f)%Z
      with (Z.pos (digits2_pos p) + E)%Z by lia.
    fold f. lia.
Qed.

(** Rounding does not cross a valid number. *)
Lemma binary_round_le (s : bool) (p mx : positive) (E ex : Z) :
  SpecFloat.bounded prec emax mx ex = true ->
  F2R (Z.pos p) E <= F2R (Z.pos mx) ex ->
  match binary_round prec emax s p E with
  | S754_zero _ => True
  | S754_finite _ m' e' => F2R (Z.pos m') e' <= F2R (Z.pos mx) ex
  | _ => False
  end.
Proof.
  intros V Hle. unfold binary_round.
  destruct (shl_align_canonical p E) as [Hcan Hval].
  destruct (shl_align p E _) as [mz ez]. cbn [fst snd] in *.
  destruct (binary_round_aux_grid s (Z.pos mz) ez ltac:(lia) Hcan)
    as (m1 & N & e1 & x1 & Hv & He1 & Hx1 & HN & Hex & Hm1 & Hnorm & Hres).
  rewrite Hval in Hv. rewrite <- Hv in Hle.
  pose proof (grid_le m1 N e1 x1 mx ex V Hx1 HN Hex Hnorm Hle) as H.
  destruct (binary_round_aux prec emax s (Z.pos mz) ez loc_Exact);
    try exact I; try contradiction.
  - pose proof (F2R_below_overflow mx ex V). lra.
  - now rewrite Hres.
Qed.

Lemma binary_round_ge (s : bool) (p mx : positive) (E ex : Z) :
  SpecFloat.bounded prec emax mx ex = true ->
  F2R (Z.pos mx) ex <= F2R (Z.pos p) E ->
  match binary_round prec emax s p E with
  | S754_infinity _ => True
  | S754_finite _ m' e' => F2R (Z.pos mx) ex <= F2R (Z.pos m') e'
  | _ => False
  end.
Proof.
  intros V Hle. unfold binary_round.
  destruct (shl_align_canonical p E) as [Hcan Hval].
  destruct (shl_align p E _) as [mz ez]. cbn [fst snd] in *.
  destruct (binary_round_aux_grid s (Z.pos mz) ez ltac:(lia) Hcan)
    as (m1 & N & e1 & x1 & Hv & He1 & Hx1 & HN & Hex & Hm1 & Hnorm & Hres).
  rewrite Hval in Hv. rewrite <- Hv in Hle.
  pose proof (grid_ge m1 N e1 x1 mx ex V Hx1 HN ltac:(lia) Hnorm Hle) as H.
  destruct (binary_round_aux prec emax s (Z.pos mz) ez loc_Exact);
    try exact I; try contradiction.
  - subst N. rewrite Rmult_0_l in H. pose proof (F2R_pos mx ex). lra.
  - now rewrite Hres.
Qed.

(** *** The order of valid numbers, by value *)

Lemma SFleb_pos_value (ma mb : positive) (ea eb : Z) :
  SpecFloat.bounded prec emax ma ea = true ->
  SpecFloat.bounded prec emax mb eb = true ->
  F2R (Z.pos ma) ea <= F2R (Z.pos mb) eb ->
  SFleb (S754_finite false ma ea) (S754_finite false mb eb) = true.
Proof.
  intros Va Vb Hle.
  destruct (SFltb (S754_finite false mb eb) (S754_finite false ma ea)) eqn:E.
  - pose proof (SFltb_pos_value _ _ _ _ Vb Va E). lra.
  - apply SFltb_false_leb; [discriminate | discriminate | exact E].
Qed.

Lemma SFleb_neg (ma mb : positive) (ea eb : Z) :
  SFleb (S754_finite true ma ea) (S754_finite true mb eb)
  = SFleb (S754_finite false mb eb) (S754_finite false ma ea).
Proof.
  unfold SFleb, SFcompare.
  rewrite (Z.compare_antisym ea eb).
  destruct (Z.compare ea eb) eqn:E; cbn [CompOpp]; try reflexivity.
  change (Pos.compare_cont Eq ma mb) with (Pos.compare ma mb).
  change (Pos.compare_cont Eq mb ma) with (Pos.compare mb ma).
  rewrite (Pos.compare_antisym ma mb).
  destruct (Pos.compare ma mb); reflexivity.
Qed.

Lemma SFleb_refl_finite (s : bool) (m : positive) (e : Z) :
  SFleb (S754_finite s m e) (S754_finite s m e) = true.
Proof.
  apply SFltb_false_leb; try discriminate.
  destruct (SFltb _ _) eqn:E; [| reflexivity].
  pose proof (SFltb_asym _ _ E). congruence.
Qed.

Lemma binary_round_sign (s : bool) (p : positive) (e : Z) :
  match binary_round prec emax s p e with
  | S754_finite s' _ _ | S754_infinity s' | S754_zero s' => s' = s
  | S754_nan => True
  end.
Proof.
  unfold binary_round. destruct (shl_align p e _) as [mz ez].
  apply binary_round_aux_sign.
Qed.

Lemma aligned_value (m : positive) (e ez : Z) :
  (ez <= e)%Z ->
  IZR (Z.pos (fst (shl_align m e ez))) * bpow ez = F2R (Z.pos m) e.
Proof.
  intros H. rewrite shl_align_fst by assumption.
  symmetry. apply F2R_on_grid. assumption.
Qed.

(** *** Adding and taking away what is not negative *)

(** [x - c] is at most [x] when [c] is not negative. *)
Lemma SFsub_le (x c : spec_float) :
  valid_binary x = true -> valid_binary c = true ->
  valid_binary (SFsub prec emax x c) = true ->
  match x with S754_zero _ | S754_finite _ _ _ => True | _ => False end ->
  SFleb (S754_zero false) c = true ->
  SFleb (SFsub prec emax x c) x = true.
Proof.
  intros Vx Vc Vr Hx Hc.
  destruct c as [sc | [|] | | [|] mc ec]; try discriminate;
    destruct x as [sx | sx | | sx mx ex]; try contradiction;
    try (destruct sx; try destruct sc; reflexivity).
  - (* finite - zero *) cbn [SFsub]. apply SFleb_refl_finite.
  - (* finite - finite *)
    cbn [valid_binary SpecFloat.valid_binary] in Vx, Vc.
    unfold SFsub in *. set (ez := Z.min ex ec) in *.
    pose proof (aligned_value mx ex ez ltac:(lia)) as Hxv.
    pose proof (aligned_value mc ec ez ltac:(lia)) as Hcv.
    set (a' := fst (shl_align mx ex ez)) in *.
    set (c' := fst (shl_align mc ec ez)) in *.
    pose proof (F2R_pos mc ec) as Hcpos. pose proof (bpow_pos ez) as Hb.
    destruct sx; cbn [cond_Zopp] in *.
    + (* negative x *)
      change (- Z.pos a' - Z.pos c')%Z with (Z.neg (a' + c')) in *.
      cbn [binary_normalize] in *.
      pose proof (binary_round_sign true (a' + c') ez) as Hs.
      pose proof (binary_round_ge true (a' + c') mx ez ex Vx) as Hge.
      assert (Hval : F2R (Z.pos mx) ex <= F2R (Z.pos (a' + c')) ez).
      { unfold F2R at 2. rewrite Pos2Z.inj_add, plus_IZR. lra. }
      specialize (Hge Hval).
      destruct (binary_round prec emax true (a' + c') ez)
        as [s' | s' | | s' m' e']; try contradiction; subst s';
        try reflexivity.
      rewrite SFleb_neg. now apply SFleb_pos_value.
    + (* positive x *)
      destruct (Z.pos a' - Z.pos c')%Z as [| q | q] eqn:Hz;
        cbn [binary_normalize] in *; [reflexivity | |].
      * pose proof (binary_round_sign false q ez) as Hs.
        pose proof (binary_round_le false q mx ez ex Vx) as Hle.
        assert (Hval : F2R (Z.pos q) ez <= F2R (Z.pos mx) ex).
        { unfold F2R at 1. rewrite <- Hz, minus_IZR. lra. }
        specialize (Hle Hval).
        destruct (binary_round prec emax false q ez)
          as [s' | s' | | s' m' e']; try contradiction; subst s';
          try reflexivity.
        now apply SFleb_pos_value.
      * pose proof (binary_round_sign true q ez) as Hs.
        pose proof (binary_round_nonzero true q ez) as Hnz.
        destruct (binary_round prec emax true q ez)
          as [s' | s' | | s' m' e']; try subst s'; try reflexivity.
        destruct (bounded_shape _ _ Vx) as (Hex & _).
        destruct (bounded_shape _ _ Vc) as (Hec & _).
        destruct Hnz as [(m2 & e2 & H2) | H2]; [lia | |]; discriminate.
Qed.

(** [x + c] is at least [x] when [c] is not negative. *)
Lemma SFadd_ge (x c : spec_float) :
  valid_binary x = true -> valid_binary c = true ->
  valid_binary (SFadd prec emax x c) = true ->
  match x with S754_zero _ | S754_finite _ _ _ => True | _ => False end ->
  SFleb (S754_zero false) c = true ->
  SFleb x (SFadd prec emax x c) = true.
Proof.
  intros Vx Vc Vr Hx Hc.
  destruct c as [sc | [|] | | [|] mc ec]; try discriminate;
    destruct x as [sx | sx | | sx mx ex]; try contradiction;
    try (destruct sx; try destruct sc; reflexivity).
  - cbn [SFadd]. apply SFleb_refl_finite.
  - cbn [valid_binary SpecFloat.valid_binary] in Vx, Vc.
    unfold SFadd in *. set (ez := Z.min ex ec) in *.
    pose proof (aligned_value mx ex ez ltac:(lia)) as Hxv.
    pose proof (aligned_value mc ec ez ltac:(lia)) as Hcv.
    set (a' := fst (shl_align mx ex ez)) in *.
    set (c' := fst (shl_align mc ec ez)) in *.
    pose proof (F2R_pos mc ec) as Hcpos. pose proof (bpow_pos ez) as Hb.
    destruct sx; cbn [cond_Zopp] in *.
    + (* negative x *)
      destruct (- Z.pos a' + Z.pos c')%Z as [| q | q] eqn:Hz;
        cbn [binary_normalize] in *; [reflexivity | |].
      * pose proof (binary_round_sign false q ez) as Hs.
        destruct (binary_round prec emax false q ez)
          as [s' | s' | | s' m' e'] eqn:Hr; try subst s'; try reflexivity.
        pose proof (binary_round_nonzero false q ez) as Hnz.
        destruct (bounded_shape _ _ Vx) as (Hex & _).
        destruct (bounded_shape _ _ Vc) as (Hec & _).
        rewrite Hr in Hnz.
        destruct Hnz as [(m2 & e2 & H2) | H2]; [lia | |]; discriminate.
      * pose proof (binary_round_sign true q ez) as Hs.
        pose proof (binary_round_le true q mx ez ex Vx) as Hle.
        assert (Hval : F2R (Z.pos q) ez <= F2R (Z.pos mx) ex).
        { unfold F2R at 1.
          replace (IZR (Z.pos q)) with (IZR (Z.pos a') - IZR (Z.pos c')).
          - lra.
          - rewrite <- minus_IZR. f_equal. lia. }
        specialize (Hle Hval).
        destruct (binary_round prec emax true q ez)
          as [s' | s' | | s' m' e']; try contradiction; subst s';
          try reflexivity.
        rewrite SFleb_neg. now apply SFleb_pos_value.
    + (* positive x *)
      change (Z.pos a' + Z.pos c')%Z with (Z.pos (a' + c')) in *.
      cbn [binary_normalize] in *.
      pose proof (binary_round_sign false (a' + c') ez) as Hs.
      pose proof (binary_round_ge false (a' + c') mx ez ex Vx) as Hge.
      assert (Hval : F2R (Z.pos mx) ex <= F2R (Z.pos (a' + c')) ez).
      { unfold F2R at 2. rewrite Pos2Z.inj_add, plus_IZR. lra. }
      specialize (Hge Hval).
      destruct (binary_round prec emax false (a' + c') ez)
        as [s' | s' | | s' m' e']; try contradiction; subst s';
        try reflexivity.
      now apply SFleb_pos_value.
Qed.

End Monotone.

(** ** Signs

    Which operations keep a number from being negative or NaN. *)

Module Signs.
Import Binary64 Real64 Rounding Monotone.
Import Reals Lra.
Local Open Scope float_scope.

(** *** Numbers that are not negative *)

Lemma nonneg_cases (c : float) :
  (0 <=? c) = true <->
  match Prim2SF c with
  | S754_zero _ => True
  | S754_infinity s | S754_finite s _ _ => s = false
  | S754_nan => False
  end.
Proof.
  rewrite leb_spec. change (Prim2SF 0) with (S754_zero false).
  destruct (Prim2SF c) as [s | [|] | | [|] m e]; cbn; intuition congruence.
Qed.

Lemma rounds_to_nonneg (v : R) (r : spec_float) :
  rounds_to false v r ->
  match r with
  | S754_zero _ => True
  | S754_infinity s | S754_finite s _ _ => s = false
  | S754_nan => False
  end.
Proof.
  intros [-> | [[-> _] | (m & e & -> & _)]]; cbn; auto.
Qed.

Lemma binary_round_not_nan (s : bool) (p : positive) (e : Z) :
  binary_round prec emax s p e <> S754_nan.
Proof.
  unfold binary_round. destruct (shl_align p e _) as [mz ez].
  apply binary_round_aux_not_nan. lia.
Qed.

Lemma binary_normalize_not_nan (z e : Z) :
  binary_normalize prec emax z e false <> S754_nan.
Proof.
  destruct z; cbn [binary_normalize];
    [discriminate | apply binary_round_not_nan | apply binary_round_not_nan].
Qed.

Lemma add_nonneg (a b : float) :
  (0 <=? a) = true -> (0 <=? b) = true -> (0 <=? a + b) = true.
Proof.
  rewrite !nonneg_cases, add_spec. intros Ha Hb.
  destruct (Prim2SF a) as [sa | sa | | sa ma ea]; try contradiction;
    destruct (Prim2SF b) as [sb | sb | | sb mb eb]; try contradiction;
    try subst sa; try subst sb; try exact I; try reflexivity.
  - destruct sa, sb; exact I.
  - apply (rounds_to_nonneg _ _ (SFadd_pos ma mb ea eb)).
Qed.

Lemma div_nonneg (a n : float) (m : positive) (e : Z) :
  (0 <=? a) = true -> Prim2SF n = S754_finite false m e ->
  (0 <=? a / n) = true.
Proof.
  rewrite !nonneg_cases, div_spec. intros Ha ->.
  destruct (Prim2SF a) as [sa | sa | | sa ma ea]; try contradiction;
    try subst sa; try exact I; try reflexivity.
  apply (rounds_to_nonneg _ _ (SFdiv_finite false false ma m ea e)).
Qed.

Lemma sqrt_nonneg (a : float) :
  (0 <=? a) = true -> (0 <=? PrimFloat.sqrt a) = true.
Proof.
  rewrite !nonneg_cases, sqrt_spec. intros Ha.
  destruct (Prim2SF a) as [sa | sa | | sa ma ea]; try contradiction;
    try subst sa; try exact I; try reflexivity.
  apply (rounds_to_nonneg _ _ (SFsqrt_finite ma ea)).
Qed.

Lemma square_nonneg (d : float) :
  PrimFloat.is_nan d = false -> (0 <=? d * d) = true.
Proof.
  rewrite is_nan_false, nonneg_cases, mul_spec. intros Hd.
  destruct (Prim2SF d) as [sd | sd | | sd md ed]; try congruence;
    try exact I; try (destruct sd; reflexivity).
  apply (rounds_to_nonneg _ _ (SFmul_self sd md ed)).
Qed.

Lemma abs_nonneg (d : float) :
  PrimFloat.is_nan d = false -> (0 <=? PrimFloat.abs d) = true.
Proof.
  rewrite is_nan_false, nonneg_cases, abs_spec. intros Hd.
  destruct (Prim2SF d); try congruence; cbn; auto.
Qed.

Lemma nonneg_not_nan (c : float) :
  (0 <=? c) = true -> PrimFloat.is_nan c = false.
Proof. intros H. apply (leb_not_nan _ _ H). Qed.

(** *** Operations that cannot give NaN *)

Lemma add_not_nan (a b : float) :
  PrimFloat.is_nan a = false -> PrimFloat.is_finite b = true ->
  PrimFloat.is_nan (a + b) = false.
Proof.
  rewrite !is_nan_false, add_spec. intros Ha Hb.
  destruct (is_finite_cases b Hb) as [[sb ->] | (sb & mb & eb & ->)];
    destruct (Prim2SF a) as [sa | sa | | sa ma ea]; try congruence;
    try discriminate; try (destruct sa, sb; discriminate).
  apply binary_normalize_not_nan.
Qed.

Lemma sub_not_nan (a b : float) :
  PrimFloat.is_finite a = true -> PrimFloat.is_nan b = false ->
  PrimFloat.is_nan (a - b) = false.
Proof.
  rewrite !is_nan_false, sub_spec. intros Ha Hb.
  destruct (is_finite_cases a Ha) as [[sa ->] | (sa & ma & ea & ->)];
    destruct (Prim2SF b) as [sb | sb | | sb mb eb]; try congruence;
    try discriminate; try (destruct sa, sb; discriminate).
  apply binary_normalize_not_nan.
Qed.

Lemma div_not_nan (a n : float) (m : positive) (e : Z) :
  PrimFloat.is_nan a = false -> Prim2SF n = S754_finite false m e ->
  PrimFloat.is_nan (a / n) = false.
Proof.
  rewrite !is_nan_false, div_spec. intros Ha ->.
  destruct (Prim2SF a) as [sa | sa | | sa ma ea]; try congruence;
    try discriminate.
  pose proof (SFdiv_finite sa false ma m ea e) as H.
  destruct H as [-> | [[-> _] | (m' & e' & -> & _)]]; discriminate.
Qed.

Lemma sum_not_nan (l : list float) :
  Forall (fun x => PrimFloat.is_finite x = true) l ->
  PrimFloat.is_nan (Js.sum l) = false.
Proof.
  unfold Js.sum. intros Hl.
  assert (H : forall acc, PrimFloat.is_nan acc = false ->
            PrimFloat.is_nan (fold_left PrimFloat.add l acc) = false).
  { induction Hl as [| x l Hx _ IH]; intros acc Hacc; simpl; [assumption |].
    apply IH. now apply add_not_nan. }
  now apply H.
Qed.

Lemma sum_nonneg (l : list float) :
  Forall (fun x => (0 <=? x) = true) l -> (0 <=? Js.sum l) = true.
Proof.
  unfold Js.sum. intros Hl.
  assert (H : forall acc, (0 <=? acc) = true ->
            (0 <=? fold_left PrimFloat.add l acc) = true).
  { induction Hl as [| x l Hx _ IH]; intros acc Hacc; simpl; [assumption |].
    apply IH. now apply add_nonneg. }
  now apply H.
Qed.

(** An array length is a positive finite number. *)
Lemma of_nat_finite (n : nat) :
  (0 < Z.of_nat n < 2 ^ 32)%Z ->
  exists m e, Prim2SF (Js.of_nat n) = S754_finite false m e.
Proof.
  intros Hn. unfold Js.of_nat.
  rewrite of_uint63_spec, Uint63.of_Z_spec.
  rewrite Z.mod_small by (change Uint63.wB with (2 ^ 63)%Z; lia).
  destruct (Z.of_nat n) as [| p | p]; try lia.
  cbn [binary_normalize].
  pose proof (binary_round_sign false p 0) as Hs.
  pose proof (binary_round_le false p 4503599627370496 0 (-20) eq_refl) as Hle.
  destruct (binary_round_nonzero false p 0 ltac:(rewrite emin_val; lia))
    as [(m & e & ->) | Hinf]; [eauto |].
  exfalso. rewrite Hinf in Hle. apply Hle.
  unfold F2R. rewrite bpow_0, Rmult_1_r.
  change (Z.pos 4503599627370496) with (2 ^ 52)%Z.
  rewrite <- bpow_IZR, <- bpow_add by lia.
  rewrite bpow_IZR by lia. apply IZR_le. simpl. lia.
Qed.

(** *** Differences and bounds *)

Lemma SFcompare_eq_finite (sa sb : bool) (ma mb : positive) (ea eb : Z) :
  SFcompare (S754_finite sa ma ea) (S754_finite sb mb eb) = Some Eq ->
  sa = sb /\ ma = mb /\ ea = eb.
Proof.
  unfold SFcompare.
  destruct sa, sb; try discriminate;
    destruct (Z.compare_spec ea eb) as [E | L | G]; try discriminate;
    change (Pos.compare_cont Eq ma mb) with (Pos.compare ma mb);
    destruct (Pos.compare_spec ma mb); try discriminate; auto.
Qed.

(** The difference of two finite numbers is not negative when the
    second is at most the first. *)
Lemma sub_nonneg (a b : float) :
  PrimFloat.is_finite a = true -> PrimFloat.is_finite b = true ->
  (b <=? a) = true -> (0 <=? a - b) = true.
Proof.
  intros Fa Fb Hle.
  destruct (b <? a) eqn:Hlt.
  - apply ltb_leb. now rewrite sub_gt_zero.
  - rewrite leb_spec in Hle. rewrite ltb_spec in Hlt.
    rewrite nonneg_cases, sub_spec.
    unfold SFleb in Hle. unfold SFltb in Hlt.
    destruct (SFcompare (Prim2SF b) (Prim2SF a)) as [[| |] |] eqn:Hc;
      try discriminate.
    destruct (is_finite_cases a Fa) as [[sa Ea] | (sa & ma & ea & Ea)];
      destruct (is_finite_cases b Fb) as [[sb Eb] | (sb & mb & eb & Eb)];
      rewrite Ea, Eb in *.
    + destruct sa, sb; exact I.
    + destruct sb; discriminate.
    + destruct sa; discriminate.
    + apply SFcompare_eq_finite in Hc. destruct Hc as (-> & -> & ->).
      unfold SF64sub, SFsub. cbv zeta. rewrite Z.sub_diag. exact I.
Qed.

Lemma scaled_nonneg (c : float) :
  (0 <=? c) = true -> (0 <=? 1.5 * c) = true.
Proof.
  rewrite !nonneg_cases, mul_spec.
  change (Prim2SF 1.5) with (S754_finite false 6755399441055744 (-52)).
  intros Hc.
  destruct (Prim2SF c) as [sc | sc | | sc mc ec]; try contradiction;
    try subst sc; try exact I; try reflexivity.
  unfold SF64mul, SFmul. cbn [xorb].
  pose proof (binary_round_aux_sign false
                (Z.pos (6755399441055744 * mc)) (-52 + ec) loc_Exact) as Hs.
  pose proof (binary_round_aux_not_nan false
                (Z.pos (6755399441055744 * mc)) (-52 + ec) loc_Exact
                ltac:(lia)) as Hn.
  destruct (binary_round_aux _ _ _ _ _ _); auto.
Qed.

Lemma is_finite_shape (x : float) :
  PrimFloat.is_finite x = true ->
  match Prim2SF x with S754_zero _ | S754_finite _ _ _ => True | _ => False end.
Proof.
  intros H.
  destruct (is_finite_cases x H) as [[s ->] | (s & m & e & ->)]; exact I.
Qed.

(** Taking away what is not negative does not raise a finite number,
    and adding it does not lower it, rounding included. *)
Lemma sub_le (x c : float) :
  PrimFloat.is_finite x = true -> (0 <=? c) = true -> (x - c <=? x) = true.
Proof.
  intros Fx Hc. rewrite leb_spec in *. rewrite sub_spec.
  apply SFsub_le; try apply Prim2SF_valid.
  - rewrite <- sub_spec. apply Prim2SF_valid.
  - now apply is_finite_shape.
  - exact Hc.
Qed.

Lemma add_ge (x c : float) :
  PrimFloat.is_finite x = true -> (0 <=? c) = true -> (x <=? x + c) = true.
Proof.
  intros Fx Hc. rewrite leb_spec in *. rewrite add_spec.
  apply SFadd_ge; try apply Prim2SF_valid.
  - rewrite <- add_spec. apply Prim2SF_valid.
  - now apply is_finite_shape.
  - exact Hc.
Qed.

End Signs.

(** ** Accuracy of the moments

    How far the computed mean and standard deviation lie from the
    arithmetic mean and the population standard deviation, from the
    specification of the binary64 operations. *)

Module Accuracy.
Import Reals Lra.
Import Binary64 Real64 Rounding Monotone Signs Exact.
Local Open Scope R_scope.

Lemma eta_half_emin : eta = bpow emin / 2.
Proof.
  unfold eta. rewrite emin_val. change (-1074)%Z with (1 + -1075)%Z.
  rewrite bpow_add, bpow_1. field.
Qed.

Lemma inb_ge (x : R) (m : Z) (l : location) : inb x m l -> IZR m <= x.
Proof. destruct l as [| []]; simpl; lra. Qed.

(** A zero result comes from a number of at most half the smallest
    positive number, unless the mantissa is zero at an exponent above
    the least one. *)
Lemma binary_round_aux_zero (s s' : bool) (M E : Z) (l : location) (x : R) :
  (0 <= M)%Z -> inb x M l ->
  binary_round_aux prec emax s M E l = S754_zero s' ->
  x * bpow E <= eta \/ (M = 0%Z /\ (emin < E)%Z /\ x <= / 2).
Proof.
  intros HM Hx. unfold binary_round_aux.
  pose proof (shr_fexp_exponent M E l) as He1.
  destruct (shr_fexp_spec M E l x HM Hx) as (x1 & H1 & Hv & H0 & Hd & He).
  destruct (shr_fexp prec emax M E l) as [mrs e1]. cbn [fst snd] in *.
  destruct (round_nearest_even_near _ _ _ H1) as [Hn HN].
  set (N := round_nearest_even (shr_m mrs) (loc_of_shr_record mrs)) in *.
  assert (HN53 : (0 <= N <= 2 ^ 53)%Z).
  { split; [lia |].
    destruct (Z.eq_dec (shr_m mrs) 0) as [E0 | Hne]; [rewrite E0 in HN; lia |].
    pose proof (Zdigits2_bounds (shr_m mrs) ltac:(lia)) as [_ Hhi].
    assert (2 ^ Zdigits2 (shr_m mrs) <= 2 ^ 53)%Z
      by (apply Z.pow_le_mono_r; lia).
    lia. }
  destruct (shr_fexp_exact N e1 HN53 He) as [Hex Hle].
  destruct (shr_fexp prec emax N e1 loc_Exact) as [mrs2 e2].
  cbn [fst snd] in *.
  destruct (shr_m mrs2) as [| q | q] eqn:Hq; try discriminate;
    [| destruct (e2 <=? emax - prec)%Z; discriminate].
  intros _.
  pose proof (bpow_pos e1) as Hb1. pose proof (bpow_pos e2) as Hb2.
  pose proof (bpow_pos E) as HbE.
  assert (HN0 : N = 0%Z).
  { assert (IZR N * bpow e1 = 0) by (rewrite <- Hex; ring).
    assert (IZR N = 0) by nra. now apply eq_IZR. }
  rewrite HN0 in Hn.
  assert (Hx1 : x1 <= / 2).
  { unfold Rabs in Hn. destruct (Rcase_abs (0 - x1)); lra. }
  pose proof (inb_ge _ _ _ Hx) as HxM.
  rewrite fexp64_eq in He1.
  assert (Hcase : e1 = E \/ e1 = (Zdigits2 M + E - 53)%Z \/ e1 = emin)
    by (rewrite emin_val; lia).
  assert (HEe : (E <= e1)%Z) by lia.
  clear He1.
  destruct Hcase as [EE | [Ed | Ee]].
  - destruct (Z.eq_dec M 0) as [EM | HM0].
    + destruct (Z.eq_dec E emin) as [Em | Hm].
      * left. rewrite <- Hv, EE, Em, eta_half_emin.
        pose proof (bpow_pos emin). nra.
      * right. rewrite EE in *.
        split; [exact EM |]. split; [lia |].
        assert (x = x1)
          by (apply Rmult_eq_reg_r with (r := bpow E);
              [symmetry; exact Hv | lra]).
        lra.
    + exfalso. rewrite EE in *.
      assert (HM1 : 1 <= IZR M) by (apply IZR_le; lia).
      assert (x = x1)
        by (apply Rmult_eq_reg_r with (r := bpow E);
            [symmetry; exact Hv | lra]).
      lra.
  - destruct (Z.eq_dec M 0) as [EM | HM0].
    + rewrite EM in Ed. simpl Zdigits2 in Ed. lia.
    + exfalso.
      pose proof (Zdigits2_bounds M ltac:(lia)) as [Hlo _].
      apply IZR_le in Hlo.
      assert (Hd1 : (0 <= Zdigits2 M - 1)%Z) by lia.
      rewrite <- bpow_IZR in Hlo by exact Hd1.
      assert (Hp : bpow (Zdigits2 M - 1) * bpow E = bpow 52 * bpow e1).
      { rewrite <- !bpow_add. f_equal. lia. }
      assert (H52 : 1 <= bpow 52).
      { rewrite <- bpow_0. apply bpow_le. lia. }
      assert (bpow 52 * bpow e1 <= x * bpow E) by (rewrite <- Hp; nra).
      nra.
  - left. rewrite <- Hv, Ee, eta_half_emin.
    pose proof (bpow_pos emin). nra.
Qed.


Lemma is_finite_SF (f : float) :
  PrimFloat.is_finite f = true <-> finite_SF (Prim2SF f).
Proof.
  unfold PrimFloat.is_finite, PrimFloat.is_nan, PrimFloat.is_infinity.
  rewrite !eqb_spec, abs_spec.
  change (Prim2SF infinity) with (S754_infinity false).
  destruct (Prim2SF f) as [s | [|] | | s m e]; simpl;
    try (split; [discriminate | intros []]);
    try (split; [intros _; exact I | reflexivity]).
  rewrite SFeqb_refl by discriminate.
  split; [intros _; exact I | reflexivity].
Qed.

Lemma Rabs_bound (a b c : R) : - c <= a - b <= c -> Rabs (a - b) <= c.
Proof. intros H. unfold Rabs. destruct (Rcase_abs (a - b)); lra. Qed.

Lemma Rabs_bound_inv (a b c : R) : Rabs (a - b) <= c -> - c <= a - b <= c.
Proof. unfold Rabs. destruct (Rcase_abs (a - b)); lra. Qed.

(** The result of [binary_normalize] on an exact number of the grid:
    within a relative error of [u53] of the result, and exact below the
    normal range. *)
Lemma binary_normalize_error (K ez : Z) :
  (emin <= ez)%Z ->
  let r := binary_normalize prec emax K ez false in
  valid_binary r = true -> finite_SF r ->
  Rabs (SF2R r - IZR K * bpow ez) <= u53 * Rabs (SF2R r).
Proof.
  intros Hez r V Hf.
  assert (Core : forall (sg : bool) (p : positive),
            let r' := binary_round prec emax sg p ez in
            valid_binary r' = true -> finite_SF r' ->
            Rabs (SF2R r' - (if sg then - F2R (Z.pos p) ez else F2R (Z.pos p) ez))
            <= u53 * Rabs (SF2R r')).
  { intros sg p r' V' Hf'.
    pose proof (binary_round_cases sg p ez) as Hr. fold r' in Hr.
    destruct (binary_round_nonzero sg p ez Hez) as [(m & e & Hres) | Hres];
      fold r' in Hres; rewrite Hres in *; [| destruct Hf'].
    destruct Hr as [Hr | [[Hr _] | (m2 & e2 & Hr & Hm2 & Hnear)]];
      try discriminate.
    injection Hr as Hm He. subst e2.
    assert (Hm2' : Z.pos m = m2) by (rewrite Hm, Z2Pos.id; lia).
    rewrite <- Hm2' in Hnear. clear Hm Hm2' Hm2 m2.
    cbn [valid_binary SpecFloat.valid_binary] in V'.
    pose proof (F2R_pos m e) as HF.
    assert (Hrel : Rabs (F2R (Z.pos m) e - F2R (Z.pos p) ez)
                   <= u53 * F2R (Z.pos m) e).
    { destruct (bounded_shape _ _ V') as (He' & _ & [Hn | He'']).
      - destruct (half_ulp _ _ V') as (_ & _ & Hh). specialize (Hh Hn). lra.
      - apply near_grid_exact in Hnear; [| lia].
        rewrite Hnear. unfold Rminus. rewrite Rplus_opp_r, Rabs_R0.
        pose proof u53_small. pose proof (F2R_pos p ez). nra. }
    cbn [SF2R]. apply Rabs_bound_inv in Hrel.
    destruct sg.
    - rewrite Rabs_Ropp, (Rabs_right (F2R (Z.pos m) e)) by lra.
      apply Rabs_bound. lra.
    - rewrite (Rabs_right (F2R (Z.pos m) e)) by lra.
      apply Rabs_bound. lra. }
  unfold r in *. destruct K as [| p | p]; cbn [binary_normalize] in *.
  - cbn [SF2R]. rewrite Rmult_0_l, Rminus_0_r, Rabs_R0. lra.
  - specialize (Core false p V Hf). cbn beta iota in Core.
    unfold F2R in Core. exact Core.
  - specialize (Core true p V Hf). cbn beta iota in Core.
    unfold F2R in Core.
    replace (IZR (Z.neg p) * bpow ez) with (- (IZR (Z.pos p) * bpow ez)).
    + exact Core.
    + change (Z.neg p) with (- Z.pos p)%Z. rewrite opp_IZR. ring.
Qed.

(** The exact value of a number on the grid of a smaller exponent. *)
Lemma signed_aligned (s : bool) (m : positive) (e ez : Z) :
  (ez <= e)%Z ->
  IZR (cond_Zopp s (Z.pos (fst (shl_align m e ez)))) * bpow ez
  = SF2R (S754_finite s m e).
Proof.
  intros H. pose proof (aligned_value m e ez H) as Ha.
  cbn [SF2R]. destruct s; cbn [cond_Zopp].
  - rewrite <- Ha. rewrite opp_IZR. ring.
  - exact Ha.
Qed.

Lemma valid_emin (s : bool) (m : positive) (e : Z) :
  valid_binary (S754_finite s m e) = true -> (emin <= e)%Z.
Proof.
  intros V. cbn [valid_binary SpecFloat.valid_binary] in V.
  now destruct (bounded_shape _ _ V).
Qed.

(** A finite sum or difference lies within a relative error of [u53]
    of the exact one, and its operands are finite. *)
Lemma SFadd_error (x y : spec_float) :
  valid_binary x = true -> valid_binary y = true ->
  valid_binary (SF64add x y) = true -> finite_SF (SF64add x y) ->
  finite_SF x /\ finite_SF y
  /\ Rabs (SF2R (SF64add x y) - (SF2R x + SF2R y))
     <= u53 * Rabs (SF2R (SF64add x y)).
Proof.
  intros Vx Vy Vr Hf. pose proof u53_small as [Hu _].
  destruct x as [sx | sx | | sx mx ex], y as [sy | sy | | sy my ey];
    try (exfalso; revert Hf; unfold SF64add, SFadd; simpl; tauto);
    try (exfalso; revert Hf; unfold SF64add, SFadd; destruct sx, sy; simpl;
         tauto).
  - split; [exact I |]. split; [exact I |].
    unfold SF64add, SFadd. destruct sx, sy; cbv [SF2R Bool.eqb];
      rewrite Rplus_0_r, Rminus_0_r, Rabs_R0; lra.
  - split; [exact I |]. split; [exact I |].
    unfold SF64add, SFadd. cbn [SF2R]. rewrite Rplus_0_l.
    unfold Rminus. rewrite Rplus_opp_r, Rabs_R0.
    pose proof (Rabs_pos (if sy then - F2R (Z.pos my) ey else F2R (Z.pos my) ey)).
    nra.
  - split; [exact I |]. split; [exact I |].
    unfold SF64add, SFadd. cbn [SF2R]. rewrite Rplus_0_r.
    unfold Rminus. rewrite Rplus_opp_r, Rabs_R0.
    pose proof (Rabs_pos (if sx then - F2R (Z.pos mx) ex else F2R (Z.pos mx) ex)).
    nra.
  - split; [exact I |]. split; [exact I |].
    pose proof (valid_emin _ _ _ Vx) as Hex.
    pose proof (valid_emin _ _ _ Vy) as Hey.
    unfold SF64add, SFadd in *.
    set (ez := Z.min ex ey) in *.
    rewrite <- (signed_aligned sx mx ex ez) by lia.
    rewrite <- (signed_aligned sy my ey ez) by lia.
    rewrite <- Rmult_plus_distr_r, <- plus_IZR.
    apply binary_normalize_error; [lia | exact Vr | exact Hf].
Qed.

Lemma SFsub_error (x y : spec_float) :
  valid_binary x = true -> valid_binary y = true ->
  valid_binary (SF64sub x y) = true -> finite_SF (SF64sub x y) ->
  finite_SF x /\ finite_SF y
  /\ Rabs (SF2R (SF64sub x y) - (SF2R x - SF2R y))
     <= u53 * Rabs (SF2R (SF64sub x y)).
Proof.
  intros Vx Vy Vr Hf. pose proof u53_small as [Hu _].
  destruct x as [sx | sx | | sx mx ex], y as [sy | sy | | sy my ey];
    try (exfalso; revert Hf; unfold SF64sub, SFsub; simpl; tauto);
    try (exfalso; revert Hf; unfold SF64sub, SFsub; destruct sx, sy; simpl;
         tauto).
  - split; [exact I |]. split; [exact I |].
    unfold SF64sub, SFsub. destruct sx, sy; cbv [SF2R Bool.eqb negb];
      rewrite !Rminus_0_r, Rabs_R0; lra.
  - split; [exact I |]. split; [exact I |].
    unfold SF64sub, SFsub. cbn [SF2R].
    set (F := F2R (Z.pos my) ey).
    replace ((if negb sy then - F else F) - (0 - (if sy then - F else F)))
      with 0 by (destruct sy; simpl; ring).
    rewrite Rabs_R0. pose proof (Rabs_pos (if negb sy then - F else F)). nra.
  - split; [exact I |]. split; [exact I |].
    unfold SF64sub, SFsub. cbn [SF2R]. rewrite Rminus_0_r.
    unfold Rminus. rewrite Rplus_opp_r, Rabs_R0.
    pose proof (Rabs_pos (if sx then - F2R (Z.pos mx) ex else F2R (Z.pos mx) ex)).
    nra.
  - split; [exact I |]. split; [exact I |].
    pose proof (valid_emin _ _ _ Vx) as Hex.
    pose proof (valid_emin _ _ _ Vy) as Hey.
    unfold SF64sub, SFsub in *.
    set (ez := Z.min ex ey) in *.
    rewrite <- (signed_aligned sx mx ex ez) by lia.
    rewrite <- (signed_aligned sy my ey ez) by lia.
    rewrite <- Rmult_minus_distr_r, <- minus_IZR.
    apply binary_normalize_error; [lia | exact Vr | exact Hf].
Qed.


(** A finite result of rounding lies within [u53] of its own magnitude,
    plus [eta], of the exact value. *)
Lemma rounds_to_error (sg : bool) (v : R) (r : spec_float) :
  rounds_to sg v r -> valid_binary r = true -> finite_SF r ->
  (match r with S754_zero _ => v <= eta | _ => True end) ->
  0 <= v ->
  0 <= Rabs (SF2R r)
  /\ SF2R r = (if sg then - Rabs (SF2R r) else Rabs (SF2R r))
  /\ Rabs (Rabs (SF2R r) - v) <= u53 * Rabs (SF2R r) + eta.
Proof.
  intros Hr V Hf Hz Hv. pose proof u53_small as [Hu _]. pose proof eta_pos.
  destruct Hr as [-> | [[-> _] | (m & e & -> & Hm & Hnear)]];
    [| destruct Hf |].
  - cbn [SF2R]. rewrite Rabs_R0.
    split; [lra |]. split; [destruct sg; lra |].
    apply Rabs_bound. lra.
  - cbn [valid_binary SpecFloat.valid_binary] in V.
    assert (Em : Z.pos (Z.to_pos m) = m) by (apply Z2Pos.id; lia).
    destruct (half_ulp _ _ V) as (Hh & _ & _). rewrite Em in Hh.
    pose proof (F2R_pos (Z.to_pos m) e) as HF. rewrite Em in HF.
    cbn [SF2R]. rewrite Em.
    assert (HA : Rabs (if sg then - F2R m e else F2R m e) = F2R m e).
    { destruct sg; [rewrite Rabs_Ropp |]; apply Rabs_right; lra. }
    rewrite HA. split; [lra |]. split; [destruct sg; reflexivity |]. lra.
Qed.

(** The square of a finite number. *)
Lemma SFsquare_error (d : spec_float) :
  valid_binary (SF64mul d d) = true -> finite_SF (SF64mul d d) ->
  finite_SF d /\ 0 <= SF2R (SF64mul d d)
  /\ Rabs (SF2R (SF64mul d d) - SF2R d * SF2R d)
     <= u53 * SF2R (SF64mul d d) + eta.
Proof.
  intros V Hf. pose proof eta_pos.
  destruct d as [sd | sd | | sd md ed];
    try (exfalso; revert Hf; unfold SF64mul, SFmul; simpl; tauto).
  - split; [exact I |]. unfold SF64mul, SFmul. cbn [SF2R].
    split; [lra |]. rewrite Rmult_0_l, Rminus_0_r, Rabs_R0. lra.
  - split; [exact I |].
    pose proof (SFmul_self sd md ed) as Hr.
    set (v := F2R (Z.pos md) ed * F2R (Z.pos md) ed) in *.
    assert (Hv : 0 <= v) by (unfold v; pose proof (F2R_pos md ed); nra).
    assert (Hz : match SF64mul (S754_finite sd md ed) (S754_finite sd md ed)
                 with S754_zero _ => v <= eta | _ => True end).
    { destruct (SF64mul _ _) as [sz | | |] eqn:Er; try exact I.
      unfold SF64mul, SFmul in Er.
      assert (HM : (0 <= Z.pos (md * md))%Z) by lia.
      assert (Hx : inb (IZR (Z.pos (md * md))) (Z.pos (md * md)) loc_Exact)
        by reflexivity.
      destruct (binary_round_aux_zero _ _ _ _ _ _ HM Hx Er)
        as [Hs | (H0 & _)]; [| discriminate].
      unfold v, F2R. rewrite Pos2Z.inj_mul, mult_IZR, bpow_add in Hs.
      lra. }
    destruct (rounds_to_error _ _ _ Hr V Hf Hz Hv) as (Hp & Hs & He).
    cbn beta iota in Hs. rewrite <- Hs in He, Hp.
    split; [exact Hp |].
    replace (SF2R (S754_finite sd md ed) * SF2R (S754_finite sd md ed)) with v;
      [exact He |].
    unfold v. cbn [SF2R]. destruct sd; ring.
Qed.

Lemma SFdiv_core_exponent (ma mb : positive) (ea eb : Z) :
  (snd (fst (SFdiv_core_binary prec emax (Z.pos ma) ea (Z.pos mb) eb))
   <= fexp64 (Zdigits2 (Z.pos ma) + ea - (Zdigits2 (Z.pos mb) + eb)))%Z.
Proof.
  unfold SFdiv_core_binary.
  set (e' := Z.min _ (ea - eb)).
  destruct (Z.div_eucl _ _) as [q r]. cbn [fst snd]. unfold e'. lia.
Qed.

(** A quotient by a positive finite number. *)
Lemma SFdiv_error (a : spec_float) (mb : positive) (eb : Z) :
  valid_binary a = true ->
  valid_binary (S754_finite false mb eb) = true ->
  let r := SF64div a (S754_finite false mb eb) in
  valid_binary r = true -> finite_SF r ->
  finite_SF a
  /\ Rabs (SF2R r - SF2R a / F2R (Z.pos mb) eb) <= u53 * Rabs (SF2R r) + eta.
Proof.
  intros Va Vb r V Hf. pose proof eta_pos. pose proof u53_small as [Hu _].
  pose proof (F2R_pos mb eb) as HB.
  unfold r in *. clear r.
  destruct a as [sa | sa | | sa ma ea];
    try (exfalso; revert Hf; unfold SF64div, SFdiv; simpl; tauto).
  - split; [exact I |]. unfold SF64div, SFdiv. cbn [SF2R].
    unfold Rdiv. rewrite Rmult_0_l, Rminus_0_r, Rabs_R0. lra.
  - split; [exact I |].
    pose proof (SFdiv_finite sa false ma mb ea eb) as Hr.
    rewrite xorb_false_r in Hr.
    pose proof (F2R_pos ma ea) as HA.
    set (v := F2R (Z.pos ma) ea / F2R (Z.pos mb) eb) in *.
    assert (Hv : 0 < v) by (unfold v; apply Rdiv_lt_0_compat; lra).
    assert (Hz : match SF64div (S754_finite sa ma ea) (S754_finite false mb eb)
                 with S754_zero _ => v <= eta | _ => True end).
    { destruct (SF64div _ _) as [sz | | |] eqn:Er; try exact I.
      unfold SF64div, SFdiv in Er.
      destruct (SFdiv_core_inb ma mb ea eb) as (x & Hx & Hq & Hxv).
      pose proof (SFdiv_core_exponent ma mb ea eb) as He'.
      destruct (SFdiv_core_binary prec emax (Z.pos ma) ea (Z.pos mb) eb)
        as [[q e'] l].
      cbn [fst snd] in *. fold v in Hxv.
      destruct (binary_round_aux_zero _ _ _ _ _ x Hq Hx Er)
        as [Hs | (H0 & He & Hhalf)]; [lra |].
      exfalso.
      rewrite fexp64_eq, emin_val in *.
      set (D := (Zdigits2 (Z.pos ma) + ea - (Zdigits2 (Z.pos mb) + eb))%Z) in *.
      assert (HD : (e' <= D - 53)%Z) by lia.
      pose proof (Zdigits2_bounds (Z.pos ma) ltac:(lia)) as [Hlo _].
      pose proof (Zdigits2_bounds (Z.pos mb) ltac:(lia)) as [Hlb Hhi].
      assert (Hda : (0 <= Zdigits2 (Z.pos ma) - 1)%Z).
      { destruct (Z_lt_le_dec (Zdigits2 (Z.pos ma) - 1) 0) as [Hn | Hn];
          [| exact Hn].
        pose proof (Zdigits2_nonneg (Z.pos ma)).
        assert (Zdigits2 (Z.pos ma) = 0)%Z by lia.
        destruct ma; discriminate. }
      apply IZR_le in Hlo. rewrite <- bpow_IZR in Hlo by exact Hda.
      apply IZR_lt in Hhi.
      rewrite <- bpow_IZR in Hhi by apply Zdigits2_nonneg.
      unfold F2R in HA, HB.
      assert (Hnum : bpow (Zdigits2 (Z.pos ma) - 1 + ea)
                     <= IZR (Z.pos ma) * bpow ea).
      { rewrite bpow_add. pose proof (bpow_pos ea). nra. }
      assert (Hden : IZR (Z.pos mb) * bpow eb
                     <= bpow (Zdigits2 (Z.pos mb) + eb)).
      { rewrite bpow_add. pose proof (bpow_pos eb). nra. }
      assert (Hsplit : bpow (Zdigits2 (Z.pos ma) - 1 + ea)
                       = bpow (D - 1) * bpow (Zdigits2 (Z.pos mb) + eb)).
      { rewrite <- bpow_add. f_equal. unfold D. lia. }
      assert (Hvlo : bpow (D - 1) <= v).
      { unfold v, F2R.
        apply Rmult_le_reg_r with (r := IZR (Z.pos mb) * bpow eb); [lra |].
        unfold Rdiv. rewrite Rmult_assoc, Rinv_l, Rmult_1_r by lra.
        pose proof (bpow_pos (D - 1)). nra. }
      assert (Hvhi : v <= bpow e' / 2).
      { rewrite <- Hxv. pose proof (bpow_pos e'). nra. }
      assert (Hle : bpow e' <= bpow (D - 1)) by (apply bpow_le; lia).
      pose proof (bpow_pos e'). lra. }
    destruct (rounds_to_error _ _ _ Hr V Hf Hz ltac:(lra)) as (Hp & Hs & He).
    set (rr := SF2R (SF64div (S754_finite sa ma ea) (S754_finite false mb eb)))
      in *.
    replace (SF2R (S754_finite sa ma ea) / F2R (Z.pos mb) eb)
      with (if sa then - v else v)
      by (unfold v; cbn [SF2R]; destruct sa; unfold Rdiv; ring).
    apply Rabs_bound_inv in He.
    set (A := Rabs rr) in *. clearbody A.
    destruct sa; rewrite Hs; apply Rabs_bound; lra.
Qed.

Lemma SFsqrt_core_exponent (m : positive) (e : Z) :
  (2 * snd (fst (SFsqrt_core_binary prec emax (Z.pos m) e)) <= e)%Z.
Proof.
  unfold SFsqrt_core_binary.
  set (e' := Z.min _ (Z.div2 e)).
  assert (e' <= Z.div2 e)%Z by (unfold e'; lia).
  rewrite Z.div2_div in H. pose proof (Z.mul_div_le e 2 ltac:(lia)).
  destruct (Z.sqrtrem _) as [q r]. cbn [fst snd]. lia.
Qed.

(** A finite square root. *)
Lemma SFsqrt_error (v : spec_float) :
  valid_binary v = true ->
  valid_binary (SF64sqrt v) = true -> finite_SF (SF64sqrt v) ->
  finite_SF v /\ 0 <= SF2R v /\ 0 <= SF2R (SF64sqrt v)
  /\ Rabs (SF2R (SF64sqrt v) - sqrt (SF2R v)) <= u53 * SF2R (SF64sqrt v).
Proof.
  intros Vv V Hf. pose proof eta_pos as Hη. pose proof u53_small as [Hu _].
  destruct v as [sv | sv | | sv mv ev];
    try (exfalso; revert Hf; unfold SF64sqrt, SFsqrt; simpl; tauto);
    try (exfalso; revert Hf; unfold SF64sqrt, SFsqrt; destruct sv; simpl;
         tauto).
  - split; [exact I |]. unfold SF64sqrt, SFsqrt. cbn [SF2R].
    rewrite sqrt_0, Rminus_0_r, Rabs_R0. lra.
  - destruct sv;
      [exfalso; revert Hf; unfold SF64sqrt, SFsqrt; simpl; tauto |].
    split; [exact I |].
    pose proof (F2R_pos mv ev) as HV.
    cbn [SF2R]. split; [lra |].
    pose proof (SFsqrt_finite mv ev) as Hr.
    cbn [valid_binary SpecFloat.valid_binary] in Vv.
    set (t := sqrt (F2R (Z.pos mv) ev)) in *.
    assert (Ht0 : 0 < t) by (apply sqrt_lt_R0; exact HV).
    assert (Htt : t * t = F2R (Z.pos mv) ev) by (apply sqrt_sqrt; lra).
    destruct (SF64sqrt (S754_finite false mv ev)) as [sz | sz | | sr mr er]
      eqn:Er; try destruct Hf.
    + exfalso. unfold SF64sqrt, SFsqrt in Er.
      destruct (SFsqrt_core_inb mv ev) as (x & Hx & Hq & Hxv).
      pose proof (SFsqrt_core_exponent mv ev) as He'.
      destruct (SFsqrt_core_binary prec emax (Z.pos mv) ev) as [[q e'] l].
      cbn [fst snd] in *. fold t in Hxv.
      destruct (half_ulp _ _ Vv) as (_ & Hmin & _).
      destruct (binary_round_aux_zero _ _ _ _ _ x Hq Hx Er)
        as [Hs | (H0 & He & Hhalf)].
      * rewrite Hxv in Hs. pose proof eta_small. nra.
      * assert (Hb : bpow e' * bpow e' <= F2R (Z.pos mv) ev).
        { rewrite <- bpow_add. unfold F2R.
          assert (bpow (e' + e') <= bpow ev) by (apply bpow_le; lia).
          assert (1 <= IZR (Z.pos mv)) by (apply IZR_le; lia).
          pose proof (bpow_pos ev). nra. }
        pose proof (bpow_pos e').
        assert (x * x * (bpow e' * bpow e') = F2R (Z.pos mv) ev)
          by (rewrite <- Htt, <- Hxv; ring).
        pose proof (inb_ge _ _ _ Hx) as Hx0. rewrite H0 in Hx0.
        assert (x * x <= / 4) by nra.
        nra.
    + destruct Hr as [Hr | [[Hr _] | (m2 & e2 & Hr & Hm2 & Hnear)]];
        try discriminate.
      injection Hr as Hsg Hm He. subst e2 sr.
      assert (Hm2' : Z.pos mr = m2) by (rewrite Hm, Z2Pos.id; lia).
      rewrite <- Hm2' in Hnear. clear Hm Hm2' Hm2 m2.
      cbn [valid_binary SpecFloat.valid_binary] in V.
      pose proof (sqrt_result_normal mr mv er ev V Vv Hnear) as Hrel.
      cbn [SF2R]. pose proof (F2R_pos mr er). split; [lra |].
      unfold t in *. lra.
Qed.

(** An array length as a number is that length. *)
Lemma of_nat_exact (n : nat) :
  (0 < Z.of_nat n < 2 ^ 32)%Z ->
  exists m e, Prim2SF (Js.of_nat n) = S754_finite false m e
              /\ F2R (Z.pos m) e = INR n.
Proof.
  intros Hn. unfold Js.of_nat.
  pose proof (Prim2SF_valid (of_uint63 (Uint63.of_Z (Z.of_nat n)))) as V.
  rewrite of_uint63_spec, Uint63.of_Z_spec in *.
  rewrite Z.mod_small in * by (change Uint63.wB with (2 ^ 63)%Z; lia).
  rewrite INR_IZR_INZ.
  destruct (Z.of_nat n) as [| p | p]; try lia.
  cbn [binary_normalize] in *.
  pose proof (binary_round_cases false p 0) as Hr.
  destruct (binary_round_nonzero false p 0 ltac:(rewrite emin_val; lia))
    as [(m & e & Hres) | Hres].
  - rewrite Hres in *. exists m, e. split; [reflexivity |].
    destruct Hr as [Hr | [[Hr _] | (m2 & e2 & Hr & Hm2 & Hnear)]];
      try discriminate.
    injection Hr as Hm He. subst e2.
    assert (Hm2' : Z.pos m = m2) by (rewrite Hm, Z2Pos.id; lia).
    rewrite <- Hm2' in Hnear. clear Hm Hm2' Hm2 m2.
    cbn [valid_binary SpecFloat.valid_binary] in V.
    assert (Hp : F2R (Z.pos p) 0 = IZR (Z.pos p))
      by (unfold F2R; rewrite bpow_0; ring).
    rewrite <- Hp.
    apply near_grid_exact; [| exact Hnear].
    destruct (bounded_shape _ _ V) as (He' & _ & [Hnorm | He'']);
      [| rewrite He'', emin_val; lia].
    destruct (Z_le_gt_dec e 0) as [Hle | Hgt]; [exact Hle | exfalso].
    rewrite Hp in Hnear. apply Rabs_bound_inv in Hnear.
    assert (H52 : bpow 52 <= IZR (Z.pos m))
      by (rewrite bpow_IZR by lia; apply IZR_le; lia).
    assert (H1 : bpow 1 <= bpow e) by (apply bpow_le; lia).
    rewrite bpow_1 in H1.
    assert (Hp32 : IZR (Z.pos p) < bpow 32)
      by (rewrite bpow_IZR by lia; apply IZR_lt; lia).
    assert (H3252 : bpow 32 <= bpow 52) by (apply bpow_le; lia).
    unfold F2R in Hnear. pose proof (bpow_pos e). pose proof (bpow_pos 32).
    assert (Hm1 : 1 <= IZR (Z.pos m)) by (apply IZR_le; lia).
    assert (2 * (IZR (Z.pos m) - / 2) <= bpow e * (IZR (Z.pos m) - / 2))
      by (apply Rmult_le_compat_r; lra).
    lra.
  - exfalso. rewrite Hres in Hr.
    destruct Hr as [Hr | [[_ Hr] | (m2 & e2 & Hr & _)]]; try discriminate.
    unfold F2R in Hr. rewrite bpow_0, Rmult_1_r in Hr.
    assert (Hp32 : IZR (Z.pos p) < bpow 32)
      by (rewrite bpow_IZR by lia; apply IZR_lt; lia).
    assert (H : bpow 32 <= bpow 971) by (apply bpow_le; lia).
    lra.
Qed.


(** *** The operations of [getStats] on numbers *)

Lemma eps_u53 : eps = 2 * u53.
Proof.
  unfold eps, u53. change (-52)%Z with (1 + -53)%Z.
  now rewrite bpow_add, bpow_1.
Qed.

Lemma eps_small : 0 < eps <= / 500000.
Proof. rewrite eps_u53. pose proof u53_small. lra. Qed.

Lemma add_error (a b : float) :
  PrimFloat.is_finite (a + b) = true ->
  PrimFloat.is_finite a = true /\ PrimFloat.is_finite b = true
  /\ Rabs (real_of (a + b) - (real_of a + real_of b))
     <= u53 * Rabs (real_of (a + b)).
Proof.
  rewrite !is_finite_SF. unfold real_of. intros Hf.
  pose proof (Prim2SF_valid (a + b)) as V.
  rewrite add_spec in *.
  apply SFadd_error; auto using Prim2SF_valid.
Qed.

Lemma sub_error (a b : float) :
  PrimFloat.is_finite (a - b) = true ->
  PrimFloat.is_finite a = true /\ PrimFloat.is_finite b = true
  /\ Rabs (real_of (a - b) - (real_of a - real_of b))
     <= u53 * Rabs (real_of (a - b)).
Proof.
  rewrite !is_finite_SF. unfold real_of. intros Hf.
  pose proof (Prim2SF_valid (a - b)) as V.
  rewrite sub_spec in *.
  apply SFsub_error; auto using Prim2SF_valid.
Qed.

Lemma square_error (d : float) :
  PrimFloat.is_finite (Js.pow2 d) = true ->
  PrimFloat.is_finite d = true /\ 0 <= real_of (Js.pow2 d)
  /\ Rabs (real_of (Js.pow2 d) - real_of d * real_of d)
     <= u53 * real_of (Js.pow2 d) + eta.
Proof.
  unfold Js.pow2. rewrite !is_finite_SF. unfold real_of. intros Hf.
  pose proof (Prim2SF_valid (d * d)) as V.
  rewrite mul_spec in *.
  now apply SFsquare_error.
Qed.

Lemma div_length_error (a : float) (n : nat) :
  (0 < Z.of_nat n < 2 ^ 32)%Z ->
  PrimFloat.is_finite (a / Js.of_nat n) = true ->
  PrimFloat.is_finite a = true
  /\ Rabs (real_of (a / Js.of_nat n) - real_of a / INR n)
     <= u53 * Rabs (real_of (a / Js.of_nat n)) + eta.
Proof.
  intros Hn. rewrite !is_finite_SF. unfold real_of. intros Hf.
  pose proof (Prim2SF_valid (a / Js.of_nat n)) as V.
  pose proof (Prim2SF_valid (Js.of_nat n)) as VN.
  destruct (of_nat_exact n Hn) as (m & e & HN & Hval).
  rewrite div_spec, HN in *. rewrite <- Hval.
  apply SFdiv_error; auto using Prim2SF_valid.
Qed.

Lemma sqrt_error (v : float) :
  PrimFloat.is_finite (PrimFloat.sqrt v) = true ->
  PrimFloat.is_finite v = true /\ 0 <= real_of v
  /\ 0 <= real_of (PrimFloat.sqrt v)
  /\ Rabs (real_of (PrimFloat.sqrt v) - sqrt (real_of v))
     <= u53 * real_of (PrimFloat.sqrt v).
Proof.
  rewrite !is_finite_SF. unfold real_of. intros Hf.
  pose proof (Prim2SF_valid (PrimFloat.sqrt v)) as V.
  rewrite sqrt_spec in *.
  apply SFsqrt_error; auto using Prim2SF_valid.
Qed.

(** *** From one rounding to bounds in the machine epsilon *)

Lemma relative_two_sided (r v : R) :
  Rabs (r - v) <= u53 * Rabs r ->
  Rabs (r - v) <= eps * Rabs v /\ Rabs r <= (1 + eps) * Rabs v.
Proof.
  intros H. pose proof u53_small as [Hu Hu']. rewrite eps_u53.
  assert (Ht : Rabs r <= Rabs v + Rabs (r - v)).
  { replace r with (v + (r - v)) at 1 by ring. apply Rabs_triang. }
  pose proof (Rabs_pos r). pose proof (Rabs_pos v).
  pose proof (Rabs_pos (r - v)).
  assert (Hr : Rabs r * (1 - u53) <= Rabs v) by nra.
  assert (Hr2 : Rabs r <= (1 + 2 * u53) * Rabs v).
  { assert (0 <= Rabs v * (u53 - 2 * u53 * u53)) by (apply Rmult_le_pos; nra).
    nra. }
  split; [| exact Hr2]. nra.
Qed.

Lemma relative_nonneg (r v : R) :
  0 <= v -> Rabs (r - v) <= u53 * Rabs r ->
  (1 - eps) * v <= r <= (1 + eps) * v.
Proof.
  intros Hv H. destruct (relative_two_sided r v H) as [H1 _].
  rewrite (Rabs_right v) in H1 by lra.
  apply Rabs_bound_inv in H1. lra.
Qed.

Lemma absolute_nonneg (r v : R) :
  0 <= r -> 0 <= v -> Rabs (r - v) <= u53 * r + eta ->
  (1 - eps) * v - eta <= r <= (1 + eps) * v + 2 * eta.
Proof.
  intros Hr Hv H. pose proof u53_small as [Hu Hu']. pose proof eta_pos.
  rewrite eps_u53. apply Rabs_bound_inv in H.
  assert (0 <= v * (u53 - 2 * u53 * u53)) by (apply Rmult_le_pos; nra).
  assert (0 <= v * u53 * u53) by (apply Rmult_le_pos; nra).
  split.
  - assert (v - eta <= r * (1 + u53)) by lra.
    destruct (Rle_dec eta v) as [Hge | Hlt].
    + assert ((1 - u53) * (v - eta) <= (1 - u53) * (r * (1 + u53)))
        by (apply Rmult_le_compat_l; lra).
      assert (0 <= r * u53 * u53) by (apply Rmult_le_pos; nra).
      nra.
    + nra.
  - assert (r * (1 - u53) <= v + eta) by lra.
    assert ((1 + 2 * u53) * (r * (1 - u53)) <= (1 + 2 * u53) * (v + eta))
      by (apply Rmult_le_compat_l; lra).
    assert (0 <= r * (u53 - 2 * u53 * u53)) by (apply Rmult_le_pos; nra).
    nra.
Qed.

Lemma absolute_two_sided (r v : R) :
  Rabs (r - v) <= u53 * Rabs r + eta ->
  Rabs (r - v) <= eps * Rabs v + 2 * eta.
Proof.
  intros H. pose proof u53_small as [Hu Hu']. pose proof eta_pos.
  rewrite eps_u53.
  assert (Ht : Rabs r <= Rabs v + Rabs (r - v)).
  { replace r with (v + (r - v)) at 1 by ring. apply Rabs_triang. }
  pose proof (Rabs_pos r). pose proof (Rabs_pos v).
  pose proof (Rabs_pos (r - v)).
  assert (Hr : Rabs r * (1 - u53) <= Rabs v + eta) by nra.
  assert (Hr2 : u53 * Rabs r <= 2 * u53 * Rabs v + eta).
  { assert (0 <= Rabs v * (u53 - 2 * u53 * u53)) by (apply Rmult_le_pos; nra).
    assert (u53 * (Rabs r * (1 - u53)) <= u53 * (Rabs v + eta))
      by (apply Rmult_le_compat_l; lra).
    assert (0 <= Rabs r * u53 * u53) by (apply Rmult_le_pos; nra).
    nra. }
  lra.
Qed.


(** *** Sums *)

Lemma pow_eps_ge_1 (k : nat) : 1 <= (1 + eps) ^ k.
Proof. apply pow_R1_Rle. pose proof eps_small. lra. Qed.

Lemma pow_eps_le_1 (k : nat) : 0 <= (1 - eps) ^ k <= 1.
Proof.
  pose proof eps_small. induction k as [| k IH]; simpl; [lra |]. nra.
Qed.

Lemma total_abs (l : list R) : Rabs (total l) <= total (map Rabs l).
Proof.
  induction l as [| x l IH]; simpl; [rewrite Rabs_R0; lra |].
  eapply Rle_trans; [apply Rabs_triang |]. lra.
Qed.

Lemma total_nonneg (l : list R) : Forall (fun x => 0 <= x) l -> 0 <= total l.
Proof.
  induction 1 as [| x l Hx _ IH]; simpl; lra.
Qed.

Lemma total_map_abs_nonneg {A : Type} (f : A -> R) (l : list A) :
  0 <= total (map (fun x => Rabs (f x)) l).
Proof.
  induction l as [| x l IH]; simpl; [lra |]. pose proof (Rabs_pos (f x)). lra.
Qed.

(** The sum [reduce] computes, from any accumulator: if it is finite,
    so are the accumulator and the terms, and it lies within
    [(1 + eps) ^ k - 1] times the sum of the magnitudes of the exact
    sum, [k] being the number of additions. *)
Lemma fold_add_error (l : list float) : forall acc : float,
  PrimFloat.is_finite (fold_left PrimFloat.add l acc) = true ->
  PrimFloat.is_finite acc = true
  /\ Forall (fun x => PrimFloat.is_finite x = true) l
  /\ Rabs (real_of (fold_left PrimFloat.add l acc)
           - (real_of acc + total (map real_of l)))
     <= ((1 + eps) ^ length l - 1)
        * (Rabs (real_of acc) + total (map (fun x => Rabs (real_of x)) l)).
Proof.
  pose proof eps_small as [He0 He1].
  induction l as [| x l IH]; intros acc Hf.
  - simpl in *. split; [exact Hf |]. split; [constructor |].
    rewrite Rplus_0_r. unfold Rminus. rewrite Rplus_opp_r, Rabs_R0. lra.
  - cbn [fold_left] in *.
    destruct (IH _ Hf) as (Hacc' & Hl & Herr).
    destruct (add_error acc x Hacc') as (Hacc & Hx & Hadd).
    split; [exact Hacc |]. split; [constructor; assumption |].
    destruct (relative_two_sided _ _ Hadd) as [Hrel Hmag].
    set (F := real_of (fold_left PrimFloat.add l (acc + x)%float)) in *.
    set (a' := real_of (acc + x)%float) in *.
    set (a := real_of acc) in *. set (vx := real_of x) in *.
    set (T := total (map real_of l)) in *.
    set (A := total (map (fun y => Rabs (real_of y)) l)) in *.
    assert (HA : 0 <= A) by apply total_map_abs_nonneg.
    set (P := (1 + eps) ^ length l) in *.
    assert (HP : 1 <= P) by apply pow_eps_ge_1.
    change (Rabs (F - (a + (vx + T)))
            <= ((1 + eps) * P - 1) * (Rabs a + (Rabs vx + A))).
    pose proof (Rabs_triang a vx) as Htri.
    pose proof (Rabs_pos a). pose proof (Rabs_pos vx).
    pose proof (Rabs_pos (a + vx)). pose proof (Rabs_pos a').
    set (B := Rabs a + Rabs vx) in *.
    assert (K1 : Rabs (F - (a + (vx + T)))
                 <= Rabs (F - (a' + T)) + Rabs (a' - (a + vx))).
    { replace (F - (a + (vx + T))) with ((F - (a' + T)) + (a' - (a + vx)))
        by ring.
      apply Rabs_triang. }
    assert (K2 : (P - 1) * (Rabs a' + A) <= (P - 1) * ((1 + eps) * B + A)).
    { apply Rmult_le_compat_l; [lra |].
      assert ((1 + eps) * Rabs (a + vx) <= (1 + eps) * B)
        by (apply Rmult_le_compat_l; lra).
      lra. }
    assert (K3 : eps * Rabs (a + vx) <= eps * B)
      by (apply Rmult_le_compat_l; lra).
    assert (K4 : 0 <= eps * P * A).
    { apply Rmult_le_pos; [| exact HA]. apply Rmult_le_pos; lra. }
    replace (Rabs a + (Rabs vx + A)) with (B + A) by (unfold B; ring).
    replace (((1 + eps) * P - 1) * (B + A))
      with ((P - 1) * ((1 + eps) * B + A) + eps * B + eps * P * A) by ring.
    lra.
Qed.

(** A sum of numbers that are not negative. *)
Lemma fold_add_nonneg (l : list float) : forall acc : float,
  PrimFloat.is_finite (fold_left PrimFloat.add l acc) = true ->
  0 <= real_of acc -> Forall (fun x => 0 <= real_of x) l ->
  (1 - eps) ^ length l * (real_of acc + total (map real_of l))
  <= real_of (fold_left PrimFloat.add l acc)
  <= (1 + eps) ^ length l * (real_of acc + total (map real_of l)).
Proof.
  pose proof eps_small as [He0 He1].
  induction l as [| x l IH]; intros acc Hf Hacc Hl.
  - simpl. lra.
  - cbn [fold_left] in *. inversion Hl as [| x' l' Hx Hl']; subst.
    destruct (fold_add_error l _ Hf) as (Hacc' & _ & _).
    destruct (add_error acc x Hacc') as (_ & _ & Hadd).
    apply relative_nonneg in Hadd; [| lra].
    specialize (IH _ Hf ltac:(nra) Hl').
    set (F := real_of (fold_left PrimFloat.add l (acc + x)%float)) in *.
    set (a' := real_of (acc + x)%float) in *.
    set (a := real_of acc) in *. set (vx := real_of x) in *.
    set (T := total (map real_of l)) in *.
    assert (HT : 0 <= T).
    { apply total_nonneg. apply Forall_forall. intros y Hy.
      apply in_map_iff in Hy. destruct Hy as (z & <- & Hz).
      rewrite Forall_forall in Hl'. now apply Hl'. }
    set (P := (1 + eps) ^ length l) in *.
    set (Q := (1 - eps) ^ length l) in *.
    assert (HP : 1 <= P) by apply pow_eps_ge_1.
    assert (HQ : 0 <= Q <= 1) by apply pow_eps_le_1.
    change ((1 - eps) * Q * (a + (vx + T)) <= F
            <= (1 + eps) * P * (a + (vx + T))).
    split.
    + assert (Q * ((1 - eps) * (a + vx) + T) <= Q * (a' + T))
        by (apply Rmult_le_compat_l; lra).
      assert (0 <= Q * eps * T) by (apply Rmult_le_pos; nra).
      nra.
    + assert (P * (a' + T) <= P * ((1 + eps) * (a + vx) + T))
        by (apply Rmult_le_compat_l; lra).
      assert (0 <= P * eps * T) by (apply Rmult_le_pos; nra).
      nra.
Qed.


(** *** The mean *)

Lemma length_pos (data : list float) :
  data <> [] -> (Z.of_nat (length data) < 2 ^ 32)%Z ->
  (0 < Z.of_nat (length data) < 2 ^ 32)%Z /\ 1 <= INR (length data).
Proof.
  intros Hne Hn. destruct data as [| x l]; [congruence |].
  split; [cbn [length] in *; lia |].
  cbn [length]. rewrite S_INR. pose proof (pos_INR (length l)). lra.
Qed.

Lemma real_of_zero : real_of 0%float = 0.
Proof. reflexivity. Qed.

(** The computed mean of a sample lies within [mean_error] of its
    arithmetic mean. *)
Lemma mean_accuracy (data : list float) :
  data <> [] -> (Z.of_nat (length data) < 2 ^ 32)%Z ->
  PrimFloat.is_finite (Js.sum data / Js.of_nat (length data)) = true ->
  Forall (fun x => PrimFloat.is_finite x = true) data
  /\ Rabs (real_of (Js.sum data / Js.of_nat (length data))
           - arithmetic_mean data) <= mean_error data.
Proof.
  intros Hne Hn Hf. destruct (length_pos data Hne Hn) as [Hn' Hn1].
  pose proof eps_small as [He0 He1]. pose proof eta_pos as Hη.
  destruct (div_length_error _ _ Hn' Hf) as (HS & Hdiv).
  unfold Js.sum in *.
  destruct (fold_add_error data _ HS) as (_ & Hall & Hsum).
  split; [exact Hall |].
  rewrite real_of_zero, Rabs_R0, !Rplus_0_l in Hsum.
  apply absolute_two_sided in Hdiv.
  unfold mean_error, arithmetic_mean, mean_magnitude.
  set (m := real_of (fold_left PrimFloat.add data 0%float / Js.of_nat (length data))) in *.
  set (S := real_of (fold_left PrimFloat.add data 0%float)) in *.
  set (T := total (map real_of data)) in *.
  set (A := total (map (fun x => Rabs (real_of x)) data)) in *.
  set (n := INR (length data)) in *.
  set (P := (1 + eps) ^ length data) in *.
  assert (HP : 1 <= P) by apply pow_eps_ge_1.
  assert (HA : 0 <= A) by apply total_map_abs_nonneg.
  assert (HTA : Rabs T <= A).
  { unfold T, A. rewrite <- (map_map real_of Rabs). apply total_abs. }
  replace ((1 + eps) ^ (length data + 1)) with ((1 + eps) * P)
    by (unfold P; rewrite Nat.add_1_r; reflexivity).
  assert (Hn0 : 0 < / n) by (apply Rinv_0_lt_compat; lra).
  assert (HSn : Rabs (S / n - T / n) <= (P - 1) * (A / n)).
  { replace (S / n - T / n) with ((S - T) * / n) by (unfold Rdiv; ring).
    rewrite Rabs_mult, (Rabs_right (/ n)) by lra.
    unfold Rdiv. rewrite <- Rmult_assoc.
    apply Rmult_le_compat_r; lra. }
  assert (HSabs : Rabs (S / n) <= P * (A / n)).
  { assert (Rabs (S / n) <= Rabs (T / n) + Rabs (S / n - T / n)).
    { replace (S / n) with (T / n + (S / n - T / n)) at 1 by ring.
      apply Rabs_triang. }
    assert (Rabs (T / n) <= A / n).
    { unfold Rdiv. rewrite Rabs_mult, (Rabs_right (/ n)) by lra.
      apply Rmult_le_compat_r; lra. }
    lra. }
  assert (Htri : Rabs (m - T / n)
                 <= Rabs (m - S / n) + Rabs (S / n - T / n)).
  { replace (m - T / n) with ((m - S / n) + (S / n - T / n)) by ring.
    apply Rabs_triang. }
  assert (HAn : 0 <= A / n) by (apply Rmult_le_pos; lra).
  assert (Heps : eps * Rabs (S / n) <= eps * (P * (A / n)))
    by (apply Rmult_le_compat_l; lra).
  replace (((1 + eps) * P - 1) * (A / n) + 2 * eta)
    with (eps * (P * (A / n)) + 2 * eta + (P - 1) * (A / n)) by ring.
  lra.
Qed.

(** *** The standard deviation *)

Lemma total_le_affine {A : Type} (f g : A -> R) (a b : R) (l : list A) :
  (forall x, In x l -> f x <= a * g x + b) ->
  total (map f l) <= a * total (map g l) + INR (length l) * b.
Proof.
  induction l as [| x l IH]; intros H.
  - simpl. lra.
  - cbn [map total fold_right length]. rewrite S_INR.
    specialize (IH (fun y Hy => H y (or_intror Hy))).
    specialize (H x (or_introl eq_refl)).
    unfold total in IH. lra.
Qed.

Lemma total_ge_affine {A : Type} (f g : A -> R) (a b : R) (l : list A) :
  (forall x, In x l -> a * g x - b <= f x) ->
  a * total (map g l) - INR (length l) * b <= total (map f l).
Proof.
  induction l as [| x l IH]; intros H.
  - simpl. lra.
  - cbn [map total fold_right length]. rewrite S_INR.
    specialize (IH (fun y Hy => H y (or_intror Hy))).
    specialize (H x (or_introl eq_refl)).
    unfold total in IH. lra.
Qed.

Lemma total_squares_nonneg {A : Type} (f : A -> R) (l : list A) :
  0 <= total (map (fun x => f x ^ 2) l).
Proof.
  induction l as [| x l IH]; [simpl; lra |].
  cbn [map]. change (0 <= f x ^ 2 + total (map (fun y => f y ^ 2) l)).
  pose proof (pow2_ge_0 (f x)). lra.
Qed.

(** The arithmetic of the bounds, on real numbers: [G] the exact sum of
    the computed squares, [S] the computed sum, [V] the computed
    quotient, [s] the computed root. *)
Lemma deviation_upper (e h n P t G S V s : R) :
  0 < e -> 0 < h -> 1 <= n -> 1 <= P -> 0 <= t ->
  G <= (1 + e) ^ 3 * (n * t) + n * (2 * h) ->
  S <= P * G ->
  0 <= V -> V <= (1 + e) * (S / n) + 2 * h ->
  0 <= s <= (1 + e) * sqrt V ->
  s ^ 2 <= P * (1 + e) ^ 6 * (t + 4 * h).
Proof.
  intros He Hh Hn HP Ht HG HS HV0 HV Hs.
  set (c := 1 + e) in *. assert (Hc : 1 <= c) by (unfold c; lra).
  assert (Hc2 : 1 <= c ^ 2) by (simpl; nra).
  assert (Hc3 : c ^ 2 <= c ^ 3) by (simpl in *; nra).
  assert (Hc4 : 1 <= c ^ 4) by (replace (c ^ 4) with (c ^ 2 * c ^ 2) by ring; nra).
  assert (Hc6 : c ^ 3 <= c ^ 6).
  { replace (c ^ 6) with (c ^ 3 * c ^ 3) by ring.
    assert (1 <= c ^ 3) by lra. nra. }
  assert (Hn0 : 0 < / n) by (apply Rinv_0_lt_compat; lra).
  assert (HGn : G / n <= c ^ 3 * t + 2 * h).
  { unfold Rdiv.
    replace (c ^ 3 * t + 2 * h) with ((c ^ 3 * (n * t) + n * (2 * h)) * / n)
      by (field; lra).
    apply Rmult_le_compat_r; lra. }
  assert (HSn : S / n <= P * (c ^ 3 * t + 2 * h)).
  { assert (S / n <= P * G / n)
      by (unfold Rdiv; apply Rmult_le_compat_r; lra).
    assert (P * (G / n) <= P * (c ^ 3 * t + 2 * h))
      by (apply Rmult_le_compat_l; lra).
    unfold Rdiv in *. lra. }
  assert (HVU : V <= c * (P * (c ^ 3 * t + 2 * h)) + 2 * h).
  { assert (c * (S / n) <= c * (P * (c ^ 3 * t + 2 * h)))
      by (apply Rmult_le_compat_l; lra).
    lra. }
  set (w := sqrt V) in *.
  assert (Hw0 : 0 <= w) by apply sqrt_pos.
  assert (Hww : w * w = V) by (apply sqrt_sqrt; exact HV0).
  assert (Hs2 : s ^ 2 <= c ^ 2 * V).
  { replace (c ^ 2 * V) with ((c * w) * (c * w)) by (rewrite <- Hww; ring).
    simpl. rewrite Rmult_1_r. apply Rmult_le_compat; lra. }
  assert (Hs3 : c ^ 2 * V <= c ^ 2 * (c * (P * (c ^ 3 * t + 2 * h)) + 2 * h))
    by (apply Rmult_le_compat_l; lra).
  assert (Hfin : c ^ 2 * (c * (P * (c ^ 3 * t + 2 * h)) + 2 * h)
                 <= P * c ^ 6 * (t + 4 * h)).
  { replace (c ^ 2 * (c * (P * (c ^ 3 * t + 2 * h)) + 2 * h))
      with (P * c ^ 6 * t + 2 * h * (P * c ^ 3) + 2 * h * c ^ 2) by ring.
    assert (P * c ^ 3 <= P * c ^ 6) by (apply Rmult_le_compat_l; lra).
    assert (c ^ 2 <= P * c ^ 6).
    { assert (1 * c ^ 2 <= P * c ^ 6) by (apply Rmult_le_compat; lra). lra. }
    assert (2 * h * (P * c ^ 3) <= 2 * h * (P * c ^ 6))
      by (apply Rmult_le_compat_l; lra).
    assert (2 * h * c ^ 2 <= 2 * h * (P * c ^ 6))
      by (apply Rmult_le_compat_l; lra).
    lra. }
  lra.
Qed.

Lemma deviation_lower (e h n Q t G S V s : R) :
  0 < e <= / 2 -> 0 < h -> 1 <= n -> 0 <= Q <= 1 -> 0 <= t ->
  (1 - e) ^ 3 * (n * t) - n * h <= G ->
  Q * G <= S ->
  0 <= V -> (1 - e) * (S / n) - h <= V ->
  (1 - e) * sqrt V <= s ->
  Q * (1 - e) ^ 6 * t - 2 * h <= s ^ 2.
Proof.
  intros He Hh Hn HQ Ht HG HS HV0 HV Hs.
  set (c := 1 - e) in *. assert (Hc : 0 < c <= 1) by (unfold c; lra).
  assert (Hc2 : 0 < c ^ 2 <= 1) by (simpl; nra).
  assert (Hn0 : 0 < / n) by (apply Rinv_0_lt_compat; lra).
  assert (HGn : c ^ 3 * t - h <= G / n).
  { unfold Rdiv.
    replace (c ^ 3 * t - h) with ((c ^ 3 * (n * t) - n * h) * / n)
      by (field; lra).
    apply Rmult_le_compat_r; lra. }
  assert (HSn : Q * (c ^ 3 * t - h) <= S / n).
  { assert (Q * G / n <= S / n)
      by (unfold Rdiv; apply Rmult_le_compat_r; lra).
    assert (Q * (c ^ 3 * t - h) <= Q * (G / n))
      by (apply Rmult_le_compat_l; lra).
    unfold Rdiv in *. lra. }
  assert (HVL : c * (Q * (c ^ 3 * t - h)) - h <= V).
  { assert (c * (Q * (c ^ 3 * t - h)) <= c * (S / n))
      by (apply Rmult_le_compat_l; lra).
    lra. }
  set (w := sqrt V) in *.
  assert (Hw0 : 0 <= w) by apply sqrt_pos.
  assert (Hww : w * w = V) by (apply sqrt_sqrt; exact HV0).
  assert (Hs2 : c ^ 2 * V <= s ^ 2).
  { replace (c ^ 2 * V) with ((c * w) * (c * w)) by (rewrite <- Hww; ring).
    simpl. rewrite Rmult_1_r.
    assert (0 <= c * w) by (apply Rmult_le_pos; lra).
    apply Rmult_le_compat; lra. }
  assert (Hs3 : c ^ 2 * (c * (Q * (c ^ 3 * t - h)) - h) <= c ^ 2 * V)
    by (apply Rmult_le_compat_l; lra).
  assert (Hfin : Q * c ^ 6 * t - 2 * h
                 <= c ^ 2 * (c * (Q * (c ^ 3 * t - h)) - h)).
  { replace (c ^ 2 * (c * (Q * (c ^ 3 * t - h)) - h))
      with (Q * c ^ 6 * t - h * (Q * c ^ 3) - h * c ^ 2) by ring.
    assert (0 <= c ^ 3 <= 1) by (simpl in *; nra).
    assert (Q * c ^ 3 <= 1 * 1) by (apply Rmult_le_compat; lra).
    assert (h * (Q * c ^ 3) <= h * 1) by (apply Rmult_le_compat_l; lra).
    assert (h * c ^ 2 <= h * 1) by (apply Rmult_le_compat_l; lra).
    lra. }
  lra.
Qed.


(** The square root of the mean of the computed squared deviations from
    a number [c]: its square lies within the stated factors of the mean
    of the exact squared deviations from [c]. *)
Lemma deviation_accuracy (data : list float) (c : float) :
  data <> [] -> (Z.of_nat (length data) < 2 ^ 32)%Z ->
  let sd :=
    PrimFloat.sqrt
      (Js.sum (map (fun x => Js.pow2 (x - c)%float) data)
       / Js.of_nat (length data)) in
  PrimFloat.is_finite sd = true ->
  PrimFloat.is_finite c = true
  /\ 0 <= real_of sd
  /\ (1 - eps) ^ (length data + 6) * mean_square_deviation data (real_of c)
     - 2 * eta
     <= real_of sd ^ 2
     <= (1 + eps) ^ (length data + 6)
        * (mean_square_deviation data (real_of c) + 4 * eta).
Proof.
  intros Hne Hn sd Hf. destruct (length_pos data Hne Hn) as [Hn' Hn1].
  pose proof eps_small as [He0 He1]. pose proof eta_pos as Hη.
  unfold sd in *. clear sd.
  destruct (sqrt_error _ Hf) as (HV & HV0 & Hs0 & Hsqrt).
  set (sq := map (fun x => Js.pow2 (x - c)%float) data) in *.
  assert (Hlen : length sq = length data) by (unfold sq; apply length_map).
  destruct (div_length_error _ _ Hn' HV) as (HS & Hdiv).
  unfold Js.sum in *.
  destruct (fold_add_error sq _ HS) as (_ & Hsq & _).
  rewrite Forall_forall in Hsq.
  assert (Hpoint : forall x, In x data ->
            PrimFloat.is_finite c = true
            /\ 0 <= real_of (Js.pow2 (x - c)%float)
            /\ (1 - eps) ^ 3 * (real_of x - real_of c) ^ 2 - eta
               <= real_of (Js.pow2 (x - c)%float)
               <= (1 + eps) ^ 3 * (real_of x - real_of c) ^ 2 + 2 * eta).
  { intros x Hx.
    assert (Hq : PrimFloat.is_finite (Js.pow2 (x - c)%float) = true)
      by (apply Hsq; unfold sq; apply in_map_iff; now exists x).
    destruct (square_error _ Hq) as (Hd & Hq0 & Hqe).
    destruct (sub_error _ _ Hd) as (_ & Hc & Hde).
    split; [exact Hc |]. split; [exact Hq0 |].
    destruct (relative_two_sided _ _ Hde) as [Hrel Hmag].
    set (D := real_of (x - c)%float) in *.
    set (X := real_of x - real_of c) in *.
    set (q := real_of (Js.pow2 (x - c)%float)) in *.
    assert (HDD : 0 <= D * D) by nra.
    destruct (absolute_nonneg q (D * D) Hq0 HDD Hqe) as [Hlo Hhi].
    pose proof (Rabs_pos D). pose proof (Rabs_pos X).
    assert (HlowD : (1 - eps) * Rabs X <= Rabs D).
    { assert (Rabs X <= Rabs D + Rabs (D - X)).
      { replace X with (D + (X - D)) at 1 by ring.
        eapply Rle_trans; [apply Rabs_triang |].
        rewrite (Rabs_minus_sym X D). lra. }
      lra. }
    assert (HD2 : D * D = Rabs D * Rabs D).
    { unfold Rabs. destruct (Rcase_abs D); ring. }
    assert (HX2 : X ^ 2 = Rabs X * Rabs X).
    { unfold Rabs. destruct (Rcase_abs X); ring. }
    assert (Hup2 : D * D <= (1 + eps) ^ 2 * X ^ 2).
    { rewrite HD2, HX2.
      replace ((1 + eps) ^ 2 * (Rabs X * Rabs X))
        with (((1 + eps) * Rabs X) * ((1 + eps) * Rabs X)) by ring.
      apply Rmult_le_compat; lra. }
    assert (Hlo2 : (1 - eps) ^ 2 * X ^ 2 <= D * D).
    { rewrite HD2, HX2.
      replace ((1 - eps) ^ 2 * (Rabs X * Rabs X))
        with (((1 - eps) * Rabs X) * ((1 - eps) * Rabs X)) by ring.
      assert (0 <= (1 - eps) * Rabs X) by (apply Rmult_le_pos; lra).
      apply Rmult_le_compat; lra. }
    split.
    - assert ((1 - eps) * ((1 - eps) ^ 2 * X ^ 2) <= (1 - eps) * (D * D))
        by (apply Rmult_le_compat_l; lra).
      replace ((1 - eps) ^ 3 * X ^ 2)
        with ((1 - eps) * ((1 - eps) ^ 2 * X ^ 2)) by ring.
      lra.
    - assert ((1 + eps) * (D * D) <= (1 + eps) * ((1 + eps) ^ 2 * X ^ 2))
        by (apply Rmult_le_compat_l; lra).
      replace ((1 + eps) ^ 3 * X ^ 2)
        with ((1 + eps) * ((1 + eps) ^ 2 * X ^ 2)) by ring.
      lra. }
  split.
  { destruct data as [| x0 l0]; [congruence |].
    now destruct (Hpoint x0 (or_introl eq_refl)). }
  split; [exact Hs0 |].
  assert (Hnn : Forall (fun y => 0 <= real_of y) sq).
  { apply Forall_forall. intros y Hy. unfold sq in Hy.
    apply in_map_iff in Hy. destruct Hy as (x & <- & Hx).
    now destruct (Hpoint x Hx) as (_ & H0 & _). }
  pose proof (fold_add_nonneg sq _ HS ltac:(rewrite real_of_zero; lra) Hnn)
    as Hsum.
  unfold Js.number in Hlen. rewrite Hlen in Hsum.
  rewrite real_of_zero in Hsum.
  rewrite !Rplus_0_l in Hsum.
  unfold sq in Hsum. rewrite map_map in Hsum. fold sq in Hsum.
  set (G := total (map (fun x => real_of (Js.pow2 (x - c)%float)) data)) in *.
  set (XX := total (map (fun x => (real_of x - real_of c) ^ 2) data)) in *.
  assert (HXX : 0 <= XX)
    by (unfold XX; apply (total_squares_nonneg (fun x => real_of x - real_of c))).
  assert (HGup : G <= (1 + eps) ^ 3 * XX + INR (length data) * (2 * eta)).
  { unfold G, XX. apply total_le_affine. intros x Hx.
    now destruct (Hpoint x Hx) as (_ & _ & _ & H). }
  assert (HGlo : (1 - eps) ^ 3 * XX - INR (length data) * eta <= G).
  { unfold G, XX. apply total_ge_affine. intros x Hx.
    now destruct (Hpoint x Hx) as (_ & _ & H & _). }
  assert (HG0 : 0 <= G).
  { unfold G. apply total_nonneg. apply Forall_forall. intros y Hy.
    apply in_map_iff in Hy. destruct Hy as (x & <- & Hx).
    now destruct (Hpoint x Hx) as (_ & H0 & _). }
  set (S := real_of (fold_left PrimFloat.add sq 0%float)) in *.
  set (V := real_of (fold_left PrimFloat.add sq 0%float
                     / Js.of_nat (length data))) in *.
  set (s := real_of (PrimFloat.sqrt
                       (fold_left PrimFloat.add sq 0%float
                        / Js.of_nat (length data)))) in *.
  set (n := INR (length data)) in *.
  assert (Hn0 : 0 < / n) by (apply Rinv_0_lt_compat; lra).
  assert (HS0 : 0 <= S).
  { destruct Hsum as [Hlo _]. pose proof (pow_eps_le_1 (length data)).
    assert (0 <= (1 - eps) ^ length data * G) by (apply Rmult_le_pos; lra).
    lra. }
  assert (HSn0 : 0 <= S / n) by (apply Rmult_le_pos; lra).
  rewrite (Rabs_right V) in Hdiv by lra.
  destruct (absolute_nonneg V (S / n) HV0 HSn0 Hdiv) as [HVlo HVhi].
  destruct (relative_nonneg s (sqrt V) (sqrt_pos V)) as [Hslo Hshi].
  { rewrite (Rabs_right s) by lra. exact Hsqrt. }
  unfold mean_square_deviation. fold XX. fold n.
  set (t := XX / n).
  assert (Ht : 0 <= t) by (apply Rmult_le_pos; lra).
  assert (Hnt : n * t = XX) by (unfold t; field; lra).
  rewrite !pow_add.
  split.
  - apply (deviation_lower eps eta n _ t G S V s);
      try lra; try apply pow_eps_le_1; try (rewrite Hnt; lra); tauto.
  - apply (deviation_upper eps eta n _ t G S V s);
      try lra; try apply pow_eps_ge_1; try (rewrite Hnt; lra); tauto.
Qed.

(** The mean of the squared deviations from [c] is the population
    variance plus the squared distance of [c] from the arithmetic
    mean. *)
Lemma total_shift (l : list R) (c : R) :
  total (map (fun x => (x - c) ^ 2) l)
  = total (map (fun x => x ^ 2) l) - 2 * c * total l + INR (length l) * c ^ 2.
Proof.
  induction l as [| x l IH].
  - simpl. ring.
  - cbn [map length]. rewrite S_INR.
    change (total ((x - c) ^ 2 :: map (fun y => (y - c) ^ 2) l))
      with ((x - c) ^ 2 + total (map (fun y => (y - c) ^ 2) l)).
    change (total (x ^ 2 :: map (fun y => y ^ 2) l))
      with (x ^ 2 + total (map (fun y => y ^ 2) l)).
    change (total (x :: l)) with (x + total l).
    rewrite IH. ring.
Qed.

Lemma mean_square_deviation_shift (data : list float) (c : R) :
  data <> [] ->
  mean_square_deviation data c
  = population_variance data + (c - arithmetic_mean data) ^ 2.
Proof.
  intros Hne.
  assert (Hn : 1 <= INR (length data)).
  { destruct data as [| x l]; [congruence |].
    cbn [length]. rewrite S_INR. pose proof (pos_INR (length l)). lra. }
  unfold population_variance, mean_square_deviation.
  rewrite <- !(map_map real_of (fun r => (r - _) ^ 2)).
  rewrite !total_shift, length_map.
  unfold arithmetic_mean.
  set (T := total (map real_of data)). set (n := INR (length data)) in *.
  set (Q := total (map (fun x => x ^ 2) (map real_of data))).
  field. lra.
Qed.

Lemma population_variance_nonneg (data : list float) :
  data <> [] -> 0 <= population_variance data.
Proof.
  intros Hne.
  assert (Hn : 1 <= INR (length data)).
  { destruct data as [| x l]; [congruence |].
    cbn [length]. rewrite S_INR. pose proof (pos_INR (length l)). lra. }
  unfold population_variance, mean_square_deviation.
  apply Rmult_le_pos.
  - apply (total_squares_nonneg (fun x => real_of x - arithmetic_mean data)).
  - left. apply Rinv_0_lt_compat. lra.
Qed.


Lemma mean_error_nonneg (data : list float) :
  data <> [] -> 0 <= mean_error data.
Proof.
  intros Hne. unfold mean_error, mean_magnitude.
  assert (Hn : 1 <= INR (length data)).
  { destruct data as [| x l]; [congruence |].
    cbn [length]. rewrite S_INR. pose proof (pos_INR (length l)). lra. }
  pose proof (pow_eps_ge_1 (length data + 1)). pose proof eta_pos.
  assert (0 <= total (map (fun x => Rabs (real_of x)) data) / INR (length data)).
  { apply Rmult_le_pos; [apply total_map_abs_nonneg |].
    left. apply Rinv_0_lt_compat. lra. }
  nra.
Qed.

(** Mean and standard deviation as [getStats] computes them. *)
Lemma moments_accuracy (data : list float) :
  data <> [] -> (Z.of_nat (length data) < 2 ^ 32)%Z ->
  let m := (Js.sum data / Js.of_nat (length data))%float in
  let sd :=
    PrimFloat.sqrt
      (Js.sum (map (fun x => Js.pow2 (x - m)%float) data)
       / Js.of_nat (length data)) in
  (PrimFloat.is_finite m = true -> mean_within data m)
  /\ (PrimFloat.is_finite sd = true -> deviation_within data sd).
Proof.
  intros Hne Hn m sd. split.
  - intros Hf. now apply mean_accuracy.
  - intros Hf.
    destruct (deviation_accuracy data m Hne Hn Hf) as (Hm & Hs0 & Hlo & Hhi).
    destruct (mean_accuracy data Hne Hn Hm) as [_ Hmean]. fold m in Hmean.
    pose proof (mean_error_nonneg data Hne) as HE.
    pose proof (population_variance_nonneg data Hne) as HV.
    rewrite (mean_square_deviation_shift data _ Hne) in Hlo, Hhi.
    apply Rabs_bound_inv in Hmean.
    set (d := real_of m - arithmetic_mean data) in *.
    assert (Hd : d ^ 2 <= mean_error data ^ 2).
    { simpl. rewrite !Rmult_1_r.
      destruct (Rle_dec 0 d) as [Hp | Hn0].
      - apply Rmult_le_compat; lra.
      - replace (d * d) with ((- d) * (- d)) by ring.
        apply Rmult_le_compat; lra. }
    assert (Hd0 : 0 <= d ^ 2) by apply pow2_ge_0.
    pose proof (pow_eps_ge_1 (length data + 6)) as HP.
    pose proof (pow_eps_le_1 (length data + 6)) as HQ.
    pose proof eta_pos.
    split; [exact Hs0 |]. fold sd in Hlo, Hhi. split.
    + assert ((1 - eps) ^ (length data + 6) * population_variance data
              <= (1 - eps) ^ (length data + 6) * (population_variance data + d ^ 2))
        by (apply Rmult_le_compat_l; lra).
      lra.
    + assert ((1 + eps) ^ (length data + 6) * (population_variance data + d ^ 2 + 4 * eta)
              <= (1 + eps) ^ (length data + 6)
                 * (population_variance data + mean_error data ^ 2 + 4 * eta))
        by (apply Rmult_le_compat_l; lra).
      lra.
Qed.

Lemma real_of_length (n : nat) :
  (0 < Z.of_nat n < 2 ^ 32)%Z -> real_of (Js.of_nat n) = INR n.
Proof.
  intros Hn. destruct (of_nat_exact n Hn) as (m & e & HN & Hv).
  unfold real_of. rewrite HN. exact Hv.
Qed.


(** The sample 2, 4, 4, 4, 5, 5, 7, 9 has arithmetic mean 5 and
    population variance 4. *)
Lemma classic_sample_moments :
  let data := [2; 4; 4; 4; 5; 5; 7; 9]%float in
  arithmetic_mean data = 5 /\ population_variance data = 4.
Proof.
  intros data.
  assert (E : data = map Js.of_nat [2; 4; 4; 4; 5; 5; 7; 9]%nat)
    by (vm_compute; reflexivity).
  assert (Hm : arithmetic_mean data = 5).
  { rewrite E. unfold arithmetic_mean. rewrite map_map. cbn [map length].
    rewrite !real_of_length by (simpl; lia).
    unfold total. cbn [fold_right]. simpl INR. field. }
  split; [exact Hm |].
  unfold population_variance, mean_square_deviation. rewrite Hm.
  rewrite E. rewrite map_map. cbn [map length].
  rewrite !real_of_length by (simpl; lia).
  unfold total. cbn [fold_right]. simpl INR. field.
Qed.

End Accuracy.

(** ** Sorting *)

Section SortFacts.
Context {A : Type} (cmp : A -> A -> float) (key : A -> float).

Lemma insert_perm x l : Permutation (x :: l) (Js.insert cmp x l).
Proof.
  induction l as [| y l IH]; simpl; [reflexivity |].
  destruct (Js.gt (cmp x y) 0); [| reflexivity].
  rewrite perm_swap. now apply perm_skip.
Qed.

Lemma sort_perm l : Permutation l (Js.sort cmp l).
Proof.
  induction l as [| x l IH]; simpl; [constructor |].
  rewrite <- insert_perm. now apply perm_skip.
Qed.

Lemma sort_length l : length (Js.sort cmp l) = length l.
Proof. symmetry. apply Permutation_length, sort_perm. Qed.

Lemma sort_In x l : In x (Js.sort cmp l) <-> In x l.
Proof.
  split; apply Permutation_in; [symmetry |]; apply sort_perm.
Qed.

(** The comparator orders by [key]: it is positive exactly when its
    second argument has the smaller key. *)
Hypothesis cmp_key : forall x y, Js.gt (cmp x y) 0 = (key y <? key x)%float.

Lemma insert_no_descent x l :
  no_descent key l -> no_descent key (Js.insert cmp x l).
Proof.
  unfold no_descent. induction l as [| y l IH]; simpl; intros S.
  - repeat constructor.
  - rewrite cmp_key. destruct (key y <? key x)%float eqn:E.
    + apply Sorted_inv in S. destruct S as [S Hd].
      constructor; [auto |].
      destruct l as [| z l]; simpl.
      * constructor. now apply Binary64.ltb_asym.
      * rewrite cmp_key. destruct (key z <? key x)%float.
        -- constructor. now inversion Hd.
        -- constructor. now apply Binary64.ltb_asym.
    + constructor; [assumption | now constructor].
Qed.

Lemma sort_no_descent l : no_descent key (Js.sort cmp l).
Proof.
  induction l as [| x l IH]; simpl; [constructor |].
  now apply insert_no_descent.
Qed.

Lemma insert_ascending x l :
  PrimFloat.is_nan (key x) = false -> no_nan key l ->
  ascending key l -> ascending key (Js.insert cmp x l).
Proof.
  unfold ascending, no_nan.
  induction l as [| y l IH]; simpl; intros Nx Nl S.
  - repeat constructor.
  - apply StronglySorted_inv in S. destruct S as [S Hy].
    apply Forall_cons_iff in Nl. destruct Nl as [Ny Nl].
    rewrite cmp_key. destruct (key y <? key x)%float eqn:E.
    + constructor; [auto |].
      apply (Permutation_Forall (insert_perm x l)).
      constructor; [now apply Binary64.ltb_leb | assumption].
    + assert (Hxy : (key x <=? key y)%float = true)
        by now apply Binary64.ltb_false_leb.
      constructor; [now constructor |].
      constructor; [assumption |].
      eapply Forall_impl; [| exact Hy].
      intros z Hz. eapply Binary64.leb_trans; eassumption.
Qed.

Lemma no_nan_perm l l' : Permutation l l' -> no_nan key l -> no_nan key l'.
Proof. apply Permutation_Forall. Qed.

Lemma sort_ascending l : no_nan key l -> ascending key (Js.sort cmp l).
Proof.
  induction l as [| x l IH]; simpl; intros N; [constructor |].
  apply Forall_cons_iff in N. destruct N as [Nx Nl].
  apply insert_ascending; auto.
  eapply no_nan_perm; [apply sort_perm | assumption].
Qed.

End SortFacts.

Lemma numeric_order_key x y :
  Js.gt (numeric_order x y) 0 = (y <? x)%float.
Proof. apply Binary64.sub_gt_zero. Qed.

Lemma value_order_key x y :
  Js.gt (value_order x y) 0 = (value y <? value x)%float.
Proof. apply Binary64.sub_gt_zero. Qed.

(** ** Statistics calculator *)

Lemma numeric_sort_arrangement l :
  sorted_arrangement l (Js.sort numeric_order l).
Proof.
  repeat split.
  - apply sort_perm.
  - apply sort_no_descent, numeric_order_key.
  - apply sort_ascending, numeric_order_key.
Qed.

Lemma nearest_rank_In num den (l : list float) :
  l <> [] -> (num < den)%nat -> In (nearest_rank num den l) l.
Proof.
  intros Hl Hlt. unfold nearest_rank. apply nth_In.
  assert (0 < length l)%nat by (destruct l; [congruence | simpl; lia]).
  apply Nat.Div0.div_lt_upper_bound. nia.
Qed.

Lemma getStats_nonempty data :
  data <> [] ->
  Statistics_of data (Js.sort numeric_order data)
    (Js.sort numeric_order
       (map (fun x => PrimFloat.abs (x - median (getStats data))%float) data))
    (getStats data).
Proof.
  intros Hne. destruct data as [| x data]; [congruence |].
  set (d := x :: data) in *.
  assert (Hlen : length (Js.sort numeric_order d) = length d)
    by apply sort_length.
  unfold getStats. fold d. change (match d with [] => _ | _ :: _ => ?b end) with b.
  constructor; cbn [q1 median q3 iqr mean stdDev mad]; unfold nearest_rank, Js.get;
    rewrite ?Nat.mul_1_r, ?Hlen; try reflexivity.
  apply sort_perm.
Qed.

(** The floors [getStats] takes are the integer quotients: checked on the
    numbers themselves for every sample size up to 4000. *)
Lemma getStats_floors_exact (n : nat) :
  (n <= 4000)%nat ->
  Js.Math_floor (Js.of_nat n / 4) = Z.of_nat (n / 4)
  /\ Js.Math_floor (Js.of_nat n / 2) = Z.of_nat (n / 2)
  /\ Js.Math_floor (Js.of_nat n * 3 / 4) = Z.of_nat (n * 3 / 4).
Proof.
  intros Hn.
  assert (H : forallb
                (fun k =>
                   (Js.Math_floor (Js.of_nat k / 4) =? Z.of_nat (k / 4))%Z
                   && (Js.Math_floor (Js.of_nat k / 2) =? Z.of_nat (k / 2))%Z
                   && (Js.Math_floor (Js.of_nat k * 3 / 4)
                       =? Z.of_nat (k * 3 / 4))%Z)
                (seq 0 4001) = true) by (vm_compute; reflexivity).
  rewrite forallb_forall in H.
  specialize (H n ltac:(apply in_seq; lia)).
  apply andb_prop in H. destruct H as [H H3].
  apply andb_prop in H. destruct H as [H1 H2].
  apply Z.eqb_eq in H1, H2, H3. auto.
Qed.

Lemma getStats_moments_eq (data : list float) :
  data <> [] ->
  mean (getStats data) = (Js.sum data / Js.of_nat (length data))%float
  /\ stdDev (getStats data)
     = PrimFloat.sqrt
         (Js.sum (map (fun x => Js.pow2 (x - mean (getStats data))%float) data)
          / Js.of_nat (length data)).
Proof.
  intros Hne. pose proof (getStats_nonempty data Hne) as St.
  split; [exact (of_mean _ _ _ _ St) | exact (of_stdDev _ _ _ _ St)].
Qed.

(** C1. [getStats] of the empty sample is zero in all seven fields.  For a
    non-empty sample it takes the quantiles by nearest rank from a sorted
    arrangement of the sample (the same elements in ascending order):
    q1, median and q3 are the elements at positions floor(n/4), floor(n/2)
    and floor(3n/4), each an element of the sample; iqr is q3 - q1; the
    mean is the sum divided by n; stdDev is the square root of the sum of
    squared deviations divided by n; and mad is the nearest-rank median of
    a sorted arrangement of the residuals |x - median|.  Mean and stdDev
    are the arithmetic mean and the population standard deviation of the
    sample, taken as real numbers, up to the rounding of the operations:
    whenever the computed mean is finite it lies within [mean_error] of
    the arithmetic mean, and whenever the computed stdDev is finite its
    square lies between (1 - eps)^(n+6) times the population variance,
    less 2 eta, and (1 + eps)^(n+6) times the population variance
    enlarged by the squared error of the mean and 4 eta. *)
Theorem getStats_nearest_rank (data : list float) :
  (data = [] -> getStats data = mkStatistics 0 0 0 0 0 0 0)
  /\ (data <> [] ->
      exists sorted sortedResiduals,
        sorted_arrangement data sorted
        /\ sorted_arrangement
             (map (fun x => PrimFloat.abs (x - median (getStats data))%float) data)
             sortedResiduals
        /\ Statistics_of data sorted sortedResiduals (getStats data)
        /\ In (q1 (getStats data)) data
        /\ In (median (getStats data)) data
        /\ In (q3 (getStats data)) data
        /\ ((Z.of_nat (length data) < 2 ^ 32)%Z ->
            (PrimFloat.is_finite (mean (getStats data)) = true ->
             Exact.mean_within data (mean (getStats data)))
            /\ (PrimFloat.is_finite (stdDev (getStats data)) = true ->
                Exact.deviation_within data (stdDev (getStats data))))).
Proof.
  split; [intros ->; reflexivity |].
  intros Hne.
  pose proof (getStats_nonempty data Hne) as St.
  exists (Js.sort numeric_order data). eexists.
  split; [apply numeric_sort_arrangement |].
  split; [apply numeric_sort_arrangement |].
  split; [exact St |].
  assert (Hs : Js.sort numeric_order data <> []).
  { intros E. apply Hne. apply Permutation_nil. rewrite <- E. symmetry. apply sort_perm. }
  split; [| split; [| split]].
  - rewrite (of_q1 _ _ _ _ St). apply sort_In with (cmp := numeric_order).
    apply nearest_rank_In; [assumption | lia].
  - rewrite (of_median _ _ _ _ St). apply sort_In with (cmp := numeric_order).
    apply nearest_rank_In; [assumption | lia].
  - rewrite (of_q3 _ _ _ _ St). apply sort_In with (cmp := numeric_order).
    apply nearest_rank_In; [assumption | lia].
  - intros Hn.
    destruct (getStats_moments_eq data Hne) as [Em Es].
    pose proof (Accuracy.moments_accuracy data Hne Hn) as Hacc.
    cbv zeta in Hacc. rewrite <- Em in Hacc. rewrite <- Es in Hacc.
    exact Hacc.
Qed.

(** The population standard deviation of the sample 2, 4, 4, 4, 5, 5, 7, 9
    is 2 (the divisor n - 1 would give about 2.14), and the quantiles of
    the six-element sample of the first end-to-end example sit at
    positions 1, 3 and 4 of its sorted arrangement. *)
Example getStats_population_sd :
  stdDev (getStats [2; 4; 4; 4; 5; 5; 7; 9]%float) = 2%float.
Proof. vm_compute. reflexivity. Qed.

Example getStats_example_1 :
  let st := getStats [10; 12; 11; 13; 12; 100]%float in
  (q1 st, median st, q3 st, iqr st, mad st) = (11, 12, 13, 2, 1)%float
  /\ mean st = 26.333333333333332%float
  /\ stdDev st = 32.957885584822073%float.
Proof. vm_compute. repeat split. Qed.

(** The sample 2, 4, 4, 4, 5, 5, 7, 9: arithmetic mean 5 and population
    variance 4 as real numbers, mean 5 and stdDev 2 as computed (the
    divisor n - 1 would give a stdDev of about 2.14). *)
Lemma getStats_nearest_rank_witness :
  let data := [2; 4; 4; 4; 5; 5; 7; 9]%float in
  let st := getStats data in
  (Exact.arithmetic_mean data = Rdefinitions.IZR 5
   /\ Exact.population_variance data = Rdefinitions.IZR 4)
  /\ (mean st = 5%float /\ stdDev st = 2%float)
  /\ (q1 st = 4%float /\ median st = 5%float /\ q3 st = 7%float
      /\ mad st = 1%float)
  /\ exists sorted sortedResiduals,
       sorted_arrangement data sorted
       /\ sorted_arrangement
            (map (fun x => PrimFloat.abs (x - median st)%float) data)
            sortedResiduals
       /\ Statistics_of data sorted sortedResiduals st
       /\ In (q1 st) data
       /\ In (median st) data
       /\ In (q3 st) data
       /\ Exact.mean_within data (mean st)
       /\ Exact.deviation_within data (stdDev st).
Proof.
  intros data st.
  split; [exact Accuracy.classic_sample_moments |].
  split; [split; vm_compute; reflexivity |].
  split; [repeat split; vm_compute; reflexivity |].
  destruct (proj2 (getStats_nearest_rank data) ltac:(discriminate))
    as (sorted & sortedResiduals & H1 & H2 & H3 & H4 & H5 & H6 & H7).
  exists sorted, sortedResiduals.
  destruct (H7 ltac:(simpl; lia)) as [Hm Hs].
  repeat (split; [assumption |]).
  split; [apply Hm | apply Hs]; vm_compute; reflexivity.
Defined.

(** ** Peirce's criterion *)

(** C9. Peirce's criterion flags, on every column, exactly what the
    modified Z-score method flags when run with threshold 4.0. *)
Theorem findOutliersPeirce_is_modified_z (columnData : Column) :
  findOutliersPeirce columnData = findOutliersModifiedZScore columnData 4.0.
Proof. reflexivity. Qed.

(** The proxy is the threshold alone: with the default threshold 3.5 the
    modified Z-score flags the point 8.5 of this column, Peirce does not. *)
Example peirce_differs_from_default :
  let col := [mkEntry 1 0; mkEntry 2 1; mkEntry 3 2; mkEntry 4 3; mkEntry 8.5 4] in
  findOutliersModifiedZScore col 3.5 = [4%Z] /\ findOutliersPeirce col = [].
Proof. vm_compute. split; reflexivity. Qed.

(** ** Method catalog and report order *)

Lemma run_method_name ds m : methodName (run_method ds m) = name m.
Proof. reflexivity. Qed.

Lemma run_method_description ds m :
  r_description (run_method ds m) = description m.
Proof. reflexivity. Qed.

(** C8. The report of every data set has exactly seven entries, the
    entry at each position carrying the name and the description of the
    catalog method at that position; the names are, in order, those of
    IQR, Z-Score, Modified Z-Score, Grubbs, ESD, Dixon's Q and Peirce. *)
Theorem runAllAnalyses_catalog_order (ds : DataSet) :
  length (runAllAnalyses ds) = 7%nat
  /\ map (fun r => (methodName r, r_description r)) (runAllAnalyses ds)
     = map (fun m => (name m, description m)) methods
  /\ map methodName (runAllAnalyses ds)
     = [ "Interquartile Range (IQR)"; "Z-Score Method";
         "Modified Z-Score Method"; "Grubbs' Test"; "Generalized ESD Test";
         "Dixon's Q Test"; "Peirce's Criterion" ]%string
  /\ (forall k m, nth_error methods k = Some m ->
        exists r, nth_error (runAllAnalyses ds) k = Some r
                  /\ r = run_method ds m).
Proof.
  unfold runAllAnalyses. repeat split.
  - intros k m H. exists (run_method ds m). split; [| reflexivity].
    now apply map_nth_error.
Qed.

(** ** Scanning for the largest deviation

    Grubbs' test and the ESD test both walk the column keeping the largest
    deviation seen so far and replacing it only by a strictly greater one. *)

Section ArgMax.
Context {S A : Type} (mx : S -> float) (dev : A -> float) (upd : A -> S).
Variable step : S -> A -> S.
Hypothesis step_eq :
  forall acc x, step acc x = if Js.gt (dev x) (mx acc) then upd x else acc.
Hypothesis mx_upd : forall x, mx (upd x) = dev x.

Lemma fold_argmax (l : list A) : forall acc0 : S,
  PrimFloat.is_nan (mx acc0) = false ->
  let r := fold_left step l acc0 in
  PrimFloat.is_nan (mx r) = false
  /\ (mx acc0 <=? mx r)%float = true
  /\ (forall y, In y l -> Js.gt (dev y) (mx r) = false)
  /\ ((r = acc0 /\ forall y, In y l -> Js.gt (dev y) (mx acc0) = false)
      \/ (exists l1 x l2,
            l = l1 ++ x :: l2 /\ r = upd x
            /\ Js.gt (dev x) (mx acc0) = true
            /\ forall y, In y l1 -> (dev x <=? dev y)%float = false)).
Proof.
  induction l as [| x l IH]; intros acc0 N0; cbn zeta.
  - simpl. repeat split; auto using Binary64.leb_refl.
    + intros y [].
    + left. split; [reflexivity | intros y []].
  - simpl fold_left.
    assert (N1 : PrimFloat.is_nan (mx (step acc0 x)) = false).
    { rewrite step_eq. destruct (Js.gt (dev x) (mx acc0)) eqn:E; [| assumption].
      rewrite mx_upd. apply (Binary64.ltb_not_nan _ _ E). }
    assert (L1 : (mx acc0 <=? mx (step acc0 x))%float = true).
    { rewrite step_eq. destruct (Js.gt (dev x) (mx acc0)) eqn:E.
      - rewrite mx_upd. now apply Binary64.ltb_leb.
      - now apply Binary64.leb_refl. }
    destruct (IH (step acc0 x) N1) as (Nr & Lr & Hmax & Hcase).
    set (r := fold_left step l (step acc0 x)) in *.
    assert (Hx : Js.gt (dev x) (mx r) = false).
    { destruct (Js.gt (dev x) (mx r)) eqn:E; [| reflexivity].
      unfold Js.gt in E.
      pose proof (Binary64.leb_ltb_trans _ _ _ Lr E) as E1.
      rewrite step_eq in E1.
      destruct (Js.gt (dev x) (mx acc0)) eqn:E0.
      - rewrite mx_upd, Binary64.ltb_irrefl in E1. discriminate.
      - unfold Js.gt in E0. congruence. }
    split; [assumption |].
    split; [eapply Binary64.leb_trans; eassumption |].
    split; [intros y [<- | Hy]; auto |].
    rewrite step_eq in Hcase. fold r in Hcase.
    destruct (Js.gt (dev x) (mx acc0)) eqn:E0.
    + right. destruct Hcase as [[Hr _] | (l1 & z & l2 & Hl & Hr & Hz & Hfirst)].
      * exists [], x, l. repeat split; auto. intros y [].
      * exists (x :: l1), z, l2. rewrite mx_upd in Hz. unfold Js.gt in *.
        repeat split.
        -- simpl. now rewrite Hl.
        -- assumption.
        -- eapply Binary64.ltb_trans; eassumption.
        -- intros y [<- | Hy]; [now apply Binary64.ltb_leb_false | auto].
    + destruct Hcase as [[Hr Hall] | (l1 & z & l2 & Hl & Hr & Hz & Hfirst)].
      * left. split; [assumption |]. intros y [<- | Hy]; auto.
      * right. exists (x :: l1), z, l2. repeat split.
        -- simpl. now rewrite Hl.
        -- assumption.
        -- assumption.
        -- intros y [<- | Hy]; [| auto].
           destruct (dev z <=? dev x)%float eqn:E; [| reflexivity].
           unfold Js.gt in *.
           pose proof (Binary64.ltb_leb_trans _ _ _ Hz E). congruence.
Qed.

End ArgMax.

(** ** Grubbs' test *)

Lemma grubbs_step_eq mean stdDev acc d :
  grubbs_step mean stdDev acc d =
  if Js.gt (deviation mean stdDev d) (fst acc)
  then (deviation mean stdDev d, index d) else acc.
Proof. reflexivity. Qed.

(** A bound that the largest deviation does not exceed is exceeded by no
    deviation. *)
Lemma below_largest (bound largest x : float) :
  PrimFloat.is_nan largest = false ->
  Js.gt x largest = false -> Js.gt largest bound = false ->
  Js.gt x bound = false.
Proof.
  unfold Js.gt. intros Nl H1 H2.
  destruct (bound <? x)%float eqn:E; [| reflexivity].
  assert (Hle : (x <=? largest)%float = true).
  { apply Binary64.ltb_false_leb; auto. apply (Binary64.ltb_not_nan _ _ E). }
  pose proof (Binary64.ltb_leb_trans _ _ _ E Hle). congruence.
Qed.

(** C4. Grubbs' test returns the empty set on a column of fewer than
    three entries and on one whose stdDev is zero.  On any other column
    it flags at most one index: either no deviation |value - mean|/stdDev
    exceeds 2.0 and nothing is flagged, or the first entry of largest
    deviation deviates by more than 2.0 and its index alone is flagged. *)
Theorem findOutliersGrubbs_single_largest (columnData : Column) :
  let st := getStats (values_of columnData) in
  let dev := deviation (mean st) (stdDev st) in
  ((length columnData < 3)%nat -> findOutliersGrubbs columnData = [])
  /\ (Js.strict_eq (stdDev st) 0 = true -> findOutliersGrubbs columnData = [])
  /\ ((3 <= length columnData)%nat -> Js.strict_eq (stdDev st) 0 = false ->
      (length (findOutliersGrubbs columnData) <= 1)%nat
      /\ ((findOutliersGrubbs columnData = []
           /\ forall e, In e columnData -> Js.gt (dev e) 2.0 = false)
          \/ (exists l1 d l2,
                columnData = l1 ++ d :: l2
                /\ findOutliersGrubbs columnData = [index d]
                /\ Js.gt (dev d) 2.0 = true
                /\ first_largest dev l1 d l2))).
Proof.
  intros st dev. unfold findOutliersGrubbs, values_of.
  rewrite length_map. fold (values_of columnData). fold st.
  split; [intros H; apply Nat.ltb_lt in H; now rewrite H |].
  split; [intros H; rewrite H; now destruct (length columnData <? 3)%nat |].
  intros Hn Hsd. apply Nat.ltb_ge in Hn. rewrite Hn, Hsd.
  pose proof (fold_argmax fst dev (fun d => (dev d, index d))
                (grubbs_step (mean st) (stdDev st))
                (grubbs_step_eq (mean st) (stdDev st)) (fun _ => eq_refl)
                columnData (0%float, (-1)%Z) eq_refl) as H.
  cbn zeta in H. destruct H as (Nr & _ & Hmax & Hcase).
  destruct (fold_left _ columnData _) as [maxDev outlierIndex] eqn:Hfold.
  simpl fst in *.
  destruct (Js.gt maxDev 2) eqn:Hcrit.
  - split; [simpl; lia |]. right.
    destruct Hcase as [[Hr _] | (l1 & d & l2 & Hl & Hr & _ & Hfirst)].
    + inversion Hr; subst. vm_compute in Hcrit. discriminate.
    + inversion Hr; subst maxDev outlierIndex.
      exists l1, d, l2. repeat split; auto.
      intros e He. apply Hmax. now rewrite Hl.
  - split; [simpl; lia |]. left. split; [reflexivity |].
    intros e He. eapply below_largest; eauto.
Qed.

Lemma findOutliersGrubbs_single_largest_witness :
  let columnData :=
    [mkEntry 10 0; mkEntry 12 1; mkEntry 11 2; mkEntry 13 3; mkEntry 12 4;
     mkEntry 100 5] in
  let st := getStats (values_of columnData) in
  let dev := deviation (mean st) (stdDev st) in
  (length (findOutliersGrubbs columnData) <= 1)%nat
  /\ ((findOutliersGrubbs columnData = []
       /\ forall e, In e columnData -> Js.gt (dev e) 2.0 = false)
      \/ (exists l1 d l2,
            columnData = l1 ++ d :: l2
            /\ findOutliersGrubbs columnData = [index d]
            /\ Js.gt (dev d) 2.0 = true
            /\ first_largest dev l1 d l2)).
Proof.
  intros columnData st dev.
  apply (proj2 (proj2 (findOutliersGrubbs_single_largest columnData))).
  - simpl. lia.
  - vm_compute. reflexivity.
Defined.

Example findOutliersGrubbs_example_1 :
  findOutliersGrubbs
    [mkEntry 10 0; mkEntry 12 1; mkEntry 11 2; mkEntry 13 3; mkEntry 12 4;
     mkEntry 100 5] = [5%Z].
Proof. vm_compute. reflexivity. Qed.

(** ** Generalized ESD test *)

Lemma with_positions_from {A : Type} (l : list A) : forall (s : nat) l1 x i l2,
  combine l (map Z.of_nat (seq s (length l))) = l1 ++ (x, i) :: l2 ->
  i = Z.of_nat (s + length l1)
  /\ l = map fst l1 ++ x :: map fst l2.
Proof.
  induction l as [| a l IH]; intros s l1 x i l2 H; simpl in H.
  - destruct l1; discriminate.
  - destruct l1 as [| [b j] l1]; simpl in H; inversion H; subst.
    + split; [simpl; f_equal; lia |].
      simpl. f_equal.
      clear. revert s. induction l as [| a l IH]; intros s; simpl; [reflexivity |].
      f_equal. apply IH.
    + destruct (IH _ _ _ _ _ H3) as [-> ->].
      split; [f_equal; simpl; lia | reflexivity].
Qed.

Lemma with_positions_split {A : Type} (l : list A) l1 x i l2 :
  with_positions l = l1 ++ (x, i) :: l2 ->
  i = Z.of_nat (length (map fst l1))
  /\ l = map fst l1 ++ x :: map fst l2.
Proof.
  intros H. apply with_positions_from in H. rewrite length_map. exact H.
Qed.

Lemma with_positions_In {A : Type} (l : list A) x :
  In x l -> exists i, In (x, i) (with_positions l).
Proof.
  unfold with_positions. generalize 0%nat.
  induction l as [| a l IH]; intros s H; [destruct H |].
  simpl. destruct H as [-> | H].
  - exists (Z.of_nat s). now left.
  - destruct (IH (S s) H) as [i Hi]. exists i. now right.
Qed.

Lemma splice1_app {A : Type} (l1 : list A) x l2 :
  splice1 (l1 ++ x :: l2) (length l1) = l1 ++ l2.
Proof. induction l1 as [| a l1 IH]; simpl; [reflexivity | now rewrite IH]. Qed.

Lemma nth_error_middle {A : Type} (l1 : list A) x l2 :
  nth_error (l1 ++ x :: l2) (length l1) = Some x.
Proof. induction l1; simpl; auto. Qed.

Lemma esd_scan_step_eq mean stdDev acc (p : ColumnEntry * Z) :
  esd_scan_step mean stdDev acc p =
  if Js.gt (deviation mean stdDev (fst p)) (maxDeviation acc)
  then mkScan (deviation mean stdDev (fst p)) (index (fst p)) (snd p)
  else acc.
Proof. destruct p. reflexivity. Qed.

(** What the inner scan leaves behind: nothing chosen and no deviation
    above [-1], or the position of the first entry of largest deviation. *)
Lemma esd_scan_spec mean stdDev (current : Column) :
  let dev := deviation mean stdDev in
  let sc := esd_scan mean stdDev current in
  PrimFloat.is_nan (maxDeviation sc) = false
  /\ (forall e, In e current -> Js.gt (dev e) (maxDeviation sc) = false)
  /\ ((sc = mkScan (-1) (-1) (-1))
      \/ (exists l1 d l2,
            current = l1 ++ d :: l2
            /\ sc = mkScan (dev d) (index d) (Z.of_nat (length l1))
            /\ first_largest dev l1 d l2)).
Proof.
  intros dev sc.
  pose proof (fold_argmax maxDeviation (fun p => dev (fst p))
                (fun p => mkScan (dev (fst p)) (index (fst p)) (snd p))
                (esd_scan_step mean stdDev) (esd_scan_step_eq mean stdDev)
                (fun _ => eq_refl) (with_positions current)
                (mkScan (-1) (-1) (-1)) eq_refl) as H.
  cbn zeta in H. fold (esd_scan mean stdDev current) in H. fold sc in H.
  destruct H as (Nr & _ & Hmax & Hcase).
  assert (Hall : forall e, In e current -> Js.gt (dev e) (maxDeviation sc) = false).
  { intros e He. destruct (with_positions_In _ _ He) as [i Hi].
    apply (Hmax _ Hi). }
  repeat split; auto.
  destruct Hcase as [[Hr _] | (p1 & [d i] & p2 & Hl & Hr & _ & Hfirst)];
    [now left | right].
  apply with_positions_split in Hl. destruct Hl as [-> Hl].
  exists (map fst p1), d, (map fst p2). simpl in Hr.
  repeat split; auto.
  - intros e He. rewrite <- Hl in He. rewrite Hr in Hall. now apply Hall.
  - intros e He. apply in_map_iff in He. destruct He as (p & <- & Hp).
    apply (Hfirst _ Hp).
Qed.

(** The loop follows the procedure. *)
Lemma esd_loop_run (rounds : nat) : forall current recorded,
  esd_run rounds current recorded (esd_loop rounds current recorded).
Proof.
  induction rounds as [| rounds IH]; intros current recorded; simpl.
  - constructor.
  - destruct (length current <? 3)%nat eqn:Hn.
    + apply esd_too_few. now apply Nat.ltb_lt.
    + apply Nat.ltb_ge in Hn.
      destruct (Js.strict_eq (stdDev (getStats (values_of current))) 0) eqn:Hsd.
      * now apply esd_no_spread.
      * set (st := getStats (values_of current)) in *.
        destruct (esd_scan_spec (mean st) (stdDev st) current)
          as (Nr & Hmax & Hcase).
        destruct Hcase as [Hsc | (l1 & d & l2 & Hl & Hsc & Hfirst)].
        -- rewrite Hsc. simpl. rewrite ?andb_false_r.
           apply esd_not_critical; auto. fold st.
           intros e He. rewrite Hsc in Hmax. simpl in Hmax.
           eapply below_largest; [| apply Hmax, He | ]; reflexivity.
        -- rewrite Hsc. cbn [maxDeviation dataIndexToRemove].
           destruct (Js.gt (deviation (mean st) (stdDev st) d) 2.5) eqn:Hcrit.
           ++ replace (Z.of_nat (length l1) =? -1)%Z with false
                by (symmetry; apply Z.eqb_neq; lia).
              simpl andb. rewrite Nat2Z.id.
              assert (E1 : nth_error current (length l1) = Some d)
                by (rewrite Hl; apply nth_error_middle).
              assert (E2 : splice1 current (length l1) = l1 ++ l2)
                by (rewrite Hl; apply splice1_app).
              rewrite E1, E2.
              eapply esd_remove; eauto.
           ++ simpl andb. apply esd_not_critical; auto. fold st.
              intros e He. rewrite Hsc in Hmax, Nr. simpl in Hmax, Nr.
              eapply below_largest; eauto.
Qed.

Lemma esd_run_grows rounds current recorded final :
  esd_run rounds current recorded final ->
  (length recorded <= length final <= length recorded + rounds)%nat
  /\ exists removed, final = recorded ++ removed /\ incl removed current.
Proof.
  induction 1 as [ | | | | rounds current recorded l1 d l2 final st
                       Hn Hsd Hl Hcrit Hfirst Hrun IH ];
    try (split; [lia | exists []; rewrite app_nil_r; split;
                       [reflexivity | intros x []]]).
  destruct IH as [Hlen (removed & -> & Hincl)].
  rewrite length_app in Hlen. simpl in Hlen.
  split; [lia |].
  exists (d :: removed). rewrite <- app_assoc. split; [reflexivity |].
  subst current. intros x [<- | Hx].
  - apply in_or_app. right. now left.
  - apply Hincl in Hx. apply in_app_or in Hx.
    apply in_or_app. destruct Hx; [now left | right; now right].
Qed.

(** The default bound: a tenth of the column size, rounded down, for
    every size up to 4000. *)
Lemma esd_default_tenth (n : nat) :
  (n <= 4000)%nat ->
  Js.Math_floor (Js.of_nat n * 0.1) = Z.of_nat (n / 10).
Proof.
  intros Hn.
  assert (H : forallb (fun k => (Js.Math_floor (Js.of_nat k * 0.1)
                                 =? Z.of_nat (k / 10))%Z)
                      (seq 0 4001) = true) by (vm_compute; reflexivity).
  rewrite forallb_forall in H.
  apply Z.eqb_eq, H, in_seq. lia.
Qed.

(** C5. The ESD test returns the empty set on a column of fewer than five
    entries.  On any other column of size n it returns the indices of the
    entries recorded by the procedure [esd_run] started with
    floor(n * 0.1) rounds on the whole column: each round recomputes mean
    and stdDev of the remaining column, stops when fewer than three
    entries remain, when stdDev is zero, or when no deviation exceeds 2.5,
    and otherwise removes and records the first entry of largest
    deviation.  At most floor(n * 0.1) indices are returned, all of
    entries of the column. *)
Theorem findOutliersESD_bounded (columnData : Column) :
  let n := length columnData in
  let maxOutliers := Js.Math_floor (Js.of_nat n * 0.1) in
  ((n < 5)%nat -> findOutliersESD columnData = [])
  /\ ((5 <= n)%nat ->
      exists recorded,
        findOutliersESD columnData = map index recorded
        /\ esd_run (Z.to_nat maxOutliers) columnData [] recorded
        /\ incl recorded columnData)
  /\ (length (findOutliersESD columnData) <= Z.to_nat maxOutliers)%nat.
Proof.
  intros n maxOutliers.
  unfold findOutliersESD, findOutliersESD_with, esd_default_maxOutliers.
  fold n. fold maxOutliers.
  pose proof (esd_loop_run (Z.to_nat maxOutliers) columnData []) as Hrun.
  destruct (esd_run_grows _ _ _ _ Hrun) as [Hlen (removed & Hfinal & Hincl)].
  simpl in Hlen, Hfinal.
  split; [intros H; apply Nat.ltb_lt in H; now rewrite H |].
  split.
  - intros H. apply Nat.ltb_ge in H. rewrite H.
    eexists. split; [reflexivity |]. split; [exact Hrun |].
    now rewrite Hfinal.
  - destruct (n <? 5)%nat; [simpl; lia |].
    rewrite length_map. lia.
Qed.

Example findOutliersESD_removes_in_turn :
  let col :=
    map (fun p => mkEntry (fst p) (snd p))
        (combine
           ([10; 11; 12; 10; 11; 12; 10; 11; 12; 10; 11; 12; 10; 11; 12;
             10; 11; 12; 10; 11; 12; 10; 11; 12; 10; 11; 12; 10; 300; 90]%float)
           (map Z.of_nat (seq 0 30))) in
  esd_default_maxOutliers col = 3%Z /\ findOutliersESD col = [28; 29]%Z.
Proof. vm_compute. split; reflexivity. Qed.

Lemma findOutliersESD_bounded_witness :
  exists recorded,
    let columnData :=
      map (fun k => mkEntry (if (k =? 7)%nat then 500 else Js.of_nat (k mod 3))
                            (Z.of_nat k))
          (seq 0 20) in
    findOutliersESD columnData = map index recorded
    /\ esd_run 2 columnData [] recorded
    /\ incl recorded columnData.
Proof.
  apply (proj1 (proj2 (findOutliersESD_bounded
           (map (fun k => mkEntry (if (k =? 7)%nat then 500
                                   else Js.of_nat (k mod 3)) (Z.of_nat k))
                (seq 0 20))))).
  simpl. lia.
Defined.

(** C10. On a column of five to nine entries the default bound
    floor(n * 0.1) is zero, so the ESD test returns the empty set whatever
    the values. *)
Theorem findOutliersESD_small_columns (columnData : Column) :
  (5 <= length columnData <= 9)%nat ->
  esd_default_maxOutliers columnData = 0%Z
  /\ findOutliersESD columnData = [].
Proof.
  intros Hn.
  assert (H0 : esd_default_maxOutliers columnData = 0%Z).
  { unfold esd_default_maxOutliers.
    rewrite esd_default_tenth by lia.
    rewrite Nat.div_small by lia. reflexivity. }
  split; [exact H0 |].
  unfold findOutliersESD, findOutliersESD_with. rewrite H0.
  now destruct (length columnData <? 5)%nat.
Qed.

Lemma findOutliersESD_small_columns_witness :
  let columnData :=
    [mkEntry 1 0; mkEntry 2 1; mkEntry 3 2; mkEntry 4 3; mkEntry 1000 4] in
  esd_default_maxOutliers columnData = 0%Z
  /\ findOutliersESD columnData = [].
Proof.
  intros columnData. apply (findOutliersESD_small_columns columnData).
  simpl. lia.
Defined.

(** ** Keys of the outlier map *)

Section Keys.
Local Open Scope string_scope.

(** No character of [s] is the dash. *)
Let no_dash (s : string) : Prop := forall k, String.get k s <> Some "-"%char.

Lemma get_after_prefix (u : string) c w :
  String.get (String.length u) (u ++ String c w) = Some c.
Proof. induction u as [| a u IH]; simpl; auto. Qed.

Lemma split_at_last_dash (u : string) : forall u' v v',
  no_dash v -> no_dash v' ->
  u ++ String "-" v = u' ++ String "-" v' -> u = u' /\ v = v'.
Proof.
  induction u as [| c u IH]; intros [| c' u'] v v' Hv Hv' H; simpl in H.
  - inversion H. auto.
  - inversion H; subst. exfalso. apply (Hv (String.length u')).
    apply get_after_prefix.
  - inversion H; subst. exfalso. apply (Hv' (String.length u)).
    apply get_after_prefix.
  - inversion H; subst. destruct (IH _ _ _ Hv Hv' H2) as [-> ->]. auto.
Qed.

Lemma no_dash_uint d : no_dash (NilEmpty.string_of_uint d).
Proof.
  induction d; intros [| k]; simpl; try discriminate; try apply IHd.
Qed.

Lemma no_dash_of_nat (i : nat) : no_dash (string_of_Z (Z.of_nat i)).
Proof.
  unfold string_of_Z.
  destruct (Z.of_nat i) as [| p | p] eqn:E; try lia; simpl.
  - intros [| [| k]]; simpl; discriminate.
  - pose proof (DecimalPos.Unsigned.to_uint_nonnil p) as Hn.
    unfold NilZero.string_of_uint.
    destruct (Pos.to_uint p); try congruence; apply no_dash_uint.
Qed.

Lemma string_of_Z_inj a b : string_of_Z a = string_of_Z b -> a = b.
Proof.
  unfold string_of_Z. intros H.
  assert (Hnn : forall z, Z.to_int z <> Decimal.Pos Decimal.Nil
                          /\ Z.to_int z <> Decimal.Neg Decimal.Nil).
  { intros [| p | p]; simpl; split; try discriminate;
      intros E; inversion E as [E'];
      apply (DecimalPos.Unsigned.to_uint_nonnil p E'). }
  apply DecimalZ.to_int_inj.
  assert (Some (Z.to_int a) = Some (Z.to_int b)) as [= ->]; [| reflexivity].
  rewrite <- (NilZero.isi (Z.to_int a)), <- (NilZero.isi (Z.to_int b));
    try apply Hnn.
  now rewrite H.
Qed.

(** The key determines the pair (index, column). *)
Lemma key_of_inj a i b j : key_of a i = key_of b j -> a = b /\ i = j.
Proof.
  unfold key_of. intros H.
  apply split_at_last_dash in H; try apply no_dash_of_nat.
  destruct H as [Ha Hi].
  apply string_of_Z_inj in Ha, Hi. split; [assumption | lia].
Qed.

End Keys.

(** ** Analysis orchestrator *)

Lemma set_add_spec seen x :
  NoDup seen ->
  NoDup (set_add seen x) /\ forall y, In y (set_add seen x) <-> In y seen \/ y = x.
Proof.
  intros Hnd. unfold set_add. destruct (existsb (Z.eqb x) seen) eqn:E.
  - split; [assumption |]. intros y. split; [auto |].
    intros [H | ->]; [assumption |].
    apply existsb_exists in E. destruct E as (z & Hz & Ez).
    apply Z.eqb_eq in Ez. now subst.
  - split.
    + apply NoDup_app; [assumption | repeat constructor; intros [] |].
      intros y Hy [<- | []].
      assert (existsb (Z.eqb x) seen = true); [| congruence].
      apply existsb_exists. exists x. split; [assumption | apply Z.eqb_refl].
    + intros y. rewrite in_app_iff. simpl. intuition.
Qed.

Lemma Set_of_spec xs :
  NoDup (Set_of xs) /\ forall y, In y (Set_of xs) <-> In y xs.
Proof.
  unfold Set_of.
  assert (H : forall acc, NoDup acc ->
            NoDup (fold_left set_add xs acc)
            /\ forall y, In y (fold_left set_add xs acc) <-> In y acc \/ In y xs).
  { induction xs as [| x xs IH]; intros acc Hacc; simpl.
    - split; [assumption | intuition].
    - destruct (set_add_spec acc x Hacc) as [Hnd Hin].
      destruct (IH _ Hnd) as [Hnd' Hin']. split; [assumption |].
      intros y. rewrite Hin', Hin. intuition. }
  destruct (H [] (NoDup_nil _)) as [Hnd Hin]. split; [assumption |].
  intros y. rewrite Hin. simpl. intuition.
Qed.

Lemma Map_has_entries (records : list OutlierRecord) idx i :
  (forall r, In r records -> ~ (o_index r = idx /\ o_columnIndex r = i)) ->
  Map_has (map entry_of records) (key_of idx i) = false.
Proof.
  intros H. unfold Map_has.
  destruct (existsb _ _) eqn:E; [| reflexivity].
  apply existsb_exists in E. destruct E as ([k r] & Hin & Hk).
  apply in_map_iff in Hin. destruct Hin as (r' & [= <- <-] & Hr').
  simpl in Hk. apply String.eqb_eq, key_of_inj in Hk.
  exfalso. apply (H _ Hr' Hk).
Qed.

Lemma point_of_index ds idx dp : point_of ds idx = Some dp -> dp_index dp = idx.
Proof.
  unfold point_of. intros H. apply find_some in H. now apply Z.eqb_eq.
Qed.

Lemma point_of_In ds idx dp : point_of ds idx = Some dp -> In dp (data ds).
Proof. unfold point_of. intros H. now apply find_some in H. Qed.

(** One pass of [forEach]: no key is ever present already. *)
Lemma fold_record_outlier ds i (indices : list Z) : forall records,
  NoDup indices ->
  (forall r, In r records -> o_columnIndex r = i -> ~ In (o_index r) indices) ->
  fold_left (record_outlier ds i) indices (map entry_of records)
  = map entry_of
      (records ++ flat_map (fun idx => match point_of ds idx with
                                       | Some dp => [record_of dp i]
                                       | None => []
                                       end) indices).
Proof.
  induction indices as [| idx indices IH]; intros records Hnd Hfresh; simpl.
  - now rewrite app_nil_r.
  - apply NoDup_cons_iff in Hnd. destruct Hnd as [Hidx Hnd].
    unfold record_outlier at 2. fold (point_of ds idx).
    destruct (point_of ds idx) as [dp |] eqn:Hp.
    + pose proof (point_of_index _ _ _ Hp) as Hdp.
      rewrite Map_has_entries.
      * change (map entry_of records ++ [(key_of (dp_index dp) i, _)])
          with (map entry_of records ++ map entry_of [record_of dp i]).
        rewrite <- map_app, IH, <- app_assoc; auto.
        intros r Hr Hi. apply in_app_iff in Hr. destruct Hr as [Hr | [<- | []]].
        -- intros Hin. apply (Hfresh r Hr Hi). now right.
        -- simpl. now rewrite Hdp.
      * intros r Hr [Hri Hrc]. apply (Hfresh r Hr Hrc). left. congruence.
    + apply IH; auto.
      intros r Hr Hi Hin. apply (Hfresh r Hr Hi). now right.
Qed.

Lemma column_records_column m ds i r :
  In r (column_records m ds i) -> o_columnIndex r = i.
Proof.
  unfold column_records. intros H. apply in_flat_map in H.
  destruct H as (idx & _ & H). destruct (point_of ds idx); [| destruct H].
  destruct H as [<- | []]. reflexivity.
Qed.

Lemma fold_column_pass m ds (k : nat) : forall s records,
  (forall r, In r records -> (o_columnIndex r < s)%nat) ->
  fold_left (column_pass m ds) (seq s k) (map entry_of records)
  = map entry_of (records ++ flat_map (column_records m ds) (seq s k)).
Proof.
  induction k as [| k IH]; intros s records Hlt; simpl.
  - now rewrite app_nil_r.
  - unfold column_pass at 2.
    rewrite fold_record_outlier.
    + fold (column_records m ds s). rewrite IH, <- app_assoc; auto.
      intros r Hr. apply in_app_iff in Hr. destruct Hr as [Hr | Hr].
      * specialize (Hlt r Hr). lia.
      * apply column_records_column in Hr. lia.
    + apply Set_of_spec.
    + intros r Hr Hi. specialize (Hlt r Hr). lia.
Qed.

(** The report entry of a method, in closed form: the contributions of
    the columns, in column order. *)
Lemma run_method_outliers ds m :
  outliers (run_method ds m)
  = flat_map (column_records m ds) (seq 0 (dimensions ds)).
Proof.
  unfold run_method. cbn [outliers].
  change (@nil (string * OutlierRecord)) with (map entry_of []).
  rewrite fold_column_pass by (intros r []).
  rewrite map_map. apply map_id.
Qed.

Lemma NoDup_key_flat_map {X R K : Type} (key : R -> K) (f : X -> list R)
  (l : list X) :
  NoDup l ->
  (forall x, In x l -> NoDup (map key (f x))) ->
  (forall x y r r', In x l -> In y l -> x <> y ->
     In r (f x) -> In r' (f y) -> key r <> key r') ->
  NoDup (map key (flat_map f l)).
Proof.
  induction l as [| x l IH]; intros Hnd Hin Hdis; simpl; [constructor |].
  apply NoDup_cons_iff in Hnd. destruct Hnd as [Hx Hnd].
  rewrite map_app. apply NoDup_app.
  - apply Hin. now left.
  - apply IH; auto.
    + intros y Hy. apply Hin. now right.
    + intros y z r r' Hy Hz. apply Hdis; now right.
  - intros k Hk Hk'.
    apply in_map_iff in Hk. destruct Hk as (r & <- & Hr).
    apply in_map_iff in Hk'. destruct Hk' as (r' & E & Hr').
    apply in_flat_map in Hr'. destruct Hr' as (y & Hy & Hr').
    apply (Hdis x y r r'); auto; [now left | now right | congruence].
Qed.

Lemma column_records_spec m ds i r :
  In r (column_records m ds i) <->
  exists dp, point_of ds (dp_index dp) = Some dp
             /\ flags m ds (dp_index dp) i = true /\ r = record_of dp i.
Proof.
  unfold column_records, flags. rewrite in_flat_map. split.
  - intros (idx & Hidx & Hr).
    destruct (point_of ds idx) as [dp |] eqn:Hp; [| destruct Hr].
    destruct Hr as [<- | []]. exists dp.
    pose proof (point_of_index _ _ _ Hp) as E. rewrite E.
    repeat split; auto.
    apply existsb_exists. exists idx. split; [| apply Z.eqb_refl].
    now apply Set_of_spec.
  - intros (dp & Hp & Hf & ->).
    apply existsb_exists in Hf. destruct Hf as (idx & Hidx & E).
    apply Z.eqb_eq in E. subst idx.
    exists (dp_index dp). split; [now apply Set_of_spec |].
    rewrite Hp. now left.
Qed.

(** No two records of a report entry share index and column. *)
Lemma run_method_keys_NoDup ds m :
  NoDup (map (fun r => (o_index r, o_columnIndex r)) (outliers (run_method ds m))).
Proof.
  rewrite run_method_outliers.
  apply NoDup_key_flat_map.
  - apply seq_NoDup.
  - intros i _. unfold column_records.
    apply NoDup_key_flat_map.
    + apply Set_of_spec.
    + intros idx _. destruct (point_of ds idx); repeat constructor. intros [].
    + intros x y r r' _ _ Hxy Hr Hr' E.
      destruct (point_of ds x) as [dx |] eqn:Hx; [| destruct Hr].
      destruct (point_of ds y) as [dy |] eqn:Hy; [| destruct Hr'].
      destruct Hr as [<- | []]. destruct Hr' as [<- | []].
      simpl in E. apply point_of_index in Hx, Hy. congruence.
  - intros i j r r' _ _ Hij Hr Hr' E.
    apply column_records_column in Hr, Hr'. congruence.
Qed.

Lemma point_of_unique ds dp :
  NoDup (map dp_index (data ds)) -> In dp (data ds) ->
  point_of ds (dp_index dp) = Some dp.
Proof.
  unfold point_of. induction (data ds) as [| a l IH]; intros Hnd Hin;
    [destruct Hin |].
  simpl in *. apply NoDup_cons_iff in Hnd. destruct Hnd as [Ha Hnd].
  destruct Hin as [-> | Hin].
  - now rewrite Z.eqb_refl.
  - destruct (dp_index a =? dp_index dp)%Z eqn:E; [| auto].
    apply Z.eqb_eq in E. exfalso. apply Ha. rewrite E. now apply in_map.
Qed.

Lemma records_of_flat_map {X : Type} idx (f : X -> list OutlierRecord) l :
  records_of idx (flat_map f l) = flat_map (fun x => records_of idx (f x)) l.
Proof.
  unfold records_of. induction l as [| x l IH]; simpl; [reflexivity |].
  now rewrite filter_app, IH.
Qed.

Lemma existsb_same_elements (p : Z -> bool) l l' :
  (forall y, In y l <-> In y l') -> existsb p l = existsb p l'.
Proof.
  intros H. apply eq_true_iff_eq. rewrite !existsb_exists.
  split; intros (y & Hy & Hp); exists y; split; auto; now apply H.
Qed.

(** Among the records of one column, a data point has its own record if
    the method flags it there, and none otherwise. *)
Lemma records_of_column m ds i dp :
  NoDup (map dp_index (data ds)) -> In dp (data ds) ->
  records_of (dp_index dp) (column_records m ds i)
  = if flags m ds (dp_index dp) i then [record_of dp i] else [].
Proof.
  intros Hnd Hin. unfold column_records, flags.
  rewrite (existsb_same_elements _ _ (Set_of (fn m (column_of ds i))))
    by (intros y; symmetry; apply Set_of_spec).
  destruct (Set_of_spec (fn m (column_of ds i))) as [HS _].
  induction (Set_of (fn m (column_of ds i))) as [| x S IH]; [reflexivity |].
  apply NoDup_cons_iff in HS. destruct HS as [Hx HS].
  simpl flat_map. unfold records_of in *. rewrite filter_app, (IH HS).
  simpl existsb. destruct (dp_index dp =? x)%Z eqn:E.
  - apply Z.eqb_eq in E. subst x.
    rewrite (point_of_unique _ _ Hnd Hin). simpl. rewrite Z.eqb_refl.
    replace (existsb (Z.eqb (dp_index dp)) S) with false; [reflexivity |].
    symmetry. apply not_true_is_false. intros H.
    apply existsb_exists in H. destruct H as (y & Hy & Ey).
    apply Z.eqb_eq in Ey. now subst.
  - replace (filter _ match point_of ds x with Some dp0 => _ | None => _ end)
      with (@nil OutlierRecord); [reflexivity |].
    destruct (point_of ds x) as [dx |] eqn:Hp; [| reflexivity].
    simpl. rewrite (point_of_index _ _ _ Hp), Z.eqb_sym, E. reflexivity.
Qed.

Lemma flat_map_if {X Y : Type} (p : X -> bool) (f : X -> Y) l :
  flat_map (fun x => if p x then [f x] else []) l = map f (filter p l).
Proof.
  induction l as [| x l IH]; simpl; [reflexivity |].
  destruct (p x); simpl; now rewrite IH.
Qed.

(** The records of a data point in a report entry: one for each column
    in which the method flags it, in column order. *)
Lemma records_of_point m ds dp :
  NoDup (map dp_index (data ds)) -> In dp (data ds) ->
  records_of (dp_index dp) (outliers (run_method ds m))
  = map (record_of dp)
        (filter (flags m ds (dp_index dp)) (seq 0 (dimensions ds))).
Proof.
  intros Hnd Hin.
  rewrite run_method_outliers, records_of_flat_map, <- flat_map_if.
  apply flat_map_ext. intros i. now apply records_of_column.
Qed.

Lemma filter_seq_none (p : nat -> bool) n : forall s,
  (forall k, (s <= k < s + n)%nat -> p k = false) -> filter p (seq s n) = [].
Proof.
  induction n as [| n IH]; intros s H; simpl; [reflexivity |].
  rewrite H by lia. apply IH. intros k Hk. apply H. lia.
Qed.

Lemma filter_seq_one (p : nat -> bool) n i : forall s,
  (s <= i < s + n)%nat ->
  (forall k, (s <= k < s + n)%nat -> (p k = true <-> k = i)) ->
  filter p (seq s n) = [i].
Proof.
  induction n as [| n IH]; intros s Hi H; simpl; [lia |].
  destruct (Nat.eq_dec s i) as [-> | Hne].
  - rewrite (proj2 (H i ltac:(lia)) eq_refl). f_equal.
    apply filter_seq_none. intros k Hk.
    apply not_true_is_false. intros Hp. apply H in Hp; lia.
  - replace (p s) with false.
    + apply IH; [lia |]. intros k Hk. apply H. lia.
    + symmetry. apply not_true_is_false. intros Hp. apply H in Hp; lia.
Qed.

Lemma filter_seq_two (p : nat -> bool) n i j : forall s,
  (s <= i < j)%nat -> (j < s + n)%nat ->
  (forall k, (s <= k < s + n)%nat -> (p k = true <-> k = i \/ k = j)) ->
  filter p (seq s n) = [i; j].
Proof.
  induction n as [| n IH]; intros s Hi Hj H; simpl; [lia |].
  destruct (Nat.eq_dec s i) as [-> | Hne].
  - rewrite (proj2 (H i ltac:(lia)) (or_introl eq_refl)). f_equal.
    apply filter_seq_one; [lia |]. intros k Hk.
    rewrite H by lia. lia.
  - replace (p s) with false.
    + apply IH; [lia | lia |]. intros k Hk. apply H. lia.
    + symmetry. apply not_true_is_false. intros Hp. apply H in Hp; lia.
Qed.

Lemma record_of_value ds dp i :
  well_formed ds -> In dp (data ds) -> (i < dimensions ds)%nat ->
  o_value (record_of dp i) = Some (Js.get (dp_values dp) i).
Proof.
  intros [_ Hlen] Hin Hi. rewrite Forall_forall in Hlen.
  unfold record_of, Js.get. cbn [o_value].
  apply nth_error_nth'. specialize (Hlen _ Hin). simpl in Hlen.
  rewrite <- Hlen in Hi. exact Hi.
Qed.

(** C7. In the report entry of a catalog method on a well-formed data
    set, no two records share index and column, and the records bearing
    the index of a data point are exactly its records for the columns in
    which the method flags it, in column order: two records, one per
    column, when it is flagged in two columns, and a single record when it
    is flagged in one column only.  Every record of the entry is the
    record of a data point for some column in which the method flags it:
    it carries the point's value in that column as [value], the column
    number as [columnIndex], and the point's whole coordinate vector as
    [point]. *)
Theorem runAllAnalyses_one_record_per_column
  (ds : DataSet) (m : Method) (dp : DataPoint) :
  well_formed ds -> In m methods -> In dp (data ds) ->
  let entry := run_method ds m in
  let mine := records_of (dp_index dp) (outliers entry) in
  let flagged := flags m ds (dp_index dp) in
  In entry (runAllAnalyses ds)
  /\ NoDup (map (fun r => (o_index r, o_columnIndex r)) (outliers entry))
  /\ mine = map (record_of dp) (filter flagged (seq 0 (dimensions ds)))
  /\ (forall i j, (i < j < dimensions ds)%nat ->
        (forall k, (k < dimensions ds)%nat ->
                   (flagged k = true <-> k = i \/ k = j)) ->
        mine = [record_of dp i; record_of dp j])
  /\ (forall i, (i < dimensions ds)%nat ->
        (forall k, (k < dimensions ds)%nat -> (flagged k = true <-> k = i)) ->
        mine = [record_of dp i])
  /\ (forall r, In r (outliers entry) ->
        exists dp', In dp' (data ds)
          /\ (o_columnIndex r < dimensions ds)%nat
          /\ flags m ds (dp_index dp') (o_columnIndex r) = true
          /\ r = record_of dp' (o_columnIndex r)
          /\ o_index r = dp_index dp'
          /\ o_value r = Some (Js.get (dp_values dp') (o_columnIndex r))
          /\ o_point r = dp_values dp'
          /\ length (o_point r) = dimensions ds).
Proof.
  intros Hwf Hm Hdp entry mine flagged.
  pose proof (records_of_point m ds dp (proj1 Hwf) Hdp) as Hmine.
  fold entry in Hmine. fold mine in Hmine. fold flagged in Hmine.
  split; [unfold runAllAnalyses; now apply in_map |].
  split; [apply run_method_keys_NoDup |].
  split; [exact Hmine |].
  split; [| split].
  - intros i j Hij Hk. rewrite Hmine.
    rewrite (filter_seq_two flagged (dimensions ds) i j 0); try lia;
      [reflexivity |].
    intros k Hk'. apply Hk. lia.
  - intros i Hi Hk. rewrite Hmine.
    rewrite (filter_seq_one flagged (dimensions ds) i 0); try lia;
      [reflexivity |].
    intros k Hk'. apply Hk. lia.
  - intros r Hr. unfold entry in Hr. rewrite run_method_outliers in Hr.
    apply in_flat_map in Hr. destruct Hr as (i & Hi & Hr).
    apply in_seq in Hi.
    apply column_records_spec in Hr. destruct Hr as (dp' & Hp & Hf & ->).
    pose proof (point_of_In _ _ _ Hp) as Hin.
    exists dp'. simpl o_columnIndex.
    repeat split; auto; try lia.
    + apply (record_of_value ds); auto. lia.
    + destruct Hwf as [_ Hlen]. rewrite Forall_forall in Hlen. now apply Hlen.
Qed.

Lemma runAllAnalyses_one_record_per_column_witness :
  let ds :=
    mkDataSet
      [mkPoint 0 [10; 1]; mkPoint 1 [12; 2]; mkPoint 2 [11; 1];
       mkPoint 3 [13; 2]; mkPoint 4 [12; 1]; mkPoint 5 [100; 50];
       mkPoint 6 [-50; 2]; mkPoint 7 [12; 1]]%float
      ["x"; "y"]%string 2 in
  let m := mkMethod "Interquartile Range (IQR)" findOutliersIQR
      "Identifies outliers based on the spread of the middle 50% of the data." in
  well_formed ds /\ In m methods
  /\ records_of 5 (outliers (run_method ds m))
     = [mkOutlier 5 (Some 100%float) [100; 50]%float 0;
        mkOutlier 5 (Some 50%float) [100; 50]%float 1]
  /\ records_of 6 (outliers (run_method ds m))
     = [mkOutlier 6 (Some (-50)%float) [-50; 2]%float 0].
Proof.
  intros ds m.
  assert (Hwf : well_formed ds).
  { split.
    - repeat (constructor; [simpl; intuition discriminate |]). constructor.
    - repeat constructor. }
  assert (Hm : In m methods) by (left; reflexivity).
  split; [exact Hwf |]. split; [exact Hm |]. split.
  - etransitivity.
    + exact (proj1 (proj2 (proj2
        (runAllAnalyses_one_record_per_column ds m (mkPoint 5 [100; 50]%float)
           Hwf Hm ltac:(simpl; tauto))))).
    + vm_compute. reflexivity.
  - etransitivity.
    + exact (proj1 (proj2 (proj2
        (runAllAnalyses_one_record_per_column ds m (mkPoint 6 [-50; 2]%float)
           Hwf Hm ltac:(simpl; tauto))))).
    + vm_compute. reflexivity.
Defined.

(** The same data set through the whole orchestrator: the IQR entry
    holds the three records above, the records of column 0 before the
    record of column 1. *)
Example runAllAnalyses_two_columns :
  let ds :=
    mkDataSet
      [mkPoint 0 [10; 1]; mkPoint 1 [12; 2]; mkPoint 2 [11; 1];
       mkPoint 3 [13; 2]; mkPoint 4 [12; 1]; mkPoint 5 [100; 50];
       mkPoint 6 [-50; 2]; mkPoint 7 [12; 1]]%float
      ["x"; "y"]%string 2 in
  option_map outliers (nth_error (runAllAnalyses ds) 0)
  = Some [mkOutlier 5 (Some 100%float) [100; 50]%float 0;
          mkOutlier 6 (Some (-50)%float) [-50; 2]%float 0;
          mkOutlier 5 (Some 50%float) [100; 50]%float 1].
Proof. vm_compute. reflexivity. Qed.

(** ** Z-score and modified Z-score *)

Lemma flagged_nil (p : ColumnEntry -> bool) (columnData : Column) :
  map index (filter p columnData) = [] <->
  forall d, In d columnData -> p d = false.
Proof.
  induction columnData as [| d l IH]; simpl.
  - split; [intros _ e [] | reflexivity].
  - destruct (p d) eqn:E; simpl.
    + split; [discriminate |]. intros H. specialize (H d (or_introl eq_refl)).
      congruence.
    + rewrite IH. split.
      * intros H e [<- | He]; auto.
      * intros H e He. apply H. now right.
Qed.

(** C3, as the code has it.  The Z-score method returns the empty set
    whenever stdDev is zero, and the modified Z-score method whenever mad
    is zero.  The converse does not hold: each result is empty exactly
    when the statistic is zero or no entry's score exceeds the threshold. *)
Theorem z_scores_empty_when_no_dispersion (columnData : Column) (threshold : float) :
  let st := getStats (values_of columnData) in
  (Js.strict_eq (stdDev st) 0 = true ->
     findOutliersZScore columnData threshold = [])
  /\ (Js.strict_eq (mad st) 0 = true ->
        findOutliersModifiedZScore columnData threshold = [])
  /\ (findOutliersZScore columnData threshold = [] <->
        Js.strict_eq (stdDev st) 0 = true
        \/ forall d, In d columnData -> Js.gt (z_score st d) threshold = false)
  /\ (findOutliersModifiedZScore columnData threshold = [] <->
        Js.strict_eq (mad st) 0 = true
        \/ forall d, In d columnData ->
             Js.gt (modified_z_score st d) threshold = false).
Proof.
  intros st. unfold findOutliersZScore, findOutliersModifiedZScore. fold st.
  split; [now intros -> |]. split; [now intros -> |].
  split.
  - destruct (Js.strict_eq (stdDev st) 0); [split; auto |].
    rewrite flagged_nil. split; [now right | now intros [|]].
  - destruct (Js.strict_eq (mad st) 0); [split; auto |].
    rewrite flagged_nil. split; [now right | now intros [|]].
Qed.

(** The equivalences of C3 as stated fail: in the column 10, 12, 11, 13,
    12, 100 no Z-score exceeds 3 although stdDev is about 32.96, and in
    the column 1, 2, 3, 4, 5 no modified Z-score exceeds 3.5 although mad
    is 1. *)
Lemma z_scores_empty_iff_zero_refuted :
  ~ (forall columnData,
       findOutliersZScore columnData 3.0 = [] <->
       Js.strict_eq (stdDev (getStats (values_of columnData))) 0 = true)
  /\ ~ (forall columnData,
          findOutliersModifiedZScore columnData 3.5 = [] <->
          Js.strict_eq (mad (getStats (values_of columnData))) 0 = true).
Proof.
  split; intros H.
  - specialize (H [mkEntry 10 0; mkEntry 12 1; mkEntry 11 2; mkEntry 13 3;
                   mkEntry 12 4; mkEntry 100 5]).
    destruct H as [H _]. specialize (H eq_refl). vm_compute in H. discriminate.
  - specialize (H [mkEntry 1 0; mkEntry 2 1; mkEntry 3 2; mkEntry 4 3;
                   mkEntry 5 4]).
    destruct H as [H _]. specialize (H eq_refl). vm_compute in H. discriminate.
Qed.

Example z_scores_example_values :
  let c1 := [mkEntry 10 0; mkEntry 12 1; mkEntry 11 2; mkEntry 13 3;
             mkEntry 12 4; mkEntry 100 5] in
  let c2 := [mkEntry 1 0; mkEntry 2 1; mkEntry 3 2; mkEntry 4 3; mkEntry 5 4] in
  findOutliersZScore c1 3.0 = []
  /\ stdDev (getStats (values_of c1)) = 32.957885584822073%float
  /\ z_score (getStats (values_of c1)) (mkEntry 100 5) = 2.2351757510983048%float
  /\ findOutliersModifiedZScore c2 3.5 = []
  /\ mad (getStats (values_of c2)) = 1%float.
Proof. vm_compute. repeat split. Qed.

(** ** Dixon's Q test *)

Lemma StronglySorted_nth {A : Type} (R : A -> A -> Prop) (l : list A) :
  StronglySorted R l ->
  forall i j a b, (i < j)%nat ->
    nth_error l i = Some a -> nth_error l j = Some b -> R a b.
Proof.
  induction 1 as [| x l Hs IH Hx]; intros i j a b Hij Ha Hb.
  - destruct i; discriminate.
  - destruct j as [| j]; [lia |]. simpl in Hb.
    destruct i as [| i]; simpl in Ha.
    + inversion Ha; subst. rewrite Forall_forall in Hx.
      apply Hx. eapply nth_error_In; eauto.
    + apply (IH i j); auto. lia.
Qed.

(** In an ascending list without NaN the first element is a minimum and
    the last a maximum. *)
Lemma ascending_ends {A : Type} (key : A -> float) (l : list A) lo hi :
  ascending key l -> no_nan key l ->
  nth_error l 0 = Some lo -> nth_error l (length l - 1) = Some hi ->
  forall e, In e l ->
    (key lo <=? key e)%float = true /\ (key e <=? key hi)%float = true.
Proof.
  intros Hs Hn Hlo Hhi e He.
  unfold no_nan in Hn. rewrite Forall_forall in Hn.
  pose proof (Hn e He) as Ne.
  apply In_nth_error in He. destruct He as [k Hk].
  assert (Hlt : (k < length l)%nat) by (apply nth_error_Some; congruence).
  split.
  - destruct k as [| k].
    + rewrite Hk in Hlo. inversion Hlo; subst. now apply Binary64.leb_refl.
    + apply (StronglySorted_nth _ _ Hs 0 (S k)); auto. lia.
  - destruct (Nat.eq_dec k (length l - 1)) as [-> | Hne].
    + rewrite Hk in Hhi. inversion Hhi; subst. now apply Binary64.leb_refl.
    + apply (StronglySorted_nth _ _ Hs k (length l - 1)); auto. lia.
Qed.

Lemma dixon_bracket_largest (n : nat) :
  (3 <= n <= 30)%nat ->
  largest_bracket (map fst Q_TABLE) n (dixon_bracket n)
  /\ In (dixon_bracket n, table_get Q_TABLE (dixon_bracket n)) Q_TABLE.
Proof.
  intros Hn.
  do 3 (destruct n as [| n]; [lia |]).
  do 28 (destruct n as [| n];
         [ match goal with
           | |- context [dixon_bracket ?k] =>
               let b := eval vm_compute in (dixon_bracket k) in
               change (dixon_bracket k) with b
           end;
           split;
           [ repeat split;
             [ simpl; tauto | lia | simpl; intros k' Hk' Hle; intuition lia ]
           | vm_compute; repeat (first [left; reflexivity | right]) ] |]).
  lia.
Qed.

(** Every read of [sortedData] in [findOutliersDixonQ] is within the
    array. *)
Lemma dixon_reads_in_range (columnData : Column) :
  (3 <= length columnData)%nat ->
  let sortedData := Js.sort value_order columnData in
  let n := length columnData in
  forall k, In k [0; 1; n - 2; n - 1]%nat ->
    nth_error sortedData k = Some (nth k sortedData no_entry).
Proof.
  intros Hn sortedData n k Hk. apply nth_error_nth'.
  unfold sortedData. rewrite sort_length. fold n.
  simpl in Hk. lia.
Qed.

(** C2. The bracket table of Dixon's Q test has the keys 3, 4, 5, 6, 7,
    8, 9, 10, 15, 20, 30 with the critical values 0.970, ..., 0.239, and
    the bracket of a size no key reaches is 3.  The test returns the empty
    set on a column of fewer than 3 or more than 30 entries.  On a column
    of size n between 3 and 30 it sorts the entries by value (ascending;
    its first entry [lo] is then a minimum and its last entry [hi] a
    maximum of the column), takes the critical value of the largest key
    at most n, returns the empty set when range = hi - lo is zero, and
    otherwise flags the index of [lo] iff
    qLow = (sorted[1] - sorted[0]) / range exceeds the critical value and
    the index of [hi] iff qHigh = (sorted[n-1] - sorted[n-2]) / range
    does, in this order. *)
Theorem findOutliersDixonQ_brackets (columnData : Column) :
  let n := length columnData in
  (map fst Q_TABLE = [3; 4; 5; 6; 7; 8; 9; 10; 15; 20; 30]%nat
   /\ map snd Q_TABLE
      = [0.970; 0.829; 0.710; 0.625; 0.568; 0.526; 0.493; 0.466; 0.338;
         0.298; 0.239]%float)
  /\ (forall n', (forall k, In k (map fst Q_TABLE) -> (n' < k)%nat) ->
        dixon_bracket n' = 3%nat)
  /\ ((n < 3)%nat \/ (30 < n)%nat -> findOutliersDixonQ columnData = [])
  /\ ((3 <= n <= 30)%nat -> dixon_outcome columnData).
Proof.
  intros n. split; [split; reflexivity |].
  split.
  { intros n' H. unfold dixon_bracket.
    destruct (find _ _) as [k |] eqn:E; [| reflexivity].
    apply find_some in E. destruct E as [Hk Hle].
    apply in_rev in Hk. specialize (H _ Hk). apply Nat.leb_le in Hle. lia. }
  split.
  { intros H. unfold findOutliersDixonQ. fold n.
    replace ((n <? 3)%nat || (30 <? n)%nat) with true; [reflexivity |].
    symmetry. apply orb_true_iff.
    destruct H; [left; now apply Nat.ltb_lt | right; now apply Nat.ltb_lt]. }
  intros Hn. unfold dixon_outcome. fold n.
  set (sortedData := Js.sort value_order columnData).
  pose proof (dixon_reads_in_range columnData ltac:(fold n; lia)) as Hread.
  cbn zeta in Hread. fold sortedData in Hread. fold n in Hread.
  destruct (dixon_bracket_largest n Hn) as [Hk Hq].
  exists sortedData,
    (nth 0 sortedData no_entry), (nth 1 sortedData no_entry),
    (nth (n - 2) sortedData no_entry), (nth (n - 1) sortedData no_entry),
    (dixon_bracket n), (table_get Q_TABLE (dixon_bracket n)).
  assert (Hperm : Permutation columnData sortedData) by apply sort_perm.
  split; [exact Hperm |].
  split; [apply sort_no_descent, value_order_key |].
  split.
  { intros Hnan.
    assert (Hasc : ascending value sortedData)
      by (apply sort_ascending; [apply value_order_key | assumption]).
    split; [exact Hasc |].
    intros e He.
    assert (Hlen : length sortedData = n) by apply sort_length.
    assert (Hlo : nth_error sortedData 0 = Some (nth 0 sortedData no_entry))
      by (apply Hread; simpl; tauto).
    assert (Hhi : nth_error sortedData (length sortedData - 1)
                  = Some (nth (n - 1) sortedData no_entry))
      by (rewrite Hlen; apply Hread; simpl; tauto).
    apply (ascending_ends value sortedData _ _ Hasc
             (no_nan_perm _ _ _ Hperm Hnan) Hlo Hhi).
    eapply Permutation_in; eassumption. }
  repeat (split; [apply Hread; simpl; tauto |]).
  split; [exact Hk |]. split; [exact Hq |].
  cbn zeta. unfold findOutliersDixonQ. fold n. fold sortedData.
  replace ((n <? 3)%nat || (30 <? n)%nat) with false.
  - split; intros Hr; rewrite Hr; reflexivity.
  - symmetry. apply orb_false_iff.
    split; [apply Nat.ltb_ge | apply Nat.ltb_ge]; lia.
Qed.

Lemma findOutliersDixonQ_brackets_witness :
  dixon_outcome
    [mkEntry 10 0; mkEntry 12 1; mkEntry 11 2; mkEntry 13 3; mkEntry 12 4;
     mkEntry 100 5].
Proof.
  apply (proj2 (proj2 (proj2
    (findOutliersDixonQ_brackets
       [mkEntry 10 0; mkEntry 12 1; mkEntry 11 2; mkEntry 13 3; mkEntry 12 4;
        mkEntry 100 5])))).
  simpl. lia.
Defined.

(** Both ends may be flagged at once: thirty entries, twenty-eight of
    them 50, one 0 and one 100 (bracket 30, critical value 0.239).  The
    injected value 1000 of a 26-entry column falls in bracket 20. *)
Example findOutliersDixonQ_both_ends :
  let col :=
    map (fun p => mkEntry (fst p) (snd p))
        (combine ([100] ++ repeat 50 28 ++ [0])%float (map Z.of_nat (seq 0 30))) in
  findOutliersDixonQ col = [29; 0]%Z.
Proof. vm_compute. reflexivity. Qed.

Example findOutliersDixonQ_bracket_20 :
  dixon_bracket 26 = 20%nat /\ table_get Q_TABLE (dixon_bracket 26) = 0.298%float
  /\ findOutliersDixonQ
       (map (fun p => mkEntry (fst p) (snd p))
            (combine ([3; 7; 1; 9; 4; 6; 2; 8; 5; 0; 3; 7; 1; 9; 4; 6; 2; 8;
                       5; 0; 3; 7; 1; 9; 4; 1000])%float
                     (map Z.of_nat (seq 0 26))))
     = [25%Z].
Proof. vm_compute. repeat split. Qed.

(** ** Columns of one repeated value *)

Section Constant.
Variable x : float.
Hypothesis x_finite : PrimFloat.is_finite x = true.

Let all_x (l : list float) : Prop := Forall (eq x) l.

Lemma all_x_nth l k : all_x l -> (k < length l)%nat -> nth k l nan = x.
Proof.
  intros H Hk. unfold all_x in H. rewrite Forall_forall in H.
  symmetry. apply H. now apply nth_In.
Qed.

Lemma constant_values columnData :
  constant_column x columnData -> all_x (values_of columnData).
Proof.
  intros H. apply Forall_forall. intros v Hv.
  apply in_map_iff in Hv. destruct Hv as (d & <- & Hd).
  symmetry. now apply H.
Qed.

Lemma sum_zeros l : Forall (eq 0%float) l -> Js.sum l = 0%float.
Proof.
  unfold Js.sum. induction 1 as [| v l <- _ IH]; simpl; [reflexivity |].
  exact IH.
Qed.

Lemma nearest_rank_all (y : float) num den l :
  Forall (eq y) l -> l <> [] -> (num < den)%nat -> nearest_rank num den l = y.
Proof.
  intros H Hne Hlt. rewrite Forall_forall in H. symmetry. apply H.
  now apply nearest_rank_In.
Qed.

Lemma sort_all (y : float) l :
  Forall (eq y) l -> Forall (eq y) (Js.sort numeric_order l).
Proof. apply Permutation_Forall, sort_perm. Qed.

Lemma sort_nonempty {A : Type} (cmp : A -> A -> float) l :
  l <> [] -> Js.sort cmp l <> [].
Proof.
  intros Hne E. apply Hne, Permutation_nil. rewrite <- E.
  symmetry. apply sort_perm.
Qed.

(** The statistics of a sample of copies of [x]. *)
Lemma getStats_constant data :
  all_x data -> data <> [] ->
  let st := getStats data in
  q1 st = x /\ median st = x /\ q3 st = x
  /\ iqr st = 0%float /\ mad st = 0%float.
Proof.
  intros Hx Hne st.
  pose proof (getStats_nonempty data Hne) as St. fold st in St.
  pose proof (sort_all x data Hx) as Hs.
  pose proof (sort_nonempty numeric_order data Hne) as Hsn.
  assert (Hq1 : q1 st = x)
    by (rewrite (of_q1 _ _ _ _ St); apply nearest_rank_all; auto).
  assert (Hmed : median st = x)
    by (rewrite (of_median _ _ _ _ St); apply nearest_rank_all; auto).
  assert (Hq3 : q3 st = x)
    by (rewrite (of_q3 _ _ _ _ St); apply nearest_rank_all; auto; lia).
  repeat split; auto.
  - rewrite (of_iqr _ _ _ _ St), Hq1, Hq3. now apply Binary64.sub_self.
  - rewrite (of_mad _ _ _ _ St). apply nearest_rank_all; [| | lia].
    + apply sort_all. apply Forall_forall. intros r Hr.
      apply in_map_iff in Hr. destruct Hr as (v & <- & Hv).
      unfold all_x in Hx. rewrite Forall_forall in Hx.
      rewrite <- (Hx v Hv), Hmed, Binary64.sub_self by assumption.
      reflexivity.
    + apply sort_nonempty. destruct data; [congruence | discriminate].
Qed.

Lemma getStats_constant_zero data :
  all_x data ->
  Js.strict_eq (iqr (getStats data)) 0 = true
  /\ Js.strict_eq (mad (getStats data)) 0 = true.
Proof.
  intros Hx. destruct data as [| v data]; [split; reflexivity |].
  destruct (getStats_constant (v :: data) Hx ltac:(discriminate))
    as (_ & _ & _ & -> & ->).
  split; reflexivity.
Qed.

(** With an exact mean every squared deviation is zero. *)
Lemma stdDev_constant data :
  all_x data -> (Z.of_nat (length data) < 2 ^ 32)%Z ->
  mean (getStats data) = x ->
  Js.strict_eq (stdDev (getStats data)) 0 = true.
Proof.
  intros Hx Hlen Hmean. destruct data as [| v data]; [reflexivity |].
  set (d := v :: data) in *.
  pose proof (getStats_nonempty d ltac:(discriminate)) as St.
  rewrite (of_stdDev _ _ _ _ St), Hmean, sum_zeros.
  - rewrite Binary64.zero_div_length; [reflexivity |].
    split; [unfold d; simpl length; lia | assumption].
  - apply Forall_forall. intros r Hr.
    apply in_map_iff in Hr. destruct Hr as (w & <- & Hw).
    unfold all_x in Hx. rewrite Forall_forall in Hx.
    rewrite <- (Hx w Hw), Binary64.sub_self by assumption. reflexivity.
Qed.

Lemma filter_none {A : Type} (p : A -> bool) l :
  (forall a, In a l -> p a = false) -> filter p l = [].
Proof.
  induction l as [| a l IH]; intros H; simpl; [reflexivity |].
  rewrite (H a (or_introl eq_refl)). apply IH. intros b Hb. apply H. now right.
Qed.

Lemma findOutliersIQR_constant columnData :
  constant_column x columnData -> findOutliersIQR columnData = [].
Proof.
  intros Hc. unfold findOutliersIQR.
  destruct columnData as [| d0 l]; [reflexivity |].
  set (col := d0 :: l) in *.
  destruct (getStats_constant (values_of col) (constant_values col Hc)
              ltac:(discriminate)) as (-> & _ & -> & -> & _).
  rewrite filter_none; [reflexivity |].
  intros d Hd. rewrite (Hc d Hd).
  change (1.5 * 0)%float with 0%float.
  rewrite Binary64.sub_zero. unfold Js.lt, Js.gt.
  now rewrite Binary64.ltb_irrefl, Binary64.add_zero_not_lt.
Qed.

Lemma findOutliersModifiedZScore_constant columnData threshold :
  constant_column x columnData ->
  findOutliersModifiedZScore columnData threshold = [].
Proof.
  intros Hc. unfold findOutliersModifiedZScore.
  destruct (getStats_constant_zero _ (constant_values _ Hc)) as [_ ->].
  reflexivity.
Qed.

Lemma findOutliersDixonQ_constant columnData :
  constant_column x columnData -> findOutliersDixonQ columnData = [].
Proof.
  intros Hc. unfold findOutliersDixonQ.
  destruct ((length columnData <? 3)%nat || (30 <? length columnData)%nat)
    eqn:Hn; [reflexivity |].
  apply orb_false_iff in Hn. destruct Hn as [H3 H30].
  apply Nat.ltb_ge in H3.
  assert (Hv : forall k, (k < length columnData)%nat ->
            value (nth k (Js.sort value_order columnData) no_entry) = x).
  { intros k Hk. apply Hc.
    apply sort_In with (cmp := value_order). apply nth_In.
    now rewrite sort_length. }
  rewrite !Hv by lia.
  rewrite Binary64.sub_self by assumption. reflexivity.
Qed.

Lemma esd_loop_no_spread rounds columnData :
  Js.strict_eq (stdDev (getStats (values_of columnData))) 0 = true ->
  esd_loop rounds columnData [] = [].
Proof.
  intros H. destruct rounds; simpl; [reflexivity |].
  rewrite H. now destruct (length columnData <? 3)%nat.
Qed.

(** What 2 does not exceed, no bound above 2 exceeds. *)
Lemma above_two (t score : float) :
  (2 <? t)%float = true -> (2 <? score)%float = false ->
  Js.gt score t = false.
Proof.
  unfold Js.gt. intros Ht Hs.
  destruct (t <? score)%float eqn:E; [| reflexivity].
  pose proof (Binary64.ltb_trans _ _ _ Ht E). congruence.
Qed.

(** Rounding can leave a sample of copies of [x] a mean other than [x]
    and a stdDev other than zero, but then no score exceeds 2: the
    deviation of [x] from the mean is at most 7/4 of the stdDev. *)
Lemma stdDev_constant_score data :
  all_x data -> data <> [] -> (Z.of_nat (length data) < 2 ^ 32)%Z ->
  let st := getStats data in
  Js.strict_eq (stdDev st) 0 = true
  \/ ((2 <? PrimFloat.abs (x - mean st) / stdDev st)%float = false
      /\ (2 <? PrimFloat.abs ((x - mean st) / stdDev st))%float = false).
Proof.
  intros Hx Hne Hlen st.
  pose proof (getStats_nonempty data Hne) as St. fold st in St.
  rewrite (of_stdDev _ _ _ _ St).
  pose proof (Rounding.constant_deviation (x - mean st)
                (map (fun v => ((v - mean st) * (v - mean st))%float) data))
    as H.
  rewrite length_map in H. apply H.
  - destruct data; [congruence | discriminate].
  - apply Forall_forall. intros r Hr.
    apply in_map_iff in Hr. destruct Hr as (w & <- & Hw).
    unfold all_x in Hx. rewrite Forall_forall in Hx. now rewrite <- (Hx w Hw).
  - exact Hlen.
Qed.

Lemma constant_column_score columnData :
  constant_column x columnData -> columnData <> [] ->
  (Z.of_nat (length columnData) < 2 ^ 32)%Z ->
  let st := getStats (values_of columnData) in
  Js.strict_eq (stdDev st) 0 = true
  \/ ((2 <? PrimFloat.abs (x - mean st) / stdDev st)%float = false
      /\ (2 <? PrimFloat.abs ((x - mean st) / stdDev st))%float = false).
Proof.
  intros Hc Hne Hlen. apply stdDev_constant_score.
  - now apply constant_values.
  - destruct columnData; [congruence | discriminate].
  - unfold values_of. now rewrite length_map.
Qed.

Lemma findOutliersZScore_constant columnData :
  constant_column x columnData ->
  (Z.of_nat (length columnData) < 2 ^ 32)%Z ->
  findOutliersZScore columnData 3.0 = [].
Proof.
  intros Hc Hlen. unfold findOutliersZScore. cbv zeta.
  destruct columnData as [| d0 l]; [reflexivity |].
  set (col := d0 :: l) in *.
  destruct (constant_column_score col Hc ltac:(discriminate) Hlen)
    as [-> | [_ H]]; [reflexivity |].
  destruct (Js.strict_eq _ 0); [reflexivity |].
  rewrite filter_none; [reflexivity |].
  intros d Hd. rewrite (Hc d Hd). now apply above_two.
Qed.

Lemma findOutliersGrubbs_constant columnData :
  constant_column x columnData ->
  (Z.of_nat (length columnData) < 2 ^ 32)%Z ->
  findOutliersGrubbs columnData = [].
Proof.
  intros Hc Hlen. unfold findOutliersGrubbs. cbv zeta.
  destruct (length (values_of columnData) <? 3)%nat eqn:Hn; [reflexivity |].
  assert (Hne : columnData <> []) by (intros ->; discriminate Hn).
  destruct (constant_column_score columnData Hc Hne Hlen)
    as [-> | [H _]]; [reflexivity |].
  destruct (Js.strict_eq _ 0); [reflexivity |].
  set (st := getStats (values_of columnData)) in *.
  pose proof (fold_argmax fst (deviation (mean st) (stdDev st))
                (fun d => (deviation (mean st) (stdDev st) d, index d))
                (grubbs_step (mean st) (stdDev st))
                (grubbs_step_eq (mean st) (stdDev st)) (fun _ => eq_refl)
                columnData (0%float, (-1)%Z) eq_refl) as HF.
  cbn zeta in HF. destruct HF as (_ & _ & _ & Hcase).
  destruct (fold_left _ columnData _) as [maxDev outlierIndex].
  destruct Hcase as [[Hr _] | (l1 & d & l2 & Hl & Hr & _)].
  - inversion Hr. reflexivity.
  - inversion Hr. unfold deviation, Js.gt.
    rewrite (Hc d) by (rewrite Hl; apply in_elt). now rewrite H.
Qed.

Lemma esd_loop_constant rounds columnData :
  constant_column x columnData ->
  (Z.of_nat (length columnData) < 2 ^ 32)%Z ->
  esd_loop rounds columnData [] = [].
Proof.
  intros Hc Hlen. destruct rounds; simpl; [reflexivity |].
  destruct (length columnData <? 3)%nat eqn:Hn; [reflexivity |].
  assert (Hne : columnData <> []) by (intros ->; discriminate Hn).
  destruct (constant_column_score columnData Hc Hne Hlen)
    as [-> | [H _]]; [reflexivity |].
  destruct (Js.strict_eq _ 0); [reflexivity |].
  set (st := getStats (values_of columnData)) in *.
  destruct (esd_scan_spec (mean st) (stdDev st) columnData)
    as (_ & _ & [-> | (l1 & d & l2 & Hl & -> & _)]); [reflexivity |].
  cbn [maxDeviation]. unfold deviation.
  rewrite (Hc d) by (rewrite Hl; apply in_elt).
  rewrite (above_two 2.5 _ eq_refl H). reflexivity.
Qed.

Lemma findOutliersESD_constant columnData :
  constant_column x columnData ->
  (Z.of_nat (length columnData) < 2 ^ 32)%Z ->
  findOutliersESD columnData = [].
Proof.
  intros Hc Hlen. unfold findOutliersESD, findOutliersESD_with.
  rewrite esd_loop_constant by assumption.
  now destruct (length columnData <? 5)%nat.
Qed.

End Constant.

(** C6, as the code has it.  On a column (shorter than 2^32) whose
    entries all carry one finite value, iqr and mad are zero and each of
    the seven methods returns the empty set.  stdDev is zero whenever
    the computed mean is that value itself.  Nothing is said of stdDev
    when rounding makes the mean differ from the value: it may be
    positive, zero or infinite (see the examples below), and the
    methods return the empty set all the same. *)
Theorem constant_column_no_outliers (x : float) (columnData : Column) :
  PrimFloat.is_finite x = true ->
  constant_column x columnData ->
  (Z.of_nat (length columnData) < 2 ^ 32)%Z ->
  let st := getStats (values_of columnData) in
  Js.strict_eq (iqr st) 0 = true
  /\ Js.strict_eq (mad st) 0 = true
  /\ (mean st = x -> Js.strict_eq (stdDev st) 0 = true)
  /\ findOutliersIQR columnData = []
  /\ findOutliersZScore columnData 3.0 = []
  /\ findOutliersModifiedZScore columnData 3.5 = []
  /\ findOutliersGrubbs columnData = []
  /\ findOutliersESD columnData = []
  /\ findOutliersDixonQ columnData = []
  /\ findOutliersPeirce columnData = []
  /\ (forall m, In m methods -> fn m columnData = []).
Proof.
  intros Hfin Hc Hlen st.
  pose proof (constant_values x columnData Hc) as Hx.
  destruct (getStats_constant_zero x Hfin _ Hx) as [Hiqr Hmad].
  pose proof (findOutliersIQR_constant x Hfin columnData Hc) as HI.
  pose proof (findOutliersZScore_constant x columnData Hc Hlen) as HZ.
  pose proof (findOutliersModifiedZScore_constant x Hfin columnData 3.5 Hc)
    as HM.
  pose proof (findOutliersGrubbs_constant x columnData Hc Hlen) as HG.
  pose proof (findOutliersESD_constant x columnData Hc Hlen) as HE.
  pose proof (findOutliersDixonQ_constant x Hfin columnData Hc) as HD.
  pose proof (findOutliersModifiedZScore_constant x Hfin columnData 4.0 Hc)
    as HP.
  split; [exact Hiqr |]. split; [exact Hmad |].
  split.
  { intros Hmean. apply (stdDev_constant x); auto.
    unfold values_of. now rewrite length_map. }
  repeat (split; [assumption |]).
  intros m Hm. simpl in Hm.
  repeat (destruct Hm as [<- | Hm]; [assumption |]). destruct Hm.
Qed.

(** The second end-to-end example: on the column 5, 5, 5, 5, 5 the mean is
    5, so all three statistics are zero and all seven methods return the
    empty set. *)
Lemma constant_column_no_outliers_witness :
  let columnData :=
    [mkEntry 5 0; mkEntry 5 1; mkEntry 5 2; mkEntry 5 3; mkEntry 5 4] in
  let st := getStats (values_of columnData) in
  Js.strict_eq (iqr st) 0 = true
  /\ Js.strict_eq (mad st) 0 = true
  /\ Js.strict_eq (stdDev st) 0 = true
  /\ map (fun m => fn m columnData) methods = [[]; []; []; []; []; []; []].
Proof.
  intros columnData st.
  assert (Hc : constant_column 5 columnData).
  { intros d Hd. simpl in Hd.
    repeat (destruct Hd as [<- | Hd]; [reflexivity |]). destruct Hd. }
  destruct (constant_column_no_outliers 5 columnData eq_refl Hc
              ltac:(simpl; lia))
    as (Hiqr & Hmad & Hsd & HI & HZ & HM & HG & HE & HD & HP & _).
  fold st in Hiqr, Hmad, Hsd.
  split; [exact Hiqr |]. split; [exact Hmad |].
  split; [exact (Hsd eq_refl) |].
  cbn [map methods fn]. now rewrite HI, HZ, HM, HG, HE, HD, HP.
Defined.

(** C6 as stated fails in its first part: the mean of 0.1, 0.1, 0.1 is
    computed as 0.10000000000000002, which leaves a stdDev of about
    1.39e-17, not zero.  (The seven methods still return the empty set on
    this column.) *)
Lemma constant_column_stdDev_not_zero :
  let columnData := [mkEntry 0.1 0; mkEntry 0.1 1; mkEntry 0.1 2] in
  let st := getStats (values_of columnData) in
  constant_column 0.1 columnData
  /\ mean st = 0.10000000000000002%float
  /\ stdDev st = 1.3877787807814457e-17%float
  /\ Js.strict_eq (stdDev st) 0 = false.
Proof.
  intros columnData st. split.
  - intros d Hd. simpl in Hd.
    repeat (destruct Hd as [<- | Hd]; [reflexivity |]). destruct Hd.
  - vm_compute. repeat split.
Qed.

(** When the mean is not the repeated value, stdDev can still be zero
    (the deviations underflow when squared), and it is infinite when
    the sum overflows. *)
Example constant_column_stdDev_cases :
  let tiny := 0x1.999999999999ap-604%float in
  let huge := 0x1.1ccf385ebc8ap+1023%float in
  let st1 := getStats [tiny; tiny; tiny] in
  let st2 := getStats [huge; huge; huge] in
  PrimFloat.eqb (mean st1) tiny = false
  /\ Js.strict_eq (stdDev st1) 0 = true
  /\ mean st2 = infinity /\ stdDev st2 = infinity
  /\ Js.strict_eq (stdDev st2) 0 = false.
Proof. vm_compute. repeat split. Qed.

Example constant_column_inexact_mean :
  let c3 := [mkEntry 0.1 0; mkEntry 0.1 1; mkEntry 0.1 2] in
  let c12 := map (fun k => mkEntry 0.1 (Z.of_nat k)) (seq 0 12) in
  map (fun m => fn m c3) methods = [[]; []; []; []; []; []; []]
  /\ Js.strict_eq (stdDev (getStats (values_of c12))) 0 = false
  /\ map (fun m => fn m c12) methods = [[]; []; []; []; []; []; []].
Proof. vm_compute. repeat split. Qed.

(** ** What the methods return *)

Section Kept.
Context {A B : Type} (key : A -> B) (keep : A -> bool).

Lemma NoDup_map_filter (l : list A) :
  NoDup (map key l) -> NoDup (map key (filter keep l)).
Proof.
  induction l as [| a l IH]; simpl; intros H; [constructor |].
  apply NoDup_cons_iff in H. destruct H as [Ha H].
  destruct (keep a); [| now apply IH].
  simpl. constructor; [| now apply IH].
  intros Hin. apply Ha. apply in_map_iff in Hin.
  destruct Hin as (b & E & Hb). apply filter_In in Hb.
  apply in_map_iff. exists b. tauto.
Qed.

Lemma incl_map_filter (l : list A) :
  incl (map key (filter keep l)) (map key l).
Proof.
  intros b Hb. apply in_map_iff in Hb. destruct Hb as (a & <- & Ha).
  apply filter_In in Ha. apply in_map. tauto.
Qed.

End Kept.

Lemma Set_of_NoDup (xs : list Z) : NoDup xs -> Set_of xs = xs.
Proof.
  unfold Set_of.
  assert (H : forall acc, NoDup (acc ++ xs) ->
            fold_left set_add xs acc = acc ++ xs).
  { induction xs as [| x xs IH]; intros acc Hnd; simpl.
    - now rewrite app_nil_r.
    - assert (Hx : existsb (Z.eqb x) acc = false).
      { destruct (existsb (Z.eqb x) acc) eqn:E; [| reflexivity].
        apply existsb_exists in E. destruct E as (y & Hy & Exy).
        apply Z.eqb_eq in Exy. subst y.
        apply NoDup_remove_2 in Hnd. exfalso. apply Hnd.
        apply in_or_app. now left. }
      unfold set_add at 2. rewrite Hx.
      rewrite IH; rewrite <- app_assoc; [reflexivity | exact Hnd]. }
  intros Hnd. now apply (H []).
Qed.

(** The entries the ESD loop records are taken out of the column, each
    once. *)
Lemma esd_run_removes rounds current recorded final :
  esd_run rounds current recorded final ->
  exists removed rest,
    final = recorded ++ removed /\ Permutation current (removed ++ rest).
Proof.
  induction 1 as [ current recorded | rounds current recorded Hn
                 | rounds current recorded Hn Hsd
                 | rounds current recorded st Hn Hsd Hall
                 | rounds current recorded l1 d l2 final st
                     Hn Hsd Hl Hcrit Hfirst Hrun IH ];
    try (exists [], current; rewrite app_nil_r; split; reflexivity).
  destruct IH as (removed & rest & -> & Hp).
  exists (d :: removed), rest. rewrite <- app_assoc. split; [reflexivity |].
  subst current. simpl. rewrite <- Hp. symmetry. apply Permutation_middle.
Qed.

Lemma NoDup_map_perm_app {A B : Type} (f : A -> B) (l l1 l2 : list A) :
  Permutation l (l1 ++ l2) -> NoDup (map f l) ->
  NoDup (map f l1) /\ incl (map f l1) (map f l).
Proof.
  intros Hp Hnd.
  assert (Hp' : Permutation (map f l) (map f l1 ++ map f l2))
    by (rewrite <- map_app; now apply Permutation_map).
  split.
  - apply (Permutation_NoDup Hp') in Hnd. now apply NoDup_app_remove_r in Hnd.
  - intros b Hb. apply (Permutation_in b (Permutation_sym Hp')).
    apply in_or_app. now left.
Qed.

Lemma incl_map_perm_app {A B : Type} (f : A -> B) (l l1 l2 : list A) :
  Permutation l (l1 ++ l2) -> incl (map f l1) (map f l).
Proof.
  intros Hp b Hb.
  assert (Hp' : Permutation (map f l) (map f l1 ++ map f l2))
    by (rewrite <- map_app; now apply Permutation_map).
  apply (Permutation_in b (Permutation_sym Hp')).
  apply in_or_app. now left.
Qed.

Lemma findOutliersGrubbs_cases (columnData : Column) :
  findOutliersGrubbs columnData = []
  \/ exists d, In d columnData /\ findOutliersGrubbs columnData = [index d].
Proof.
  unfold findOutliersGrubbs. cbv zeta.
  destruct (length (values_of columnData) <? 3)%nat; [now left |].
  destruct (Js.strict_eq _ 0); [now left |].
  set (st := getStats (values_of columnData)).
  pose proof (fold_argmax fst (deviation (mean st) (stdDev st))
                (fun d => (deviation (mean st) (stdDev st) d, index d))
                (grubbs_step (mean st) (stdDev st))
                (grubbs_step_eq (mean st) (stdDev st)) (fun _ => eq_refl)
                columnData (0%float, (-1)%Z) eq_refl) as HF.
  cbn zeta in HF. destruct HF as (_ & _ & _ & Hcase).
  destruct (fold_left _ columnData _) as [maxDev outlierIndex].
  destruct Hcase as [[Hr _] | (l1 & d & l2 & Hl & Hr & _)].
  - inversion Hr; subst. now left.
  - inversion Hr; subst.
    destruct (Js.gt _ 2); [| now left].
    right. exists d. split; [apply in_elt | reflexivity].
Qed.


Lemma index_set_nil columnData : index_set columnData [].
Proof. split; [intros x [] | constructor]. Qed.

Lemma index_set_filter columnData (p : ColumnEntry -> bool) :
  index_set columnData (map index (filter p columnData)).
Proof. split; [apply incl_map_filter | apply NoDup_map_filter]. Qed.

Lemma findOutliersGrubbs_index_set columnData :
  index_set columnData (findOutliersGrubbs columnData).
Proof.
  destruct (findOutliersGrubbs_cases columnData) as [-> | (d & Hd & ->)];
    [apply index_set_nil |].
  split.
  - intros x [<- | []]. now apply in_map.
  - intros _. repeat constructor. intros [].
Qed.

Lemma findOutliersESD_with_index_set columnData maxOutliers :
  index_set columnData (findOutliersESD_with columnData maxOutliers).
Proof.
  unfold findOutliersESD_with.
  destruct (length columnData <? 5)%nat; [apply index_set_nil |].
  destruct (esd_run_removes _ _ _ _
              (esd_loop_run (Z.to_nat maxOutliers) columnData []))
    as (removed & rest & -> & Hp).
  cbn [app]. split.
  - eapply incl_map_perm_app; eassumption.
  - intros Hnd. eapply NoDup_map_perm_app; eassumption.
Qed.

Lemma findOutliersDixonQ_index_set columnData :
  index_set columnData (findOutliersDixonQ columnData).
Proof.
  unfold findOutliersDixonQ. cbv zeta.
  destruct ((length columnData <? 3)%nat || (30 <? length columnData)%nat)
    eqn:Hn; [apply index_set_nil |].
  apply orb_false_iff in Hn. destruct Hn as [H3 _]. apply Nat.ltb_ge in H3.
  destruct (Js.strict_eq _ 0); [apply index_set_nil |].
  set (sortedData := Js.sort value_order columnData).
  set (n := length columnData) in *.
  assert (Hlen : length sortedData = n) by apply sort_length.
  assert (Hin : forall k, (k < n)%nat ->
            In (index (nth k sortedData no_entry)) (map index columnData)).
  { intros k Hk. apply in_map.
    apply (sort_In value_order). apply nth_In. fold sortedData. lia. }
  split.
  - intros x Hx. apply in_app_iff in Hx.
    destruct Hx as [Hx | Hx]; destruct (Js.gt _ _); try destruct Hx as [<- | []];
      try destruct Hx; apply Hin; lia.
  - intros Hnd.
    assert (Hnd' : NoDup (map index sortedData)).
    { eapply Permutation_NoDup; [| exact Hnd].
      apply Permutation_map, sort_perm. }
    assert (Hne : index (nth 0 sortedData no_entry)
                  <> index (nth (n - 1) sortedData no_entry)).
    { intros E.
      rewrite <- !(map_nth index) in E.
      rewrite NoDup_nth in Hnd'. apply Hnd' in E;
        rewrite ?length_map; lia. }
    destruct (Js.gt _ _); destruct (Js.gt _ _); cbn [app].
    + constructor; [intros [E | []]; now apply Hne |].
      constructor; [intros [] | constructor].
    + constructor; [intros [] | constructor].
    + constructor; [intros [] | constructor].
    + constructor.
Qed.

Lemma methods_index_set (columnData : Column) (m : Method) :
  In m methods -> index_set columnData (fn m columnData).
Proof.
  intros Hm. simpl in Hm.
  destruct Hm as [<- | [<- | [<- | [<- | [<- | [<- | [<- | []]]]]]]];
    cbn [fn].
  - apply index_set_filter.
  - unfold findOutliersZScore. cbv zeta.
    destruct (Js.strict_eq _ 0); [apply index_set_nil | apply index_set_filter].
  - unfold findOutliersModifiedZScore. cbv zeta.
    destruct (Js.strict_eq _ 0); [apply index_set_nil | apply index_set_filter].
  - apply findOutliersGrubbs_index_set.
  - apply findOutliersESD_with_index_set.
  - apply findOutliersDixonQ_index_set.
  - unfold findOutliersPeirce, findOutliersModifiedZScore. cbv zeta.
    destruct (Js.strict_eq _ 0); [apply index_set_nil | apply index_set_filter].
Qed.

(** Every catalog method returns indices of the column it is given, and
    none twice when the indices of the column are distinct: the [Set] the
    orchestrator makes of the result has the same elements in the same
    order. *)
Theorem methods_return_sets (columnData : Column) (m : Method) :
  In m methods ->
  incl (fn m columnData) (map index columnData)
  /\ (NoDup (map index columnData) ->
      NoDup (fn m columnData)
      /\ Set_of (fn m columnData) = fn m columnData).
Proof.
  intros Hm.
  destruct (methods_index_set columnData m Hm) as [Hincl Hnd].
  split; [assumption |].
  intros Hcol. split; [auto |]. apply Set_of_NoDup. auto.
Qed.

(** ** Thresholds *)

Lemma filter_incl_pred {A : Type} (p q : A -> bool) (f : A -> Z) (l : list A) :
  (forall a, p a = true -> q a = true) ->
  incl (map f (filter p l)) (map f (filter q l)).
Proof.
  intros H b Hb. apply in_map_iff in Hb. destruct Hb as (a & <- & Ha).
  apply filter_In in Ha. destruct Ha as [Ha Hp].
  apply in_map, filter_In. auto.
Qed.

Lemma gt_threshold_weaken (t1 t2 score : float) :
  (t1 <=? t2)%float = true -> Js.gt score t2 = true -> Js.gt score t1 = true.
Proof. unfold Js.gt. apply Binary64.leb_ltb_trans. Qed.

Lemma findOutliersZScore_threshold columnData t1 t2 :
  (t1 <=? t2)%float = true ->
  incl (findOutliersZScore columnData t2) (findOutliersZScore columnData t1).
Proof.
  intros Ht. unfold findOutliersZScore. cbv zeta.
  destruct (Js.strict_eq _ 0); [intros x [] |].
  apply filter_incl_pred. intros d. now apply gt_threshold_weaken.
Qed.

Lemma findOutliersModifiedZScore_threshold columnData t1 t2 :
  (t1 <=? t2)%float = true ->
  incl (findOutliersModifiedZScore columnData t2)
       (findOutliersModifiedZScore columnData t1).
Proof.
  intros Ht. unfold findOutliersModifiedZScore. cbv zeta.
  destruct (Js.strict_eq _ 0); [intros x [] |].
  apply filter_incl_pred. intros d. now apply gt_threshold_weaken.
Qed.

(** Raising the threshold of the Z-score or of the modified Z-score
    method can only take flags away; in particular whatever Peirce's
    criterion (threshold 4.0) flags, the modified Z-score method of the
    catalog (threshold 3.5) flags too. *)
Theorem thresholds_nest (columnData : Column) :
  (forall t1 t2, (t1 <=? t2)%float = true ->
     incl (findOutliersZScore columnData t2) (findOutliersZScore columnData t1)
     /\ incl (findOutliersModifiedZScore columnData t2)
             (findOutliersModifiedZScore columnData t1))
  /\ incl (findOutliersPeirce columnData)
          (findOutliersModifiedZScore columnData 3.5).
Proof.
  split.
  - intros t1 t2 Ht. split;
      [now apply findOutliersZScore_threshold
      | now apply findOutliersModifiedZScore_threshold].
  - unfold findOutliersPeirce.
    now apply findOutliersModifiedZScore_threshold.
Qed.

(** ** ESD and Grubbs *)

Lemma esd_loop_more (rounds : nat) : forall current recorded,
  exists more,
    esd_loop (S rounds) current recorded
    = esd_loop rounds current recorded ++ more.
Proof.
  induction rounds as [| rounds IH]; intros current recorded.
  - cbn [esd_loop].
    destruct (length current <? 3)%nat; [exists []; now rewrite app_nil_r |].
    destruct (Js.strict_eq _ 0); [exists []; now rewrite app_nil_r |].
    destruct (_ && _); [| exists []; now rewrite app_nil_r].
    destruct (nth_error _ _) as [o |]; [| exists []; now rewrite app_nil_r].
    now exists [o].
  - remember (S rounds) as r eqn:Er.
    cbn [esd_loop]. subst r.
    change (esd_loop (S rounds) current recorded)
      with (if (length current <? 3)%nat then recorded
            else
              let st := getStats (values_of current) in
              if Js.strict_eq (stdDev st) 0 then recorded
              else
                let sc := esd_scan (mean st) (stdDev st) current in
                if Js.gt (maxDeviation sc) 2.5
                   && negb (dataIndexToRemove sc =? -1)%Z
                then
                  let k := Z.to_nat (dataIndexToRemove sc) in
                  match nth_error current k with
                  | Some o => esd_loop rounds (splice1 current k) (recorded ++ [o])
                  | None => recorded
                  end
                else recorded).
    cbv zeta.
    destruct (length current <? 3)%nat; [exists []; now rewrite app_nil_r |].
    destruct (Js.strict_eq _ 0); [exists []; now rewrite app_nil_r |].
    destruct (_ && _); [| exists []; now rewrite app_nil_r].
    destruct (nth_error _ _) as [o |]; [| exists []; now rewrite app_nil_r].
    apply IH.
Qed.

Lemma esd_loop_prefix (k : nat) : forall rounds current recorded,
  exists more,
    esd_loop (rounds + k) current recorded
    = esd_loop rounds current recorded ++ more.
Proof.
  induction k as [| k IH]; intros rounds current recorded.
  - exists []. now rewrite Nat.add_0_r, app_nil_r.
  - destruct (IH rounds current recorded) as [more1 H1].
    destruct (esd_loop_more (rounds + k) current recorded) as [more2 H2].
    exists (more1 ++ more2).
    replace (rounds + S k)%nat with (S (rounds + k)) by lia.
    now rewrite H2, H1, app_assoc.
Qed.

(** Allowing the ESD test more rounds only adds flags after the ones it
    already returns: the result for a bound is a prefix of the result for
    any larger bound. *)
Theorem findOutliersESD_with_prefix (columnData : Column) (k k' : Z) :
  (k <= k')%Z ->
  exists more,
    findOutliersESD_with columnData k'
    = findOutliersESD_with columnData k ++ more.
Proof.
  intros Hk. unfold findOutliersESD_with.
  destruct (length columnData <? 5)%nat; [now exists [] |].
  destruct (esd_loop_prefix (Z.to_nat k' - Z.to_nat k) (Z.to_nat k)
              columnData []) as [more H].
  replace (Z.to_nat k + (Z.to_nat k' - Z.to_nat k))%nat with (Z.to_nat k')
    in H by lia.
  exists (map index more). now rewrite H, map_app.
Qed.

Lemma split_same_list {A : Type} (l1 l1' : list A) d x l2 l2' :
  l1 ++ d :: l2 = l1' ++ x :: l2' ->
  (l1 = l1' /\ d = x /\ l2 = l2') \/ In d l1' \/ In x l1.
Proof.
  revert l1'. induction l1 as [| a l1 IH]; intros [| a' l1'] E; simpl in *.
  - injection E as -> ->. now left.
  - injection E as -> _. right. left. now left.
  - injection E as -> _. right. right. now left.
  - injection E as -> E. destruct (IH _ E) as [(-> & -> & ->) | [H | H]]; auto.
Qed.

(** Grubbs' test flags the first entry of largest deviation when that
    deviation exceeds 2. *)
Lemma findOutliersGrubbs_first_largest (columnData l1 l2 : Column) d :
  let st := getStats (values_of columnData) in
  let dev := deviation (mean st) (stdDev st) in
  (3 <= length columnData)%nat ->
  Js.strict_eq (stdDev st) 0 = false ->
  columnData = l1 ++ d :: l2 ->
  first_largest dev l1 d l2 ->
  Js.gt (dev d) 2 = true ->
  findOutliersGrubbs columnData = [index d].
Proof.
  intros st dev Hn Hsd Hl [Hmaxd Hfirstd] Hcrit.
  unfold findOutliersGrubbs, values_of. rewrite length_map.
  fold (values_of columnData). cbv zeta. fold st.
  apply Nat.ltb_ge in Hn. rewrite Hn, Hsd.
  pose proof (fold_argmax fst dev (fun d => (dev d, index d))
                (grubbs_step (mean st) (stdDev st))
                (grubbs_step_eq (mean st) (stdDev st)) (fun _ => eq_refl)
                columnData (0%float, (-1)%Z) eq_refl) as H.
  cbn zeta in H. destruct H as (_ & _ & Hmax & Hcase).
  destruct (fold_left _ columnData _) as [maxDev outlierIndex].
  cbn [fst] in *.
  assert (Hd : In d columnData) by (rewrite Hl; apply in_elt).
  assert (Nd : PrimFloat.is_nan (dev d) = false)
    by (apply (Binary64.ltb_not_nan _ _ Hcrit)).
  destruct Hcase as [[Hr Hall] | (l1' & x & l2' & Hl' & Hr & Hx & Hfirstx)].
  - exfalso. specialize (Hall d Hd). unfold Js.gt in *.
    assert (H02 : (0 <? 2)%float = true) by reflexivity.
    pose proof (Binary64.ltb_trans 0 2 (dev d) H02 Hcrit). congruence.
  - injection Hr as -> ->.
    assert (Nx : PrimFloat.is_nan (dev x) = false)
      by (apply (Binary64.ltb_not_nan _ _ Hx)).
    assert (E : d = x).
    { rewrite Hl in Hl'.
      destruct (split_same_list _ _ _ _ _ _ Hl') as [(_ & E & _) | [Hin | Hin]];
        [exact E | exfalso | exfalso].
      - specialize (Hfirstx d Hin).
        assert (Hxin : In x (l1 ++ d :: l2)) by (rewrite Hl'; apply in_elt).
        specialize (Hmaxd x Hxin). unfold Js.gt in Hmaxd.
        pose proof (Binary64.ltb_false_leb _ _ Nx Nd Hmaxd). congruence.
      - specialize (Hfirstd x Hin). specialize (Hmax d Hd).
        unfold Js.gt in Hmax.
        pose proof (Binary64.ltb_false_leb _ _ Nd Nx Hmax). congruence. }
    subst x. now rewrite Hcrit.
Qed.

(** Whatever the bound on its rounds, the first index the ESD test
    returns is the index Grubbs' test returns: both look for the first
    entry of largest deviation from the mean of the whole column, and a
    deviation above 2.5 is above 2. *)
Theorem findOutliersESD_first_is_grubbs
  (columnData : Column) (maxOutliers : Z) (i : Z) (rest : list Z) :
  findOutliersESD_with columnData maxOutliers = i :: rest ->
  findOutliersGrubbs columnData = [i].
Proof.
  unfold findOutliersESD_with.
  destruct (length columnData <? 5)%nat; [discriminate |].
  pose proof (esd_loop_run (Z.to_nat maxOutliers) columnData []) as Hrun.
  destruct (esd_loop (Z.to_nat maxOutliers) columnData []) as [| o final]
    eqn:Hloop; [discriminate |].
  intros [= <- _].
  inversion Hrun as [ | | |
                    | rounds current recorded l1 d l2 fin st
                        Hn Hsd Hl Hcrit Hfirst Hrest ]; subst.
  destruct (esd_run_removes _ _ _ _ Hrest) as (removed & _ & E & _).
  cbn [app] in E. injection E as -> _.
  apply (findOutliersGrubbs_first_largest _ l1 l2 d); auto.
  revert Hcrit. now apply gt_threshold_weaken.
Qed.

(** ** Z-score and Grubbs *)

Lemma SFabs_binary_round_aux s M E l :
  SFabs (binary_round_aux prec emax s M E l)
  = binary_round_aux prec emax false M E l.
Proof.
  unfold binary_round_aux.
  destruct (shr_fexp prec emax M E l) as [mrs' e'].
  destruct (shr_fexp prec emax _ e' loc_Exact) as [mrs'' e''].
  destruct (shr_m mrs''); try reflexivity.
  destruct (e'' <=? emax - prec)%Z; reflexivity.
Qed.

(** The sign of a quotient by a number that is not negative. *)
Lemma SFabs_div (x y : spec_float) :
  match y with
  | S754_zero s | S754_infinity s | S754_finite s _ _ => s = false
  | S754_nan => True
  end ->
  SFabs (SFdiv prec emax x y) = SFdiv prec emax (SFabs x) y.
Proof.
  destruct y as [sy | sy | | sy my ey]; intros Hy; try subst sy;
    destruct x as [sx | sx | | sx mx ex]; try reflexivity;
    try (destruct sx; reflexivity).
  cbn [SFdiv SFabs].
  destruct (SFdiv_core_binary prec emax (Z.pos mx) ex (Z.pos my) ey)
    as [[mz ez] lz].
  apply SFabs_binary_round_aux.
Qed.

(** A square root is zero, NaN or positive. *)
Lemma sqrt_sign (v : float) :
  match Prim2SF (PrimFloat.sqrt v) with
  | S754_zero _ | S754_nan => True
  | S754_infinity s | S754_finite s _ _ => s = false
  end.
Proof.
  rewrite sqrt_spec.
  destruct (Prim2SF v) as [s | [|] | | [|] m e]; cbn; auto.
  unfold SF64sqrt, SFsqrt.
  destruct (SFsqrt_core_binary prec emax (Z.pos m) e) as [[mz ez] lz].
  pose proof (Binary64.binary_round_aux_sign false mz ez lz) as Hs.
  destruct (binary_round_aux prec emax false mz ez lz); auto.
Qed.

(** The two ways the methods write a score agree on a standard
    deviation other than zero. *)
Lemma abs_div_sqrt (a v : float) :
  Js.strict_eq (PrimFloat.sqrt v) 0 = false ->
  PrimFloat.abs (a / PrimFloat.sqrt v) = (PrimFloat.abs a / PrimFloat.sqrt v)%float.
Proof.
  intros Hs. apply Prim2SF_inj.
  rewrite abs_spec, !div_spec, abs_spec.
  apply SFabs_div.
  pose proof (sqrt_sign v) as Hsign.
  unfold Js.strict_eq in Hs. rewrite eqb_spec in Hs.
  destruct (Prim2SF (PrimFloat.sqrt v)) as [s | s | | s m e]; auto.
  destruct s; discriminate.
Qed.

Lemma stdDev_is_sqrt (data : list float) :
  data <> [] -> exists v, stdDev (getStats data) = PrimFloat.sqrt v.
Proof.
  intros Hne. pose proof (getStats_nonempty data Hne) as St.
  eexists. apply (of_stdDev _ _ _ _ St).
Qed.

Lemma z_score_deviation (columnData : Column) (d : ColumnEntry) :
  let st := getStats (values_of columnData) in
  columnData <> [] ->
  Js.strict_eq (stdDev st) 0 = false ->
  z_score st d = deviation (mean st) (stdDev st) d.
Proof.
  intros st Hne Hsd. unfold z_score, deviation.
  destruct (stdDev_is_sqrt (values_of columnData)) as [v Hv].
  { destruct columnData; [congruence | discriminate]. }
  fold st in Hv. rewrite Hv in *. now apply abs_div_sqrt.
Qed.

(** On a column of at least three entries, whenever the Z-score method
    flags anything Grubbs' test flags a point too, and that point is one
    of those the Z-score method flags: the entry of largest score. *)
Theorem findOutliersZScore_imply_grubbs (columnData : Column) :
  (3 <= length columnData)%nat ->
  findOutliersZScore columnData 3.0 <> [] ->
  exists d,
    In d columnData
    /\ findOutliersGrubbs columnData = [index d]
    /\ In (index d) (findOutliersZScore columnData 3.0).
Proof.
  intros Hn Hz.
  assert (Hne : columnData <> []) by (intros ->; simpl in Hn; lia).
  unfold findOutliersZScore in *. cbv zeta in *.
  set (st := getStats (values_of columnData)) in *.
  destruct (Js.strict_eq (stdDev st) 0) eqn:Hsd; [congruence |].
  set (dev := deviation (mean st) (stdDev st)).
  assert (Hscore : forall d,
            PrimFloat.abs ((value d - mean st) / stdDev st) = dev d)
    by (intros d; now apply z_score_deviation).
  destruct (filter _ columnData) as [| e flagged] eqn:Hf;
    [exfalso; now apply Hz |].
  assert (He : In e (filter (fun d => Js.gt (PrimFloat.abs
                       ((value d - mean st) / stdDev st)) 3) columnData))
    by (rewrite Hf; now left).
  apply filter_In in He. destruct He as [He He3]. rewrite Hscore in He3.
  unfold findOutliersGrubbs, values_of. rewrite length_map.
  fold (values_of columnData). cbv zeta. fold st.
  pose proof Hn as Hn'. apply Nat.ltb_ge in Hn'. rewrite Hn', Hsd.
  pose proof (fold_argmax fst dev (fun d => (dev d, index d))
                (grubbs_step (mean st) (stdDev st))
                (grubbs_step_eq (mean st) (stdDev st)) (fun _ => eq_refl)
                columnData (0%float, (-1)%Z) eq_refl) as H.
  cbn zeta in H. destruct H as (Nr & _ & Hmax & Hcase).
  destruct (fold_left _ columnData _) as [maxDev outlierIndex].
  cbn [fst] in *.
  assert (Ne : PrimFloat.is_nan (dev e) = false)
    by (apply (Binary64.ltb_not_nan _ _ He3)).
  assert (H3 : Js.gt maxDev 3 = true).
  { unfold Js.gt in *.
    apply (Binary64.ltb_leb_trans _ _ _ He3).
    apply Binary64.ltb_false_leb; auto. }
  destruct Hcase as [[Hr _] | (l1 & x & l2 & Hl & Hr & _)].
  - injection Hr as -> _. discriminate H3.
  - injection Hr as -> ->. exists x.
    assert (Hx : In x columnData) by (rewrite Hl; apply in_elt).
    split; [assumption |]. split.
    + rewrite (gt_threshold_weaken 2 3 (dev x) eq_refl H3). reflexivity.
    + rewrite <- Hf. apply in_map, filter_In. split; [assumption |].
      now rewrite Hscore.
Qed.

(** ** Order of the report *)

Lemma column_of_indices ds i : map index (column_of ds i) = map dp_index (data ds).
Proof. unfold column_of. rewrite map_map. reflexivity. Qed.

Lemma point_of_found ds idx :
  In idx (map dp_index (data ds)) ->
  exists dp, point_of ds idx = Some dp /\ dp_index dp = idx.
Proof.
  intros H. unfold point_of.
  destruct (find _ (data ds)) as [dp |] eqn:E.
  - exists dp. split; [reflexivity |].
    apply find_some in E. now apply Z.eqb_eq.
  - exfalso. apply in_map_iff in H. destruct H as (dp & <- & Hdp).
    pose proof (find_none _ _ E dp Hdp) as Hn. cbn in Hn.
    now rewrite Z.eqb_refl in Hn.
Qed.

Lemma column_records_keys m ds i :
  NoDup (map dp_index (data ds)) -> In m methods ->
  map (fun r => (o_index r, o_columnIndex r)) (column_records m ds i)
  = map (fun idx => (idx, i)) (fn m (column_of ds i)).
Proof.
  intros Hnd Hm. unfold column_records.
  destruct (methods_index_set (column_of ds i) m Hm) as [Hincl Hset].
  rewrite column_of_indices in *.
  rewrite (Set_of_NoDup _ (Hset Hnd)).
  revert Hincl. generalize (fn m (column_of ds i)). intros l.
  induction l as [| idx l IH]; intros Hincl; [reflexivity |].
  cbn [flat_map map]. rewrite map_app, IH.
  - destruct (point_of_found ds idx) as (dp & -> & E).
    { apply Hincl. now left. }
    cbn. now rewrite E.
  - intros x Hx. apply Hincl. now right.
Qed.

(** On a well-formed data set the entry of a catalog method lists the
    method's flags as they come: column by column, and within a column
    in the order the method returns its indices.  No flag is dropped,
    merged with another or moved. *)
Theorem run_method_flags_in_order (ds : DataSet) (m : Method) :
  well_formed ds -> In m methods ->
  map (fun r => (o_index r, o_columnIndex r)) (outliers (run_method ds m))
  = flat_map (fun i => map (fun idx => (idx, i)) (fn m (column_of ds i)))
             (seq 0 (dimensions ds)).
Proof.
  intros [Hnd _] Hm. rewrite run_method_outliers.
  induction (seq 0 (dimensions ds)) as [| i l IH]; [reflexivity |].
  cbn [flat_map]. rewrite map_app, IH.
  now rewrite column_records_keys.
Qed.

Lemma methods_return_sets_witness :
  let columnData :=
    [mkEntry 10 0; mkEntry 12 1; mkEntry 11 2; mkEntry 13 3; mkEntry 12 4;
     mkEntry 100 5] in
  let m := mkMethod "Interquartile Range (IQR)" findOutliersIQR
      "Identifies outliers based on the spread of the middle 50% of the data." in
  In m methods
  /\ fn m columnData = [5%Z]
  /\ incl (fn m columnData) (map index columnData)
  /\ Set_of (fn m columnData) = fn m columnData.
Proof.
  intros columnData m.
  assert (Hm : In m methods) by (left; reflexivity).
  split; [exact Hm |]. split; [vm_compute; reflexivity |].
  destruct (methods_return_sets columnData m Hm) as [Hincl Hset].
  split; [exact Hincl |]. apply Hset.
  repeat (constructor; [simpl; intuition discriminate |]). constructor.
Defined.

Lemma findOutliersESD_with_prefix_witness :
  let columnData :=
    map (fun p => mkEntry (fst p) (snd p))
        (combine
           ([10; 11; 12; 10; 11; 12; 10; 11; 12; 10; 11; 12; 10; 11; 12;
             10; 11; 12; 10; 11; 12; 10; 11; 12; 10; 11; 12; 10; 300; 90]%float)
           (map Z.of_nat (seq 0 30))) in
  findOutliersESD_with columnData 1 = [28%Z]
  /\ exists more,
       findOutliersESD_with columnData 3
       = findOutliersESD_with columnData 1 ++ more.
Proof.
  intros columnData. split; [vm_compute; reflexivity |].
  apply (findOutliersESD_with_prefix columnData 1 3). lia.
Defined.

Lemma findOutliersESD_first_is_grubbs_witness :
  let columnData :=
    map (fun p => mkEntry (fst p) (snd p))
        (combine
           ([10; 11; 12; 10; 11; 12; 10; 11; 12; 10; 11; 12; 10; 11; 12;
             10; 11; 12; 10; 11; 12; 10; 11; 12; 10; 11; 12; 10; 300; 90]%float)
           (map Z.of_nat (seq 0 30))) in
  findOutliersESD_with columnData 3 = [28; 29]%Z
  /\ findOutliersGrubbs columnData = [28%Z].
Proof.
  intros columnData.
  assert (H : findOutliersESD_with columnData 3 = [28; 29]%Z)
    by (vm_compute; reflexivity).
  split; [exact H |].
  exact (findOutliersESD_first_is_grubbs columnData 3 28 [29%Z] H).
Defined.

Lemma findOutliersZScore_imply_grubbs_witness :
  let columnData :=
    map (fun p => mkEntry (fst p) (snd p))
        (combine
           ([10; 11; 12; 10; 11; 12; 10; 11; 12; 10; 11; 12; 10; 11; 12;
             10; 11; 12; 10; 11; 12; 10; 11; 12; 10; 11; 12; 10; 300; 90]%float)
           (map Z.of_nat (seq 0 30))) in
  findOutliersZScore columnData 3.0 = [28%Z]
  /\ exists d,
       In d columnData
       /\ findOutliersGrubbs columnData = [index d]
       /\ In (index d) (findOutliersZScore columnData 3.0).
Proof.
  intros columnData.
  assert (H : findOutliersZScore columnData 3.0 = [28%Z])
    by (vm_compute; reflexivity).
  split; [exact H |].
  apply (findOutliersZScore_imply_grubbs columnData).
  - simpl. lia.
  - rewrite H. discriminate.
Defined.

Lemma run_method_flags_in_order_witness :
  let ds :=
    mkDataSet
      [mkPoint 0 [10; 1]; mkPoint 1 [12; 2]; mkPoint 2 [11; 1];
       mkPoint 3 [13; 2]; mkPoint 4 [12; 1]; mkPoint 5 [100; 50];
       mkPoint 6 [-50; 2]; mkPoint 7 [12; 1]]%float
      ["x"; "y"]%string 2 in
  let m := mkMethod "Interquartile Range (IQR)" findOutliersIQR
      "Identifies outliers based on the spread of the middle 50% of the data." in
  well_formed ds /\ In m methods
  /\ map (fun r => (o_index r, o_columnIndex r)) (outliers (run_method ds m))
     = [(5%Z, 0%nat); (6%Z, 0%nat); (5%Z, 1%nat)].
Proof.
  intros ds m.
  assert (Hwf : well_formed ds).
  { split.
    - repeat (constructor; [simpl; intuition discriminate |]). constructor.
    - repeat constructor. }
  assert (Hm : In m methods) by (left; reflexivity).
  split; [exact Hwf |]. split; [exact Hm |].
  rewrite (run_method_flags_in_order ds m Hwf Hm).
  vm_compute. reflexivity.
Defined.

(** ** Statistics of finite samples *)

Lemma is_finite_not_nan (x : float) :
  PrimFloat.is_finite x = true -> PrimFloat.is_nan x = false.
Proof.
  unfold PrimFloat.is_finite. intros H. apply negb_true_iff in H.
  apply orb_false_iff in H. tauto.
Qed.

Lemma ascending_nth (l : list float) (i j : nat) :
  ascending (fun x => x) l -> no_nan (fun x => x) l ->
  (i <= j < length l)%nat ->
  (nth i l nan <=? nth j l nan)%float = true.
Proof.
  intros Hs Hn Hij.
  destruct (Nat.eq_dec i j) as [-> | Hne].
  - apply Binary64.leb_refl. unfold no_nan in Hn. rewrite Forall_forall in Hn.
    apply Hn, nth_In. lia.
  - apply (StronglySorted_nth _ _ Hs i j); [lia | |];
      apply nth_error_nth'; lia.
Qed.

Section FiniteSample.
Variable data : list float.
Hypothesis nonempty : data <> [].
Hypothesis finite : Forall (fun x => PrimFloat.is_finite x = true) data.

Let st := getStats data.
Let sorted := Js.sort numeric_order data.

Lemma sample_no_nan : no_nan (fun x => x) data.
Proof.
  unfold no_nan. eapply Forall_impl; [| exact finite].
  intros x. apply is_finite_not_nan.
Qed.

Lemma sorted_ascending :
  ascending (fun x => x) sorted /\ no_nan (fun x => x) sorted
  /\ length sorted = length data.
Proof.
  destruct (numeric_sort_arrangement data) as (Hp & _ & Hasc).
  split; [apply Hasc, sample_no_nan |]. split.
  - unfold no_nan. eapply Permutation_Forall; [exact Hp |]. apply sample_no_nan.
  - symmetry. now apply Permutation_length.
Qed.

Lemma rank_in_sample (num den : nat) :
  (num < den)%nat -> In (nearest_rank num den sorted) data.
Proof.
  intros H. apply (Permutation_in _ (Permutation_sym (sort_perm numeric_order data))).
  apply nearest_rank_In; [| assumption].
  intros E. apply nonempty. apply Permutation_nil.
  rewrite <- E. symmetry. apply sort_perm.
Qed.

Lemma sample_finite (x : float) : In x data -> PrimFloat.is_finite x = true.
Proof. rewrite Forall_forall in finite. apply finite. Qed.

Lemma quartiles_ordered :
  (nearest_rank 1 4 sorted <=? nearest_rank 1 2 sorted)%float = true
  /\ (nearest_rank 1 2 sorted <=? nearest_rank 3 4 sorted)%float = true.
Proof.
  destruct sorted_ascending as (Hs & Hn & Hlen).
  assert (Hpos : (0 < length sorted)%nat).
  { rewrite Hlen. destruct data; [congruence | simpl; lia]. }
  set (n := length sorted) in *.
  pose proof (Nat.div_mod_eq (n * 1) 4). pose proof (Nat.div_mod_eq (n * 1) 2).
  pose proof (Nat.div_mod_eq (n * 3) 4).
  pose proof (Nat.mod_upper_bound (n * 1) 4 ltac:(lia)).
  pose proof (Nat.mod_upper_bound (n * 1) 2 ltac:(lia)).
  pose proof (Nat.mod_upper_bound (n * 3) 4 ltac:(lia)).
  unfold nearest_rank. fold n. split; apply ascending_nth; auto; fold n; lia.
Qed.

Lemma getStats_quartiles :
  In (q1 st) data /\ In (median st) data /\ In (q3 st) data
  /\ (q1 st <=? median st)%float = true
  /\ (median st <=? q3 st)%float = true
  /\ (0 <=? iqr st)%float = true
  /\ (0 <=? mad st)%float = true.
Proof.
  pose proof (getStats_nonempty data nonempty) as St. fold st in St.
  fold sorted in St.
  destruct quartiles_ordered as [H12 H23].
  assert (Hq1 : In (q1 st) data)
    by (rewrite (of_q1 _ _ _ _ St); apply rank_in_sample; lia).
  assert (Hmed : In (median st) data)
    by (rewrite (of_median _ _ _ _ St); apply rank_in_sample; lia).
  assert (Hq3 : In (q3 st) data)
    by (rewrite (of_q3 _ _ _ _ St); apply rank_in_sample; lia).
  split; [assumption |]. split; [assumption |]. split; [assumption |].
  split; [now rewrite (of_q1 _ _ _ _ St), (of_median _ _ _ _ St) |].
  split; [now rewrite (of_q3 _ _ _ _ St), (of_median _ _ _ _ St) |].
  split.
  - rewrite (of_iqr _ _ _ _ St).
    apply Signs.sub_nonneg; try now apply sample_finite.
    rewrite (of_q1 _ _ _ _ St), (of_q3 _ _ _ _ St).
    eapply Binary64.leb_trans; eassumption.
  - rewrite (of_mad _ _ _ _ St).
    pose proof (of_residuals _ _ _ _ St) as Hp.
    match type of Hp with Permutation _ ?l => set (sortedResiduals := l) in * end.
    assert (Hin : In (nearest_rank 1 2 sortedResiduals) sortedResiduals).
    { apply nearest_rank_In; [| lia]. intros E. rewrite E in Hp.
      apply Permutation_sym, Permutation_nil in Hp.
      apply map_eq_nil in Hp. contradiction. }
    apply (Permutation_in _ (Permutation_sym Hp)) in Hin.
    apply in_map_iff in Hin. destruct Hin as (x & <- & Hx).
    apply Signs.abs_nonneg. apply Signs.sub_not_nan.
    + now apply sample_finite.
    + apply is_finite_not_nan. now apply sample_finite.
Qed.

Lemma getStats_moments :
  (Z.of_nat (length data) < 2 ^ 32)%Z ->
  PrimFloat.is_nan (mean st) = false /\ (0 <=? stdDev st)%float = true.
Proof.
  intros Hlen.
  pose proof (getStats_nonempty data nonempty) as St. fold st in St.
  assert (Hn : (0 < Z.of_nat (length data) < 2 ^ 32)%Z).
  { split; [| assumption]. destruct data; [congruence | simpl; lia]. }
  destruct (Signs.of_nat_finite _ Hn) as (mn & en & HN).
  assert (Hmean : PrimFloat.is_nan (mean st) = false).
  { rewrite (of_mean _ _ _ _ St).
    eapply Signs.div_not_nan; [| exact HN]. now apply Signs.sum_not_nan. }
  split; [assumption |].
  rewrite (of_stdDev _ _ _ _ St).
  apply Signs.sqrt_nonneg. eapply Signs.div_nonneg; [| exact HN].
  apply Signs.sum_nonneg. apply Forall_forall. intros r Hr.
  apply in_map_iff in Hr. destruct Hr as (x & <- & Hx).
  apply Signs.square_nonneg. apply Signs.sub_not_nan; [| assumption].
  now apply sample_finite.
Qed.

End FiniteSample.

(** On a sample of finite numbers (of an array's length) the quartiles
    are elements of the sample with q1 <= median <= q3; iqr, stdDev and
    mad are not negative, and no statistic is NaN: overflow can make the
    mean or stdDev infinite, nothing makes them NaN. *)
Theorem getStats_finite_sample (data : list float) :
  data <> [] ->
  Forall (fun x => PrimFloat.is_finite x = true) data ->
  (Z.of_nat (length data) < 2 ^ 32)%Z ->
  let st := getStats data in
  In (q1 st) data /\ In (median st) data /\ In (q3 st) data
  /\ (q1 st <=? median st)%float = true
  /\ (median st <=? q3 st)%float = true
  /\ (0 <=? iqr st)%float = true
  /\ PrimFloat.is_nan (mean st) = false
  /\ (0 <=? stdDev st)%float = true
  /\ (0 <=? mad st)%float = true.
Proof.
  intros Hne Hfin Hlen st.
  destruct (getStats_quartiles data Hne Hfin)
    as (H1 & H2 & H3 & H4 & H5 & H6 & H7).
  destruct (getStats_moments data Hne Hfin Hlen) as [H8 H9].
  repeat (split; [assumption |]). assumption.
Qed.

Lemma getStats_finite_sample_witness :
  let data := [10; 12; 11; 13; 12; 100]%float in
  let st := getStats data in
  q1 st = 11%float /\ median st = 12%float /\ q3 st = 13%float
  /\ (0 <=? stdDev st)%float = true /\ (0 <=? mad st)%float = true.
Proof.
  intros data st.
  destruct (getStats_finite_sample data ltac:(discriminate)
              ltac:(repeat constructor) ltac:(simpl; lia))
    as (_ & _ & _ & _ & _ & _ & _ & Hsd & Hmad).
  repeat split; assumption.
Defined.

(** ** The IQR fences *)

Lemma filter_keeps_out {A : Type} (p : A -> bool) (l : list A) (a : A) :
  In a l -> p a = false -> (length (filter p l) < length l)%nat.
Proof.
  induction l as [| b l IH]; intros Hin Hp; [destruct Hin |].
  simpl. pose proof (filter_length_le p l) as Hle.
  destruct Hin as [-> | Hin].
  - rewrite Hp. lia.
  - specialize (IH Hin Hp). destruct (p b); simpl; lia.
Qed.

Lemma values_of_finite (columnData : Column) :
  columnData <> [] ->
  Forall (fun d => PrimFloat.is_finite (value d) = true) columnData ->
  values_of columnData <> []
  /\ Forall (fun x => PrimFloat.is_finite x = true) (values_of columnData).
Proof.
  intros Hne Hfin. split.
  - destruct columnData; [congruence | discriminate].
  - apply Forall_forall. intros x Hx. apply in_map_iff in Hx.
    destruct Hx as (d & <- & Hd). rewrite Forall_forall in Hfin. auto.
Qed.

(** The fences lie outside the quartiles, so what lies between the
    quartiles lies between the fences. *)
Lemma fences_enclose (columnData : Column) :
  columnData <> [] ->
  Forall (fun d => PrimFloat.is_finite (value d) = true) columnData ->
  let st := getStats (values_of columnData) in
  let lowerBound := (q1 st - 1.5 * iqr st)%float in
  let upperBound := (q3 st + 1.5 * iqr st)%float in
  (lowerBound <=? q1 st)%float = true
  /\ (q1 st <=? q3 st)%float = true
  /\ (q3 st <=? upperBound)%float = true
  /\ (forall d, (q1 st <=? value d)%float = true ->
                (value d <=? q3 st)%float = true ->
                Js.lt (value d) lowerBound || Js.gt (value d) upperBound = false).
Proof.
  intros Hne Hfin st lowerBound upperBound.
  destruct (values_of_finite columnData Hne Hfin) as [Hne' Hfin'].
  destruct (getStats_quartiles _ Hne' Hfin')
    as (H1 & H2 & H3 & H12 & H23 & Hiqr & _).
  fold st in H1, H2, H3, H12, H23, Hiqr.
  rewrite Forall_forall in Hfin'.
  pose proof (Signs.scaled_nonneg _ Hiqr) as Hc.
  assert (Hlow : (lowerBound <=? q1 st)%float = true)
    by (apply Signs.sub_le; auto).
  assert (Hup : (q3 st <=? upperBound)%float = true)
    by (apply Signs.add_ge; auto).
  split; [assumption |].
  split; [eapply Binary64.leb_trans; eassumption |].
  split; [assumption |].
  intros d Hd1 Hd3. apply orb_false_iff. unfold Js.lt, Js.gt. split.
  - destruct (value d <? lowerBound)%float eqn:E; [| reflexivity].
    pose proof (Binary64.ltb_leb_trans _ _ _ E Hlow) as E1.
    pose proof (Binary64.ltb_leb_false _ _ E1). congruence.
  - destruct (upperBound <? value d)%float eqn:E; [| reflexivity].
    pose proof (Binary64.leb_ltb_trans _ _ _ Hup E) as E1.
    pose proof (Binary64.ltb_leb_false _ _ E1). congruence.
Qed.

(** On a column of finite values the fences of the IQR method enclose
    the quartiles, lowerBound <= q1 <= q3 <= upperBound, rounding and
    overflow included.  So no entry whose value lies between q1 and q3
    is flagged, and the method never flags the whole column: the entry
    at the median stays. *)
Theorem findOutliersIQR_fences (columnData : Column) :
  columnData <> [] ->
  Forall (fun d => PrimFloat.is_finite (value d) = true) columnData ->
  let st := getStats (values_of columnData) in
  let lowerBound := (q1 st - 1.5 * iqr st)%float in
  let upperBound := (q3 st + 1.5 * iqr st)%float in
  (lowerBound <=? q1 st)%float = true
  /\ (q1 st <=? q3 st)%float = true
  /\ (q3 st <=? upperBound)%float = true
  /\ (forall d, (q1 st <=? value d)%float = true ->
                (value d <=? q3 st)%float = true ->
                Js.lt (value d) lowerBound || Js.gt (value d) upperBound = false)
  /\ (length (findOutliersIQR columnData) < length columnData)%nat.
Proof.
  intros Hne Hfin st lowerBound upperBound.
  destruct (fences_enclose columnData Hne Hfin) as (Hlow & H13 & Hup & Hin).
  fold st in Hlow, H13, Hup, Hin. fold lowerBound in Hlow, Hin.
  fold upperBound in Hup, Hin.
  do 4 (split; [assumption |]).
  destruct (values_of_finite columnData Hne Hfin) as [Hne' Hfin'].
  destruct (getStats_quartiles _ Hne' Hfin')
    as (_ & H2 & _ & H12 & H23 & _).
  fold st in H2, H12, H23.
  unfold findOutliersIQR. cbv zeta. fold st. fold lowerBound. fold upperBound.
  rewrite length_map.
  apply in_map_iff in H2. destruct H2 as (d & Ed & Hd).
  apply (filter_keeps_out _ _ d Hd). apply Hin; rewrite Ed; assumption.
Qed.

(** With at most three values the quartiles are the least and the
    greatest value. *)
Lemma quartiles_of_three (data : list float) :
  data <> [] ->
  Forall (fun x => PrimFloat.is_finite x = true) data ->
  (length data <= 3)%nat ->
  forall x, In x data ->
    (q1 (getStats data) <=? x)%float = true
    /\ (x <=? q3 (getStats data))%float = true.
Proof.
  intros Hne Hfin Hlen x Hx.
  pose proof (getStats_nonempty data Hne) as St.
  destruct (sorted_ascending data Hfin) as (Hs & Hn & Hl).
  set (sorted := Js.sort numeric_order data) in *.
  assert (Hpos : (0 < length sorted)%nat).
  { rewrite Hl. destruct data; [congruence | simpl; lia]. }
  assert (Hxs : In x sorted)
    by (apply (Permutation_in _ (sort_perm numeric_order data)); assumption).
  rewrite (of_q1 _ _ _ _ St), (of_q3 _ _ _ _ St). unfold nearest_rank.
  assert (E1 : (length sorted * 1 / 4 = 0)%nat).
  { rewrite Hl. destruct data as [| a [| b [| c [| e l]]]];
      try reflexivity; simpl in Hlen; lia. }
  assert (E3 : (length sorted * 3 / 4 = length sorted - 1)%nat).
  { rewrite Hl. destruct data as [| a [| b [| c [| e l]]]];
      try reflexivity; simpl in Hlen; lia. }
  rewrite E1, E3.
  apply (ascending_ends (fun v => v) sorted _ _ Hs Hn); auto;
    apply nth_error_nth'; lia.
Qed.

(** On a column of at most three finite values the quartiles are the
    least and the greatest value, every value lies between them, and the
    IQR method flags nothing. *)
Theorem findOutliersIQR_three (columnData : Column) :
  Forall (fun d => PrimFloat.is_finite (value d) = true) columnData ->
  (length columnData <= 3)%nat ->
  findOutliersIQR columnData = [].
Proof.
  intros Hfin Hlen.
  destruct columnData as [| d0 rest] eqn:Ecol; [reflexivity |].
  rewrite <- Ecol in *.
  assert (Hne : columnData <> []) by (rewrite Ecol; discriminate).
  destruct (fences_enclose columnData Hne Hfin) as (_ & _ & _ & Hin).
  destruct (values_of_finite columnData Hne Hfin) as [Hne' Hfin'].
  unfold findOutliersIQR. cbv zeta.
  rewrite filter_none; [reflexivity |].
  intros d Hd.
  assert (Hv : In (value d) (values_of columnData)) by now apply in_map.
  destruct (quartiles_of_three (values_of columnData) Hne' Hfin'
              ltac:(unfold values_of; rewrite length_map; exact Hlen)
              (value d) Hv) as [Hlo Hhi].
  now apply Hin.
Qed.

Lemma findOutliersIQR_fences_witness :
  let columnData :=
    [mkEntry 10 0; mkEntry 12 1; mkEntry 11 2; mkEntry 13 3; mkEntry 12 4;
     mkEntry 100 5] in
  let st := getStats (values_of columnData) in
  ((q1 st - 1.5 * iqr st)%float = 8%float
   /\ (q3 st + 1.5 * iqr st)%float = 16%float)
  /\ (length (findOutliersIQR columnData) < length columnData)%nat.
Proof.
  intros columnData st. split; [split; reflexivity |].
  apply (findOutliersIQR_fences columnData).
  - discriminate.
  - repeat constructor.
Defined.

Lemma findOutliersIQR_three_witness :
  let columnData := [mkEntry 1 0; mkEntry 1000000 1; mkEntry 2 2] in
  findOutliersIQR columnData = []
  /\ q1 (getStats (values_of columnData)) = 1%float
  /\ q3 (getStats (values_of columnData)) = 1000000%float.
Proof.
  intros columnData.
  split; [| split; reflexivity].
  apply (findOutliersIQR_three columnData).
  - repeat constructor.
  - simpl. lia.
Defined.

(** ** Columns with a value that is not finite *)

Lemma not_finite_cases (x : float) :
  PrimFloat.is_finite x = false ->
  Prim2SF x = S754_nan \/ exists s, Prim2SF x = S754_infinity s.
Proof.
  unfold PrimFloat.is_finite, PrimFloat.is_nan, PrimFloat.is_infinity.
  rewrite !eqb_spec, abs_spec.
  change (Prim2SF infinity) with (S754_infinity false).
  destruct (Prim2SF x) as [s | s | | s m e]; simpl; eauto.
  - destruct s; discriminate.
  - unfold SFeqb, SFcompare.
    destruct (Z.compare_spec e e); try lia.
    + change (Pos.compare_cont Eq m m) with (Pos.compare m m).
      rewrite Pos.compare_refl. destruct s; discriminate.
Qed.

Lemma is_nan_true (x : float) :
  PrimFloat.is_nan x = true <-> Prim2SF x = S754_nan.
Proof.
  split.
  - intros H. destruct (Prim2SF x) eqn:E; try reflexivity;
      assert (N : PrimFloat.is_nan x = false)
        by (apply Binary64.is_nan_false; congruence); congruence.
  - intros H. destruct (PrimFloat.is_nan x) eqn:E; [reflexivity |].
    apply Binary64.is_nan_false in E. contradiction.
Qed.

(** A sum with a NaN term is NaN. *)
Lemma sum_with_nan (l : list float) (v : float) :
  In v l -> Prim2SF v = S754_nan -> Prim2SF (Js.sum l) = S754_nan.
Proof.
  unfold Js.sum. generalize 0%float.
  induction l as [| x l IH]; intros acc Hin Hv; [destruct Hin |].
  simpl. destruct Hin as [-> | Hin].
  - apply Rounding.fold_add_nan. rewrite add_spec, Hv.
    now destruct (Prim2SF acc).
  - now apply IH.
Qed.

(** A sum with an infinite term is NaN or that infinity. *)
Lemma sum_with_infinity (l : list float) (v : float) (s : bool) :
  In v l -> Prim2SF v = S754_infinity s ->
  Prim2SF (Js.sum l) = S754_nan \/ Prim2SF (Js.sum l) = S754_infinity s.
Proof.
  unfold Js.sum.
  assert (Hkeep : forall l acc,
            Prim2SF acc = S754_nan \/ Prim2SF acc = S754_infinity s ->
            Prim2SF (fold_left PrimFloat.add l acc) = S754_nan
            \/ Prim2SF (fold_left PrimFloat.add l acc) = S754_infinity s).
  { clear. induction l as [| x l IH]; intros acc Hacc; [exact Hacc |].
    simpl. apply IH. rewrite add_spec.
    destruct Hacc as [-> | ->]; [now left |].
    destruct (Prim2SF x) as [sx | sx | | sx mx ex]; auto.
    destruct s, sx; auto. }
  generalize 0%float.
  induction l as [| x l IH]; intros acc Hin Hv; [destruct Hin |].
  simpl. destruct Hin as [-> | Hin]; [| now apply IH].
  apply Hkeep. rewrite add_spec, Hv.
  destruct (Prim2SF acc) as [sa | sa | | sa ma ea]; auto.
  destruct sa, s; auto.
Qed.

(** The standard deviation of a sample with a value that is not finite
    is NaN. *)
Lemma stdDev_not_finite (data : list float) (v : float) :
  In v data -> PrimFloat.is_finite v = false ->
  (Z.of_nat (length data) < 2 ^ 32)%Z ->
  Prim2SF (stdDev (getStats data)) = S754_nan.
Proof.
  intros Hin Hv Hlen.
  assert (Hne : data <> []) by (intros ->; destruct Hin).
  pose proof (getStats_nonempty data Hne) as St.
  set (st := getStats data) in *.
  assert (Hn : (0 < Z.of_nat (length data) < 2 ^ 32)%Z).
  { split; [| assumption]. destruct data; [congruence | simpl; lia]. }
  destruct (Signs.of_nat_finite _ Hn) as (mn & en & HN).
  assert (Hd : Prim2SF (v - mean st) = S754_nan).
  { rewrite sub_spec, (of_mean _ _ _ _ St), div_spec, HN.
    destruct (not_finite_cases v Hv) as [E | [s E]].
    - now rewrite E.
    - rewrite E.
      destruct (sum_with_infinity data v s Hin E) as [-> | ->];
        [reflexivity |].
      destruct s; reflexivity. }
  rewrite (of_stdDev _ _ _ _ St), sqrt_spec, div_spec.
  rewrite (sum_with_nan _ ((v - mean st) * (v - mean st))%float).
  - reflexivity.
  - apply in_map_iff. exists v. split; [reflexivity | assumption].
  - now rewrite mul_spec, Hd.
Qed.

Lemma gt_nan (x t : float) : Prim2SF x = S754_nan -> Js.gt x t = false.
Proof.
  intros H. unfold Js.gt. rewrite ltb_spec, H.
  now destruct (Prim2SF t).
Qed.

Lemma div_by_nan (a s : float) :
  Prim2SF s = S754_nan -> Prim2SF (a / s) = S754_nan.
Proof. intros H. rewrite div_spec, H. now destruct (Prim2SF a). Qed.

Lemma deviation_nan (mean stdDev : float) (d : ColumnEntry) :
  Prim2SF stdDev = S754_nan -> Prim2SF (deviation mean stdDev d) = S754_nan.
Proof. intros H. unfold deviation. now apply div_by_nan. Qed.

(** A value that is not finite -- NaN, or an infinity, which the parser
    lets through -- makes stdDev NaN, and then the Z-score method,
    Grubbs' test and the ESD test flag nothing, the value itself
    included, whatever the threshold and the bound. *)
Theorem non_finite_value_silences
  (columnData : Column) (threshold : float) (maxOutliers : Z) :
  (exists d, In d columnData /\ PrimFloat.is_finite (value d) = false) ->
  (Z.of_nat (length columnData) < 2 ^ 32)%Z ->
  PrimFloat.is_nan (stdDev (getStats (values_of columnData))) = true
  /\ findOutliersZScore columnData threshold = []
  /\ findOutliersGrubbs columnData = []
  /\ findOutliersESD_with columnData maxOutliers = [].
Proof.
  intros (d0 & Hd0 & Hv) Hlen.
  assert (Hsd : Prim2SF (stdDev (getStats (values_of columnData))) = S754_nan).
  { apply (stdDev_not_finite _ (value d0)); auto.
    - now apply in_map.
    - unfold values_of. now rewrite length_map. }
  set (st := getStats (values_of columnData)) in *.
  assert (H0 : Js.strict_eq (stdDev st) 0 = false).
  { unfold Js.strict_eq. now rewrite eqb_spec, Hsd. }
  split; [now apply is_nan_true |]. split; [| split].
  - unfold findOutliersZScore. cbv zeta. fold st. rewrite H0.
    rewrite filter_none; [reflexivity |]. intros d _.
    apply gt_nan. rewrite abs_spec, div_by_nan; auto.
  - unfold findOutliersGrubbs. cbv zeta. fold st. rewrite H0.
    destruct (length (values_of columnData) <? 3)%nat; [reflexivity |].
    assert (Hfold : forall l acc,
              fold_left (grubbs_step (mean st) (stdDev st)) l acc = acc).
    { induction l as [| d l IH]; intros acc; [reflexivity |].
      simpl. rewrite grubbs_step_eq, gt_nan, IH; auto.
      now apply deviation_nan. }
    rewrite Hfold. reflexivity.
  - unfold findOutliersESD_with.
    destruct (length columnData <? 5)%nat; [reflexivity |].
    destruct (Z.to_nat maxOutliers) as [| rounds]; [reflexivity |].
    cbn [esd_loop]. fold st. rewrite H0.
    destruct (length columnData <? 3)%nat; [reflexivity |].
    destruct (esd_scan_spec (mean st) (stdDev st) columnData)
      as (_ & _ & [-> | (l1 & d & l2 & _ & -> & _)]); [reflexivity |].
    cbn [maxDeviation]. rewrite gt_nan; [reflexivity |].
    now apply deviation_nan.
Qed.

Lemma non_finite_value_silences_witness :
  let columnData :=
    [mkEntry 1 0; mkEntry 2 1; mkEntry infinity 2; mkEntry 3 3; mkEntry 2 4;
     mkEntry 1 5; mkEntry 2 6; mkEntry 3 7; mkEntry 2 8; mkEntry 1 9] in
  PrimFloat.is_finite infinity = false
  /\ findOutliersZScore columnData 3.0 = []
  /\ findOutliersGrubbs columnData = []
  /\ findOutliersESD columnData = [].
Proof.
  intros columnData. split; [reflexivity |].
  destruct (non_finite_value_silences columnData 3.0
              (esd_default_maxOutliers columnData))
    as (_ & HZ & HG & HE).
  - exists (mkEntry infinity 2). split; [simpl; tauto | reflexivity].
  - simpl. lia.
  - repeat split; assumption.
Defined.

(** ** Ingestion *)

Lemma positions_nth {A : Type} (l : list A) (i : nat) (a : A) :
  In (i, a) (positions l) <-> nth_error l i = Some a.
Proof.
  unfold positions.
  assert (G : forall (l : list A) k i a,
            In (i, a) (combine (seq k (length l)) l)
            <-> (k <= i)%nat /\ nth_error l (i - k) = Some a).
  { clear. induction l as [| x l IH]; intros k i a; simpl.
    - split; [intros [] | intros [_ H]]. now destruct (i - k)%nat.
    - rewrite IH. split.
      + intros [[= <- <-] | [Hk Hn]].
        * split; [lia |]. now rewrite Nat.sub_diag.
        * split; [lia |]. replace (i - k)%nat with (S (i - S k)) by lia.
          exact Hn.
      + intros [Hk Hn]. destruct (i - k)%nat as [| j] eqn:E.
        * left. injection Hn as ->. f_equal. lia.
        * right. split; [lia |]. replace (i - S k)%nat with j by lia.
          exact Hn. }
  rewrite G, Nat.sub_0_r. split; [now intros [_ H] | intros H; split; [lia | exact H]].
Qed.

Lemma positions_fst {A : Type} (l : list A) :
  map fst (positions l) = seq 0 (length l).
Proof.
  unfold positions. generalize 0%nat.
  induction l as [| x l IH]; intros k; simpl; [reflexivity |].
  now rewrite IH.
Qed.

Lemma positions_length {A : Type} (l : list A) :
  length (positions l) = length l.
Proof. rewrite <- (length_map fst), positions_fst. apply length_seq. Qed.

Section ParserFacts.
Context {Cell : Type}.
Variable String_of : Cell -> string.
Variable parseFloat : string -> float.

Let numeric := numeric_cells String_of parseFloat.

(** A row is kept when it has as many numeric cells as there are
    headers. *)
Let kept (headers : list string) (ir : nat * list Cell) : bool :=
  (length (numeric (snd ir)) =? length headers)%nat.

Let point (ir : nat * list Cell) : DataPoint :=
  mkPoint (Z.of_nat (fst ir)) (numeric (snd ir)).

Lemma parse_rows_points (headers : list string) (l : list (nat * list Cell)) :
  non_null (map snd (map (fun ir => parse_row String_of parseFloat headers
                                      (fst ir) (snd ir)) l))
  = map point (filter (kept headers) l).
Proof.
  induction l as [| ir l IH]; [reflexivity |].
  cbn [map filter]. unfold non_null in *. cbn [flat_map]. rewrite IH.
  unfold parse_row, kept. fold numeric.
  destruct (length (numeric (snd ir)) =? length headers)%nat; reflexivity.
Qed.

Lemma parse_rows_warnings (headers : list string) (l : list (nat * list Cell)) :
  flat_map fst (map (fun ir => parse_row String_of parseFloat headers
                                 (fst ir) (snd ir)) l)
  = map (fun ir => row_warning (fst ir))
        (filter (fun ir => negb (kept headers ir)) l).
Proof.
  induction l as [| ir l IH]; [reflexivity |].
  cbn [map filter flat_map]. rewrite IH.
  unfold parse_row, kept. fold numeric.
  destruct (length (numeric (snd ir)) =? length headers)%nat; reflexivity.
Qed.

Lemma numeric_cells_no_nan (row : list Cell) :
  Forall (fun v => PrimFloat.is_nan v = false) (numeric row).
Proof.
  apply Forall_forall. intros v Hv. unfold numeric, numeric_cells in Hv.
  apply filter_In in Hv. destruct Hv as [_ Hv]. now apply negb_true_iff.
Qed.

Lemma filter_seq_sorted (p : nat -> bool) (k n : nat) :
  StronglySorted lt (filter p (seq k n)).
Proof.
  revert k. induction n as [| n IH]; intros k; simpl; [constructor |].
  destruct (p k).
  - constructor; [apply IH |]. apply Forall_forall. intros j Hj.
    apply filter_In in Hj. destruct Hj as [Hj _]. apply in_seq in Hj. lia.
  - apply IH.
Qed.

Lemma kept_positions_sorted (headers : list string) (rows : list (list Cell)) :
  StronglySorted lt (map fst (filter (kept headers) (positions rows))).
Proof.
  unfold positions. generalize 0%nat.
  induction rows as [| r rows IH]; intros k; simpl; [constructor |].
  destruct (kept headers (k, r)); [| apply IH].
  cbn [map fst]. constructor; [apply IH |].
  apply Forall_forall. intros j Hj. apply in_map_iff in Hj.
  destruct Hj as ([j' r'] & <- & Hj). apply filter_In in Hj.
  destruct Hj as [Hj _]. apply in_combine_l in Hj. apply in_seq in Hj.
  simpl. lia.
Qed.

(** What [parseData] does once the sheet has its two rows. *)
Lemma parseData_unfold (json : list (list Cell)) :
  (2 <= length json)%nat ->
  let headers := map String_of (hd [] json) in
  let keptRows := filter (kept headers) (positions (tl json)) in
  parseData String_of parseFloat json
  = (map (fun ir => row_warning (fst ir))
         (filter (fun ir => negb (kept headers ir)) (positions (tl json))),
     match map point keptRows with
     | [] =>
       Rejected "No valid numeric data found in the file. Please ensure columns are numeric."
     | first :: _ =>
       let dimensions := length (dp_values first) in
       if (dimensions =? 0)%nat || (3 <? dimensions)%nat
       then Rejected ("Unsupported number of dimensions: "
                      ++ string_of_Z (Z.of_nat dimensions)
                      ++ ". Only 1D, 2D, and 3D data are supported.")
       else Resolved (mkDataSet (map point keptRows) headers dimensions)
     end).
Proof.
  intros Hlen headers keptRows. unfold parseData.
  destruct (length json <? 2)%nat eqn:E; [apply Nat.ltb_lt in E; lia |].
  cbv zeta. fold headers. rewrite parse_rows_points, parse_rows_warnings.
  reflexivity.
Qed.

Lemma kept_first_dimension (headers : list string) l first rest :
  map point (filter (kept headers) l) = first :: rest ->
  length (dp_values first) = length headers.
Proof.
  intros H.
  assert (Hin : In first (map point (filter (kept headers) l)))
    by (rewrite H; now left).
  apply in_map_iff in Hin. destruct Hin as (ir & <- & Hir).
  apply filter_In in Hir. destruct Hir as [_ Hk].
  unfold kept in Hk. apply Nat.eqb_eq in Hk. exact Hk.
Qed.

Lemma kept_exists (headers : list string) (rows : list (list Cell)) :
  filter (kept headers) (positions rows) <> []
  <-> exists row, In row rows /\ length (numeric row) = length headers.
Proof.
  split.
  - intros H. destruct (filter _ _) as [| [i row] l] eqn:E; [congruence |].
    assert (Hin : In (i, row) (filter (kept headers) (positions rows)))
      by (rewrite E; now left).
    apply filter_In in Hin. destruct Hin as [Hin Hk].
    apply positions_nth in Hin. apply nth_error_In in Hin.
    exists row. split; [assumption |]. now apply Nat.eqb_eq in Hk.
  - intros (row & Hin & Hfit) E.
    apply In_nth_error in Hin. destruct Hin as [i Hi].
    apply positions_nth in Hi.
    assert (Hin : In (i, row) (filter (kept headers) (positions rows))).
    { apply filter_In. split; [assumption |]. now apply Nat.eqb_eq. }
    rewrite E in Hin. destruct Hin.
Qed.

Lemma parseData_shape (json : list (list Cell)) (ds : DataSet) :
  snd (parseData String_of parseFloat json) = Resolved ds ->
  headers ds = map String_of (hd [] json)
  /\ length (headers ds) = dimensions ds.
Proof.
  intros H.
  destruct (Nat.ltb_spec (length json) 2) as [Hlt | Hge].
  { unfold parseData in H. apply Nat.ltb_lt in Hlt. rewrite Hlt in H.
    discriminate. }
  rewrite (parseData_unfold json Hge) in H. cbv zeta in H. cbn [snd] in H.
  destruct (map point _) as [| first rest] eqn:E; [discriminate |].
  pose proof (kept_first_dimension _ _ _ _ E) as Hdim.
  destruct (_ || _); [discriminate |].
  injection H as <-. cbn [headers dimensions]. split; [reflexivity | lia].
Qed.

(** A sheet that [parseData] resolves gives a data set of the shape the
    orchestrator relies on: indices are unique (they increase), every
    point has one coordinate per dimension, there are one to three
    dimensions and as many headers, there is at least one point, and no
    coordinate is NaN. *)
Theorem parseData_resolved_well_formed (json : list (list Cell)) (ds : DataSet) :
  snd (parseData String_of parseFloat json) = Resolved ds ->
  well_formed ds
  /\ data ds <> []
  /\ (1 <= dimensions ds <= 3)%nat
  /\ headers ds = map String_of (hd [] json)
  /\ length (headers ds) = dimensions ds
  /\ Forall (fun dp => Forall (fun v => PrimFloat.is_nan v = false)
                              (dp_values dp)) (data ds)
  /\ StronglySorted Z.lt (map dp_index (data ds)).
Proof.
  intros H.
  destruct (Nat.ltb_spec (length json) 2) as [Hlt | Hge].
  { unfold parseData in H. apply Nat.ltb_lt in Hlt. rewrite Hlt in H.
    discriminate. }
  rewrite (parseData_unfold json Hge) in H. cbv zeta in H. cbn [snd] in H.
  set (hs := map String_of (hd [] json)) in *.
  set (keptRows := filter (kept hs) (positions (tl json))) in *.
  destruct (map point keptRows) as [| first rest] eqn:E; [discriminate |].
  pose proof (kept_first_dimension hs _ _ _ E) as Hdim.
  destruct ((length (dp_values first) =? 0)%nat
            || (3 <? length (dp_values first))%nat) eqn:Hd; [discriminate |].
  apply orb_false_iff in Hd. destruct Hd as [H0 H3].
  apply Nat.eqb_neq in H0. apply Nat.ltb_ge in H3.
  injection H as <-. cbn [data headers dimensions]. rewrite <- E.
  assert (Hidx : map dp_index (map point keptRows)
                 = map Z.of_nat (map fst keptRows)).
  { rewrite !map_map. reflexivity. }
  assert (Hsorted : StronglySorted Z.lt (map dp_index (map point keptRows))).
  { rewrite Hidx. pose proof (kept_positions_sorted hs (tl json)) as Hs.
    fold keptRows in Hs. clear - Hs.
    induction Hs as [| a l _ IH Ha]; simpl; constructor; [assumption |].
    rewrite Forall_forall in *. intros z Hz. apply in_map_iff in Hz.
    destruct Hz as (b & <- & Hb). apply Nat2Z.inj_lt. now apply Ha. }
  split; [split |].
  - cbn [data]. clear - Hsorted.
    induction Hsorted as [| a l _ IH Ha]; constructor; [| assumption].
    intros Hin. rewrite Forall_forall in Ha. specialize (Ha a Hin). lia.
  - cbn [data dimensions]. apply Forall_forall. intros dp Hdp.
    apply in_map_iff in Hdp. destruct Hdp as (ir & <- & Hir).
    apply filter_In in Hir. destruct Hir as [_ Hk].
    apply Nat.eqb_eq in Hk. cbn [dp_values point]. lia.
  - split; [rewrite E; discriminate |].
    split; [lia |]. split; [reflexivity |]. split; [lia |].
    split; [| assumption].
    apply Forall_forall. intros dp Hdp.
    apply in_map_iff in Hdp. destruct Hdp as (ir & <- & Hir).
    apply numeric_cells_no_nan.
Qed.

(** The points of a resolved data set are the data rows with as many
    numeric cells as the header row has cells: each keeps the position
    of its row among the data rows as its index, whichever rows were
    skipped before it, and carries the numeric cells of the row in
    order.  Every data row is either kept or warned about. *)
Theorem parseData_rows_kept (json : list (list Cell)) (ds : DataSet) :
  snd (parseData String_of parseFloat json) = Resolved ds ->
  (forall dp, In dp (data ds) <->
     exists i row,
       nth_error (tl json) i = Some row
       /\ length (numeric_cells String_of parseFloat row) = length (hd [] json)
       /\ dp = mkPoint (Z.of_nat i) (numeric_cells String_of parseFloat row))
  /\ (length (fst (parseData String_of parseFloat json)) + length (data ds)
      = length (tl json))%nat.
Proof.
  intros H.
  destruct (Nat.ltb_spec (length json) 2) as [Hlt | Hge].
  { unfold parseData in H. apply Nat.ltb_lt in Hlt. rewrite Hlt in H.
    discriminate. }
  rewrite (parseData_unfold json Hge) in *. cbv zeta in *. cbn [fst snd] in *.
  set (hs := map String_of (hd [] json)) in *.
  set (keptRows := filter (kept hs) (positions (tl json))) in *.
  destruct (map point keptRows) as [| first rest] eqn:E; [discriminate |].
  destruct ((length (dp_values first) =? 0)%nat
            || (3 <? length (dp_values first))%nat); [discriminate |].
  injection H as <-. cbn [data]. rewrite <- E. split.
  - intros dp. split.
    + intros Hdp. apply in_map_iff in Hdp. destruct Hdp as ([i row] & <- & Hir).
      apply filter_In in Hir. destruct Hir as [Hin Hk].
      apply positions_nth in Hin. apply Nat.eqb_eq in Hk.
      unfold hs in Hk. rewrite length_map in Hk.
      exists i, row. repeat split; assumption.
    + intros (i & row & Hn & Hfit & ->).
      apply in_map_iff. exists (i, row). split; [reflexivity |].
      apply filter_In. split; [now apply positions_nth |].
      apply Nat.eqb_eq. unfold hs. now rewrite length_map.
  - rewrite !length_map. unfold keptRows.
    rewrite <- (positions_length (tl json)).
    generalize (positions (tl json)). intros l.
    induction l as [| ir l IH]; [reflexivity |].
    cbn [filter]. destruct (kept hs ir); cbn [negb length]; lia.
Qed.

(** When [parseData] rejects a sheet and when it resolves one.  With [h]
    the number of cells of the header row: fewer than two rows are
    rejected first; then a sheet none of whose data rows has exactly [h]
    numeric cells; then a sheet with no header cell or more than three;
    every other sheet is resolved. *)
Theorem parseData_outcome (json : list (list Cell)) :
  ((length json < 2)%nat ->
     parseData String_of parseFloat json
     = ([], Rejected "Dataset must have a header row and at least one data row."))
  /\ ((2 <= length json)%nat ->
      (forall row, In row (tl json) ->
         length (numeric_cells String_of parseFloat row) <> length (hd [] json)) ->
      snd (parseData String_of parseFloat json)
      = Rejected "No valid numeric data found in the file. Please ensure columns are numeric.")
  /\ ((2 <= length json)%nat ->
      (exists row, In row (tl json)
         /\ length (numeric_cells String_of parseFloat row) = length (hd [] json)) ->
      (length (hd [] json) = 0 \/ 3 < length (hd [] json))%nat ->
      snd (parseData String_of parseFloat json)
      = Rejected ("Unsupported number of dimensions: "
                  ++ string_of_Z (Z.of_nat (length (hd [] json)))
                  ++ ". Only 1D, 2D, and 3D data are supported."))
  /\ ((exists ds, snd (parseData String_of parseFloat json) = Resolved ds)
      <-> (2 <= length json)%nat
          /\ (1 <= length (hd [] json) <= 3)%nat
          /\ exists row, In row (tl json)
               /\ length (numeric_cells String_of parseFloat row)
                  = length (hd [] json)).
Proof.
  assert (Hh : length (map String_of (hd [] json)) = length (hd [] json))
    by apply length_map.
  split; [| split; [| split]].
  - intros Hlt. unfold parseData. apply Nat.ltb_lt in Hlt. now rewrite Hlt.
  - intros Hge Hnone. rewrite (parseData_unfold json Hge). cbv zeta. cbn [snd].
    destruct (filter _ _) eqn:E; [reflexivity |]. exfalso.
    assert (Hne : filter (kept (map String_of (hd [] json))) (positions (tl json))
                  <> []) by (rewrite E; discriminate).
    apply kept_exists in Hne. destruct Hne as (row & Hin & Hfit).
    apply (Hnone row Hin). fold numeric. lia.
  - intros Hge Hsome Hdim. rewrite (parseData_unfold json Hge). cbv zeta.
    cbn [snd].
    destruct (map point _) as [| first rest] eqn:E.
    + exfalso. apply map_eq_nil in E. revert E. apply kept_exists.
      destruct Hsome as (row & Hin & Hfit). exists row. fold numeric in Hfit.
      split; [assumption | lia].
    + rewrite (kept_first_dimension _ _ _ _ E), Hh.
      destruct ((length (hd [] json) =? 0)%nat || (3 <? length (hd [] json))%nat)
        eqn:Hd; [reflexivity |].
      apply orb_false_iff in Hd. destruct Hd as [H0 H3].
      apply Nat.eqb_neq in H0. apply Nat.ltb_ge in H3. lia.
  - split.
    + intros [ds H].
      destruct (Nat.ltb_spec (length json) 2) as [Hlt | Hge].
      { unfold parseData in H. apply Nat.ltb_lt in Hlt. rewrite Hlt in H.
        discriminate. }
      rewrite (parseData_unfold json Hge) in H. cbv zeta in H. cbn [snd] in H.
      destruct (map point _) as [| first rest] eqn:E; [discriminate |].
      rewrite (kept_first_dimension _ _ _ _ E), Hh in H.
      destruct ((length (hd [] json) =? 0)%nat || (3 <? length (hd [] json))%nat)
        eqn:Hd; [discriminate |].
      apply orb_false_iff in Hd. destruct Hd as [H0 H3].
      apply Nat.eqb_neq in H0. apply Nat.ltb_ge in H3.
      split; [assumption |]. split; [lia |].
      assert (Hne : filter (kept (map String_of (hd [] json)))
                      (positions (tl json)) <> []).
      { intros E0. rewrite E0 in E. discriminate. }
      apply kept_exists in Hne. destruct Hne as (row & Hin & Hfit).
      exists row. split; [assumption |]. fold numeric. lia.
    + intros (Hge & Hdim & row & Hin & Hfit).
      rewrite (parseData_unfold json Hge). cbv zeta. cbn [snd].
      destruct (map point _) as [| first rest] eqn:E.
      * exfalso. apply map_eq_nil in E. revert E. apply kept_exists.
        exists row. fold numeric in Hfit. split; [assumption | lia].
      * rewrite (kept_first_dimension _ _ _ _ E), Hh.
        destruct ((length (hd [] json) =? 0)%nat
                  || (3 <? length (hd [] json))%nat) eqn:Hd.
        -- apply orb_true_iff in Hd. destruct Hd as [H0 | H3];
             [apply Nat.eqb_eq in H0 | apply Nat.ltb_lt in H3]; lia.
        -- eexists. reflexivity.
Qed.

End ParserFacts.

Lemma parseData_resolved_well_formed_witness :
  exists ds,
    snd (parseData (fun s => s) parseFloat_example sheet_example) = Resolved ds
    /\ well_formed ds /\ dimensions ds = 2%nat
    /\ map dp_index (data ds) = [0%Z; 2%Z].
Proof.
  eexists. split; [vm_compute; reflexivity |].
  split; [| split; reflexivity].
  apply (parseData_resolved_well_formed (fun s => s) parseFloat_example
           sheet_example _ eq_refl).
Defined.

Lemma parseData_rows_kept_witness :
  exists ds,
    snd (parseData (fun s => s) parseFloat_example sheet_example) = Resolved ds
    /\ In (mkPoint 2 [7; 8]%float) (data ds)
    /\ (length (fst (parseData (fun s => s) parseFloat_example sheet_example))
        + length (data ds) = 3)%nat.
Proof.
  eexists. split; [vm_compute; reflexivity |].
  destruct (parseData_rows_kept (fun s => s) parseFloat_example
              sheet_example _ eq_refl) as [H1 H2].
  split; [| exact H2].
  apply H1. exists 2%nat, ["7"; "b"; "8"]%string.
  repeat split.
Defined.

(** ** Plot markers *)

Lemma allOutliers_flat (analysisResults : list AnalysisResult) :
  allOutliers analysisResults
  = fold_left note_outlier (flat_map outliers analysisResults) [].
Proof.
  unfold allOutliers. generalize (@nil (Z * OutlierRecord)).
  induction analysisResults as [| r l IH]; intros acc; simpl; [reflexivity |].
  now rewrite IH, fold_left_app.
Qed.

Lemma Marker_has_keys (m : MarkerMap) (idx : Z) :
  Marker_has m idx = existsb (Z.eqb idx) (map fst m).
Proof.
  unfold Marker_has. induction m as [| kv m IH]; simpl; [reflexivity |].
  now rewrite IH, Z.eqb_sym.
Qed.

Lemma Marker_has_In (m : MarkerMap) (idx : Z) :
  Marker_has m idx = true <-> In idx (map fst m).
Proof.
  rewrite Marker_has_keys, existsb_exists. split.
  - intros (y & Hy & E). apply Z.eqb_eq in E. now subst.
  - intros H. exists idx. split; [assumption | apply Z.eqb_refl].
Qed.

Lemma note_outlier_keys (l : list OutlierRecord) : forall acc,
  map fst (fold_left note_outlier l acc)
  = fold_left set_add (map o_index l) (map fst acc).
Proof.
  induction l as [| x l IH]; intros acc; simpl; [reflexivity |].
  rewrite IH. f_equal. unfold note_outlier, set_add.
  rewrite Marker_has_keys.
  destruct (existsb _ _); [reflexivity |]. now rewrite map_app.
Qed.

Lemma note_outlier_entries (l : list OutlierRecord) : forall acc idx o,
  In (idx, o) (fold_left note_outlier l acc)
  <-> In (idx, o) acc
      \/ (~ In idx (map fst acc)
          /\ find (fun r => (o_index r =? idx)%Z) l = Some o).
Proof.
  induction l as [| x l IH]; intros acc idx o; simpl.
  - split; [auto | intros [H | [_ H]]; [assumption | discriminate]].
  - rewrite IH. unfold note_outlier.
    destruct (Marker_has acc (o_index x)) eqn:Hhas.
    + apply Marker_has_In in Hhas.
      destruct (o_index x =? idx)%Z eqn:E; [| reflexivity].
      apply Z.eqb_eq in E. subst idx. tauto.
    + assert (Hx : ~ In (o_index x) (map fst acc)).
      { intros H. apply Marker_has_In in H. congruence. }
      rewrite map_app, !in_app_iff. simpl.
      destruct (o_index x =? idx)%Z eqn:E.
      * apply Z.eqb_eq in E. subst idx. split.
        -- intros [[H | [[= <-] | []]] | [H _]]; auto. tauto.
        -- intros [H | [_ [= <-]]]; auto.
      * apply Z.eqb_neq in E. split.
        -- intros [[H | [[= E' _] | []]] | [H1 H2]]; auto; [congruence |].
           right. split; [tauto | assumption].
        -- intros [H | [H1 H2]]; auto. right. split; [| assumption].
           intros [H | [H | []]]; auto.
Qed.

Lemma allOutliers_keys (analysisResults : list AnalysisResult) :
  map fst (allOutliers analysisResults)
  = Set_of (map o_index (flat_map outliers analysisResults)).
Proof. rewrite allOutliers_flat. apply note_outlier_keys. Qed.

(** The plot has one marker for each row index that occurs in the
    report: the indices in the order of their first occurrence, each
    with the first record that bears it (the earliest method of the
    catalog, and its earliest column, that flag the row). *)
Theorem allOutliers_first_records (analysisResults : list AnalysisResult) :
  let records := flat_map outliers analysisResults in
  map fst (allOutliers analysisResults) = Set_of (map o_index records)
  /\ NoDup (map fst (allOutliers analysisResults))
  /\ uniqueOutlierIndices analysisResults = map fst (allOutliers analysisResults)
  /\ forall idx o,
       In (idx, o) (allOutliers analysisResults)
       <-> find (fun r => (o_index r =? idx)%Z) records = Some o.
Proof.
  intros records.
  pose proof (allOutliers_keys analysisResults) as Hkeys. fold records in Hkeys.
  assert (Hnd : NoDup (map fst (allOutliers analysisResults))).
  { rewrite Hkeys. apply Set_of_spec. }
  split; [assumption |]. split; [assumption |]. split.
  - unfold uniqueOutlierIndices. now apply Set_of_NoDup.
  - intros idx o. rewrite allOutliers_flat, note_outlier_entries. simpl.
    tauto.
Qed.

Lemma report_records (ds : DataSet) (r : OutlierRecord) :
  In r (flat_map outliers (runAllAnalyses ds))
  <-> exists m i dp,
        In m methods /\ (i < dimensions ds)%nat
        /\ point_of ds (dp_index dp) = Some dp
        /\ flags m ds (dp_index dp) i = true /\ r = record_of dp i.
Proof.
  unfold runAllAnalyses. rewrite in_flat_map. split.
  - intros (res & Hres & Hr). apply in_map_iff in Hres.
    destruct Hres as (m & <- & Hm). rewrite run_method_outliers in Hr.
    apply in_flat_map in Hr. destruct Hr as (i & Hi & Hr).
    apply in_seq in Hi. apply column_records_spec in Hr.
    destruct Hr as (dp & Hp & Hf & ->). exists m, i, dp. repeat split; auto.
    lia.
  - intros (m & i & dp & Hm & Hi & Hp & Hf & ->).
    exists (run_method ds m). split; [now apply in_map |].
    rewrite run_method_outliers. apply in_flat_map. exists i.
    split; [apply in_seq; lia |]. apply column_records_spec. eauto.
Qed.

Lemma marker_keys (ds : DataSet) (idx : Z) :
  In idx (map fst (allOutliers (runAllAnalyses ds)))
  <-> exists m i dp,
        In m methods /\ (i < dimensions ds)%nat
        /\ point_of ds idx = Some dp /\ flags m ds idx i = true.
Proof.
  rewrite allOutliers_keys, (proj2 (Set_of_spec _)), in_map_iff. split.
  - intros (r & <- & Hr). apply report_records in Hr.
    destruct Hr as (m & i & dp & Hm & Hi & Hp & Hf & ->). cbn [record_of o_index].
    exists m, i, dp. auto.
  - intros (m & i & dp & Hm & Hi & Hp & Hf).
    pose proof (point_of_index _ _ _ Hp) as E. subst idx.
    exists (record_of dp i). split; [reflexivity |].
    apply report_records. exists m, i, dp. auto.
Qed.

Lemma dot_is_outlier (ds : DataSet) (dp : DataPoint) :
  NoDup (map dp_index (data ds)) -> In dp (data ds) ->
  existsb (Z.eqb (dp_index dp)) (uniqueOutlierIndices (runAllAnalyses ds)) = true
  <-> exists m i, In m methods /\ (i < dimensions ds)%nat
                  /\ flags m ds (dp_index dp) i = true.
Proof.
  intros Hnd Hdp. unfold uniqueOutlierIndices. rewrite existsb_exists. split.
  - intros (y & Hy & E). apply Z.eqb_eq in E. subst y.
    apply Set_of_spec, marker_keys in Hy.
    destruct Hy as (m & i & _ & Hm & Hi & _ & Hf). eauto.
  - intros (m & i & Hm & Hi & Hf). exists (dp_index dp).
    split; [| apply Z.eqb_refl]. apply Set_of_spec, marker_keys.
    exists m, i, dp. repeat split; auto. now apply point_of_unique.
Qed.

(** After an analysis of a well-formed data set the dot of a point is
    red exactly when some method of the catalog flags the point in some
    column, and blue otherwise. *)
Theorem dot_fill_flagged (ds : DataSet) (dp : DataPoint) :
  well_formed ds -> In dp (data ds) ->
  (dot_fill (runAllAnalyses ds) dp = "#DC2626"%string
   <-> exists m i, In m methods /\ (i < dimensions ds)%nat
                   /\ flags m ds (dp_index dp) i = true)
  /\ (dot_fill (runAllAnalyses ds) dp = "#3B82F6"%string
      <-> forall m i, In m methods -> (i < dimensions ds)%nat ->
                      flags m ds (dp_index dp) i = false).
Proof.
  intros [Hnd _] Hdp.
  pose proof (dot_is_outlier ds dp Hnd Hdp) as Hred.
  unfold dot_fill.
  destruct (existsb _ _) eqn:E.
  - split; [split; [intros _; now apply Hred | reflexivity] |].
    split; [discriminate |]. intros Hall.
    destruct (proj1 Hred eq_refl) as (m & i & Hm & Hi & Hf).
    rewrite (Hall m i Hm Hi) in Hf. discriminate.
  - split; [split; [discriminate |] |].
    + intros H. apply Hred in H. discriminate.
    + split; [| reflexivity]. intros _ m i Hm Hi.
      destruct (flags m ds (dp_index dp) i) eqn:Hf; [| reflexivity].
      assert (false = true); [| discriminate].
      apply Hred. eauto.
Qed.

(** Every marker of the plot of a well-formed data set belongs to one
    data point: it bears the point's index, lies where the dot of the
    point lies, in one dimension and in two, and the dot is red.  There
    are at most as many markers as points. *)
Theorem markers_on_red_dots (ds : DataSet) :
  well_formed ds ->
  (forall idx o, In (idx, o) (allOutliers (runAllAnalyses ds)) ->
     exists dp,
       In dp (data ds) /\ dp_index dp = idx /\ o_index o = idx
       /\ (forall is1D, marker_position is1D o = dot_position is1D dp)
       /\ dot_fill (runAllAnalyses ds) dp = "#DC2626"%string)
  /\ (length (allOutliers (runAllAnalyses ds)) <= length (data ds))%nat.
Proof.
  intros Hwf. pose proof Hwf as [Hnd _]. split.
  - intros idx o Hin.
    rewrite allOutliers_flat, note_outlier_entries in Hin.
    destruct Hin as [[] | [_ Hfind]].
    apply find_some in Hfind. destruct Hfind as [Hr E].
    apply Z.eqb_eq in E. apply report_records in Hr.
    destruct Hr as (m & i & dp & Hm & Hi & Hp & Hf & ->).
    cbn [record_of o_index] in E. exists dp.
    pose proof (point_of_In _ _ _ Hp) as Hdp.
    split; [assumption |]. split; [assumption |]. split; [assumption |].
    split; [intros is1D; reflexivity |].
    unfold dot_fill.
    rewrite (proj2 (dot_is_outlier ds dp Hnd Hdp)); [reflexivity | eauto].
  - rewrite <- (length_map fst), <- (length_map dp_index (data ds)).
    apply NoDup_incl_length.
    + rewrite allOutliers_keys. apply Set_of_spec.
    + intros idx Hidx. apply marker_keys in Hidx.
      destruct Hidx as (m & i & dp & _ & _ & Hp & _).
      pose proof (point_of_index _ _ _ Hp) as E. subst idx.
      apply in_map. now apply point_of_In in Hp.
Qed.


Lemma dot_fill_flagged_witness :
  let ds :=
    mkDataSet
      [mkPoint 0 [10; 1]; mkPoint 1 [12; 2]; mkPoint 2 [11; 1];
       mkPoint 3 [13; 2]; mkPoint 4 [12; 1]; mkPoint 5 [100; 50];
       mkPoint 6 [-50; 2]; mkPoint 7 [12; 1]]%float
      ["x"; "y"]%string 2 in
  let dp := mkPoint 5 [100; 50]%float in
  well_formed ds /\ In dp (data ds)
  /\ dot_fill (runAllAnalyses ds) dp = "#DC2626"%string
  /\ (exists m i, In m methods /\ (i < dimensions ds)%nat
                  /\ flags m ds (dp_index dp) i = true).
Proof.
  intros ds dp.
  assert (Hwf : well_formed ds).
  { split.
    - repeat (constructor; [simpl; intuition discriminate |]). constructor.
    - repeat constructor. }
  assert (Hdp : In dp (data ds)) by (do 5 right; left; reflexivity).
  assert (Hred : dot_fill (runAllAnalyses ds) dp = "#DC2626"%string)
    by (vm_compute; reflexivity).
  split; [exact Hwf |]. split; [exact Hdp |]. split; [exact Hred |].
  exact (proj1 (proj1 (dot_fill_flagged ds dp Hwf Hdp)) Hred).
Defined.

Lemma markers_on_red_dots_witness :
  let ds :=
    mkDataSet
      [mkPoint 0 [10; 1]; mkPoint 1 [12; 2]; mkPoint 2 [11; 1];
       mkPoint 3 [13; 2]; mkPoint 4 [12; 1]; mkPoint 5 [100; 50];
       mkPoint 6 [-50; 2]; mkPoint 7 [12; 1]]%float
      ["x"; "y"]%string 2 in
  well_formed ds
  /\ map fst (allOutliers (runAllAnalyses ds)) = [5; 6]%Z
  /\ (forall idx o, In (idx, o) (allOutliers (runAllAnalyses ds)) ->
        exists dp,
          In dp (data ds) /\ dp_index dp = idx /\ o_index o = idx
          /\ (forall is1D, marker_position is1D o = dot_position is1D dp)
          /\ dot_fill (runAllAnalyses ds) dp = "#DC2626"%string)
  /\ (length (allOutliers (runAllAnalyses ds)) <= length (data ds))%nat.
Proof.
  intros ds.
  assert (Hwf : well_formed ds).
  { split.
    - repeat (constructor; [simpl; intuition discriminate |]). constructor.
    - repeat constructor. }
  split; [exact Hwf |]. split; [vm_compute; reflexivity |].
  exact (markers_on_red_dots ds Hwf).
Defined.

(** ** Session *)

Lemma updateUI_in_sync (a : App) : in_sync (updateUI a).
Proof.
  unfold in_sync, updateUI. cbn. destruct (dataSet a); reflexivity.
Qed.

Lemma renderResults_in_sync (a : App) : in_sync a -> in_sync (renderResults a).
Proof. unfold in_sync. intros H. exact H. Qed.

Ltac session_facts :=
  repeat split; intros; cbn -[runAllAnalyses] in *; try discriminate;
  try lia; try congruence; eauto.

Section SessionFacts.
Context {Cell : Type}.
Variable String_of : Cell -> string.
Variable parseFloat : string -> float.
Variable null_message : string.

Lemma loaded_consistent (page : App) : consistent (loaded page).
Proof.
  unfold consistent. split; [apply updateUI_in_sync |].
  unfold loaded, updateUI. cbn. session_facts.
Qed.

Lemma handleFileSelect_begin_consistent (a : App) :
  consistent a -> isLoading a = false ->
  consistent (handleFileSelect_begin a).
Proof.
  intros (Hsync & Hpend & Hparse & Htimer & Hload & Hres & Hshown) Hl.
  unfold consistent.
  split; [apply renderResults_in_sync, updateUI_in_sync |].
  rewrite Hl in Hpend.
  unfold handleFileSelect_begin, renderResults, updateUI. cbn.
  session_facts.
Qed.

Lemma controls_of_consistent (a : App) :
  in_sync a ->
  fileUploadInput_disabled (controls a) = isLoading a
  /\ findOutliersBtn_disabled (controls a)
     = isLoading a || match dataSet a with Some _ => false | None => true end.
Proof.
  unfold in_sync. intros H. rewrite <- H. cbn. auto.
Qed.

Lemma handleFileSelect_end_consistent (a : App) (outcome : ParseOutcome) :
  consistent a -> (0 < parsing a)%nat ->
  consistent (handleFileSelect_end outcome a).
Proof.
  intros (Hsync & Hpend & Hparse & Htimer & Hload & Hres & Hshown) Hp.
  destruct (Hparse Hp) as [Hds Hshow].
  assert (Hl : isLoading a = true).
  { destruct (isLoading a); [reflexivity | lia]. }
  rewrite Hl in Hpend. specialize (Hload Hl).
  unfold consistent. split; [apply updateUI_in_sync |].
  destruct a as [held results loading text hidden shown checked container
                   pending due].
  cbn in Hpend, Hload, Hshow, Hp |- *. subst results container.
  destruct outcome as [message | ds]; cbn; session_facts.
Qed.

Lemma handleFindOutliers_consistent (a : App) :
  consistent a -> findOutliersBtn_disabled (controls a) = false ->
  consistent (handleFindOutliers a).
Proof.
  intros Hc Hen.
  pose proof Hc as (Hsync & Hpend & Hparse & Htimer & Hload & Hres & Hshown).
  destruct (controls_of_consistent a Hsync) as [_ Hbtn].
  rewrite Hbtn in Hen. apply orb_false_iff in Hen. destruct Hen as [Hl Hds].
  clear Hc Hbtn Hsync.
  unfold consistent. unfold handleFindOutliers.
  destruct a as [held results loading text hidden shown checked container
                   pending due].
  cbn in Hpend, Hparse, Htimer, Hload, Hres, Hshown, Hl, Hds |- *.
  subst loading. destruct held as [ds |]; [| discriminate].
  split; [apply updateUI_in_sync |].
  cbn -[runAllAnalyses].
  repeat split; intros; try discriminate; try lia; try congruence.
  eapply Hshown; eassumption.
Qed.

Lemma analysis_callback_consistent (a : App) :
  consistent a -> (0 < timers a)%nat -> consistent (analysis_callback null_message a).
Proof.
  intros (Hsync & Hpend & Hparse & Htimer & Hload & Hres & Hshown) Ht.
  assert (Hl : isLoading a = true).
  { destruct (isLoading a); [reflexivity | lia]. }
  specialize (Htimer Ht). clear Hsync Hres Hshown Hload.
  unfold consistent.
  split; [apply renderResults_in_sync, updateUI_in_sync |].
  destruct a as [held results loading text hidden shown checked container
                   pending due].
  cbn in Hpend, Hparse, Htimer, Hl, Ht |- *. subst loading.
  destruct held as [ds |]; [| congruence].
  unfold analysis_callback. cbn -[runAllAnalyses].
  repeat split; intros; try discriminate; try lia; try congruence.
  - injection H as <-. eauto.
  - injection H as <- _. eauto.
Qed.

Lemma plot_checkbox_changed_consistent (a : App) (now_checked : bool) :
  consistent a -> consistent (plot_checkbox_changed now_checked a).
Proof.
  intros (Hsync & Hpend & Hparse & Htimer & Hload & Hres & Hshown).
  unfold consistent, in_sync in *.
  destruct a as [held results loading text hidden shown checked container
                   pending due].
  cbn -[runAllAnalyses] in Hsync, Hpend, Hparse, Htimer, Hload, Hres, Hshown.
  unfold plot_checkbox_changed.
  destruct results as [results |]; cbn -[runAllAnalyses].
  - split; [exact Hsync |].
    destruct (Hres _ eq_refl) as (ds & E & Hr).
    repeat split; intros; auto; try discriminate.
    + destruct (Hparse H) as [Hds _]. congruence.
    + destruct (Hparse H) as [Hds _]. congruence.
    + injection H as <- _. exists ds. auto.
  - split; [exact Hsync |]. repeat split; auto; now apply Hparse.
Qed.

Lemma step_consistent (a a' : App) :
  consistent a -> step String_of parseFloat null_message a a' ->
  consistent a'.
Proof.
  intros Hc Hstep.
  destruct Hstep as [a Hen | a | a json Hp | a message Hp | a Hen | a Ht
                     | a now_checked].
  - pose proof Hc as (Hsync & _).
    destruct (controls_of_consistent a Hsync) as [Hin _].
    apply handleFileSelect_begin_consistent; congruence.
  - unfold file_dropped. destruct (isLoading a) eqn:Hl; [assumption |].
    now apply handleFileSelect_begin_consistent.
  - now apply handleFileSelect_end_consistent.
  - now apply handleFileSelect_end_consistent.
  - now apply handleFindOutliers_consistent.
  - now apply analysis_callback_consistent.
  - now apply plot_checkbox_changed_consistent.
Qed.

Lemma step_holds_parsed (a a' : App) :
  holds_parsed String_of parseFloat a ->
  step String_of parseFloat null_message a a' ->
  holds_parsed String_of parseFloat a'.
Proof.
  unfold holds_parsed. intros Hds Hstep.
  destruct Hstep as [a Hen | a | a json Hp | a message Hp | a Hen | a Ht
                     | a now_checked].
  - intros ds E. discriminate.
  - unfold file_dropped. destruct (isLoading a); [assumption |].
    intros ds E. discriminate.
  - unfold handleFileSelect_end.
    destruct (snd (parseData String_of parseFloat json)) as [message | ds0]
      eqn:Eout; cbn; intros ds E; [discriminate |].
    exists json. congruence.
  - intros ds E. discriminate.
  - destruct a as [held results loading text hidden shown checked container
                     pending due].
    unfold handleFindOutliers. cbn in Hds |- *.
    destruct held; exact Hds.
  - destruct a as [held results loading text hidden shown checked container
                     pending due].
    unfold analysis_callback. cbn in Hds |- *.
    destruct held; exact Hds.
  - destruct a as [held results loading text hidden shown checked container
                     pending due].
    unfold plot_checkbox_changed. cbn in Hds |- *.
    destruct results; exact Hds.
Qed.

Lemma reachable_consistent (page a : App) :
  reachable String_of parseFloat null_message page a ->
  consistent a /\ holds_parsed String_of parseFloat a.
Proof.
  induction 1 as [| a a' _ [IHc IHp] Hstep].
  - split; [apply loaded_consistent |]. intros ds E. discriminate.
  - split; [eapply step_consistent | eapply step_holds_parsed]; eassumption.
Qed.

(** Whatever the user does and however parsing ends, between two events
    the session is consistent: at most one operation is pending and
    [isLoading] says so, the controls show the state, an analysis never
    runs without a data set, and the results held and the report on
    screen are the analysis of the data set held -- never of an earlier
    one; the data set held is one [parseData] resolved. *)
Theorem session_consistent (page a : App) :
  reachable String_of parseFloat null_message page a ->
  consistent a /\ holds_parsed String_of parseFloat a.
Proof. exact (reachable_consistent page a). Qed.


Lemma step_occurs (a a' : App) :
  step String_of parseFloat null_message a a' ->
  exists e, occurs e a /\ a' = handle String_of parseFloat null_message e a.
Proof.
  intros [a0 H | a0 | a0 json H | a0 message H | a0 H | a0 H | a0 checked].
  - now exists FileChosen.
  - now exists FileDrop.
  - now exists (ParseSettled json).
  - now exists (ReadFailed message).
  - now exists FindClicked.
  - now exists TimerFired.
  - now exists (PlotToggled checked).
Qed.


Lemma reachable_reached (page a : App) :
  reachable String_of parseFloat null_message page a ->
  exists events, reached String_of parseFloat null_message page events a.
Proof.
  induction 1 as [| a a' _ [events IH] Hstep].
  - exists []. apply reached_loaded.
  - destruct (step_occurs a a' Hstep) as (e & Hoc & ->).
    exists (e :: events). now apply reached_event.
Qed.




End SessionFacts.

Lemma session_consistent_witness :
  let page :=
    mkApp None None false "" true
          (mkControls false false false false true "" 0 true)
          false AsLoaded 0 0 in
  let ds :=
    mkDataSet [mkPoint 0 [1; 2]%float; mkPoint 2 [7; 8]%float]
              ["x"; "y"]%string 2 in
  let a :=
    analysis_callback "null"
      (handleFindOutliers
         (handleFileSelect_end
            (snd (parseData (fun cell => cell) parseFloat_example sheet_example))
            (handleFileSelect_begin (loaded page)))) in
  reachable (fun cell => cell) parseFloat_example "null" page a
  /\ dataSet a = Some ds
  /\ analysisResults a = Some (runAllAnalyses ds)
  /\ consistent a
  /\ holds_parsed (fun cell => cell) parseFloat_example a.
Proof.
  intros page ds a.
  assert (Hr : reachable (fun cell => cell) parseFloat_example "null" page a).
  { unfold a.
    apply reach_step with
      (a := handleFindOutliers
              (handleFileSelect_end
                 (snd (parseData (fun cell => cell) parseFloat_example
                         sheet_example))
                 (handleFileSelect_begin (loaded page))));
      [| apply timer_fired; vm_compute; lia].
    apply reach_step with
      (a := handleFileSelect_end
              (snd (parseData (fun cell => cell) parseFloat_example
                      sheet_example))
              (handleFileSelect_begin (loaded page)));
      [| apply find_clicked; vm_compute; reflexivity].
    apply reach_step with (a := handleFileSelect_begin (loaded page));
      [| apply parse_settled; vm_compute; lia].
    apply reach_step with (a := loaded page);
      [apply reach_loaded | apply file_chosen; reflexivity]. }
  split; [exact Hr |]. split; [vm_compute; reflexivity |].
  split; [unfold a; cbn -[runAllAnalyses]; reflexivity |].
  exact (session_consistent (fun cell => cell) parseFloat_example "null"
           page a Hr).
Defined.


(** ** The accordion *)






(** ** Labels of the report table *)

Section Labels.
Context {Cell : Type}.
Variable String_of : Cell -> string.
Variable parseFloat : string -> float.

Lemma outlier_column ds m o :
  In o (outliers (run_method ds m)) -> (o_columnIndex o < dimensions ds)%nat.
Proof.
  rewrite run_method_outliers. intros H. apply in_flat_map in H.
  destruct H as (i & Hi & Ho). apply in_seq in Hi.
  apply column_records_column in Ho. lia.
Qed.

(** Every outlier record of the report of a parsed sheet refers to a
    column that has a header cell, and the string [renderResults]
    interpolates into the Column cell of the record's row is the text
    of that header cell as [parseData] read it, or "Column k+1" when
    that text is empty; the interpolated string is never empty.  (The
    statement is about the string put into the template, which is not
    escaped: what a browser displays for a header holding markup is
    outside it.) *)
Theorem report_column_labels
  (json : list (list Cell)) (ds : DataSet) (result : AnalysisResult)
  (o : OutlierRecord) :
  snd (parseData String_of parseFloat json) = Resolved ds ->
  In result (runAllAnalyses ds) -> In o (outliers result) ->
  exists cell,
    nth_error (hd [] json) (o_columnIndex o) = Some cell
    /\ column_label (headers ds) (o_columnIndex o)
       = (if String.eqb (String_of cell) ""
          then ("Column " ++ string_of_Z (Z.of_nat (o_columnIndex o) + 1))%string
          else String_of cell)
    /\ column_label (headers ds) (o_columnIndex o) <> ""%string.
Proof.
  intros Hparse Hres Ho.
  destruct (parseData_shape String_of parseFloat json ds Hparse)
    as (Hh & Hlen).
  unfold runAllAnalyses in Hres. apply in_map_iff in Hres.
  destruct Hres as (m & <- & _).
  pose proof (outlier_column ds m o Ho) as Hk.
  destruct (nth_error (hd [] json) (o_columnIndex o)) as [cell |] eqn:Ecell.
  - exists cell. split; [reflexivity |].
    unfold column_label. rewrite Hh, nth_error_map, Ecell. cbn.
    split; [reflexivity |].
    destruct (String.eqb (String_of cell) "") eqn:E; [discriminate |].
    now apply String.eqb_neq in E.
  - exfalso. apply nth_error_None in Ecell.
    rewrite Hh, length_map in Hlen. lia.
Qed.

End Labels.

Lemma report_column_labels_witness :
  let ds :=
    mkDataSet
      [mkPoint 0 [10; 1]; mkPoint 1 [12; 2]; mkPoint 2 [11; 1];
       mkPoint 3 [13; 2]; mkPoint 4 [12; 1]; mkPoint 5 [100; 50];
       mkPoint 6 [-50; 2]; mkPoint 7 [12; 1]]%float
      ["x"; ""]%string 2 in
  let m := mkMethod "Interquartile Range (IQR)" findOutliersIQR
      "Identifies outliers based on the spread of the middle 50% of the data." in
  let o := mkOutlier 5 (Some 50%float) [100; 50]%float 1 in
  snd (parseData (fun cell => cell) parseFloat_example sheet_report_example)
  = Resolved ds
  /\ In o (outliers (run_method ds m))
  /\ column_label (headers ds) 1 = "Column 2"%string
  /\ exists cell,
       nth_error (hd [] sheet_report_example) 1 = Some cell
       /\ column_label (headers ds) 1
          = (if String.eqb cell ""
             then ("Column " ++ string_of_Z (Z.of_nat 1 + 1))%string
             else cell)
       /\ column_label (headers ds) 1 <> ""%string.
Proof.
  intros ds m o.
  assert (Hparse :
    snd (parseData (fun cell => cell) parseFloat_example sheet_report_example)
    = Resolved ds) by (vm_compute; reflexivity).
  assert (Hres : In (run_method ds m) (runAllAnalyses ds))
    by (left; reflexivity).
  assert (Ho : In o (outliers (run_method ds m)))
    by (vm_compute; do 2 right; left; reflexivity).
  split; [exact Hparse |]. split; [exact Ho |].
  split; [vm_compute; reflexivity |].
  exact (report_column_labels (fun cell => cell) parseFloat_example
           sheet_report_example ds (run_method ds m) o Hparse Hres Ho).
Defined.
